(** * BundleWrap: item dependency resolver and metadata fixed-point engine

    A shallow embedding of [bundlewrap/deps.py], [bundlewrap/metagen.py] and
    [bundlewrap/bundle.py].
    Python objects that are mutated in place (items, the metadata
    generator) live in an explicit store that every operation threads
    through; exceptions are values of an error type. *)

From stdpp Require Import gmap strings list sorting.
From Stdlib Require Import ZArith Ascii.

Open Scope string_scope.
Open Scope list_scope.

(** ** Python helpers *)

Module Py.

(** [s.split(":", 1)] followed by unpacking into two names: [None] stands for
    the [ValueError] raised when the string holds no colon. *)
Fixpoint split_colon (s : string) : option (string * string) :=
  match s with
  | EmptyString => None
  | String c rest =>
      if Ascii.eqb c ":"%char then Some (EmptyString, rest)
      else match split_colon rest with
           | Some (a, b) => Some (String c a, b)
           | None => None
           end
  end.

(** [s.split(":", 1)[0]] *)
Definition split_colon_head (s : string) : string :=
  match split_colon s with
  | Some (a, _) => a
  | None => s
  end.

(** [l.remove(x)]: drops the first occurrence; [None] is the [ValueError]
    raised when there is none. *)
Fixpoint list_remove (x : string) (l : list string) : option (list string) :=
  match l with
  | [] => None
  | y :: l' =>
      if decide (y = x) then Some l'
      else match list_remove x l' with
           | Some r => Some (y :: r)
           | None => None
           end
  end.

(** [with suppress(ValueError): l.remove(x)] *)
Definition list_remove_suppress (x : string) (l : list string) : list string :=
  default l (list_remove x l).

(** The order of [str] under [<=]: code points, position by position. *)
Definition str_le (a b : string) : Prop := String.leb a b = true.

Global Instance str_le_dec a b : Decision (str_le a b).
Proof. unfold str_le. apply _. Defined.

(** [sorted(xs)] on strings *)
Definition sorted (xs : list string) : list string := merge_sort str_le xs.

End Py.

(** ** deps.py *)

Module Deps.
Import Py.

(** Which attribute a failed lookup came from (the message of
    [ItemDependencyError] names it). *)
Inductive dep_attr := Needs | NeededBy | TriggeredBy | Precedes.

Inductive bundle_error :=
  | TriggeredUsesPrecededBy (item bundle : string)
  | PrecededByMissingTriggered (item1 bundle1 item2 bundle2 : string)
  | TriggersMissingTriggered (item1 bundle1 item2 bundle2 : string).

Inductive exn :=
  | ValueError (msg : string)
  | NoSuchItem (item_id : string)
  | ItemDependencyError (attr : dep_attr) (item bundle dep : string)
  | BundleError (why : bundle_error)
  | AttributeError (attr : string)
  | TypeError
  | ItemError (msg : string).

Inductive result (A : Type) :=
  | Ok (a : A)
  | Raise (e : exn)
  | OutOfFuel.
Arguments Ok {A} a.
Arguments Raise {A} e.
Arguments OutOfFuel {A}.

Global Instance outcome_ret : MRet result := λ A a, Ok a.
Global Instance outcome_bind : MBind result := λ A B f m,
  match m with
  | Ok a => f a
  | Raise e => Raise e
  | OutOfFuel => OutOfFuel
  end.

(** [for x in xs: body] over a store [S] *)
Fixpoint for_each {A S : Type} (xs : list A) (body : A → S → result S) (st : S)
  : result S :=
  match xs with
  | [] => Ok st
  | x :: xs' => st' ← body x st; for_each xs' body st'
  end.

(** An item class: its [ITEM_TYPE_NAME] and its class-level
    [block_concurrent(node_os, node_os_version)]. *)
Record ItemClass := {
  ITEM_TYPE_NAME : string;
  block_concurrent : string → string → list string;
}.

(** [_flattened_deps] is a [set] while [_flatten_deps_for_item] works on the
    item and a sorted [list] afterwards. *)
Inductive flat :=
  | FlatSet (s : gset string)
  | FlatList (l : list string).

Definition flat_set (f : flat) : gset string :=
  match f with
  | FlatSet s => s
  | FlatList l => list_to_set l
  end.

(** An item object. Other items are referred to by their position in the
    item list (object identity). Attributes that an object may not have yet
    ([hasattr]) are options. *)
Record Item := {
  id : string;
  bundle_name : string;
  cls : ItemClass;
  tags : list string;
  needs : list string;
  needed_by : list string;
  triggers : list string;
  triggered_by : list string;
  precedes : list string;
  preceded_by : list string;
  triggered : bool;
  cascade_skip : bool;
  _deps : list string;
  _reverse_deps : list string;
  _concurrency_deps : list string;
  _flattened_deps : option flat;
  _incoming_deps : option (gset nat);
  _precedes_items : list nat;
  __deps : list string;
}.

Definition kind (item : Item) : string := ITEM_TYPE_NAME (cls item).

Definition set_triggers v (it : Item) : Item :=
  {| id := id it; bundle_name := bundle_name it; cls := cls it; tags := tags it;
     needs := needs it; needed_by := needed_by it; triggers := v;
     triggered_by := triggered_by it; precedes := precedes it;
     preceded_by := preceded_by it; triggered := triggered it;
     cascade_skip := cascade_skip it; _deps := _deps it;
     _reverse_deps := _reverse_deps it; _concurrency_deps := _concurrency_deps it;
     _flattened_deps := _flattened_deps it; _incoming_deps := _incoming_deps it;
     _precedes_items := _precedes_items it; __deps := __deps it |}.

Definition set_preceded_by v (it : Item) : Item :=
  {| id := id it; bundle_name := bundle_name it; cls := cls it; tags := tags it;
     needs := needs it; needed_by := needed_by it; triggers := triggers it;
     triggered_by := triggered_by it; precedes := precedes it;
     preceded_by := v; triggered := triggered it;
     cascade_skip := cascade_skip it; _deps := _deps it;
     _reverse_deps := _reverse_deps it; _concurrency_deps := _concurrency_deps it;
     _flattened_deps := _flattened_deps it; _incoming_deps := _incoming_deps it;
     _precedes_items := _precedes_items it; __deps := __deps it |}.

Definition set_deps v (it : Item) : Item :=
  {| id := id it; bundle_name := bundle_name it; cls := cls it; tags := tags it;
     needs := needs it; needed_by := needed_by it; triggers := triggers it;
     triggered_by := triggered_by it; precedes := precedes it;
     preceded_by := preceded_by it; triggered := triggered it;
     cascade_skip := cascade_skip it; _deps := v;
     _reverse_deps := _reverse_deps it; _concurrency_deps := _concurrency_deps it;
     _flattened_deps := _flattened_deps it; _incoming_deps := _incoming_deps it;
     _precedes_items := _precedes_items it; __deps := __deps it |}.

Definition set_reverse_deps v (it : Item) : Item :=
  {| id := id it; bundle_name := bundle_name it; cls := cls it; tags := tags it;
     needs := needs it; needed_by := needed_by it; triggers := triggers it;
     triggered_by := triggered_by it; precedes := precedes it;
     preceded_by := preceded_by it; triggered := triggered it;
     cascade_skip := cascade_skip it; _deps := _deps it;
     _reverse_deps := v; _concurrency_deps := _concurrency_deps it;
     _flattened_deps := _flattened_deps it; _incoming_deps := _incoming_deps it;
     _precedes_items := _precedes_items it; __deps := __deps it |}.

Definition set_concurrency_deps v (it : Item) : Item :=
  {| id := id it; bundle_name := bundle_name it; cls := cls it; tags := tags it;
     needs := needs it; needed_by := needed_by it; triggers := triggers it;
     triggered_by := triggered_by it; precedes := precedes it;
     preceded_by := preceded_by it; triggered := triggered it;
     cascade_skip := cascade_skip it; _deps := _deps it;
     _reverse_deps := _reverse_deps it; _concurrency_deps := v;
     _flattened_deps := _flattened_deps it; _incoming_deps := _incoming_deps it;
     _precedes_items := _precedes_items it; __deps := __deps it |}.

Definition set_flattened_deps v (it : Item) : Item :=
  {| id := id it; bundle_name := bundle_name it; cls := cls it; tags := tags it;
     needs := needs it; needed_by := needed_by it; triggers := triggers it;
     triggered_by := triggered_by it; precedes := precedes it;
     preceded_by := preceded_by it; triggered := triggered it;
     cascade_skip := cascade_skip it; _deps := _deps it;
     _reverse_deps := _reverse_deps it; _concurrency_deps := _concurrency_deps it;
     _flattened_deps := v; _incoming_deps := _incoming_deps it;
     _precedes_items := _precedes_items it; __deps := __deps it |}.

Definition set_incoming_deps v (it : Item) : Item :=
  {| id := id it; bundle_name := bundle_name it; cls := cls it; tags := tags it;
     needs := needs it; needed_by := needed_by it; triggers := triggers it;
     triggered_by := triggered_by it; precedes := precedes it;
     preceded_by := preceded_by it; triggered := triggered it;
     cascade_skip := cascade_skip it; _deps := _deps it;
     _reverse_deps := _reverse_deps it; _concurrency_deps := _concurrency_deps it;
     _flattened_deps := _flattened_deps it; _incoming_deps := v;
     _precedes_items := _precedes_items it; __deps := __deps it |}.

Definition set_precedes_items v (it : Item) : Item :=
  {| id := id it; bundle_name := bundle_name it; cls := cls it; tags := tags it;
     needs := needs it; needed_by := needed_by it; triggers := triggers it;
     triggered_by := triggered_by it; precedes := precedes it;
     preceded_by := preceded_by it; triggered := triggered it;
     cascade_skip := cascade_skip it; _deps := _deps it;
     _reverse_deps := _reverse_deps it; _concurrency_deps := _concurrency_deps it;
     _flattened_deps := _flattened_deps it; _incoming_deps := _incoming_deps it;
     _precedes_items := v; __deps := __deps it |}.

Definition set_group_deps v (it : Item) : Item :=
  {| id := id it; bundle_name := bundle_name it; cls := cls it; tags := tags it;
     needs := needs it; needed_by := needed_by it; triggers := triggers it;
     triggered_by := triggered_by it; precedes := precedes it;
     preceded_by := preceded_by it; triggered := triggered it;
     cascade_skip := cascade_skip it; _deps := _deps it;
     _reverse_deps := _reverse_deps it; _concurrency_deps := _concurrency_deps it;
     _flattened_deps := _flattened_deps it; _incoming_deps := _incoming_deps it;
     _precedes_items := _precedes_items it; __deps := v |}.

(** [items[i] = f(items[i])]: an in-place change of the object at position [i] *)
Definition update (i : nat) (f : Item → Item) (items : list Item) : list Item :=
  alter f i items.

(** What [resolve_selector] hands back: a [filter] object, which can be
    walked once, or a list. Both are given by the positions they yield. *)
Inductive resolved :=
  | FilterIter (l : list nat)
  | ItemList (l : list nat).

Definition resolved_items (r : resolved) : list nat :=
  match r with
  | FilterIter l => l
  | ItemList l => l
  end.

(** Walking [r] again after [list(r)] has been taken: a [filter] object is
    exhausted by then, a list is not. *)
Definition resolved_again (r : resolved) : list nat :=
  match r with
  | FilterIter _ => []
  | ItemList l => l
  end.

(** [filter(pred, items)], as positions *)
Definition filter_items (pred : Item → bool) (items : list Item) : list nat :=
  filter (λ i, from_option pred false (items !! i)) (seq 0 (length items)).

Definition find_item (item_id : string) (items : list Item) : result nat :=
  match filter_items (λ item, bool_decide (id item = item_id)) items with
  | i :: _ => Ok i
  | [] => Raise (NoSuchItem item_id)
  end.

Definition resolve_selector (selector : string) (items : list Item)
  : result resolved :=
  match split_colon selector with
  | None => Raise (ValueError selector)
  | Some (selector_type, selector_name) =>
      if decide (selector_type = "bundle") then
        Ok (FilterIter
              (filter_items (λ item, bool_decide (bundle_name item = selector_name)) items))
      else if decide (selector_type = "tag") then
        Ok (FilterIter
              (filter_items (λ item, bool_decide (selector_name ∈ tags item)) items))
      else if decide (selector_name = "") then
        Ok (FilterIter
              (filter_items (λ item, bool_decide (kind item = selector_name)) items))
      else
        i ← find_item selector items; Ok (ItemList [i])
  end.

(** Dereferencing a position of the item list. Positions are only ever
    taken from the list itself, so the error case is never reached. *)
Definition obj (i : nat) (items : list Item) : result Item :=
  match items !! i with
  | Some item => Ok item
  | None => Raise (ItemError "no such object")
  end.

(** [item._flattened_deps |= set(dep_item._flattened_deps)] *)
Definition merge_flattened (i d : nat) (items : list Item) : result (list Item) :=
  item ← obj i items;
  dep_item ← obj d items;
  match _flattened_deps dep_item with
  | None => Raise (AttributeError "_flattened_deps")
  | Some fd =>
      match _flattened_deps item with
      | Some (FlatSet s) =>
          Ok (update i (set_flattened_deps (Some (FlatSet (s ∪ flat_set fd)))) items)
      | Some (FlatList _) => Raise TypeError
      | None => Raise (AttributeError "_flattened_deps")
      end
  end.

(** [item._deps.remove(dep)] *)
Definition remove_dep (i : nat) (dep : string) (items : list Item)
  : result (list Item) :=
  item ← obj i items;
  match list_remove dep (_deps item) with
  | Some l => Ok (update i (set_deps l) items)
  | None => Raise (ValueError "list.remove(x): x not in list")
  end.

(** [item._flattened_deps = sorted(item._flattened_deps)] *)
Definition sort_flattened (i : nat) (items : list Item) : result (list Item) :=
  item ← obj i items;
  match _flattened_deps item with
  | Some (FlatSet s) =>
      Ok (update i (set_flattened_deps (Some (FlatList (sorted (elements s))))) items)
  | Some (FlatList l) =>
      Ok (update i (set_flattened_deps (Some (FlatList (sorted l)))) items)
  | None => Raise (AttributeError "_flattened_deps")
  end.

(** [resolve_selector(dep, items)] inside the [try] of
    [_flatten_deps_for_item]: [NoSuchItem] becomes [ItemDependencyError]. *)
Definition resolve_dep (attr : dep_attr) (item : Item) (dep : string)
    (items : list Item) : result resolved :=
  match resolve_selector dep items with
  | Raise (NoSuchItem _) =>
      Raise (ItemDependencyError attr (id item) (bundle_name item) dep)
  | r => r
  end.

(** The recursion of the source ends because an item is entered only while
    it has no [_flattened_deps], and gets one on entry; [fuel] bounds the
    depth of the recursion. *)
Fixpoint _flatten_deps_for_item (fuel : nat) (i : nat) (items : list Item)
  : result (list Item) :=
  match fuel with
  | O => OutOfFuel
  | S fuel' =>
      item ← obj i items;
      let items :=
        update i (set_flattened_deps (Some (FlatSet (list_to_set (_deps item)))))
               items in
      items ← for_each (_deps item) (λ dep items,
        dep_items ← resolve_dep Needs item dep items;
        if bool_decide (resolved_items dep_items ≠ []) then
          for_each (resolved_again dep_items) (λ d items,
            dep_item ← obj d items;
            items ← (if _flattened_deps dep_item is None
                     then _flatten_deps_for_item fuel' d items
                     else Ok items);
            merge_flattened i d items) items
        else
          remove_dep i dep items) items;
      sort_flattened i items
  end.

(** [item.id in other_item._flattened_deps] *)
Definition in_flattened (item_id : string) (other_item : Item) : result bool :=
  match _flattened_deps other_item with
  | Some f => Ok (bool_decide (item_id ∈ flat_set f))
  | None => Raise (AttributeError "_flattened_deps")
  end.

Definition positions (items : list Item) : list nat := seq 0 (length items).

(** The first loop of [_flatten_dependencies]. The depth of the recursion of
    [_flatten_deps_for_item] never exceeds the number of items. *)
Definition flatten_all (items : list Item) : result (list Item) :=
  for_each (positions items) (λ i items,
    item ← obj i items;
    if _flattened_deps item is None
    then _flatten_deps_for_item (S (length items)) i items
    else Ok items) items.

(** The body of the inner loop of the second loop: [other_item], at [o], is
    added to [item._incoming_deps] when it depends on [item], at [i]. *)
Definition add_incoming (i o : nat) (items : list Item) : result (list Item) :=
  item ← obj i items;
  other_item ← obj o items;
  b ← in_flattened (id item) other_item;
  if b : bool then
    Ok (update i (set_incoming_deps
                    (Some ({[o]} ∪ default ∅ (_incoming_deps item)))) items)
  else Ok items.

(** The body of the second loop of [_flatten_dependencies] *)
Definition collect_incoming (i : nat) (items : list Item) : result (list Item) :=
  let items := update i (set_incoming_deps (Some ∅)) items in
  for_each (positions items) (add_incoming i) items.

Definition _flatten_dependencies (items : list Item) : result (list Item) :=
  items ← flatten_all items;
  for_each (positions items) collect_incoming items.

(** *** Concurrency blockers *)

(** One round of the grouping loop, for the item type whose name followed by
    its blocked types is [block_concurrent]. The [else] belongs to the [for]
    over [chain_groups]; the only [break] leaves the inner [for], so the
    [else] branch runs in every round. *)
Definition group_round (chain_groups : list (list string))
    (block_concurrent : list string) : list (list string) :=
  ((λ blocked_types,
      if existsb (λ blocked_type, bool_decide (blocked_type ∈ blocked_types))
                 block_concurrent
      then blocked_types ++ block_concurrent
      else blocked_types) <$> chain_groups)
  ++ [block_concurrent].

(** The grouping loop over [item_types], in the order the set yields them. *)
Definition chain_groups_of (node_os node_os_version : string)
    (item_types : list ItemClass) : list (list string) :=
  foldl (λ chain_groups item_type,
           group_round chain_groups
             (ITEM_TYPE_NAME item_type
                :: block_concurrent item_type node_os node_os_version))
        [] item_types.

(** [item_types], in order of first appearance; a class is identified by its
    [ITEM_TYPE_NAME]. *)
Fixpoint collect_item_types (node_os node_os_version : string)
    (items : list Item) (seen : list ItemClass) : list ItemClass :=
  match items with
  | [] => seen
  | item :: rest =>
      if bool_decide (block_concurrent (cls item) node_os node_os_version ≠ [])
         && negb (bool_decide (kind item ∈ (ITEM_TYPE_NAME <$> seen)))
      then collect_item_types node_os node_os_version rest (seen ++ [cls item])
      else collect_item_types node_os node_os_version rest seen
  end.

(** [item.__deps = list(filter(..., item._flattened_deps))] *)
Definition set_same_group_deps (blocked_types : list string) (i : nat)
    (items : list Item) : result (list Item) :=
  item ← obj i items;
  match _flattened_deps item with
  | None => Raise (AttributeError "_flattened_deps")
  | Some f =>
      let deps := match f with FlatList l => l | FlatSet s => elements s end in
      Ok (update i (set_group_deps
                      (filter (λ dep, split_colon_head dep ∈ blocked_types) deps))
                 items)
  end.

(** The three [append]s that chain [item] after [previous_item] *)
Definition chain_after (previous_item : option nat) (i : nat) (items : list Item)
  : result (list Item) :=
  match previous_item with
  | None => Ok items
  | Some p =>
      item ← obj i items;
      prev ← obj p items;
      if bool_decide (id prev ∈ _deps item) then Ok items
      else
        match _flattened_deps item with
        | Some (FlatList l) =>
            Ok (update i (λ it,
                  set_flattened_deps (Some (FlatList (l ++ [id prev])))
                    (set_concurrency_deps (_concurrency_deps it ++ [id prev])
                       (set_deps (_deps it ++ [id prev]) it))) items)
        | _ => Raise (AttributeError "append")
        end
  end.

(** [for other_item in type_items: with suppress(ValueError):
    other_item.__deps.remove(item.id)] *)
Definition release_dependents (type_items : list nat) (i : nat)
    (items : list Item) : result (list Item) :=
  item ← obj i items;
  for_each type_items (λ o items,
    Ok (update o (λ other, set_group_deps
                             (list_remove_suppress (id item) (__deps other)) other)
               items)) items.

(** The [while] loop; every round that does not [break] adds one item to
    [processed_items], so [length type_items] rounds always suffice. *)
Fixpoint daisy_chain (fuel : nat) (type_items processed_items : list nat)
    (previous_item : option nat) (items : list Item) : result (list Item) :=
  if decide (length processed_items < length type_items) then
    match fuel with
    | O => OutOfFuel
    | S fuel' =>
        match filter (λ i, from_option (λ item,
                        bool_decide (__deps item = [])
                        && bool_decide (i ∉ processed_items)) false (items !! i))
                     type_items with
        | [] => Ok items
        | i :: _ =>
            items ← chain_after previous_item i items;
            items ← release_dependents type_items i items;
            daisy_chain fuel' type_items (processed_items ++ [i]) (Some i) items
        end
    end
  else Ok items.

Definition chain_group (blocked_types : list string) (items : list Item)
  : result (list Item) :=
  let type_items :=
    filter_items (λ item, bool_decide (kind item ∈ blocked_types)) items in
  items ← for_each type_items (set_same_group_deps blocked_types) items;
  daisy_chain (length type_items) type_items [] None items.

(** [set_order] is the order in which Python walks the set [item_types]. *)
Definition _inject_concurrency_blockers
    (set_order : list ItemClass → list ItemClass)
    (items : list Item) (node_os node_os_version : string)
  : result (list Item) :=
  let item_types := collect_item_types node_os node_os_version items [] in
  let items := set_concurrency_deps [] <$> items in
  let chain_groups :=
    chain_groups_of node_os node_os_version (set_order item_types) in
  for_each chain_groups chain_group items.

(** *** Reverse dependencies, triggers and [preceded_by] *)

(** [add_dep] of [_inject_reverse_dependencies] *)
Definition add_dep (d : nat) (dep : string) (items : list Item) : list Item :=
  update d (λ item,
    if bool_decide (dep ∈ _deps item) then item
    else set_reverse_deps (_reverse_deps item ++ [dep])
           (set_deps (_deps item ++ [dep]) item)) items.

Definition _inject_reverse_dependencies (items : list Item) : result (list Item) :=
  let items := set_reverse_deps [] <$> items in
  for_each (positions items) (λ i items,
    item ← obj i items;
    for_each (needed_by item) (λ depending_item_id items,
      dependent_items ← resolve_dep NeededBy item depending_item_id items;
      for_each (resolved_items dependent_items) (λ d items,
        Ok (add_dep d (id item) items)) items) items) items.

Definition _inject_reverse_triggers (items : list Item) : result (list Item) :=
  for_each (positions items) (λ i items,
    item ← obj i items;
    items ← for_each (triggered_by item) (λ triggering_item_selector items,
      triggering_items ← resolve_dep TriggeredBy item triggering_item_selector items;
      for_each (resolved_items triggering_items) (λ t items,
        Ok (update t (λ it, set_triggers (triggers it ++ [id item]) it) items))
        items) items;
    for_each (precedes item) (λ preceded_item_selector items,
      preceded_items ← resolve_dep Precedes item preceded_item_selector items;
      for_each (resolved_items preceded_items) (λ t items,
        Ok (update t (λ it, set_preceded_by (preceded_by it ++ [id item]) it) items))
        items) items) items.

(** The [except KeyError] around [resolve_selector] catches neither of the
    exceptions [resolve_selector] raises ([ValueError], [NoSuchItem]). *)
Definition _inject_trigger_dependencies (items : list Item) : result (list Item) :=
  for_each (positions items) (λ i items,
    item ← obj i items;
    for_each (triggers item) (λ triggered_item_selector items,
      triggered_items ← resolve_selector triggered_item_selector items;
      for_each (resolved_items triggered_items) (λ t items,
        triggered_item ← obj t items;
        if triggered triggered_item then
          Ok (update t (λ it, set_deps (_deps it ++ [id item]) it) items)
        else
          Raise (BundleError (TriggersMissingTriggered
                   (id triggered_item) (bundle_name triggered_item)
                   (id item) (bundle_name item)))) items) items) items.

(** The innermost loop body of [_inject_preceded_by_dependencies]: [item], at
    position [i], is preceded by the item at position [t]. *)
Definition attach_preceding (i : nat) (item : Item) (t : nat) (items : list Item)
  : result (list Item) :=
  triggered_item ← obj t items;
  if triggered triggered_item then
    let items :=
      update t (λ it, set_precedes_items (_precedes_items it ++ [i]) it) items in
    Ok (update i (λ it, set_deps (_deps it ++ [id triggered_item]) it) items)
  else
    Raise (BundleError (PrecededByMissingTriggered
             (id triggered_item) (bundle_name triggered_item)
             (id item) (bundle_name item))).

(** The body of the loop of [_inject_preceded_by_dependencies] for the item
    at position [i] *)
Definition preceded_by_for_item (i : nat) (items : list Item) : result (list Item) :=
  item ← obj i items;
  if bool_decide (preceded_by item ≠ []) && triggered item then
    Raise (BundleError (TriggeredUsesPrecededBy (id item) (bundle_name item)))
  else
    for_each (preceded_by item) (λ triggered_item_selector items,
      triggered_items ← resolve_selector triggered_item_selector items;
      for_each (resolved_items triggered_items) (attach_preceding i item) items)
      items.

Definition _inject_preceded_by_dependencies (items : list Item)
  : result (list Item) :=
  for_each (positions items) preceded_by_for_item items.

(** *** prepare_dependencies *)

(** The methods of the item classes and the [Action] constructor are defined
    in [bundlewrap/items], outside this module; they are taken as given.
    [get_canned_actions] pairs each canned action's name with the [Action]
    object built from its attributes. *)
Record ItemMethods := {
  _check_bundle_collisions : Item → list Item → result ();
  _check_loopback_dependency : Item → result ();
  _prepare_deps : Item → list Item → result Item;
  get_canned_actions : Item → list (string * Item);
  _check_redundant_dependencies : Item → result ();
  (** the order in which a Python [set] is walked *)
  actions_order : list Item → list Item;
  types_order : list ItemClass → list ItemClass;
}.

Definition set_action_identity (item_id bundle : string) (it : Item) : Item :=
  {| id := item_id; bundle_name := bundle; cls := cls it; tags := tags it;
     needs := needs it; needed_by := needed_by it; triggers := triggers it;
     triggered_by := triggered_by it; precedes := precedes it;
     preceded_by := preceded_by it; triggered := true;
     cascade_skip := cascade_skip it; _deps := _deps it;
     _reverse_deps := _reverse_deps it; _concurrency_deps := _concurrency_deps it;
     _flattened_deps := _flattened_deps it; _incoming_deps := _incoming_deps it;
     _precedes_items := _precedes_items it; __deps := __deps it |}.

(** Modelled from the spec: the [Action] class is not part of this module. Each
    canned action becomes an item with id [<item.id>:<action>], the bundle of
    its item and [triggered = true], appended to the item list. *)
Definition _inject_canned_actions (m : ItemMethods) (items : list Item)
  : result (list Item) :=
  actions ← for_each items (λ item actions,
    for_each (get_canned_actions m item) (λ '(canned_action_name, action) actions,
      let canned_action_id := id item +:+ ":" +:+ canned_action_name in
      action ← _prepare_deps m
                 (set_action_identity canned_action_id (bundle_name item) action)
                 items;
      Ok (actions ++ [action])) actions) [];
  Ok (items ++ actions_order m actions).

Definition prepare_dependencies (m : ItemMethods) (items : list Item)
    (node_os node_os_version : string) : result (list Item) :=
  items ← for_each (positions items) (λ i items,
    item ← obj i items;
    _check_bundle_collisions m item items;;
    _check_loopback_dependency m item;;
    item ← _prepare_deps m item items;
    Ok (<[i := item]> items)) items;
  items ← _inject_canned_actions m items;
  items ← _inject_reverse_triggers items;
  items ← _inject_reverse_dependencies items;
  items ← _inject_trigger_dependencies items;
  items ← _inject_preceded_by_dependencies items;
  items ← _flatten_dependencies items;
  items ← _inject_concurrency_blockers (types_order m) items node_os node_os_version;
  for_each items (λ item items,
    _check_redundant_dependencies m item;; Ok items) items.

(** *** Notions used to state the properties of the resolver *)

(** What a result satisfies: [Q] when it is a value, [E] when it is an
    exception, [F] when the fuel ran out. *)
Definition triple {S} (r : result S) (Q : S → Prop) (E : exn → Prop) (F : Prop)
  : Prop :=
  match r with
  | Ok s => Q s
  | Raise e => E e
  | OutOfFuel => F
  end.

(** Two item lists of the same length whose items are related position by
    position *)
Definition store_rel (R : Item → Item → Prop) (S T : list Item) : Prop :=
  length S = length T ∧ ∀ k a b, S !! k = Some a → T !! k = Some b → R a b.

(** The attributes selectors look at *)
Definition same_identity (a b : Item) : Prop :=
  id a = id b ∧ bundle_name a = bundle_name b ∧ cls a = cls b ∧ tags a = tags b.

(** The pass only appends to [_deps] and [_precedes_items]. *)
Definition grows_preceding (a b : Item) : Prop :=
  b = set_precedes_items (_precedes_items b) (set_deps (_deps b) a)
  ∧ _deps a `prefix_of` _deps b
  ∧ _precedes_items a `prefix_of` _precedes_items b.

(** [a] has been attached to the triggered item at [b]. *)
Definition attached (a b : nat) (T : list Item) : Prop :=
  ∃ Ta Tb, T !! a = Some Ta ∧ T !! b = Some Tb
           ∧ triggered Tb = true
           ∧ a ∈ _precedes_items Tb
           ∧ id Tb ∈ _deps Ta.

(** What the pass has done for the item at [a] once its loop body has run:
    [base] is the item list the selectors are resolved against. *)
Definition preceded_by_done (base : list Item) (a : nat) (T : list Item) : Prop :=
  ∀ A, T !! a = Some A →
    (preceded_by A ≠ [] → triggered A = false)
    ∧ ∀ sel r b, sel ∈ preceded_by A → resolve_selector sel base = Ok r →
                 b ∈ resolved_items r → attached a b T.

(** The exceptions the pass can end with on the item list [base]: the two
    [BundleError]s of its loop body, and whatever [resolve_selector] raises
    for a [preceded_by] selector ([NoSuchItem] and [ValueError] are not
    [KeyError]s, so the [except] clause lets them pass). *)
Definition preceded_by_error (base : list Item) (e : exn) : Prop :=
  (∃ X, X ∈ base ∧ preceded_by X ≠ [] ∧ triggered X = true
        ∧ e = BundleError (TriggeredUsesPrecededBy (id X) (bundle_name X)))
  ∨ (∃ X sel r b B, X ∈ base ∧ sel ∈ preceded_by X
        ∧ resolve_selector sel base = Ok r ∧ b ∈ resolved_items r
        ∧ base !! b = Some B ∧ triggered B = false
        ∧ e = BundleError (PrecededByMissingTriggered
                             (id B) (bundle_name B) (id X) (bundle_name X)))
  ∨ (∃ X sel, X ∈ base ∧ sel ∈ preceded_by X
        ∧ resolve_selector sel base = Raise e).

(** [resolve_selector] raises nothing for the [preceded_by] selectors of the
    items. *)
Definition preceded_by_resolves (base : list Item) : Prop :=
  ∀ X sel, X ∈ base → sel ∈ preceded_by X → ∃ r, resolve_selector sel base = Ok r.

(** [dep] is a valid selector that matches no item. *)
Definition dropped (items : list Item) (dep : string) : Prop :=
  ∃ r, resolve_selector dep items = Ok r ∧ resolved_items r = [].

Global Instance dropped_dec items dep : Decision (dropped items dep).
Proof.
  unfold dropped. destruct (resolve_selector dep items) as [r| |].
  - destruct (decide (resolved_items r = [])) as [Hr|Hr].
    + left. eauto.
    + right. intros (r' & [= <-] & ?). done.
  - right. intros (r' & ? & _). done.
  - right. intros (r' & ? & _). done.
Defined.

(** [dep] has the form [KIND:NAME] and no item has that id. *)
Definition names_missing_item (items : list Item) (dep : string) : Prop :=
  resolve_selector dep items = Raise (NoSuchItem dep).

(** [d] can be reached from the item at [i] by following [_deps] entries,
    selectors standing for the items they resolve to. *)
Inductive reachable (items : list Item) : nat → string → Prop :=
  | reach_direct i item d :
      items !! i = Some item → d ∈ _deps item → reachable items i d
  | reach_through i item s r k d :
      items !! i = Some item → s ∈ _deps item →
      resolve_selector s items = Ok r → k ∈ resolved_items r →
      reachable items k d → reachable items i d.

(** What flattening may change of an item: [_deps] loses entries,
    [_flattened_deps] appears. *)
Definition flatten_changes (a b : Item) : Prop :=
  b = set_flattened_deps (_flattened_deps b) (set_deps (_deps b) a)
  ∧ (∀ x, x ∈ _deps b → x ∈ _deps a)
  ∧ (is_Some (_flattened_deps a) → is_Some (_flattened_deps b)).

(** Every flattened dependency is reachable in [base]. *)
Definition flattened_sound (base S : list Item) : Prop :=
  ∀ k item f x, S !! k = Some item → _flattened_deps item = Some f →
                x ∈ flat_set f → reachable base k x.

(** An item not yet entered has the [_deps] it had in [base]; an item that
    has been flattened has lost exactly the dropped entries, and all its
    entries could be resolved. *)
Definition deps_exact (base S : list Item) : Prop :=
  ∀ k a b, base !! k = Some a → S !! k = Some b →
    match _flattened_deps b with
    | None => _deps b = _deps a
    | Some (FlatList _) =>
        _deps b = filter (λ dep, ¬ dropped base dep) (_deps a)
        ∧ ∀ dep, dep ∈ _deps a → ∃ r, resolve_selector dep base = Ok r
    | Some (FlatSet _) => True
    end.

Definition flatten_inv (base S : list Item) : Prop :=
  store_rel flatten_changes base S ∧ flattened_sound base S ∧ deps_exact base S.

(** The errors flattening can end in: a [_deps] entry of [base] that names a
    missing item or has no colon. *)
Definition flatten_error (base : list Item) (e : exn) : Prop :=
  ∃ k a dep, base !! k = Some a ∧ dep ∈ _deps a
    ∧ ((names_missing_item base dep
        ∧ e = ItemDependencyError Needs (id a) (bundle_name a) dep)
       ∨ (split_colon dep = None ∧ e = ValueError dep)).

(** The positions of the items without [_flattened_deps] *)
Definition unflattened (S : list Item) : gset nat :=
  list_to_set (filter_items (λ item, bool_decide (_flattened_deps item = None)) S).

(** After the call for [i]: nothing but [_deps] and [_flattened_deps] changed,
    items other than [i] are as before or were flattened from scratch, and
    [i] has its sorted list. *)
Definition flatten_post (i : nat) (S S' : list Item) : Prop :=
  store_rel flatten_changes S S'
  ∧ (∀ k b', k ≠ i → S' !! k = Some b' →
       S !! k = Some b'
       ∨ ∃ b l, S !! k = Some b ∧ _flattened_deps b = None
                ∧ _flattened_deps b' = Some (FlatList l))
  ∧ ∃ item' l, S' !! i = Some item' ∧ _flattened_deps item' = Some (FlatList l).

(** The state of the loop of [_flatten_deps_for_item] for the item at [i],
    entered in [S1], after handling [done] with [todo] left *)
Definition flatten_loop_inv (base S1 : list Item) (i : nat)
    (done todo : list string) (T : list Item) : Prop :=
  flatten_inv base T
  ∧ store_rel flatten_changes S1 T
  ∧ (∀ k b', k ≠ i → T !! k = Some b' →
       S1 !! k = Some b'
       ∨ ∃ b l, S1 !! k = Some b ∧ _flattened_deps b = None
                ∧ _flattened_deps b' = Some (FlatList l))
  ∧ (∃ Ti s, T !! i = Some Ti ∧ _flattened_deps Ti = Some (FlatSet s)
             ∧ _deps Ti = filter (λ dep, ¬ dropped base dep) done ++ todo)
  ∧ (∀ dep, dep ∈ done → ∃ r, resolve_selector dep base = Ok r).

(** All items have their sorted list of flattened dependencies. *)
Definition all_flattened (S : list Item) : Prop :=
  ∀ k b, S !! k = Some b → ∃ l, _flattened_deps b = Some (FlatList l).

(** No item has [_flattened_deps] yet. *)
Definition fresh (S : list Item) : Prop :=
  ∀ k a, S !! k = Some a → _flattened_deps a = None.

Definition incoming_changes (a b : Item) : Prop :=
  b = set_incoming_deps (_incoming_deps b) a.

(** [i.id in j._flattened_deps] *)
Definition depends_on (T : list Item) (i j : nat) : Prop :=
  ∃ I J f, T !! i = Some I ∧ T !! j = Some J
           ∧ _flattened_deps J = Some f ∧ id I ∈ flat_set f.

(** [_incoming_deps] of the item at [i] holds the items that depend on it. *)
Definition incoming_exact (T : list Item) (i : nat) (U : list Item) : Prop :=
  ∃ I inc, U !! i = Some I ∧ _incoming_deps I = Some inc
           ∧ ∀ j, j ∈ inc ↔ depends_on T i j.

(** What [_flatten_dependencies] has established when it returns [S2] for
    [S0]: [S1] is the item list between its two loops. *)
Definition flattened_from (S0 S1 S2 : list Item) : Prop :=
  flatten_inv S0 S1 ∧ all_flattened S1
  ∧ store_rel incoming_changes S1 S2
  ∧ ∀ i, i < length S1 → incoming_exact S1 i S2.

(** What the daisy-chaining may change of an item: the same ids are appended
    to [_deps], [_concurrency_deps] and [_flattened_deps]. *)
Definition chained (a b : Item) : Prop :=
  b = set_group_deps (__deps b)
        (set_flattened_deps (_flattened_deps b)
           (set_concurrency_deps (_concurrency_deps b) (set_deps (_deps b) a)))
  ∧ ∃ extra,
      _deps b = _deps a ++ extra
      ∧ _concurrency_deps b = _concurrency_deps a ++ extra
      ∧ ((extra = [] ∧ _flattened_deps b = _flattened_deps a)
         ∨ ∃ l, _flattened_deps a = Some (FlatList l)
                ∧ _flattened_deps b = Some (FlatList (l ++ extra))).

Definition keeps_fresh (S S' : list Item) : Prop := fresh S → fresh S'.

(** What is assumed of the item methods defined outside [deps.py]: a newly
    prepared item has no [_flattened_deps], and walking a set yields its
    elements. *)
Definition methods_ok (m : ItemMethods) : Prop :=
  (∀ item items item', _prepare_deps m item items = Ok item' →
                       _flattened_deps item' = None)
  ∧ (∀ actions, actions_order m actions ≡ₚ actions).

(** *** Example items *)

Definition example_class (name : string) (blocked : list string) : ItemClass :=
  {| ITEM_TYPE_NAME := name; block_concurrent := λ _ _, blocked |}.

(** An item as its constructor leaves it *)
Definition example_item (c : ItemClass) (name bundle : string)
    (needs preceded_by : list string) (triggered : bool) : Item :=
  {| id := ITEM_TYPE_NAME c +:+ ":" +:+ name; bundle_name := bundle; cls := c;
     tags := []; needs := needs; needed_by := []; triggers := [];
     triggered_by := []; precedes := []; preceded_by := preceded_by;
     triggered := triggered; cascade_skip := true; _deps := [];
     _reverse_deps := []; _concurrency_deps := []; _flattened_deps := None;
     _incoming_deps := None; _precedes_items := []; __deps := [] |}.

(** Item methods that check nothing, know no canned action and start
    [_deps] from [needs] *)
Definition example_methods : ItemMethods :=
  {| _check_bundle_collisions := λ _ _, Ok ();
     _check_loopback_dependency := λ _, Ok ();
     _prepare_deps := λ item _,
       Ok (set_flattened_deps None (set_deps (needs item) item));
     get_canned_actions := λ _, [];
     _check_redundant_dependencies := λ _, Ok ();
     actions_order := λ actions, actions;
     types_order := λ item_types, item_types |}.

Definition example_file : ItemClass := example_class "file" [].
Definition example_pkg : ItemClass := example_class "pkg" ["pkg"].

(** A file and a package *)
Definition example_file_and_pkg : list Item :=
  [example_item example_file "/a" "b1" [] [] false;
   example_item example_pkg "x" "b1" [] [] false].

(** Two packages, which block each other; the second needs a tag that no
    item has. *)
Definition example_pkgs : list Item :=
  [example_item example_pkg "x" "b1" [] [] false;
   example_item example_pkg "y" "b1" ["tag:none"] [] false].

(** [example_pkgs] after [_prepare_deps] *)
Definition example_pkgs_with_deps : list Item :=
  (λ item, set_deps (needs item) item) <$> example_pkgs.

(** What [prepare_dependencies] returns for [example_pkgs] *)
Definition example_pkgs_prepared : list Item :=
  [set_incoming_deps (Some ∅)
     (set_flattened_deps (Some (FlatList []))
        (example_item example_pkg "x" "b1" [] [] false));
   set_incoming_deps (Some ∅)
     (set_flattened_deps (Some (FlatList ["tag:none"; "pkg:x"]))
        (set_concurrency_deps ["pkg:x"]
           (set_deps ["pkg:x"]
              (example_item example_pkg "y" "b1" ["tag:none"] [] false))))].



(** A triggered file that uses [preceded_by], and a file that is preceded by
    an action that is not triggered *)
Definition example_bad_preceded : list Item :=
  [example_item example_file "/x" "b1" [] ["action:restart"] false;
   example_item example_file "/a" "b1" [] ["action:restart"] true;
   example_item (example_class "action" []) "restart" "b1" [] [] false].

(** Three item types: the first two and the last two overlap, the first and
    the last do not. *)
Definition example_K1 : ItemClass := example_class "a" ["x"].
Definition example_K2 : ItemClass := example_class "b" ["x"; "y"].
Definition example_K3 : ItemClass := example_class "c" ["y"].

(** All three kinds are in one chain group. *)
Definition same_chain_group (chain_groups : list (list string))
    (k1 k2 k3 : string) : Prop :=
  ∃ blocked_types, blocked_types ∈ chain_groups
    ∧ k1 ∈ blocked_types ∧ k2 ∈ blocked_types ∧ k3 ∈ blocked_types.

End Deps.

(** ** metagen.py *)

Module Metagen.

Definition Path := list string.

(** Modelled from the spec: [list_starts_with] lives in [bundlewrap/utils];
    [list_starts_with(a, b)] holds when [b] is a prefix of [a]. *)
Definition list_starts_with (list_a list_b : Path) : bool :=
  bool_decide (list_b `prefix_of` list_a).

(** *** PathSet *)

Record PathSet := { _paths : gset Path }.

Definition PathSet_init : PathSet := {| _paths := ∅ |}.

Definition covers (self : PathSet) (candidate_path : Path) : bool :=
  existsb (λ existing_path, list_starts_with candidate_path existing_path)
          (elements (_paths self)).

(** [add] returns the set after the call together with the returned flag. *)
Definition add (self : PathSet) (new_path : Path) : PathSet * bool :=
  if covers self new_path then (self, false)
  else
    let paths :=
      foldl (λ paths existing_path,
               if list_starts_with existing_path new_path
               then paths ∖ {[existing_path]}
               else paths)
            (_paths self) (elements (_paths self)) in
    ({| _paths := paths ∪ {[new_path]} |}, true).

(** A run of [add] calls, starting from [self]. *)
Definition add_all (self : PathSet) (new_paths : list Path) : PathSet :=
  foldl (λ s p, (add s p).1) self new_paths.

(** No member is a proper prefix of another member. *)
Definition antichain (s : PathSet) : Prop :=
  ∀ a b, a ∈ _paths s → b ∈ _paths s → a `prefix_of` b → a = b.

(** [add] called with a [list]: [covers] and the loop that removes the paths
    under [new_path] treat it as they treat a tuple, but a list cannot be
    hashed, so [self._paths.add(new_path)] raises [TypeError]; the flag is
    [None] then. *)
Definition add_list (self : PathSet) (new_path : Path) : PathSet * option bool :=
  if covers self new_path then (self, Some false)
  else
    let paths :=
      foldl (λ paths existing_path,
               if list_starts_with existing_path new_path
               then paths ∖ {[existing_path]}
               else paths)
            (_paths self) (elements (_paths self)) in
    ({| _paths := paths |}, None).

(** The [path] argument of [NodeMetadataProxy.get]: a [str], a [tuple] or a
    [list] *)
Inductive PathArg :=
  | PathStr (s : string)
  | PathTuple (p : Path)
  | PathList (p : Path).

(** [s.split("/")] *)
Fixpoint split_slash (s : string) : list string :=
  match s with
  | EmptyString => [EmptyString]
  | String c s' =>
      if Ascii.eqb c "/"%char then EmptyString :: split_slash s'
      else match split_slash s' with
           | word :: words => String c word :: words
           | [] => [String c EmptyString]
           end
  end.

(** The elements of the path a [get] asks for *)
Definition path_of (path : PathArg) : Path :=
  match path with
  | PathStr s => split_slash s
  | PathTuple p => p
  | PathList p => p
  end.

(** [getattr(x, '_provides', tuple())] *)
Class Provides (A : Type) := getattr_provides : A → list Path.

(** *** The module constant MAX_METADATA_ITERATIONS *)

Definition is_space (c : ascii) : bool :=
  let n := nat_of_ascii c in
  bool_decide (n = 32 ∨ (9 ≤ n ∧ n ≤ 13))%nat.

Definition digit_of (c : ascii) : option Z :=
  let n := nat_of_ascii c in
  if bool_decide (48 ≤ n ∧ n ≤ 57)%nat then Some (Z.of_nat n - 48)%Z else None.

Fixpoint lstrip (s : list ascii) : list ascii :=
  match s with
  | c :: s' => if is_space c then lstrip s' else s
  | [] => []
  end.

Definition strip (s : list ascii) : list ascii :=
  reverse (lstrip (reverse (lstrip s))).

(** Digits with single underscores between them; [prev_digit] tells whether
    the character before was a digit. *)
Fixpoint digits_value (acc : Z) (prev_digit : bool) (s : list ascii) : option Z :=
  match s with
  | [] => if prev_digit then Some acc else None
  | c :: s' =>
      match digit_of c with
      | Some d => digits_value (10 * acc + d)%Z true s'
      | None =>
          if Ascii.eqb c "_"%char && prev_digit then digits_value acc false s'
          else None
      end
  end.

(** [sys.get_int_max_str_digits()], as CPython sets it by default *)
Definition int_max_str_digits : nat := 4300.

(** [int(s)] for ASCII input; [None] is [ValueError], which CPython also
    raises for a string of more than [int_max_str_digits] digits. *)
Definition py_int (s : string) : option Z :=
  match strip (String.list_ascii_of_string s) with
  | [] => None
  | c :: rest =>
      let digits :=
        if Ascii.eqb c "-"%char || Ascii.eqb c "+"%char then rest else c :: rest in
      if bool_decide (int_max_str_digits
                      < length (filter (λ d, is_Some (digit_of d)) digits))%nat
      then None
      else if Ascii.eqb c "-"%char then Z.opp <$> digits_value 0 false rest
      else if Ascii.eqb c "+"%char then digits_value 0 false rest
      else digits_value 0 false (c :: rest)
  end.

(** [int(environ.get("BW_MAX_METADATA_ITERATIONS", "1000"))]; with [None] the
    module fails to load. *)
Definition MAX_METADATA_ITERATIONS_of (environ : gmap string string) : option Z :=
  py_int (default "1000" (environ !! "BW_MAX_METADATA_ITERATIONS")).

(** *** Python containers kept in insertion order *)

(** [d[k] = v] on a dict held as an association list *)
Fixpoint dict_set {K V} `{EqDecision K} (k : K) (v : V) (d : list (K * V))
  : list (K * V) :=
  match d with
  | [] => [(k, v)]
  | (k', v') :: d' =>
      if decide (k' = k) then (k, v) :: d' else (k', v') :: dict_set k v d'
  end.

Fixpoint dict_get {K V} `{EqDecision K} (k : K) (d : list (K * V)) : option V :=
  match d with
  | [] => None
  | (k', v') :: d' => if decide (k' = k) then Some v' else dict_get k d'
  end.

(** [sorted(xs, key=count, reverse=True)[:n]], which is what
    [Counter.most_common(n)] returns *)
Definition count_ge {K} (a b : K * Z) : Prop := (b.2 ≤ a.2)%Z.

Global Instance count_ge_dec {K} (a b : K * Z) : Decision (count_ge a b).
Proof. unfold count_ge. apply _. Defined.

(** The sort is stable: pairs with the same count stay in the order in which
    the counter holds them, which is the order of their first insertion. *)
Fixpoint insert_by_count {K} (x : K * Z) (l : list (K * Z)) : list (K * Z) :=
  match l with
  | [] => [x]
  | y :: l' => if decide (x.2 < y.2)%Z then y :: insert_by_count x l' else x :: l
  end.

Definition sorted_by_count {K} (counter : list (K * Z)) : list (K * Z) :=
  foldr insert_by_count [] counter.

Definition most_common {K} (n : nat) (counter : list (K * Z)) : list (K * Z) :=
  take n (sorted_by_count counter).

(** The order of [(node_name, reactor_name)] tuples *)
Definition key_le (a b : string * string) : Prop :=
  String.ltb a.1 b.1 = true ∨ (a.1 = b.1 ∧ String.leb a.2 b.2 = true).

Global Instance key_le_dec a b : Decision (key_le a b).
Proof. unfold key_le. apply _. Defined.

(** *** Exceptions and the engine monad *)

(** An exception object raised by user code, with its traceback. *)
Definition PyExc := string.

Inductive exn :=
  | KeyError (key : string)
  | RuntimeError_in_reactor (attr : string)
  | RuntimeError_iterations (max : Z) (node_name : string)
      (top_changers : list ((string * string) * Z))
  | MetadataPersistentKeyError (offenders : list ((string * string) * PyExc))
  | ValueError_provides (reactor_name node_name : string) (paths : list Path)
  | TypeError
  | NoSuchNode (node_name : string)
  | ReactorException (exc : PyExc)
  | _StartOver.

Inductive res (A : Type) :=
  | Val (a : A)
  | Exc (e : exn)
  | Fuel.
Arguments Val {A} a.
Arguments Exc {A} e.
Arguments Fuel {A}.

(** A method of an object of state [S]: the state after the call and what the
    call returned or raised. *)
Definition eng (S A : Type) : Type := S → S * res A.

Global Instance eng_ret {S} : MRet (eng S) := λ A a st, (st, Val a).
Global Instance eng_bind {S} : MBind (eng S) := λ A B f m st,
  match m st with
  | (st', Val a) => f a st'
  | (st', Exc e) => (st', Exc e)
  | (st', Fuel) => (st', Fuel)
  end.

Definition get_state {S} : eng S S := λ st, (st, Val st).
Definition modify {S} (f : S → S) : eng S () := λ st, (f st, Val ()).
Definition raise {S A} (e : exn) : eng S A := λ st, (st, Exc e).

(** [try: m finally: f] *)
Definition finally {S A} (m : eng S A) (f : S → S) : eng S A := λ st,
  match m st with
  | (st', r) => (f st', r)
  end.

(** [for x in xs: body] *)
Fixpoint for_ {S A} (xs : list A) (body : A → eng S ()) : eng S () :=
  match xs with
  | [] => mret ()
  | x :: xs' => body x;; for_ xs' body
  end.

(** *** The engine *)

Section Engine.

(** A nested metadata mapping; the engine only stores, passes on and compares
    such mappings. [Blame] is what [Metastack._as_blame] returns. *)
Context {Metadata : Type} `{EqDecision Metadata} {Blame : Type}.

(** Modelled from the spec: [Metastack] ([bundlewrap/utils/metastack.py]) is a
    stack of named layers; a layer is identified by its tier and name,
    [_set_layer] installs or replaces it, [_pop_layer] removes it and returns
    the previous mapping or the empty one, [_cache_partition] freezes a tier. *)
Record Metastack := {
  layers : gmap (nat * string) Metadata;
  cached_partitions : gset nat;
}.

Definition Metastack_init : Metastack := {| layers := ∅; cached_partitions := ∅ |}.

(** [NodeMetadataProxy]; reactors are told apart by name. *)
Record NodeMetadataProxy := {
  _metastack : Metastack;
  _metastack_came_from_cache : option bool;
  _completed_reactors : gset string;
  _requested_paths : PathSet;
  _satisfied : bool;
  __relevant_reactors_cache : option (gset string);
}.

Definition NodeMetadataProxy_init : NodeMetadataProxy :=
  {| _metastack := Metastack_init;
     _metastack_came_from_cache := None;
     _completed_reactors := ∅;
     _requested_paths := PathSet_init;
     _satisfied := false;
     __relevant_reactors_cache := None |}.

Definition set_metastack v (x : NodeMetadataProxy) : NodeMetadataProxy :=
  {| _metastack := v; _metastack_came_from_cache := _metastack_came_from_cache x;
     _completed_reactors := _completed_reactors x;
     _requested_paths := _requested_paths x; _satisfied := _satisfied x;
     __relevant_reactors_cache := __relevant_reactors_cache x |}.

Definition set_metastack_came_from_cache v (x : NodeMetadataProxy) : NodeMetadataProxy :=
  {| _metastack := _metastack x; _metastack_came_from_cache := v;
     _completed_reactors := _completed_reactors x;
     _requested_paths := _requested_paths x; _satisfied := _satisfied x;
     __relevant_reactors_cache := __relevant_reactors_cache x |}.

Definition set_completed_reactors v (x : NodeMetadataProxy) : NodeMetadataProxy :=
  {| _metastack := _metastack x;
     _metastack_came_from_cache := _metastack_came_from_cache x;
     _completed_reactors := v; _requested_paths := _requested_paths x;
     _satisfied := _satisfied x;
     __relevant_reactors_cache := __relevant_reactors_cache x |}.

Definition set_requested_paths v (x : NodeMetadataProxy) : NodeMetadataProxy :=
  {| _metastack := _metastack x;
     _metastack_came_from_cache := _metastack_came_from_cache x;
     _completed_reactors := _completed_reactors x; _requested_paths := v;
     _satisfied := _satisfied x;
     __relevant_reactors_cache := __relevant_reactors_cache x |}.

Definition set_satisfied v (x : NodeMetadataProxy) : NodeMetadataProxy :=
  {| _metastack := _metastack x;
     _metastack_came_from_cache := _metastack_came_from_cache x;
     _completed_reactors := _completed_reactors x;
     _requested_paths := _requested_paths x; _satisfied := v;
     __relevant_reactors_cache := __relevant_reactors_cache x |}.

Definition set__relevant_reactors_cache v (x : NodeMetadataProxy) : NodeMetadataProxy :=
  {| _metastack := _metastack x;
     _metastack_came_from_cache := _metastack_came_from_cache x;
     _completed_reactors := _completed_reactors x;
     _requested_paths := _requested_paths x; _satisfied := _satisfied x;
     __relevant_reactors_cache := v |}.

(** How a call of a reactor ends. *)
Inductive ReactorOutcome :=
  | Returned (new_metadata : Metadata)
  | RaisedKeyError (exc : PyExc)
  | RaisedDoNotRunAgain
  | RaisedOther (exc : PyExc).

(** What a call of a reactor does: the [get] calls it makes on node views
    (node name and path, in order) and how it ends. *)
Record ReactorRun := {
  accesses : list (string * PathArg);
  outcome : ReactorOutcome;
}.

(** A reactor is user code: a function of the name of its node and of the
    views it can read. [_provides] is [None] when the attribute is missing. *)
Record Reactor := {
  reactor_name : string;
  _provides : option (list Path);
  call : string → gmap string NodeMetadataProxy → ReactorRun;
}.

(** The function object of a reactor has the attribute [_provides] when the
    decorator was given paths. *)
Global Instance reactor_provides : Provides Reactor :=
  λ reactor, default [] (_provides reactor).

(** A tuple has no attribute [_provides]. *)
Global Instance tuple_provides {A B : Type} : Provides (A * B) := λ _, [].

Record Node := {
  groups : list string;
  node_metadata : Metadata;
  metadata_defaults : list (string * Metadata);
  metadata_reactors : list Reactor;
}.

(** [node.metadata_reactors] as the engine walks it: pairs of the name and
    the function of a reactor *)
Definition reactor_pairs (node : Node) : list (string * Reactor) :=
  (λ reactor, (reactor_name reactor, reactor)) <$> metadata_reactors node.

(** What the engine takes from the rest of the program.
    - [empty_metadata] is [{}]; [valid_metadata] is the validation [_set_layer]
      runs on a new layer ([TypeError] when it fails); [extra_paths_in_dict],
      [_as_dict] and [_as_blame] come from [bundlewrap/utils];
    - the repository: [get_node], [get_group(...)._attributes.get('metadata', {})]
      and [_flatten_group_hierarchy] of [bundlewrap/node.py];
    - the module constant, whether [BW_METADATA_CACHE_DIR] is set, the answers
      of successive [QUIT_EVENT.is_set()] calls, the permutation picked by
      successive [randomize_order] calls, and the element [set.pop()] picks. *)
Record Environment := {
  empty_metadata : Metadata;
  valid_metadata : Metadata → bool;
  extra_paths_in_dict : Metadata → list Path → list Path;
  _as_dict : Metastack → Metadata;
  _as_blame : Metastack → Blame;
  nodes : gmap string Node;
  group_metadata : string → Metadata;
  _flatten_group_hierarchy : list string → list string;
  MAX_METADATA_ITERATIONS : Z;
  BW_METADATA_CACHE_DIR : bool;
  QUIT_EVENT : nat → bool;
  shuffle : nat → ∀ A : Type, list A → list A;
  pick : gset string → option string;
}.

(** The [MetadataGenerator] object (the repository object it is mixed into).
    Dicts whose order of insertion is observed are association lists.
    [disk_cache] holds the files under [_disk_cache_hash_dir], by node name. *)
Record MetadataGenerator := {
  _in_a_reactor : bool;
  _verify_reactor_provides : bool;
  _partial_metadata_accessed_for : gset string;
  __do_not_run_again : gset (string * string);
  __keyerrors : gmap (string * string) PyExc;
  __node_deps : gmap string (gset string);
  __node_iterations : gmap string Z;
  __node_stable : list (string * bool);
  __nodes_that_never_ran : gset string;
  __triggered_nodes : gset string;
  __nodes_that_ran_at_least_once : gset string;
  __reactors_run : Z;
  __reactor_changes : list ((string * string) * Z);
  __reactors_with_deps : gmap string (gset string);
  _node_metadata_proxies : gmap string NodeMetadataProxy;
  disk_cache : gmap string Metadata;
  quit_polls : nat;
  shuffles : nat;
}.

Definition set_in_a_reactor v (x : MetadataGenerator) : MetadataGenerator :=
  {| _in_a_reactor := v; _verify_reactor_provides := _verify_reactor_provides x;
     _partial_metadata_accessed_for := _partial_metadata_accessed_for x;
     __do_not_run_again := __do_not_run_again x; __keyerrors := __keyerrors x;
     __node_deps := __node_deps x; __node_iterations := __node_iterations x;
     __node_stable := __node_stable x;
     __nodes_that_never_ran := __nodes_that_never_ran x;
     __triggered_nodes := __triggered_nodes x;
     __nodes_that_ran_at_least_once := __nodes_that_ran_at_least_once x;
     __reactors_run := __reactors_run x; __reactor_changes := __reactor_changes x;
     __reactors_with_deps := __reactors_with_deps x;
     _node_metadata_proxies := _node_metadata_proxies x; disk_cache := disk_cache x;
     quit_polls := quit_polls x; shuffles := shuffles x |}.

Definition set_verify_reactor_provides v (x : MetadataGenerator) : MetadataGenerator :=
  {| _in_a_reactor := _in_a_reactor x; _verify_reactor_provides := v;
     _partial_metadata_accessed_for := _partial_metadata_accessed_for x;
     __do_not_run_again := __do_not_run_again x; __keyerrors := __keyerrors x;
     __node_deps := __node_deps x; __node_iterations := __node_iterations x;
     __node_stable := __node_stable x;
     __nodes_that_never_ran := __nodes_that_never_ran x;
     __triggered_nodes := __triggered_nodes x;
     __nodes_that_ran_at_least_once := __nodes_that_ran_at_least_once x;
     __reactors_run := __reactors_run x; __reactor_changes := __reactor_changes x;
     __reactors_with_deps := __reactors_with_deps x;
     _node_metadata_proxies := _node_metadata_proxies x; disk_cache := disk_cache x;
     quit_polls := quit_polls x; shuffles := shuffles x |}.

Definition set_partial_metadata_accessed_for v (x : MetadataGenerator) : MetadataGenerator :=
  {| _in_a_reactor := _in_a_reactor x;
     _verify_reactor_provides := _verify_reactor_provides x;
     _partial_metadata_accessed_for := v; __do_not_run_again := __do_not_run_again x;
     __keyerrors := __keyerrors x; __node_deps := __node_deps x;
     __node_iterations := __node_iterations x; __node_stable := __node_stable x;
     __nodes_that_never_ran := __nodes_that_never_ran x;
     __triggered_nodes := __triggered_nodes x;
     __nodes_that_ran_at_least_once := __nodes_that_ran_at_least_once x;
     __reactors_run := __reactors_run x; __reactor_changes := __reactor_changes x;
     __reactors_with_deps := __reactors_with_deps x;
     _node_metadata_proxies := _node_metadata_proxies x; disk_cache := disk_cache x;
     quit_polls := quit_polls x; shuffles := shuffles x |}.

Definition set__do_not_run_again v (x : MetadataGenerator) : MetadataGenerator :=
  {| _in_a_reactor := _in_a_reactor x;
     _verify_reactor_provides := _verify_reactor_provides x;
     _partial_metadata_accessed_for := _partial_metadata_accessed_for x;
     __do_not_run_again := v; __keyerrors := __keyerrors x;
     __node_deps := __node_deps x; __node_iterations := __node_iterations x;
     __node_stable := __node_stable x;
     __nodes_that_never_ran := __nodes_that_never_ran x;
     __triggered_nodes := __triggered_nodes x;
     __nodes_that_ran_at_least_once := __nodes_that_ran_at_least_once x;
     __reactors_run := __reactors_run x; __reactor_changes := __reactor_changes x;
     __reactors_with_deps := __reactors_with_deps x;
     _node_metadata_proxies := _node_metadata_proxies x; disk_cache := disk_cache x;
     quit_polls := quit_polls x; shuffles := shuffles x |}.

Definition set__keyerrors v (x : MetadataGenerator) : MetadataGenerator :=
  {| _in_a_reactor := _in_a_reactor x;
     _verify_reactor_provides := _verify_reactor_provides x;
     _partial_metadata_accessed_for := _partial_metadata_accessed_for x;
     __do_not_run_again := __do_not_run_again x; __keyerrors := v;
     __node_deps := __node_deps x; __node_iterations := __node_iterations x;
     __node_stable := __node_stable x;
     __nodes_that_never_ran := __nodes_that_never_ran x;
     __triggered_nodes := __triggered_nodes x;
     __nodes_that_ran_at_least_once := __nodes_that_ran_at_least_once x;
     __reactors_run := __reactors_run x; __reactor_changes := __reactor_changes x;
     __reactors_with_deps := __reactors_with_deps x;
     _node_metadata_proxies := _node_metadata_proxies x; disk_cache := disk_cache x;
     quit_polls := quit_polls x; shuffles := shuffles x |}.

Definition set__node_deps v (x : MetadataGenerator) : MetadataGenerator :=
  {| _in_a_reactor := _in_a_reactor x;
     _verify_reactor_provides := _verify_reactor_provides x;
     _partial_metadata_accessed_for := _partial_metadata_accessed_for x;
     __do_not_run_again := __do_not_run_again x; __keyerrors := __keyerrors x;
     __node_deps := v; __node_iterations := __node_iterations x;
     __node_stable := __node_stable x;
     __nodes_that_never_ran := __nodes_that_never_ran x;
     __triggered_nodes := __triggered_nodes x;
     __nodes_that_ran_at_least_once := __nodes_that_ran_at_least_once x;
     __reactors_run := __reactors_run x; __reactor_changes := __reactor_changes x;
     __reactors_with_deps := __reactors_with_deps x;
     _node_metadata_proxies := _node_metadata_proxies x; disk_cache := disk_cache x;
     quit_polls := quit_polls x; shuffles := shuffles x |}.

Definition set__node_iterations v (x : MetadataGenerator) : MetadataGenerator :=
  {| _in_a_reactor := _in_a_reactor x;
     _verify_reactor_provides := _verify_reactor_provides x;
     _partial_metadata_accessed_for := _partial_metadata_accessed_for x;
     __do_not_run_again := __do_not_run_again x; __keyerrors := __keyerrors x;
     __node_deps := __node_deps x; __node_iterations := v;
     __node_stable := __node_stable x;
     __nodes_that_never_ran := __nodes_that_never_ran x;
     __triggered_nodes := __triggered_nodes x;
     __nodes_that_ran_at_least_once := __nodes_that_ran_at_least_once x;
     __reactors_run := __reactors_run x; __reactor_changes := __reactor_changes x;
     __reactors_with_deps := __reactors_with_deps x;
     _node_metadata_proxies := _node_metadata_proxies x; disk_cache := disk_cache x;
     quit_polls := quit_polls x; shuffles := shuffles x |}.

Definition set__node_stable v (x : MetadataGenerator) : MetadataGenerator :=
  {| _in_a_reactor := _in_a_reactor x;
     _verify_reactor_provides := _verify_reactor_provides x;
     _partial_metadata_accessed_for := _partial_metadata_accessed_for x;
     __do_not_run_again := __do_not_run_again x; __keyerrors := __keyerrors x;
     __node_deps := __node_deps x; __node_iterations := __node_iterations x;
     __node_stable := v; __nodes_that_never_ran := __nodes_that_never_ran x;
     __triggered_nodes := __triggered_nodes x;
     __nodes_that_ran_at_least_once := __nodes_that_ran_at_least_once x;
     __reactors_run := __reactors_run x; __reactor_changes := __reactor_changes x;
     __reactors_with_deps := __reactors_with_deps x;
     _node_metadata_proxies := _node_metadata_proxies x; disk_cache := disk_cache x;
     quit_polls := quit_polls x; shuffles := shuffles x |}.

Definition set__nodes_that_never_ran v (x : MetadataGenerator) : MetadataGenerator :=
  {| _in_a_reactor := _in_a_reactor x;
     _verify_reactor_provides := _verify_reactor_provides x;
     _partial_metadata_accessed_for := _partial_metadata_accessed_for x;
     __do_not_run_again := __do_not_run_again x; __keyerrors := __keyerrors x;
     __node_deps := __node_deps x; __node_iterations := __node_iterations x;
     __node_stable := __node_stable x; __nodes_that_never_ran := v;
     __triggered_nodes := __triggered_nodes x;
     __nodes_that_ran_at_least_once := __nodes_that_ran_at_least_once x;
     __reactors_run := __reactors_run x; __reactor_changes := __reactor_changes x;
     __reactors_with_deps := __reactors_with_deps x;
     _node_metadata_proxies := _node_metadata_proxies x; disk_cache := disk_cache x;
     quit_polls := quit_polls x; shuffles := shuffles x |}.

Definition set__triggered_nodes v (x : MetadataGenerator) : MetadataGenerator :=
  {| _in_a_reactor := _in_a_reactor x;
     _verify_reactor_provides := _verify_reactor_provides x;
     _partial_metadata_accessed_for := _partial_metadata_accessed_for x;
     __do_not_run_again := __do_not_run_again x; __keyerrors := __keyerrors x;
     __node_deps := __node_deps x; __node_iterations := __node_iterations x;
     __node_stable := __node_stable x;
     __nodes_that_never_ran := __nodes_that_never_ran x; __triggered_nodes := v;
     __nodes_that_ran_at_least_once := __nodes_that_ran_at_least_once x;
     __reactors_run := __reactors_run x; __reactor_changes := __reactor_changes x;
     __reactors_with_deps := __reactors_with_deps x;
     _node_metadata_proxies := _node_metadata_proxies x; disk_cache := disk_cache x;
     quit_polls := quit_polls x; shuffles := shuffles x |}.

Definition set__nodes_that_ran_at_least_once v (x : MetadataGenerator) : MetadataGenerator :=
  {| _in_a_reactor := _in_a_reactor x;
     _verify_reactor_provides := _verify_reactor_provides x;
     _partial_metadata_accessed_for := _partial_metadata_accessed_for x;
     __do_not_run_again := __do_not_run_again x; __keyerrors := __keyerrors x;
     __node_deps := __node_deps x; __node_iterations := __node_iterations x;
     __node_stable := __node_stable x;
     __nodes_that_never_ran := __nodes_that_never_ran x;
     __triggered_nodes := __triggered_nodes x; __nodes_that_ran_at_least_once := v;
     __reactors_run := __reactors_run x; __reactor_changes := __reactor_changes x;
     __reactors_with_deps := __reactors_with_deps x;
     _node_metadata_proxies := _node_metadata_proxies x; disk_cache := disk_cache x;
     quit_polls := quit_polls x; shuffles := shuffles x |}.

Definition set__reactors_run v (x : MetadataGenerator) : MetadataGenerator :=
  {| _in_a_reactor := _in_a_reactor x;
     _verify_reactor_provides := _verify_reactor_provides x;
     _partial_metadata_accessed_for := _partial_metadata_accessed_for x;
     __do_not_run_again := __do_not_run_again x; __keyerrors := __keyerrors x;
     __node_deps := __node_deps x; __node_iterations := __node_iterations x;
     __node_stable := __node_stable x;
     __nodes_that_never_ran := __nodes_that_never_ran x;
     __triggered_nodes := __triggered_nodes x;
     __nodes_that_ran_at_least_once := __nodes_that_ran_at_least_once x;
     __reactors_run := v; __reactor_changes := __reactor_changes x;
     __reactors_with_deps := __reactors_with_deps x;
     _node_metadata_proxies := _node_metadata_proxies x; disk_cache := disk_cache x;
     quit_polls := quit_polls x; shuffles := shuffles x |}.

Definition set__reactor_changes v (x : MetadataGenerator) : MetadataGenerator :=
  {| _in_a_reactor := _in_a_reactor x;
     _verify_reactor_provides := _verify_reactor_provides x;
     _partial_metadata_accessed_for := _partial_metadata_accessed_for x;
     __do_not_run_again := __do_not_run_again x; __keyerrors := __keyerrors x;
     __node_deps := __node_deps x; __node_iterations := __node_iterations x;
     __node_stable := __node_stable x;
     __nodes_that_never_ran := __nodes_that_never_ran x;
     __triggered_nodes := __triggered_nodes x;
     __nodes_that_ran_at_least_once := __nodes_that_ran_at_least_once x;
     __reactors_run := __reactors_run x; __reactor_changes := v;
     __reactors_with_deps := __reactors_with_deps x;
     _node_metadata_proxies := _node_metadata_proxies x; disk_cache := disk_cache x;
     quit_polls := quit_polls x; shuffles := shuffles x |}.

Definition set__reactors_with_deps v (x : MetadataGenerator) : MetadataGenerator :=
  {| _in_a_reactor := _in_a_reactor x;
     _verify_reactor_provides := _verify_reactor_provides x;
     _partial_metadata_accessed_for := _partial_metadata_accessed_for x;
     __do_not_run_again := __do_not_run_again x; __keyerrors := __keyerrors x;
     __node_deps := __node_deps x; __node_iterations := __node_iterations x;
     __node_stable := __node_stable x;
     __nodes_that_never_ran := __nodes_that_never_ran x;
     __triggered_nodes := __triggered_nodes x;
     __nodes_that_ran_at_least_once := __nodes_that_ran_at_least_once x;
     __reactors_run := __reactors_run x; __reactor_changes := __reactor_changes x;
     __reactors_with_deps := v; _node_metadata_proxies := _node_metadata_proxies x;
     disk_cache := disk_cache x; quit_polls := quit_polls x; shuffles := shuffles x |}.

Definition set_node_metadata_proxies v (x : MetadataGenerator) : MetadataGenerator :=
  {| _in_a_reactor := _in_a_reactor x;
     _verify_reactor_provides := _verify_reactor_provides x;
     _partial_metadata_accessed_for := _partial_metadata_accessed_for x;
     __do_not_run_again := __do_not_run_again x; __keyerrors := __keyerrors x;
     __node_deps := __node_deps x; __node_iterations := __node_iterations x;
     __node_stable := __node_stable x;
     __nodes_that_never_ran := __nodes_that_never_ran x;
     __triggered_nodes := __triggered_nodes x;
     __nodes_that_ran_at_least_once := __nodes_that_ran_at_least_once x;
     __reactors_run := __reactors_run x; __reactor_changes := __reactor_changes x;
     __reactors_with_deps := __reactors_with_deps x; _node_metadata_proxies := v;
     disk_cache := disk_cache x; quit_polls := quit_polls x; shuffles := shuffles x |}.

Definition setdisk_cache v (x : MetadataGenerator) : MetadataGenerator :=
  {| _in_a_reactor := _in_a_reactor x;
     _verify_reactor_provides := _verify_reactor_provides x;
     _partial_metadata_accessed_for := _partial_metadata_accessed_for x;
     __do_not_run_again := __do_not_run_again x; __keyerrors := __keyerrors x;
     __node_deps := __node_deps x; __node_iterations := __node_iterations x;
     __node_stable := __node_stable x;
     __nodes_that_never_ran := __nodes_that_never_ran x;
     __triggered_nodes := __triggered_nodes x;
     __nodes_that_ran_at_least_once := __nodes_that_ran_at_least_once x;
     __reactors_run := __reactors_run x; __reactor_changes := __reactor_changes x;
     __reactors_with_deps := __reactors_with_deps x;
     _node_metadata_proxies := _node_metadata_proxies x; disk_cache := v;
     quit_polls := quit_polls x; shuffles := shuffles x |}.

Definition setquit_polls v (x : MetadataGenerator) : MetadataGenerator :=
  {| _in_a_reactor := _in_a_reactor x;
     _verify_reactor_provides := _verify_reactor_provides x;
     _partial_metadata_accessed_for := _partial_metadata_accessed_for x;
     __do_not_run_again := __do_not_run_again x; __keyerrors := __keyerrors x;
     __node_deps := __node_deps x; __node_iterations := __node_iterations x;
     __node_stable := __node_stable x;
     __nodes_that_never_ran := __nodes_that_never_ran x;
     __triggered_nodes := __triggered_nodes x;
     __nodes_that_ran_at_least_once := __nodes_that_ran_at_least_once x;
     __reactors_run := __reactors_run x; __reactor_changes := __reactor_changes x;
     __reactors_with_deps := __reactors_with_deps x;
     _node_metadata_proxies := _node_metadata_proxies x; disk_cache := disk_cache x;
     quit_polls := v; shuffles := shuffles x |}.

Definition setshuffles v (x : MetadataGenerator) : MetadataGenerator :=
  {| _in_a_reactor := _in_a_reactor x;
     _verify_reactor_provides := _verify_reactor_provides x;
     _partial_metadata_accessed_for := _partial_metadata_accessed_for x;
     __do_not_run_again := __do_not_run_again x; __keyerrors := __keyerrors x;
     __node_deps := __node_deps x; __node_iterations := __node_iterations x;
     __node_stable := __node_stable x;
     __nodes_that_never_ran := __nodes_that_never_ran x;
     __triggered_nodes := __triggered_nodes x;
     __nodes_that_ran_at_least_once := __nodes_that_ran_at_least_once x;
     __reactors_run := __reactors_run x; __reactor_changes := __reactor_changes x;
     __reactors_with_deps := __reactors_with_deps x;
     _node_metadata_proxies := _node_metadata_proxies x; disk_cache := disk_cache x;
     quit_polls := quit_polls x; shuffles := v |}.

Local Abbreviation M := (eng MetadataGenerator).

Variable env : Environment.

Definition _set_layer (tier : nat) (name : string) (new_layer : Metadata)
    (self : Metastack) : option Metastack :=
  if valid_metadata env new_layer then
    Some {| layers := <[(tier, name) := new_layer]> (layers self);
            cached_partitions := cached_partitions self |}
  else None.

Definition _pop_layer (tier : nat) (name : string) (self : Metastack)
  : Metadata * Metastack :=
  (default (empty_metadata env) (layers self !! (tier, name)),
   {| layers := delete (tier, name) (layers self);
      cached_partitions := cached_partitions self |}).

Definition _cache_partition (tier : nat) (self : Metastack) : Metastack :=
  {| layers := layers self; cached_partitions := {[tier]} ∪ cached_partitions self |}.

Definition out_of_fuel {A} : M A := λ st, (st, Fuel).

(** [randomize_order(xs)] *)
Definition randomize_order {A} (xs : list A) : M (list A) :=
  st ← get_state;
  modify (setshuffles (S (shuffles st)));;
  mret (shuffle env (shuffles st) A xs).

(** [QUIT_EVENT.is_set()] *)
Definition quit_is_set : M bool :=
  st ← get_state;
  modify (setquit_polls (S (quit_polls st)));;
  mret (QUIT_EVENT env (quit_polls st)).

(** [s.pop()]: some element of [s] and the rest, [None] on the empty set *)
Definition set_pop (s : gset string) : option (string * gset string) :=
  let x :=
    match pick env s with
    | Some x => if decide (x ∈ s) then Some x else head (elements s)
    | None => head (elements s)
    end in
  (λ x, (x, s ∖ {[x]})) <$> x.

Definition reactors_for_paths {A} `{Provides A} (available_reactors : list A)
    (required_paths : PathSet) : list A :=
  filter (λ reactor,
            match getattr_provides reactor with
            | [] => true
            | provides => existsb (covers required_paths) provides
            end = true) available_reactors.

(** [self._metadata_proxy_for_node(node_name)] *)
Definition _metadata_proxy_for_node (node_name : string) : M NodeMetadataProxy :=
  st ← get_state;
  match _node_metadata_proxies st !! node_name with
  | Some proxy => mret proxy
  | None =>
      match nodes env !! node_name with
      | None => raise (NoSuchNode node_name)
      | Some _ =>
          modify (set_node_metadata_proxies
                    (<[node_name := NodeMetadataProxy_init]>
                       (_node_metadata_proxies st)));;
          mret NodeMetadataProxy_init
      end
  end.

(** [self._node_metadata_proxies[node_name]] *)
Definition proxy_of (node_name : string) : M NodeMetadataProxy :=
  st ← get_state;
  match _node_metadata_proxies st !! node_name with
  | Some proxy => mret proxy
  | None => raise (KeyError node_name)
  end.

Definition update_proxy (node_name : string)
    (f : NodeMetadataProxy → NodeMetadataProxy) : M () :=
  modify (λ st, set_node_metadata_proxies
                  (alter f node_name (_node_metadata_proxies st)) st).

(** [get_node(node_name)] *)
Definition get_node (node_name : string) : M Node :=
  match nodes env !! node_name with
  | Some node => mret node
  | None => raise (NoSuchNode node_name)
  end.

(** [proxy._relevant_reactors], by name; the value is cached on the proxy.
    What [reactors_for_paths] is given are the pairs of [reactor_pairs]. *)
Definition _relevant_reactors (node_name : string) : M (gset string) :=
  proxy ← proxy_of node_name;
  match __relevant_reactors_cache proxy with
  | Some cache => mret cache
  | None =>
      node ← get_node node_name;
      let cache : gset string :=
        list_to_set (fst <$>
          reactors_for_paths (reactor_pairs node) (_requested_paths proxy)) in
      update_proxy node_name (set__relevant_reactors_cache (Some cache));;
      mret cache
  end.

(** [list(proxy._pending_reactors)] *)
Definition _pending_reactors (node_name : string) : M (list Reactor) :=
  relevant ← _relevant_reactors node_name;
  proxy ← proxy_of node_name;
  node ← get_node node_name;
  mret (filter (λ reactor,
                  reactor_name reactor ∈ relevant
                  ∧ reactor_name reactor ∉ _completed_reactors proxy)
               (metadata_reactors node)).

(** [NodeMetadataProxy.get(path)] called on the view of [node_name] while
    [_in_a_reactor] is set: everything up to the read of the stack. The view
    of a node of the repository is created on first use; for another name
    [get_node] raises. [TypeError] comes from [PathSet.add] for a list that
    is not covered yet, or from [_set_layer] for the mapping read from the
    disk cache; in both cases [get] is left before the node is recorded in
    [_partial_metadata_accessed_for]. *)
Definition get_call (access : string * PathArg) : M () := λ st,
  let '(node_name, path) := access in
  match nodes env !! node_name with
  | None => (st, Exc (NoSuchNode node_name))
  | Some _ =>
      let proxy :=
        default NodeMetadataProxy_init (_node_metadata_proxies st !! node_name) in
      let store proxy :=
        set_node_metadata_proxies
          (<[node_name := proxy]> (_node_metadata_proxies st)) st in
      let '(requested, added) :=
        match path with
        | PathList p => add_list (_requested_paths proxy) p
        | _ =>
            let '(requested, added) := add (_requested_paths proxy) (path_of path) in
            (requested, Some added)
        end in
      let proxy := set_requested_paths requested proxy in
      match added with
      | None => (store proxy, Exc TypeError)
      | Some added =>
          let proxy :=
            if added : bool
            then set__relevant_reactors_cache None (set_satisfied false proxy)
            else proxy in
          match _metastack_came_from_cache proxy,
                (if BW_METADATA_CACHE_DIR env then disk_cache st !! node_name
                 else None) with
          | None, Some metadata =>
              match _set_layer 0 "flattened" metadata Metastack_init with
              | Some stack =>
                  (set_partial_metadata_accessed_for
                     ({[node_name]} ∪ _partial_metadata_accessed_for st)
                     (store (set_satisfied true
                               (set_metastack_came_from_cache (Some true)
                                  (set_metastack stack proxy)))),
                   Val ())
              | None => (store (set_metastack Metastack_init proxy), Exc TypeError)
              end
          | _, _ =>
              (set_partial_metadata_accessed_for
                 ({[node_name]} ∪ _partial_metadata_accessed_for st)
                 (store proxy),
               Val ())
          end
      end
  end.

(** The state a [get] of a reactor leaves, whether it returned or raised:
    how a reactor goes on after an exception is part of what [call] tells. *)
Definition get_in_a_reactor (st : MetadataGenerator) (access : string * PathArg)
  : MetadataGenerator :=
  (get_call access st).1.

(** [del self.__keyerrors[key]] under [suppress(KeyError)] *)
Definition clear_keyerror (key : string * string) : M () :=
  modify (λ st, set__keyerrors (delete key (__keyerrors st)) st).

(** [__run_reactor] up to the [try]: the state in which the reactor is
    called, and the layer that was popped. *)
Definition enter_reactor (node_name : string) (reactor : Reactor) : M Metadata :=
  modify (set_partial_metadata_accessed_for ∅);;
  modify (λ st, set__reactors_run (__reactors_run st + 1)%Z st);;
  proxy ← _metadata_proxy_for_node node_name;
  let '(old_metadata, stack) := _pop_layer 1 (reactor_name reactor) (_metastack proxy) in
  update_proxy node_name (set_metastack stack);;
  modify (set_in_a_reactor true);;
  mret old_metadata.

(** The [try] statement of [__run_reactor]: [inr] is the value the reactor
    returned, [inl] a [return] from an [except] clause. *)
Definition call_reactor (node_name : string) (reactor : Reactor)
  : M ((bool * gset string) + Metadata) :=
  finally
    (st ← get_state;
     let run := call reactor node_name (_node_metadata_proxies st) in
     modify (λ st, foldl get_in_a_reactor st (accesses run));;
     match outcome run with
     | Returned new_metadata => mret (inr new_metadata)
     | RaisedKeyError exc =>
         modify (λ st, set__keyerrors
                         (<[(node_name, reactor_name reactor) := exc]> (__keyerrors st))
                         st);;
         st ← get_state;
         mret (inl (false, _partial_metadata_accessed_for st))
     | RaisedDoNotRunAgain =>
         modify (λ st, set__do_not_run_again
                         ({[(node_name, reactor_name reactor)]} ∪ __do_not_run_again st)
                         st);;
         clear_keyerror (node_name, reactor_name reactor);;
         mret (inl (false, ∅))
     | RaisedOther exc => raise (ReactorException exc)
     end)
    (set_in_a_reactor false).

(** [self.__reactor_changes[key] += 1] on a [defaultdict(int)] *)
Definition count_change (key : string * string) : M () :=
  modify (λ st, set__reactor_changes
                  (dict_set key (default 0 (dict_get key (__reactor_changes st)) + 1)%Z
                            (__reactor_changes st)) st).

(** [__run_reactor] after the [try] statement *)
Definition install_result (node_name : string) (reactor : Reactor)
    (old_metadata new_metadata : Metadata) : M (bool * gset string) :=
  clear_keyerror (node_name, reactor_name reactor);;
  st ← get_state;
  (if _verify_reactor_provides st then
     match _provides reactor with
     | Some (path :: paths) =>
         match extra_paths_in_dict env new_metadata (path :: paths) with
         | [] => mret ()
         | extra_paths =>
             raise (ValueError_provides (reactor_name reactor) node_name extra_paths)
         end
     | _ => mret ()
     end
   else mret ());;
  proxy ← _metadata_proxy_for_node node_name;
  match _set_layer 1 (reactor_name reactor) new_metadata (_metastack proxy) with
  | None => raise TypeError
  | Some stack =>
      update_proxy node_name (set_metastack stack);;
      let changed := bool_decide (old_metadata ≠ new_metadata) in
      (if changed then count_change (node_name, reactor_name reactor) else mret ());;
      st ← get_state;
      mret (changed, _partial_metadata_accessed_for st)
  end.

Definition __run_reactor (node_name : string) (reactor : Reactor)
  : M (bool * gset string) :=
  st ← get_state;
  if bool_decide ((node_name, reactor_name reactor) ∈ __do_not_run_again st) then
    mret (false, ∅)
  else
    old_metadata ← enter_reactor node_name reactor;
    r ← call_reactor node_name reactor;
    match r with
    | inl early => mret early
    | inr new_metadata => install_result node_name reactor old_metadata new_metadata
    end.

Definition __check_iteration_count (node_name : string) : M () :=
  modify (λ st, set__node_iterations
                  (<[node_name := (default 0 (__node_iterations st !! node_name) + 1)%Z]>
                     (__node_iterations st)) st);;
  st ← get_state;
  if bool_decide (default 0 (__node_iterations st !! node_name)
                  > MAX_METADATA_ITERATIONS env)%Z then
    raise (RuntimeError_iterations (MAX_METADATA_ITERATIONS env) node_name
             (most_common 25 (__reactor_changes st)))
  else mret ().

(** What [__run_reactors] records about the nodes a reactor looked at *)
Definition record_deps (node_name : string) (reactor : Reactor) (deps : gset string)
  : M () :=
  (if bool_decide (deps ≠ ∅) then
     modify (λ st, set__reactors_with_deps
                     (<[node_name := {[reactor_name reactor]}
                                       ∪ default ∅ (__reactors_with_deps st !! node_name)]>
                        (__reactors_with_deps st)) st)
   else mret ());;
  for_ (elements deps) (λ required_node_name,
    st ← get_state;
    (if bool_decide (required_node_name ∉ __nodes_that_ran_at_least_once st) then
       modify (set__nodes_that_never_ran
                 ({[required_node_name]} ∪ __nodes_that_never_ran st))
     else mret ());;
    modify (λ st, set__node_deps
                    (<[required_node_name := {[node_name]}
                                               ∪ default ∅ (__node_deps st !! required_node_name)]>
                       (__node_deps st)) st)).

(** One pass of the [for depsonly in (True, False)] loop; returns whether a
    reactor changed. *)
Definition run_pass (node_name : string) (depsonly : bool) : M bool :=
  pending ← _pending_reactors node_name;
  reactors ← randomize_order pending;
  foldl (λ (acc : M bool) reactor,
           any_reactor_changed ← acc;
           st ← get_state;
           let has_deps :=
             bool_decide (reactor_name reactor
                          ∈ default ∅ (__reactors_with_deps st !! node_name)) in
           if (depsonly && negb has_deps) || (negb depsonly && has_deps) then
             mret any_reactor_changed
           else
             '(reactor_changed, deps) ← __run_reactor node_name reactor;
             record_deps node_name reactor deps;;
             mret (reactor_changed || any_reactor_changed))
        (mret false) reactors.

Definition __run_reactors (node_name : string) (with_deps without_deps : bool)
  : M () :=
  __check_iteration_count node_name;;
  changed1 ← (if with_deps then run_pass node_name true else mret false);
  changed2 ← (if without_deps then run_pass node_name false else mret false);
  let any_reactor_changed := changed1 || changed2 in
  (if any_reactor_changed then
     st ← get_state;
     modify (set__triggered_nodes
               (default ∅ (__node_deps st !! node_name) ∪ __triggered_nodes st))
   else mret ());;
  if with_deps && any_reactor_changed then
    modify (λ st, set__node_stable (dict_set node_name false (__node_stable st)) st)
  else if without_deps then
    modify (λ st, set__node_stable
                    (dict_set node_name (negb any_reactor_changed) (__node_stable st)) st)
  else mret ().

(** [node.metadata._metastack._set_layer(tier, name, mapping)] *)
Definition set_layer_of (node_name : string) (tier : nat) (name : string)
    (mapping : Metadata) : M () :=
  proxy ← _metadata_proxy_for_node node_name;
  match _set_layer tier name mapping (_metastack proxy) with
  | Some stack => update_proxy node_name (set_metastack stack)
  | None => raise TypeError
  end.

(** [node.metadata._metastack._cache_partition(tier)] *)
Definition cache_partition_of (node_name : string) (tier : nat) : M () :=
  _metadata_proxy_for_node node_name;;
  update_proxy node_name (λ proxy,
    set_metastack (_cache_partition tier (_metastack proxy)) proxy).

Definition __initial_run_for_node (node_name : string) : M () :=
  node ← get_node node_name;
  defaults ← randomize_order (metadata_defaults node);
  for_ defaults (λ '(defaults_name, defaults),
    set_layer_of node_name 2 defaults_name defaults);;
  cache_partition_of node_name 2;;
  for_ (_flatten_group_hierarchy env (groups node)) (λ group_name,
    set_layer_of node_name 0 ("group:" +:+ group_name) (group_metadata env group_name));;
  set_layer_of node_name 0 ("node:" +:+ node_name) (node_metadata node);;
  cache_partition_of node_name 0;;
  __run_reactors node_name true true.

Definition __run_new_nodes : M () :=
  st ← get_state;
  match set_pop (__nodes_that_never_ran st) with
  | None => mret ()
  | Some (node_name, rest) =>
      modify (set__nodes_that_never_ran rest);;
      modify (λ st, set__nodes_that_ran_at_least_once
                      ({[node_name]} ∪ __nodes_that_ran_at_least_once st) st);;
      __initial_run_for_node node_name;;
      raise _StartOver
  end.

Definition __run_triggered_nodes : M () :=
  st ← get_state;
  match set_pop (__triggered_nodes st) with
  | None => mret ()
  | Some (node_name, rest) =>
      modify (set__triggered_nodes rest);;
      get_node node_name;;
      __run_reactors node_name true false;;
      raise _StartOver
  end.

(** [self.__node_stable[node]] *)
Definition stable_of (node_name : string) : M bool :=
  st ← get_state;
  match dict_get node_name (__node_stable st) with
  | Some stable => mret stable
  | None => raise (KeyError node_name)
  end.

(** The stabilisation loops return whether an unstable node was met. *)
Definition __run_unstable_nodes : M () :=
  st ← get_state;
  encountered_unstable_node ←
    foldl (λ (acc : M bool) node_name,
             encountered ← acc;
             stable ← stable_of node_name;
             if stable : bool then mret encountered
             else
               __run_reactors node_name false true;;
               stable ← stable_of node_name;
               st ← get_state;
               if bool_decide (__nodes_that_never_ran st ≠ ∅) then raise _StartOver
               else mret (negb stable || encountered))
          (mret false) (__node_stable st).*1;
  if encountered_unstable_node : bool then raise _StartOver else mret ().

Definition __run_nodes_with_deps : M () :=
  st ← get_state;
  node_names ← randomize_order (__node_stable st).*1;
  encountered_unstable_node ←
    foldl (λ (acc : M bool) node_name,
             encountered ← acc;
             __run_reactors node_name true false;;
             stable ← stable_of node_name;
             st ← get_state;
             if bool_decide (__nodes_that_never_ran st ≠ ∅) then raise _StartOver
             else mret (negb stable || encountered))
          (mret false) node_names;
  if encountered_unstable_node : bool then raise _StartOver else mret ().

(** [proxy._write_disk_cache()] *)
Definition _write_disk_cache (node_name : string) : M () :=
  proxy ← proxy_of node_name;
  modify (λ st,
    match disk_cache st !! node_name with
    | Some _ => st
    | None =>
        setdisk_cache (<[node_name := _as_dict env (_metastack proxy)]> (disk_cache st)) st
    end).

(** The loop that ends a successful round of [_build_node_metadata] *)
Definition mark_completed : M () :=
  st ← get_state;
  for_ (__node_stable st).*1 (λ node_name,
    proxy_of node_name;;
    relevant ← _relevant_reactors node_name;
    update_proxy node_name (λ proxy,
      set_metastack_came_from_cache (Some false)
        (set_satisfied true
           (set_completed_reactors (_completed_reactors proxy ∪ relevant) proxy)));;
    proxy ← proxy_of node_name;
    if BW_METADATA_CACHE_DIR env && covers (_requested_paths proxy) []
    then _write_disk_cache node_name
    else mret ()).

(** [try: m except _StartOver: continue]; [true] when [_StartOver] was caught *)
Definition catch_StartOver (m : M ()) : M bool := λ st,
  match m st with
  | (st', Val _) => (st', Val false)
  | (st', Exc _StartOver) => (st', Val true)
  | (st', Exc e) => (st', Exc e)
  | (st', Fuel) => (st', Fuel)
  end.

(** The [while not QUIT_EVENT.is_set()] loop; [fuel] bounds the number of
    rounds. *)
Fixpoint build_loop (fuel : nat) : M () :=
  quit ← quit_is_set;
  if quit : bool then mret ()
  else
    match fuel with
    | O => out_of_fuel
    | S fuel' =>
        start_over ← catch_StartOver
          (__run_new_nodes;;
           __run_triggered_nodes;;
           __run_unstable_nodes;;
           __run_nodes_with_deps;;
           mark_completed);
        if start_over : bool then build_loop fuel' else mret ()
    end.

Definition __reset : M () :=
  modify (λ st,
    set__reactors_with_deps ∅
      (set__reactor_changes []
         (set__reactors_run 0%Z
            (set__nodes_that_ran_at_least_once ∅
               (set__triggered_nodes ∅
                  (set__nodes_that_never_ran ∅
                     (set__node_stable []
                        (set__node_iterations ∅
                           (set__node_deps ∅
                              (set__keyerrors ∅
                                 (set__do_not_run_again ∅ st))))))))))).

(** [sorted(self.__keyerrors.items())] *)
Definition sorted_keyerrors (keyerrors : gmap (string * string) PyExc)
  : list ((string * string) * PyExc) :=
  merge_sort (λ a b, key_le a.1 b.1) (map_to_list keyerrors).

(** The statements of [_build_node_metadata] after the loop *)
Definition raise_persistent_keyerrors : M () :=
  st ← get_state;
  if bool_decide (__keyerrors st ≠ ∅) then
    quit ← quit_is_set;
    if quit : bool then mret ()
    else raise (MetadataPersistentKeyError (sorted_keyerrors (__keyerrors st)))
  else mret ().

Definition _build_node_metadata (fuel : nat) (initial_node_name : string) : M () :=
  proxy ← proxy_of initial_node_name;
  if _satisfied proxy then mret ()
  else
    __reset;;
    modify (λ st, set__nodes_that_never_ran
                    ({[initial_node_name]} ∪ __nodes_that_never_ran st) st);;
    build_loop fuel;;
    raise_persistent_keyerrors.

(** [NodeMetadataProxy.__ensure_uncached_metastack] *)
Definition __ensure_uncached_metastack (fuel : nat) (node_name : string) : M () :=
  proxy ← _metadata_proxy_for_node node_name;
  (if bool_decide (_metastack_came_from_cache proxy = Some true) then
     update_proxy node_name (λ proxy,
       set_satisfied false (set_metastack Metastack_init proxy))
   else mret ());;
  _build_node_metadata fuel node_name.

(** [NodeMetadataProxy.blame] and [NodeMetadataProxy.stack] *)

Definition blame (fuel : nat) (node_name : string) : M Blame :=
  st ← get_state;
  if _in_a_reactor st then raise (RuntimeError_in_reactor "blame")
  else
    __ensure_uncached_metastack fuel node_name;;
    proxy ← _metadata_proxy_for_node node_name;
    mret (_as_blame env (_metastack proxy)).

Definition stack (fuel : nat) (node_name : string) : M Metastack :=
  st ← get_state;
  if _in_a_reactor st then raise (RuntimeError_in_reactor "stack")
  else
    __ensure_uncached_metastack fuel node_name;;
    proxy ← _metadata_proxy_for_node node_name;
    mret (_metastack proxy).

(** *** Notions used to state the properties of the engine *)

(** A method keeps the relation [I] between the state before and after it,
    and raises only exceptions in [E]. *)
Definition keeps (I : MetadataGenerator → MetadataGenerator → Prop)
    (E : exn → Prop) {A} (m : M A) : Prop :=
  ∀ st, I st (m st).1 ∧ ∀ e, (m st).2 = Exc e → E e.

(** The [get] calls of a reactor touch the views and
    [_partial_metadata_accessed_for] only. *)
Definition same_bookkeeping (s s' : MetadataGenerator) : Prop :=
  __node_iterations s' = __node_iterations s
  ∧ __keyerrors s' = __keyerrors s
  ∧ __reactor_changes s' = __reactor_changes s
  ∧ __do_not_run_again s' = __do_not_run_again s
  ∧ _verify_reactor_provides s' = _verify_reactor_provides s
  ∧ _in_a_reactor s' = _in_a_reactor s.

(** Relations between the state before and after a method *)
Definition same_iterations (s s' : MetadataGenerator) : Prop :=
  __node_iterations s' = __node_iterations s.

(** The node has a view already or can be given one. *)
Definition known (node_name : string) (st : MetadataGenerator) : Prop :=
  is_Some (_node_metadata_proxies st !! node_name) ∨ is_Some (nodes env !! node_name).

(** The state in which [__run_reactor] calls the reactor *)
Definition entry_state (node_name : string) (reactor : Reactor)
    (st : MetadataGenerator) : MetadataGenerator :=
  (enter_reactor node_name reactor st).1.

(** What the reactor does when [__run_reactor] calls it *)
Definition reactor_run (node_name : string) (reactor : Reactor)
    (st : MetadataGenerator) : ReactorRun :=
  call reactor node_name (_node_metadata_proxies (entry_state node_name reactor st)).

(** The layer [_pop_layer] returns in [__run_reactor] *)
Definition popped_layer (node_name : string) (reactor : Reactor)
    (st : MetadataGenerator) : Metadata :=
  default (empty_metadata env)
    (layers (_metastack (default NodeMetadataProxy_init
                           (_node_metadata_proxies st !! node_name)))
     !! (1, reactor_name reactor)).

(** The check of the returned mapping against [reactor._provides] passes. *)
Definition provides_ok (st : MetadataGenerator) (reactor : Reactor)
    (new_metadata : Metadata) : bool :=
  negb (_verify_reactor_provides st)
  || match _provides reactor with
     | Some (path :: paths) =>
         bool_decide (extra_paths_in_dict env new_metadata (path :: paths) = [])
     | _ => true
     end.

Definition layer_of (node_name : string) (tier : nat) (name : string)
    (st : MetadataGenerator) : option Metadata :=
  proxy ← _node_metadata_proxies st !! node_name;
  layers (_metastack proxy) !! (tier, name).

Definition same_flag (s s' : MetadataGenerator) : Prop := _in_a_reactor s' = _in_a_reactor s.

(** The state in which the loop of [_build_node_metadata] starts *)
Definition start_state (initial_node_name : string) (st : MetadataGenerator)
  : MetadataGenerator :=
  ((__reset;;
    modify (λ st, set__nodes_that_never_ran
                    ({[initial_node_name]} ∪ __nodes_that_never_ran st) st)) st).1.

Definition not_persistent (e : exn) : Prop :=
  ∀ offenders, e ≠ MetadataPersistentKeyError offenders.

End Engine.

(** *** An example engine *)

(** [extra_paths_in_dict] on flat mappings: the keys that no declared path
    is a prefix of *)
Definition example_extra_paths (metadata : gmap string Z) (paths : list Path)
  : list Path :=
  filter (λ path : Path,
            forallb (λ declared, negb (list_starts_with path declared)) paths = true)
         ((λ kv : string * Z, [kv.1]) <$> map_to_list metadata).

(** A reactor that declares it provides [a] and returns [{"b": 1}] *)
Definition example_reactor : @Reactor (gmap string Z) :=
  {| reactor_name := "r";
     _provides := Some [["a"]];
     call := λ _ _, {| accesses := []; outcome := Returned {["b" := 1%Z]} |} |}.

(** A reactor that waits for a key *)
Definition example_waiting_reactor : @Reactor (gmap string Z) :=
  {| reactor_name := "w";
     _provides := None;
     call := λ _ _, {| accesses := []; outcome := RaisedKeyError "KeyError: 'a'" |} |}.

Definition example_node : @Node (gmap string Z) :=
  {| groups := []; node_metadata := ∅; metadata_defaults := [];
     metadata_reactors := [example_reactor; example_waiting_reactor] |}.

Definition example_env : @Environment (gmap string Z) () :=
  {| empty_metadata := ∅;
     valid_metadata := λ _, true;
     extra_paths_in_dict := example_extra_paths;
     _as_dict := λ _, ∅;
     _as_blame := λ _, ();
     nodes := {["n" := example_node]};
     group_metadata := λ _, ∅;
     _flatten_group_hierarchy := λ group_names, group_names;
     MAX_METADATA_ITERATIONS := 1000;
     BW_METADATA_CACHE_DIR := false;
     QUIT_EVENT := λ _, false;
     shuffle := λ _ _ xs, xs;
     pick := λ _, None |}.

(** A generator that has not run anything yet *)
Definition example_generator (verify_reactor_provides : bool)
  : @MetadataGenerator (gmap string Z) :=
  {| _in_a_reactor := false;
     _verify_reactor_provides := verify_reactor_provides;
     _partial_metadata_accessed_for := ∅;
     __do_not_run_again := ∅;
     __keyerrors := ∅;
     __node_deps := ∅;
     __node_iterations := ∅;
     __node_stable := [];
     __nodes_that_never_ran := ∅;
     __triggered_nodes := ∅;
     __nodes_that_ran_at_least_once := ∅;
     __reactors_run := 0;
     __reactor_changes := [];
     __reactors_with_deps := ∅;
     _node_metadata_proxies := ∅;
     disk_cache := ∅;
     quit_polls := 0;
     shuffles := 0 |}.

End Metagen.

(** ** deps.py: skipping items *)

(** The functions the item queue calls when an item has been skipped. Here
    the item list holds the objects themselves; [list.remove] finds an object
    by identity, which is the position it is met at. *)
Module Skip.
Import Py Deps.

(** The [for] loop of [_has_trigger_path]; [check] is the recursive call. *)
Fixpoint any_trigger (check : Item → result bool) (items : list Item)
    (triggered_ids : list string) : result bool :=
  match triggered_ids with
  | [] => Ok false
  | triggered_id :: rest =>
      match find_item triggered_id items with
      | Ok k =>
          triggered_item ← obj k items;
          b ← check triggered_item;
          if b : bool then Ok true else any_trigger check items rest
      | Raise (NoSuchItem _) => any_trigger check items rest
      | Raise e => Raise e
      | OutOfFuel => OutOfFuel
      end
  end.

(** The source recurses without keeping track of the items it has been at;
    [fuel] is the recursion depth left. *)
Fixpoint _has_trigger_path (fuel : nat) (items : list Item) (item : Item)
    (target_item_id : string) : result bool :=
  match fuel with
  | O => OutOfFuel
  | S fuel' =>
      if bool_decide (target_item_id ∈ triggers item) then Ok true
      else any_trigger
             (λ triggered_item,
                _has_trigger_path fuel' items triggered_item target_item_id)
             items (triggers item)
  end.

Definition remove_dep_from_items (items : list Item) (dep : string) : list Item :=
  (λ item, set_deps (list_remove_suppress dep (_deps item)) item) <$> items.

(** The body of the first loop of [remove_item_dependents], for the item at
    [i]; [removed_items] holds positions. *)
Definition check_dependent (fuel : nat) (dep_item : Item) (i : nat)
    (st : list Item * list nat) : result (list Item * list nat) :=
  let '(items, removed_items) := st in
  item ← obj i items;
  if bool_decide (id dep_item ∈ _deps item) then
    b ← _has_trigger_path fuel items dep_item (id item);
    if b : bool then
      items ← remove_dep i (id dep_item) items; Ok (items, removed_items)
    else if bool_decide (id dep_item ∈ _concurrency_deps item) then
      items ← remove_dep i (id dep_item) items; Ok (items, removed_items)
    else Ok (items, removed_items ++ [i])
  else Ok (items, removed_items).

(** The objects at the positions [removed] *)
Definition taken (removed : list nat) (items : list Item) : list Item :=
  omap (λ i, items !! i) removed.

(** [for item in removed_items: items.remove(item)] *)
Definition without (removed : list nat) (items : list Item) : list Item :=
  omap (λ i, if bool_decide (i ∈ removed) then None else items !! i)
       (seq 0 (length items)).

Fixpoint remove_item_dependents (fuel : nat) (items : list Item) (dep_item : Item)
  : result (list Item * list Item) :=
  match fuel with
  | O => OutOfFuel
  | S fuel' =>
      '(items, removed) ←
        for_each (positions items) (check_dependent fuel' dep_item) (items, []);
      let removed_items := taken removed items in
      let items := without removed items in
      '(items, all_recursively_removed_items) ←
        for_each removed_items (λ removed_item '(items, all_recursively_removed_items),
          if cascade_skip removed_item then
            '(items, recursively_removed_items) ←
              remove_item_dependents fuel' items removed_item;
            Ok (items, all_recursively_removed_items ++ recursively_removed_items)
          else
            Ok (remove_dep_from_items items (id removed_item),
                all_recursively_removed_items))
          (items, []);
      Ok (items, removed_items ++ all_recursively_removed_items)
  end.

Definition split_items_without_deps (items : list Item) : list Item * list Item :=
  foldl (λ '(remaining_items, removed_items) item,
           if bool_decide (_deps item ≠ [])
           then (remaining_items ++ [item], removed_items)
           else (remaining_items, removed_items ++ [item]))
        ([], []) items.

(** *** Notions used to state the properties *)

(** [item] triggers [target_item_id], directly or through the items its
    triggers name. *)
Inductive trigger_path (items : list Item) : Item → string → Prop :=
  | trigger_direct item target_item_id :
      target_item_id ∈ triggers item → trigger_path items item target_item_id
  | trigger_through item triggered_id k triggered_item target_item_id :
      triggered_id ∈ triggers item →
      find_item triggered_id items = Ok k →
      items !! k = Some triggered_item →
      trigger_path items triggered_item target_item_id →
      trigger_path items item target_item_id.

(** An item with its [_deps] left out *)
Definition without_deps (item : Item) : Item := set_deps [] item.

(** [b] is [a] after entries were removed from its [_deps]. *)
Definition shrinks (a b : Item) : Prop :=
  without_deps a = without_deps b ∧ _deps b `sublist_of` _deps a.

(** Every item of [B] is an item of [A] that lost nothing but [_deps]
    entries. *)
Definition shrunk (A B : list Item) : Prop :=
  ∀ b, b ∈ B → ∃ a, a ∈ A ∧ shrinks a b.

(** The state of the first loop of [remove_item_dependents] on [items0] after
    [k] rounds: the positions in [removed_items] are those of untouched items
    that depend on [dep_item]; the other items visited have lost the first
    occurrence of its id, if any. *)
Definition first_loop_inv (items0 : list Item) (dep_item : Item) (k : nat)
    (st : list Item * list nat) : Prop :=
  store_rel shrinks items0 st.1
  ∧ st.2 = filter (λ i, i ∈ st.2) (seq 0 k)
  ∧ (∀ i, i ∈ st.2 →
       st.1 !! i = items0 !! i
       ∧ ∃ item, items0 !! i = Some item ∧ id dep_item ∈ _deps item)
  ∧ (∀ i item0, (i < k)%nat → i ∉ st.2 → items0 !! i = Some item0 →
       ∃ item, st.1 !! i = Some item
               ∧ _deps item = list_remove_suppress (id dep_item) (_deps item0))
  ∧ (∀ i, (k ≤ i)%nat → st.1 !! i = items0 !! i).

(** No item of [items] depends on an item of [gone]. *)
Definition independent_of (gone : list Item) (items : list Item) : Prop :=
  ∀ item r, item ∈ items → r ∈ gone → id r ∉ _deps item.

Definition deps_NoDup (items : list Item) : Prop :=
  ∀ item, item ∈ items → NoDup (_deps item).

(** What [remove_item_dependents] has done when it returns: the items kept
    and the items removed are the items of the input, which have lost
    nothing but [_deps] entries; and where no [_deps] list had duplicates,
    no item kept depends on the skipped item or on a removed one. *)
Definition skip_post (items0 : list Item) (dep_item : Item)
    (res : list Item * list Item) : Prop :=
  without_deps <$> (res.1 ++ res.2) ≡ₚ without_deps <$> items0
  ∧ shrunk items0 (res.1 ++ res.2)
  ∧ (deps_NoDup items0 → independent_of (dep_item :: res.2) res.1).

(** The state of the second loop of [remove_item_dependents], entered with
    the items [items_a], after the removed items [done] *)
Definition second_loop_inv (items_a : list Item) (done : list Item)
    (st : list Item * list Item) : Prop :=
  without_deps <$> (st.1 ++ st.2) ≡ₚ without_deps <$> items_a
  ∧ shrunk items_a (st.1 ++ st.2)
  ∧ (deps_NoDup items_a → independent_of (done ++ st.2) st.1).

(** The triggers named by an item have a smaller rank than the item: the
    trigger graph has no cycle. *)
Definition triggers_descend (rank : string → nat) (item : Item) : Prop :=
  ∀ triggered_id, triggered_id ∈ triggers item →
    (rank triggered_id < rank (id item))%nat.

(** *** Example items *)

(** A file that triggers a service, which triggers an action *)
Definition example_chain : list Item :=
  [set_triggers ["svc:b"] (example_item example_file "/a" "b1" [] [] false);
   set_triggers ["action:c"]
     (example_item (example_class "svc" []) "b" "b1" [] [] true);
   example_item (example_class "action" []) "c" "b1" [] [] true].

(** The rank of the ids of [example_chain] *)
Definition example_rank (item_id : string) : nat :=
  if decide (item_id = "file:/a") then 2
  else if decide (item_id = "svc:b") then 1 else 0.

(** Two files, the second depending on the first, which depends on a
    package, and a third file that depends on nothing *)
Definition example_queue : list Item :=
  [set_deps ["pkg:x"] (example_item example_file "/a" "b1" [] [] false);
   set_deps ["file:/a"] (example_item example_file "/b" "b1" [] [] false);
   example_item example_file "/c" "b1" [] [] false].

(** An action that triggers itself *)
Definition example_loop : Item :=
  set_triggers ["action:again"]
    (example_item (example_class "action" []) "again" "b1" [] [] true).

End Skip.

(** ** deps.py: notions for the injection passes *)

Module Inject.
Import Py Deps.

(** What [_inject_reverse_dependencies] may change of an item, once
    [_reverse_deps] has been reset: the same ids are appended to [_deps] and
    to [_reverse_deps], and [_deps] gets no id twice. *)
Definition grows_reverse (a b : Item) : Prop :=
  b = set_reverse_deps (_reverse_deps b) (set_deps (_deps b) a)
  ∧ (∃ extra, _deps b = _deps a ++ extra
              ∧ _reverse_deps b = _reverse_deps a ++ extra)
  ∧ (NoDup (_deps a) → NoDup (_deps b)).

(** What [_inject_reverse_triggers] may change of an item: ids are appended
    to [triggers] and to [preceded_by]. *)
Definition grows_triggers (a b : Item) : Prop :=
  b = set_preceded_by (preceded_by b) (set_triggers (triggers b) a)
  ∧ triggers a `prefix_of` triggers b
  ∧ preceded_by a `prefix_of` preceded_by b.

(** What [_inject_trigger_dependencies] may change of an item: ids are
    appended to [_deps]. *)
Definition grows_deps (a b : Item) : Prop :=
  b = set_deps (_deps b) a ∧ _deps a `prefix_of` _deps b.

(** The loop over the selectors [sels] of the item [item], as the injection
    passes have it: [resolve] is [resolve_selector] inside its [try], [step]
    the body of the innermost loop. *)
Definition selector_loop
    (resolve : Item → string → list Item → result resolved)
    (step : Item → nat → list Item → result (list Item))
    (item : Item) (sels : list string) (items : list Item) : result (list Item) :=
  for_each sels (λ sel items,
    r ← resolve item sel items;
    for_each (resolved_items r) (step item) items) items.

(** An item that another one needs, that is triggered by it and precedes
    it *)
Definition example_reverse : list Item :=
  [{| id := "pkg:x"; bundle_name := "b1"; cls := example_pkg; tags := [];
      needs := []; needed_by := ["file:/a"]; triggers := [];
      triggered_by := ["file:/a"]; precedes := ["file:/a"]; preceded_by := [];
      triggered := true; cascade_skip := true; _deps := [];
      _reverse_deps := []; _concurrency_deps := []; _flattened_deps := None;
      _incoming_deps := None; _precedes_items := []; __deps := [] |};
   example_item example_file "/a" "b1" [] [] false].

End Inject.

(** ** metagen.py: further notions *)

Module MetagenNotions.
Import Metagen.

(** No node is both waiting for its initial run and marked as having run. *)
Definition queues_disjoint {Metadata : Type} (st : @MetadataGenerator Metadata) : Prop :=
  __nodes_that_never_ran st ## __nodes_that_ran_at_least_once st.

(** A method keeps [queues_disjoint]. *)
Definition keeps_queues {Metadata : Type} (st st' : @MetadataGenerator Metadata) : Prop :=
  queues_disjoint st → queues_disjoint st'.

(** The fields that only [__reset], [__run_new_nodes] and [__run_reactors]
    write *)
Definition same_queues {Metadata : Type} (st st' : @MetadataGenerator Metadata) : Prop :=
  __nodes_that_never_ran st' = __nodes_that_never_ran st
  ∧ __nodes_that_ran_at_least_once st' = __nodes_that_ran_at_least_once st.

(** The counter of reactor calls is as before. *)
Definition same_runs {Metadata : Type} (st st' : @MetadataGenerator Metadata) : Prop :=
  __reactors_run st' = __reactors_run st.

(** [PathSet.add] does not have to hash the path of a [get]: the path is a
    tuple or a [str], or a list that the set covers already. *)
Definition add_succeeds (requested : PathSet) (path : PathArg) : Prop :=
  match path with
  | PathList p => covers requested p = true
  | _ => True
  end.

(** The mapping that a [get] on the view [proxy] of [node_name] reads from the
    disk cache: none when the view has read or built its stack before, when
    no cache directory is set, or when the file is missing. *)
Definition cached_blob {Metadata Blame : Type} (env : @Environment Metadata Blame)
    (st : @MetadataGenerator Metadata) (node_name : string)
    (proxy : @NodeMetadataProxy Metadata) : option Metadata :=
  match _metastack_came_from_cache proxy with
  | None => if BW_METADATA_CACHE_DIR env then disk_cache st !! node_name else None
  | Some _ => None
  end.

(** A reactor that has done its work for good *)
Definition example_done_reactor : @Reactor (gmap string Z) :=
  {| reactor_name := "d";
     _provides := None;
     call := λ _ _, {| accesses := [("n", PathTuple ["a"])]; outcome := RaisedDoNotRunAgain |} |}.

End MetagenNotions.

(** ** bundle.py *)

Module Bundle.
Import Metagen.

Definition FILENAME_BUNDLE : string := "items.py".
Definition FILENAME_METADATA : string := "metadata.py".

Inductive exn :=
  | RepositoryError (name : string)
  | NoSuchBundle (name : string)
  | RuntimeError (attr bundle item : string)
  | BundleError (name bundle node internal_name : string)
  (** an exception raised by the constructor of an item class *)
  | ItemError (msg : string).

Section Bundle.

(** [Attrs] is the dict of attributes of one item in [items.py], [Item] an
    item object, [Obj] an object defined in [metadata.py]; two values of
    [Obj] are equal when a Python [set] takes them for the same element. *)
Context {Attrs Item Obj : Type} `{EqDecision Obj}.

Record Bundle := {
  name : string;
  node_name : string;
  bundle_dir : string;
  bundle_data_dir : string;
  bundle_file : string;
  metadata_file : string;
}.

(** An item class of [bundlewrap/items]: its [BUNDLE_ATTRIBUTE_NAME] and its
    constructor [item_class(bundle, item_name, item_attrs)], which returns
    the item or raises an exception of its own, given by its message. *)
Record ItemClass := {
  BUNDLE_ATTRIBUTE_NAME : string;
  construct : Bundle → string → Attrs → string + Item;
}.

(** What [bundle.py] takes from the rest of the program: the repository
    ([repo.bundle_names], [repo.bundles_dir], [repo.data_dir],
    [repo.item_classes]), [validate_name] of [bundlewrap/utils/text.py],
    [os.path.join] and [os.path.exists], and [get_all_attrs_from_file] of
    [bundlewrap/utils] on [items.py] and on [metadata.py]; the dicts it
    returns are association lists in the order of definition. Of an object
    defined in [metadata.py] the code reads [_is_metadata_reactor] and
    [__name__] ([None] when the attribute is missing). *)
Record World := {
  bundle_names : list string;
  bundles_dir : string;
  data_dir : string;
  item_classes : list ItemClass;
  validate_name : string → bool;
  join : string → string → string;
  exists_ : string → bool;
  attrs_of_bundle_file : string → list (string * list (string * Attrs));
  attrs_of_metadata_file : string → list (string * Obj);
  _is_metadata_reactor : Obj → bool;
  __name__ : Obj → option string;
  empty_dict : Obj;
  (** [func._is_metadata_reactor = True] *)
  tag : Obj → Obj;
}.

Variable w : World.

(** The decorator [metadata_reactor] *)
Definition metadata_reactor (func : Obj) : Obj := tag w func.

(** [Bundle(node, name)] *)
Definition Bundle_init (node : string) (name : string) : exn + Bundle :=
  if negb (validate_name w name) then inl (RepositoryError name)
  else if bool_decide (name ∉ bundle_names w) then inl (NoSuchBundle name)
  else
    let bundle_dir := join w (bundles_dir w) name in
    inr {| name := name; node_name := node;
           bundle_dir := bundle_dir;
           bundle_data_dir := join w (data_dir w) name;
           bundle_file := join w bundle_dir FILENAME_BUNDLE;
           metadata_file := join w bundle_dir FILENAME_METADATA |}.

(** [self.name < other.name] *)
Definition Bundle_lt (self other : Bundle) : bool :=
  String.ltb (name self) (name other).

Definition bundle_attrs (self : Bundle) : list (string * list (string * Attrs)) :=
  if negb (exists_ w (bundle_file self)) then []
  else attrs_of_bundle_file w (bundle_file self).

Definition make_item (self : Bundle) (attribute_name item_name : string)
    (item_attrs : Attrs) : exn + Item :=
  match filter (λ item_class, BUNDLE_ATTRIBUTE_NAME item_class = attribute_name)
               (item_classes w) with
  | item_class :: _ =>
      match construct item_class self item_name item_attrs with
      | inr item => inr item
      | inl msg => inl (ItemError msg)
      end
  | [] => inl (RuntimeError attribute_name (name self) item_name)
  end.

(** Collects what a generator yields until it raises. *)
Fixpoint collect {A B} (f : A → exn + B) (xs : list A) : exn + list B :=
  match xs with
  | [] => inr []
  | x :: xs' =>
      match f x with
      | inl e => inl e
      | inr y =>
          match collect f xs' with
          | inl e => inl e
          | inr ys => inr (y :: ys)
          end
      end
  end.

(** The pairs of attribute name and entry that the two loops of [items]
    walk through *)
Definition item_entries (self : Bundle) : list (string * (string * Attrs)) :=
  item_class ← item_classes w;
  (λ entry, (BUNDLE_ATTRIBUTE_NAME item_class, entry))
    <$> default [] (dict_get (BUNDLE_ATTRIBUTE_NAME item_class) (bundle_attrs self)).

(** What the generator [items] yields when it is walked for the first time:
    all its items, or the exception that ends it. *)
Definition items (self : Bundle) : exn + list Item :=
  collect (λ '(attribute_name, (item_name, item_attrs)),
             make_item self attribute_name item_name item_attrs)
          (item_entries self).

(** [reactors.add(attr)], the set being kept in the order of insertion *)
Definition set_add (attr : Obj) (reactors : list Obj) : list Obj :=
  if bool_decide (attr ∈ reactors) then reactors else reactors ++ [attr].

(** The loop of [_metadata_defaults_and_reactors] *)
Fixpoint collect_reactors (self : Bundle) (attrs : list (string * Obj))
    (defaults : Obj) (reactors : list Obj) (internal_names : list string)
  : exn + (Obj * list Obj) :=
  match attrs with
  | [] => inr (defaults, reactors)
  | (name_, attr) :: rest =>
      if decide (name_ = "defaults") then
        collect_reactors self rest attr reactors internal_names
      else if _is_metadata_reactor w attr then
        let internal_name := default name_ (__name__ w attr) in
        if bool_decide (internal_name ∈ internal_names) then
          inl (BundleError name_ (name self) (node_name self) internal_name)
        else
          collect_reactors self rest defaults (set_add attr reactors)
                           (internal_names ++ [internal_name])
      else collect_reactors self rest defaults reactors internal_names
  end.

Definition _metadata_defaults_and_reactors (self : Bundle) : exn + (Obj * list Obj) :=
  if negb (exists_ w (metadata_file self)) then inr (empty_dict w, [])
  else collect_reactors self (attrs_of_metadata_file w (metadata_file self))
                        (empty_dict w) [] [].

(** *** Notions used to state the properties *)

(** The first item class that has the attribute name *)
Definition class_for (attribute_name : string) : option ItemClass :=
  head (filter (λ item_class, BUNDLE_ATTRIBUTE_NAME item_class = attribute_name)
               (item_classes w)).

(** The name by which the engine tells a reactor apart *)
Definition internal_name_of (entry : string * Obj) : string :=
  default entry.1 (__name__ w entry.2).

(** The entries of [metadata.py] that are metadata reactors *)
Definition reactor_entries (attrs : list (string * Obj)) : list (string * Obj) :=
  filter (λ entry, entry.1 ≠ "defaults" ∧ _is_metadata_reactor w entry.2 = true) attrs.

End Bundle.

(** *** An example repository *)

(** Item classes whose constructor keeps the name of the item; two of them
    share an attribute name. *)
Definition example_classes : list (@ItemClass () string) :=
  [{| BUNDLE_ATTRIBUTE_NAME := "files";
      construct := λ _ item_name _, inr ("file:" +:+ item_name) |};
   {| BUNDLE_ATTRIBUTE_NAME := "files";
      construct := λ _ item_name _, inr ("other:" +:+ item_name) |};
   {| BUNDLE_ATTRIBUTE_NAME := "pkg_apt";
      construct := λ _ item_name _, inr ("pkg_apt:" +:+ item_name) |}].

(** Objects of [metadata.py]: whether they are tagged and their [__name__] *)
Definition example_world : @World () string (bool * option string) :=
  {| bundle_names := ["b1"];
     bundles_dir := "bundles";
     data_dir := "data";
     item_classes := example_classes;
     validate_name := λ _, true;
     join := λ a b, a +:+ "/" +:+ b;
     exists_ := λ _, true;
     attrs_of_bundle_file := λ _,
       [("files", [("/a", ()); ("/b", ())]); ("pkg_apt", [("x", ())])];
     attrs_of_metadata_file := λ _,
       [("defaults", (false, None)); ("r1", (true, Some "r1"));
        ("helper", (false, Some "helper")); ("r2", (true, Some "wrapped"));
        ("r3", (true, Some "wrapped"))];
     _is_metadata_reactor := fst;
     __name__ := snd;
     empty_dict := (false, None);
     tag := λ func, (true, func.2) |}.

Definition example_bundle : Bundle :=
  {| name := "b1"; node_name := "n";
     bundle_dir := "bundles/b1"; bundle_data_dir := "data/b1";
     bundle_file := "bundles/b1/items.py";
     metadata_file := "bundles/b1/metadata.py" |}.

End Bundle.

(** * Theorems about the dependency preparation ([deps.py]) *)

Module DepsTheory.
Import Py Deps.

Lemma triple_bind {S T} (m : result S) (k : S → result T) Q Q' E F :
  triple m Q E F → (∀ s, Q s → triple (k s) Q' E F) → triple (m ≫= k) Q' E F.
Proof. destruct m; simpl; auto. Qed.

Lemma triple_weaken {S} (r : result S) (Q Q' : S → Prop) (E E' : exn → Prop) (F F' : Prop) :
  triple r Q E F → (∀ s, Q s → Q' s) → (∀ e, E e → E' e) → (F → F') →
  triple r Q' E' F'.
Proof. destruct r; simpl; auto. Qed.

Lemma bind_Ok_l {S T} (a : S) (k : S → result T) : Ok a ≫= k = k a.
Proof. reflexivity. Qed.

Lemma bind_Ok {S T} (m : result S) (k : S → result T) t :
  m ≫= k = Ok t ↔ ∃ s, m = Ok s ∧ k s = Ok t.
Proof.
  destruct m as [s| |]; simpl; split; eauto.
  - by intros (s' & [= <-] & Hk).
  - intros ?. discriminate.
  - by intros (s' & ? & _).
  - intros ?. discriminate.
  - by intros (s' & ? & _).
Qed.

(** A loop whose body keeps the preorder [R] and establishes the fact
    [Fact x], stable under [R], for the element [x] it handles. *)
Lemma for_each_triple {A S} (R : S → S → Prop) `{!PreOrder R}
    (Fact : A → S → Prop) (E : exn → Prop) (F : Prop)
    (xs : list A) (body : A → S → result S) (s0 : S) :
  (∀ x s s', Fact x s → R s s' → Fact x s') →
  (∀ x s, x ∈ xs → R s0 s →
     triple (body x s) (λ s', R s s' ∧ Fact x s') E F) →
  triple (for_each xs body s0) (λ s', R s0 s' ∧ ∀ x, x ∈ xs → Fact x s') E F.
Proof.
  intros Hmono Hbody.
  assert (∀ s, R s0 s →
    triple (for_each xs body s) (λ s', R s s' ∧ ∀ x, x ∈ xs → Fact x s') E F) as Hgen.
  { clear -Hmono Hbody PreOrder0. induction xs as [|x xs IH]; intros s Hs; simpl.
    - split; [reflexivity|]. intros x Hx. by apply not_elem_of_nil in Hx.
    - eapply triple_bind.
      + apply Hbody; [by left|done].
      + intros s1 [H1 Hf]. simpl.
        eapply triple_weaken; [apply IH| | |].
        * intros y t Hy Ht. apply Hbody; [by right|done].
        * by transitivity s.
        * intros s' [H2 Hall]. split; [by transitivity s1|].
          intros y [->|Hy]%elem_of_cons; [by eapply Hmono|by apply Hall].
        * done.
        * done. }
  apply Hgen. reflexivity.
Qed.

(** *** Selectors *)

Lemma split_colon_app (k rest : string) :
  (∀ c, c ∈ String.list_ascii_of_string k → c ≠ ":"%char) →
  split_colon (k +:+ ":" +:+ rest) = Some (k, rest).
Proof.
  induction k as [|c k IH]; intros Hk; simpl; [done|].
  destruct (Ascii.eqb_spec c ":"%char) as [->|Hc].
  { exfalso. eapply Hk; [|done]. simpl. by left. }
  rewrite IH; [done|]. intros c' Hc'. apply Hk. simpl. by right.
Qed.

(** What [resolve_selector] computes for a selector [KIND:]: the items whose
    [ITEM_TYPE_NAME] is the empty [selector_name], not those of kind [KIND]. *)
Lemma resolve_kind_selector (KIND : string) (items : list Item) :
  (∀ c, c ∈ String.list_ascii_of_string KIND → c ≠ ":"%char) →
  KIND ≠ "bundle" → KIND ≠ "tag" →
  resolve_selector (KIND +:+ ":") items
  = Ok (FilterIter (filter_items (λ item, bool_decide (kind item = "")) items)).
Proof.
  intros Hk Hb Ht. unfold resolve_selector.
  change (KIND +:+ ":") with (KIND +:+ ":" +:+ "").
  rewrite (split_colon_app KIND "" Hk).
  rewrite decide_False by done. rewrite decide_False by done.
  by rewrite decide_True.
Qed.

(** *** Stores *)

Global Instance store_rel_preorder R `{!PreOrder R} : PreOrder (store_rel R).
Proof.
  split.
  - intros S. split; [done|]. intros k a b Ha Hb. simplify_eq. reflexivity.
  - intros S T U [Hl1 H1] [Hl2 H2]. split; [congruence|].
    intros k a c Ha Hc.
    destruct (T !! k) as [b|] eqn:Hb.
    + transitivity b; eauto.
    + apply lookup_ge_None in Hb. apply lookup_lt_Some in Ha. lia.
Qed.

Lemma store_rel_update R `{!Reflexive R} (i : nat) (f : Item → Item) (S : list Item) :
  (∀ x, S !! i = Some x → R x (f x)) → store_rel R S (update i f S).
Proof.
  intros Hf. unfold update. split; [by rewrite length_alter|].
  intros k a b Ha Hb. rewrite list_lookup_alter in Hb.
  destruct (decide (i = k)) as [->|Hne].
  - rewrite Ha in Hb. simpl in Hb. simplify_eq. by apply Hf.
  - simplify_eq. reflexivity.
Qed.

Lemma lookup_update_eq (S : list Item) i f x :
  S !! i = Some x → update i f S !! i = Some (f x).
Proof. intros Hx. unfold update. by rewrite list_lookup_alter_eq, Hx. Qed.

Lemma lookup_update_ne (S : list Item) i j f :
  i ≠ j → update i f S !! j = S !! j.
Proof. intros Hne. unfold update. by rewrite list_lookup_alter_ne. Qed.

Lemma length_update (S : list Item) i f : length (update i f S) = length S.
Proof. apply length_alter. Qed.

Lemma store_rel_weaken (R R' : Item → Item → Prop) S T :
  (∀ a b, R a b → R' a b) → store_rel R S T → store_rel R' S T.
Proof. intros HR [Hl H]. split; [done|]. eauto. Qed.

Lemma store_rel_lookup R S T k a :
  store_rel R S T → S !! k = Some a → ∃ b, T !! k = Some b ∧ R a b.
Proof.
  intros [Hl H] Ha. destruct (T !! k) as [b|] eqn:Hb; [eauto|].
  apply lookup_ge_None in Hb. apply lookup_lt_Some in Ha. lia.
Qed.

Lemma store_rel_lookup_r R S T k b :
  store_rel R S T → T !! k = Some b → ∃ a, S !! k = Some a ∧ R a b.
Proof.
  intros [Hl H] Hb. destruct (S !! k) as [a|] eqn:Ha; [eauto|].
  apply lookup_ge_None in Ha. apply lookup_lt_Some in Hb. lia.
Qed.

Global Instance same_identity_preorder : PreOrder same_identity.
Proof.
  split; [done|]. intros a b c (?&?&?&?) (?&?&?&?).
  unfold same_identity. repeat split; congruence.
Qed.

Lemma elem_of_filter_items pred (S : list Item) i :
  i ∈ filter_items pred S ↔ ∃ item, S !! i = Some item ∧ pred item = true.
Proof.
  unfold filter_items. rewrite list_elem_of_filter, elem_of_seq. split.
  - intros [Hp Hi]. destruct (S !! i) as [item|]; simpl in Hp; [|done].
    exists item. split; [done|]. by apply Is_true_true.
  - intros (item & Hi & Hp). rewrite Hi. simpl. split; [by apply Is_true_true|].
    apply lookup_lt_Some in Hi. lia.
Qed.

Lemma filter_ext_in {A} (P1 P2 : A → Prop)
    `{!∀ x, Decision (P1 x), !∀ x, Decision (P2 x)} (l : list A) :
  (∀ x, x ∈ l → (P1 x ↔ P2 x)) → filter P1 l = filter P2 l.
Proof.
  induction l as [|a l IH]; intros Hiff; [done|].
  rewrite !filter_cons.
  rewrite IH by (intros x Hx; apply Hiff; by right).
  destruct (Hiff a) as [Ha1 Ha2]; [by left|].
  destruct (decide (P1 a)) as [H1|H1], (decide (P2 a)) as [H2|H2]; try done; tauto.
Qed.

Lemma filter_items_ext pred (S T : list Item) :
  store_rel (λ a b, pred a = pred b) S T → filter_items pred S = filter_items pred T.
Proof.
  intros [Hl H]. unfold filter_items. rewrite <- Hl.
  apply filter_ext_in. intros i Hi. apply elem_of_seq in Hi.
  destruct (lookup_lt_is_Some_2 S i) as [a Ha]; [lia|].
  destruct (lookup_lt_is_Some_2 T i) as [b Hb]; [lia|].
  rewrite Ha, Hb. simpl. by rewrite (H i a b Ha Hb).
Qed.

Lemma resolve_selector_ext selector (S T : list Item) :
  store_rel same_identity S T →
  resolve_selector selector S = resolve_selector selector T.
Proof.
  intros HST. unfold resolve_selector, find_item.
  destruct (split_colon selector) as [[selector_type selector_name]|]; [|done].
  assert (∀ pred, (∀ a b, same_identity a b → pred a = pred b) →
                  filter_items pred S = filter_items pred T) as Hf.
  { intros pred Hpred. apply filter_items_ext.
    eapply store_rel_weaken; [|done]. done. }
  repeat case_decide.
  - rewrite (Hf (λ item, bool_decide (bundle_name item = selector_name))); [done|].
    intros a b (?&Hb&?&?). by rewrite Hb.
  - rewrite (Hf (λ item, bool_decide (selector_name ∈ tags item))); [done|].
    intros a b (?&?&?&Ht). by rewrite Ht.
  - rewrite (Hf (λ item, bool_decide (kind item = selector_name))); [done|].
    intros a b (?&?&Hc&?). unfold kind. by rewrite Hc.
  - rewrite (Hf (λ item, bool_decide (id item = selector))); [done|].
    intros a b (Hi&?&?&?). by rewrite Hi.
Qed.

Lemma resolve_selector_positions selector (S : list Item) r i :
  resolve_selector selector S = Ok r → i ∈ resolved_items r → i < length S.
Proof.
  unfold resolve_selector, find_item.
  destruct (split_colon selector) as [[selector_type selector_name]|]; [|done].
  assert (∀ pred, i ∈ filter_items pred S → i < length S) as Hlt.
  { intros pred (item & Hi & _)%elem_of_filter_items. by eapply lookup_lt_Some. }
  repeat case_decide; try (intros [= <-]; simpl; by apply Hlt).
  destruct (filter_items _ S) as [|j l] eqn:Hj; simpl; [done|].
  intros [= <-]. simpl. intros ->%list_elem_of_singleton.
  apply (Hlt (λ item, bool_decide (id item = selector))). rewrite Hj. by left.
Qed.

Lemma obj_Ok (S : list Item) i : i < length S → ∃ item, S !! i = Some item ∧ obj i S = Ok item.
Proof.
  intros Hi. destruct (lookup_lt_is_Some_2 S i Hi) as [item Hitem].
  exists item. unfold obj. by rewrite Hitem.
Qed.

Lemma obj_lookup (S : list Item) i item : S !! i = Some item → obj i S = Ok item.
Proof. intros Hi. unfold obj. by rewrite Hi. Qed.

(** *** [preceded_by] injection *)

Global Instance grows_preceding_preorder : PreOrder grows_preceding.
Proof.
  split.
  - intros a. split; [by destruct a|done].
  - intros a b c (Hb & Hb1 & Hb2) (Hc & Hc1 & Hc2). split; [|split].
    + rewrite Hc, Hb. by destruct a.
    + by etrans.
    + by etrans.
Qed.

Lemma grows_preceding_identity a b : grows_preceding a b → same_identity a b.
Proof. intros (-> & _). by destruct a. Qed.

Lemma grows_preceding_static a b :
  grows_preceding a b →
  triggered a = triggered b ∧ preceded_by a = preceded_by b
  ∧ id a = id b ∧ bundle_name a = bundle_name b.
Proof. intros (-> & _). by destruct a. Qed.

Lemma attached_mono a b T T' :
  attached a b T → store_rel grows_preceding T T' → attached a b T'.
Proof.
  intros (Ta & Tb & Ha & Hb & Ht & Hp & Hd) HT.
  destruct (store_rel_lookup _ _ _ _ _ HT Ha) as (Ta' & Ha' & Hga).
  destruct (store_rel_lookup _ _ _ _ _ HT Hb) as (Tb' & Hb' & Hgb).
  exists Ta', Tb'. split; [done|]. split; [done|].
  destruct (grows_preceding_static _ _ Hgb) as (Htr & _ & Hid & _).
  destruct Hga as (_ & [ka Hka] & _). destruct Hgb as (_ & _ & [kb Hkb]).
  rewrite <- Htr, <- Hid, Hka, Hkb. split; [done|].
  split; apply elem_of_app; by left.
Qed.

Lemma attach_preceding_spec i item t (T : list Item) Ti Tt :
  T !! i = Some Ti → T !! t = Some Tt →
  triple (attach_preceding i item t T)
    (λ T', store_rel grows_preceding T T' ∧ attached i t T')
    (λ e, triggered Tt = false
          ∧ e = BundleError (PrecededByMissingTriggered (id Tt) (bundle_name Tt)
                               (id item) (bundle_name item)))
    False.
Proof.
  intros Hi Ht. unfold attach_preceding. rewrite (obj_lookup _ _ _ Ht). simpl.
  destruct (triggered Tt) eqn:Htr; simpl; [|done].
  split.
  - etrans; apply store_rel_update; try apply _.
    + intros x Hx. split; [by destruct x|]. split; [done|]. by apply prefix_app_r.
    + intros x Hx. split; [by destruct x|]. split; [|done]. by apply prefix_app_r.
  - unfold attached. destruct (decide (i = t)) as [->|Hne].
    + assert (Ti = Tt) as -> by congruence.
      eexists _, _. split; [|split].
      * apply lookup_update_eq. by apply lookup_update_eq.
      * apply lookup_update_eq. by apply lookup_update_eq.
      * simpl. split; [done|]. split; apply elem_of_app; right; by left.
    + eexists _, _. split; [|split].
      * apply lookup_update_eq. by rewrite lookup_update_ne.
      * rewrite lookup_update_ne by done. by apply lookup_update_eq.
      * simpl. split; [done|]. split; apply elem_of_app; right; by left.
Qed.

Lemma preceded_by_done_mono base a T T' :
  preceded_by_done base a T → store_rel grows_preceding T T' →
  preceded_by_done base a T'.
Proof.
  intros Hd HT A' HA'.
  destruct (store_rel_lookup_r _ _ _ _ _ HT HA') as (A & HA & Hg).
  destruct (grows_preceding_static _ _ Hg) as (Htr & Hpb & _).
  destruct (Hd A HA) as [H1 H2]. rewrite <- Htr, <- Hpb. split; [done|].
  intros sel r b Hsel Hr Hb. eapply attached_mono; eauto.
Qed.

Lemma preceded_by_for_item_spec (base T : list Item) a :
  store_rel grows_preceding base T → a < length T →
  triple (preceded_by_for_item a T)
    (λ T', store_rel grows_preceding T T' ∧ preceded_by_done base a T')
    (preceded_by_error base) False.
Proof.
  intros Hbase Ha. destruct (obj_Ok T a Ha) as (A & HA & Hobj).
  destruct (store_rel_lookup_r _ _ _ _ _ Hbase HA) as (A0 & HA0 & Hg0).
  destruct (grows_preceding_static _ _ Hg0) as (Htr0 & Hpb0 & Hid0 & Hbn0).
  assert (A0 ∈ base) as Hin0 by (by eapply list_elem_of_lookup_2).
  unfold preceded_by_for_item. rewrite Hobj. simpl.
  destruct (bool_decide (preceded_by A ≠ []) && triggered A) eqn:Hcond.
  { apply andb_true_iff in Hcond as [Hne Htr]. apply bool_decide_eq_true in Hne.
    left. exists A0. rewrite Hpb0, Htr0, Hid0, Hbn0. done. }
  eapply triple_weaken;
    [apply (for_each_triple (store_rel grows_preceding)
              (λ sel T', ∀ r b, resolve_selector sel base = Ok r →
                                b ∈ resolved_items r → attached a b T')
              (preceded_by_error base) False)| | |]; try done.
  - intros sel s s' Hf Hs r b Hr Hb. eapply attached_mono; eauto.
  - intros sel s Hsel Hs.
    assert (resolve_selector sel s = resolve_selector sel base) as ->.
    { symmetry. apply resolve_selector_ext.
      eapply store_rel_weaken; [apply grows_preceding_identity|]. by etrans. }
    destruct (resolve_selector sel base) as [r|e|] eqn:Hr; simpl.
    2: { right. right. exists A0, sel. by rewrite Hpb0. }
    2: { unfold resolve_selector, find_item in Hr. repeat case_match; done. }
    eapply triple_weaken;
      [apply (for_each_triple (store_rel grows_preceding)
                (λ b T', attached a b T') (preceded_by_error base) False)| | |];
      try done.
    + intros b u u' Hf Hu. eapply attached_mono; eauto.
    + intros b u Hb Hu.
      assert (store_rel grows_preceding base u) as Hbu.
      { transitivity T; [done|]. by transitivity s. }
      assert (length T = length u) as Hlen'.
      { transitivity (length s); [apply Hs|apply Hu]. }
      pose proof (resolve_selector_positions _ _ _ _ Hr Hb) as Hlt.
      destruct (lookup_lt_is_Some_2 u a) as [ua Hua]; [lia|].
      destruct (lookup_lt_is_Some_2 base b) as [B0 HB0]; [done|].
      destruct (store_rel_lookup _ _ _ _ _ Hbu HB0) as (ub & Hub & HgB).
      destruct (grows_preceding_static _ _ HgB) as (HtrB & _ & HidB & HbnB).
      eapply triple_weaken; [by eapply (attach_preceding_spec a A b u ua ub)| | |];
        [done| |done].
      intros e [Htr ->]. right. left. exists A0, sel, r, b, B0.
      rewrite Hpb0, HtrB, HidB, HbnB, Hid0, Hbn0. done.
    + intros s' [Hs' Hall]. split; [done|]. intros r' b [= <-] Hb. by apply Hall.
  - intros T' [HT' Hall]. split; [done|]. intros A' HA'.
    destruct (store_rel_lookup _ _ _ _ _ HT' HA) as (A'' & HA'' & Hg).
    assert (A'' = A') as -> by congruence.
    destruct (grows_preceding_static _ _ Hg) as (Htr & Hpb & _).
    rewrite <- Htr, <- Hpb. split.
    + intros Hne. apply andb_false_iff in Hcond as [Hc|Hc]; [|done].
      apply bool_decide_eq_false in Hc. done.
    + intros sel r b Hsel Hr Hb. by eapply Hall.
Qed.

Lemma inject_preceded_by_spec (items : list Item) :
  triple (_inject_preceded_by_dependencies items)
    (λ items', store_rel grows_preceding items items'
               ∧ ∀ a, a < length items → preceded_by_done items a items')
    (preceded_by_error items) False.
Proof.
  unfold _inject_preceded_by_dependencies, positions.
  eapply triple_weaken;
    [apply (for_each_triple (store_rel grows_preceding)
              (preceded_by_done items) (preceded_by_error items) False)| | |];
    try done.
  - intros a s s'. apply preceded_by_done_mono.
  - intros a s Ha Hs. apply elem_of_seq in Ha.
    apply preceded_by_for_item_spec; [done|]. destruct Hs as [<- _]. lia.
  - intros items' [H1 H2]. split; [done|]. intros a Ha. apply H2.
    apply elem_of_seq. lia.
Qed.



(** *** Flattening *)

Global Instance flatten_changes_preorder : PreOrder flatten_changes.
Proof.
  split.
  - intros a. split; [by destruct a|done].
  - intros a b c (Hb & Hb1 & Hb2) (Hc & Hc1 & Hc2). split; [|split].
    + rewrite Hc, Hb. by destruct a.
    + auto.
    + auto.
Qed.

Lemma flatten_changes_identity a b : flatten_changes a b → same_identity a b.
Proof. intros (-> & _). by destruct a. Qed.

Lemma flatten_inv_resolve base S dep :
  flatten_inv base S → resolve_selector dep S = resolve_selector dep base.
Proof.
  intros (Hrel & _). symmetry. apply resolve_selector_ext.
  eapply store_rel_weaken; [apply flatten_changes_identity|done].
Qed.

Lemma elem_of_unflattened (S : list Item) k :
  k ∈ unflattened S ↔ ∃ item, S !! k = Some item ∧ _flattened_deps item = None.
Proof.
  unfold unflattened. rewrite elem_of_list_to_set, elem_of_filter_items.
  split; intros (item & Hk & Hf); exists item; (split; [done|]).
  - by apply bool_decide_eq_true in Hf.
  - by apply bool_decide_eq_true.
Qed.

Lemma unflattened_mono S T :
  store_rel flatten_changes S T → unflattened T ⊆ unflattened S.
Proof.
  intros Hrel k (b & Hb & Hf)%elem_of_unflattened.
  destruct (store_rel_lookup_r _ _ _ _ _ Hrel Hb) as (a & Ha & (_ & _ & Hs)).
  apply elem_of_unflattened. exists a. split; [done|].
  destruct (_flattened_deps a) eqn:Hfa; [|done].
  destruct Hs as [? Hs]; [eauto|]. congruence.
Qed.

Lemma unflattened_bound (S : list Item) : (size (unflattened S) ≤ length S)%nat.
Proof.
  transitivity (size (set_seq (C:=gset nat) 0 (length S))).
  - apply subseteq_size. intros k (item & Hk & _)%elem_of_unflattened.
    apply elem_of_set_seq. apply lookup_lt_Some in Hk. lia.
  - by rewrite size_set_seq.
Qed.

Lemma list_remove_middle x (l1 l2 : list string) :
  x ∉ l1 → list_remove x (l1 ++ x :: l2) = Some (l1 ++ l2).
Proof.
  induction l1 as [|y l1 IH]; intros Hx; simpl.
  - by rewrite decide_True.
  - apply not_elem_of_cons in Hx as [Hne Hx].
    rewrite decide_False by done. by rewrite IH.
Qed.

Lemma resolve_selector_cases selector (S : list Item) :
  (∃ l, resolve_selector selector S = Ok (FilterIter l))
  ∨ (∃ i, resolve_selector selector S = Ok (ItemList [i]))
  ∨ resolve_selector selector S = Raise (NoSuchItem selector)
  ∨ (split_colon selector = None
     ∧ resolve_selector selector S = Raise (ValueError selector)).
Proof.
  unfold resolve_selector, find_item.
  destruct (split_colon selector) as [[selector_type selector_name]|]; [|by auto].
  repeat case_decide; eauto.
  destruct (filter_items _ S); simpl; eauto.
Qed.

(** A change of the item at [i] that keeps the invariant *)
Lemma flatten_inv_update base T i Ti Ti' :
  flatten_inv base T → T !! i = Some Ti →
  flatten_changes Ti Ti' →
  (∀ f x, _flattened_deps Ti' = Some f → x ∈ flat_set f → reachable base i x) →
  (∀ a, base !! i = Some a →
     match _flattened_deps Ti' with
     | None => _deps Ti' = _deps a
     | Some (FlatList _) =>
         _deps Ti' = filter (λ dep, ¬ dropped base dep) (_deps a)
         ∧ ∀ dep, dep ∈ _deps a → ∃ r, resolve_selector dep base = Ok r
     | Some (FlatSet _) => True
     end) →
  flatten_inv base (update i (λ _, Ti') T)
  ∧ store_rel flatten_changes T (update i (λ _, Ti') T).
Proof.
  intros (Hrel & Hsound & Hexact) Hi Hch Hs He.
  assert (store_rel flatten_changes T (update i (λ _, Ti') T)) as Hstep.
  { apply store_rel_update; [apply _|]. intros x Hx. by simplify_eq. }
  split; [|done]. split; [|split].
  - by etrans.
  - intros k item f x Hk Hf Hx.
    destruct (decide (i = k)) as [->|Hne].
    + rewrite (lookup_update_eq _ _ _ _ Hi) in Hk. simplify_eq. by eapply Hs.
    + rewrite lookup_update_ne in Hk by done. by eapply Hsound.
  - intros k a b Ha Hb.
    destruct (decide (i = k)) as [->|Hne].
    + rewrite (lookup_update_eq _ _ _ _ Hi) in Hb. simplify_eq. by apply He.
    + rewrite lookup_update_ne in Hb by done. by eapply Hexact.
Qed.

Lemma update_const (S : list Item) i f x :
  S !! i = Some x → update i f S = update i (λ _, f x) S.
Proof.
  intros Hx. unfold update. apply list_eq. intros k.
  rewrite !list_lookup_alter. case_decide; [|done]. subst. by rewrite Hx.
Qed.

Lemma elem_of_sorted x (l : list string) : x ∈ sorted l ↔ x ∈ l.
Proof. unfold sorted. by rewrite merge_sort_Permutation. Qed.

Lemma flatten_item_spec base fuel :
  ∀ i S item,
    flatten_inv base S →
    S !! i = Some item → _flattened_deps item = None →
    size (unflattened S ∖ {[i]}) < fuel →
    triple (_flatten_deps_for_item fuel i S)
      (λ S', flatten_inv base S' ∧ flatten_post i S S')
      (flatten_error base) False.
Proof.
  induction fuel as [|fuel IH]; intros i S item Hinv Hi Hnone Hfuel; [lia|].
  simpl. rewrite (obj_lookup _ _ _ Hi). simpl.
  destruct (store_rel_lookup_r _ _ _ _ _ (proj1 Hinv) Hi) as (a0 & Ha0 & Hch0).
  assert (_deps item = _deps a0) as Hdeps0.
  { pose proof (proj2 (proj2 Hinv) i a0 item Ha0 Hi) as He. by rewrite Hnone in He. }
  rewrite (update_const S i _ item Hi).
  set (item1 := set_flattened_deps (Some (FlatSet (list_to_set (_deps item)))) item).
  set (S1 := update i (λ _, item1) S).
  destruct (flatten_inv_update base S i item item1 Hinv Hi) as [Hinv1 Hrel1].
  { split; [by destruct item|]. split; [done|]. simpl. eauto. }
  { simpl. intros f x [= <-] Hx. apply elem_of_list_to_set in Hx.
    eapply reach_direct; [done|]. by rewrite <- Hdeps0. }
  { intros a Ha. by simpl. }
  fold S1 in Hinv1, Hrel1.
  assert (S1 !! i = Some item1) as Hi1
    by exact (lookup_update_eq S i (λ _, item1) item Hi).
  assert (unflattened S1 ⊆ unflattened S ∖ {[i]}) as Hunfl.
  { intros k Hk. apply elem_of_difference. split.
    - by apply (unflattened_mono _ _ Hrel1).
    - intros ->%elem_of_singleton.
      apply elem_of_unflattened in Hk as (x & Hx & Hfx). by simplify_eq. }
  match goal with
  | |- triple (for_each _ ?b _ ≫= _) _ _ _ => set (body := b)
  end.
  assert (∀ todo done T,
    _deps item = done ++ todo →
    flatten_loop_inv base S1 i done todo T →
    triple (for_each todo body T)
      (λ T', flatten_loop_inv base S1 i (_deps item) [] T')
      (flatten_error base) False) as Hloop.
  { induction todo as [|dep todo IHtodo]; intros done T Hsplit HJ.
    { simpl. rewrite app_nil_r in Hsplit. by rewrite Hsplit. }
    simpl. eapply triple_bind with
      (Q := flatten_loop_inv base S1 i (done ++ [dep]) todo).
    2: { intros T' HJ'. apply (IHtodo (done ++ [dep])); [|done].
         by rewrite <- app_assoc. }
    destruct HJ as (HinvT & HrelT & HframeT & (Ti & s & HTi & HfTi & HdTi) & Hres).
    assert (dep ∈ _deps a0) as Hdep0.
    { rewrite <- Hdeps0, Hsplit. apply elem_of_app. right. by left. }
    assert (∀ r, resolve_selector dep base = Ok r → resolved_items r ≠ [] →
                 filter (λ dep, ¬ dropped base dep) (done ++ [dep]) ++ todo
                 = filter (λ dep, ¬ dropped base dep) done ++ dep :: todo) as Hkeep.
    { intros r Hr Hne. rewrite filter_app, <- app_assoc. f_equal.
      rewrite filter_cons_True; [done|]. intros (r' & Hr' & He). congruence. }
    assert (∀ r, resolve_selector dep base = Ok r →
                 ∀ dep', dep' ∈ done ++ [dep] → ∃ r, resolve_selector dep' base = Ok r)
      as Hres'.
    { intros r Hr dep' [Hd| ->%list_elem_of_singleton]%elem_of_app; eauto. }
    unfold body at 1. unfold resolve_dep.
    rewrite (flatten_inv_resolve base T dep HinvT).
    destruct (resolve_selector_cases dep base) as [[l Hr]|[[d Hr]|[Hr|[Hsc Hr]]]];
      rewrite Hr; simpl.
    - (* a filter object *)
      destruct (decide (l = [])) as [->|Hl].
      + rewrite bool_decide_eq_false_2 by (intros ?; done).
        unfold remove_dep. rewrite (obj_lookup _ _ _ HTi). simpl.
        rewrite HdTi.
        rewrite list_remove_middle.
        2: { intros [Hd _]%list_elem_of_filter. apply Hd. exists (FilterIter []). done. }
        rewrite (update_const T i _ Ti HTi).
        destruct (flatten_inv_update base T i Ti
                    (set_deps (filter (λ dep, ¬ dropped base dep) done ++ todo) Ti)
                    HinvT HTi) as [HinvT' HrelT'].
        { split; [by destruct Ti|]. split; [|done]. simpl. intros x Hx.
          rewrite HdTi. apply elem_of_app in Hx as [Hx|Hx]; apply elem_of_app;
            [by left|right; by right]. }
        { simpl. intros f x Hf Hx. eapply (proj1 (proj2 HinvT)); eauto. }
        { intros a Ha. simpl. by rewrite HfTi. }
        simpl. split; [done|]. split; [by etrans|]. split; [|split].
        * intros k b' Hk Hb'. rewrite lookup_update_ne in Hb' by done. eauto.
        * eexists _, s. split; [by apply (lookup_update_eq T i _ Ti)|].
          simpl. split; [done|]. rewrite filter_app, <- app_assoc. f_equal.
          rewrite filter_cons_False; [done|]. intros Hn. apply Hn.
          exists (FilterIter []). done.
        * by eapply Hres'.
      + rewrite bool_decide_eq_true_2 by done. simpl.
        split; [done|]. split; [done|]. split; [done|]. split.
        * exists Ti, s. split; [done|]. split; [done|].
          by rewrite (Hkeep _ Hr).
        * by eapply Hres'.
    - (* a single item *)
      assert (d < length T) as Hd.
      { destruct HinvT as [[<- _] _].
        eapply resolve_selector_positions; [done|]. simpl. by left. }
      destruct (lookup_lt_is_Some_2 T d Hd) as [Td HTd].
      rewrite (obj_lookup _ _ _ HTd). simpl.
      eapply triple_bind with
        (Q := flatten_loop_inv base S1 i (done ++ [dep]) todo);
        [|intros T' HJ'; exact HJ'].
      (* the state after the nested call, if any *)
      eapply triple_bind with
        (Q := λ T1, flatten_inv base T1 ∧ store_rel flatten_changes T T1
                    ∧ T1 !! i = Some Ti
                    ∧ (∃ Td1 fd, T1 !! d = Some Td1 ∧ _flattened_deps Td1 = Some fd)
                    ∧ (∀ k b', k ≠ i → T1 !! k = Some b' →
                         T !! k = Some b'
                         ∨ ∃ b l, T !! k = Some b ∧ _flattened_deps b = None
                                  ∧ _flattened_deps b' = Some (FlatList l))).
      { destruct (_flattened_deps Td) as [fd|] eqn:HfTd; simpl.
        - split; [done|]. split; [done|]. split; [done|]. split; [eauto|]. eauto.
        - assert (i ≠ d) as Hid by (intros ->; congruence).
          eapply triple_weaken; [apply (IH d T Td HinvT HTd HfTd)| | |]; try done.
          + assert (unflattened T ∖ {[d]} ⊂ unflattened S ∖ {[i]}) as Hsub.
            { pose proof (unflattened_mono _ _ HrelT) as HT.
              assert (d ∈ unflattened T) as HdT.
              { apply elem_of_unflattened. eauto. }
              split.
              - intros k [Hk1 Hk2]%elem_of_difference. by apply Hunfl, HT.
              - intros Hc. specialize (Hc d (Hunfl d (HT d HdT))).
                apply elem_of_difference in Hc as [_ Hc]. apply Hc.
                by apply elem_of_singleton. }
            apply subset_size in Hsub. lia.
          + intros T1 (HinvT1 & HrelT1 & HframeT1 & (Td1 & l & HTd1 & HfTd1)).
            split; [done|]. split; [done|].
            destruct (store_rel_lookup _ _ _ _ _ HrelT1 HTi) as (Ti1 & HTi1 & _).
            split.
            { destruct (HframeT1 i Ti1 Hid HTi1) as [?|(b & ? & ? & ? & _)];
                [congruence|]. congruence. }
            split; [eauto|]. intros k b' Hk Hb'.
            destruct (decide (k = d)) as [->|Hkd]; [|by apply HframeT1].
            right. exists Td, l. split; [done|]. split; [done|]. congruence. }
      intros T1 (HinvT1 & HrelT1 & HTi1 & (Td1 & fd & HTd1 & HfTd1) & HframeT1).
      unfold merge_flattened.
      rewrite (obj_lookup _ _ _ HTi1), (obj_lookup _ _ _ HTd1). simpl.
      rewrite HfTd1, HfTi. simpl.
      rewrite (update_const T1 i _ Ti HTi1).
      destruct (flatten_inv_update base T1 i Ti
                  (set_flattened_deps (Some (FlatSet (s ∪ flat_set fd))) Ti)
                  HinvT1 HTi1) as [HinvT2 HrelT2].
      { split; [by destruct Ti|]. split; [done|]. simpl. eauto. }
      { simpl. intros f x [= <-] [Hx|Hx]%elem_of_union.
        - eapply (proj1 (proj2 HinvT1)); eauto.
        - eapply reach_through; [done|done|done| |].
          + simpl. by left.
          + eapply (proj1 (proj2 HinvT1)); eauto. }
      { intros a Ha. by simpl. }
      split; [done|]. split; [by etrans; [|etrans]|]. split; [|split].
      * intros k b' Hk Hb'. rewrite lookup_update_ne in Hb' by done.
        destruct (HframeT1 k b' Hk Hb') as [Hb|(b & l & Hb & Hfb & Hfb')].
        -- by apply HframeT.
        -- destruct (HframeT k b Hk Hb) as [HS1|(b0 & l0 & _ & _ & Hc)];
             [|congruence].
           right. eauto.
      * eexists _, _. split; [by apply (lookup_update_eq T1 i _ Ti)|].
        simpl. split; [done|]. rewrite HdTi. symmetry. eapply Hkeep; [done|].
        simpl. done.
      * by eapply Hres'.
    - (* a missing item *)
      exists i, a0, dep. split; [done|]. split; [done|]. left. split; [done|].
      destruct (flatten_changes_identity _ _ Hch0) as (-> & -> & _). done.
    - (* no colon *)
      exists i, a0, dep. split; [done|]. split; [done|]. by right. }
  eapply triple_bind.
  { apply (Hloop (_deps item) [] S1); [done|].
    split; [done|]. split; [done|]. split; [eauto|]. split.
    - exists item1, (list_to_set (_deps item)). done.
    - intros dep Hdep. by apply not_elem_of_nil in Hdep. }
  intros T (HinvT & HrelT & HframeT & (Ti & s & HTi & HfTi & HdTi) & Hres).
  unfold sort_flattened. rewrite (obj_lookup _ _ _ HTi). simpl. rewrite HfTi.
  rewrite (update_const T i _ Ti HTi).
  destruct (flatten_inv_update base T i Ti
              (set_flattened_deps (Some (FlatList (sorted (elements s)))) Ti)
              HinvT HTi) as [HinvT' HrelT'].
  { split; [by destruct Ti|]. split; [done|]. simpl. eauto. }
  { simpl. intros f x [= <-] Hx. simpl in Hx.
    apply elem_of_list_to_set, elem_of_sorted, elem_of_elements in Hx.
    eapply (proj1 (proj2 HinvT)); eauto. }
  { intros a Ha. simpl. assert (a = a0) as -> by congruence.
    rewrite HdTi, app_nil_r, <- Hdeps0. split; [done|].
    intros dep Hdep. by apply Hres. }
  simpl. split; [done|]. split.
  { etrans; [exact Hrel1|]. etrans; [exact HrelT|exact HrelT']. }
  split.
  - intros k b' Hk Hb'. rewrite lookup_update_ne in Hb' by done.
    assert (S1 !! k = S !! k) as HS1k.
    { unfold S1. by rewrite lookup_update_ne. }
    rewrite <- HS1k. by apply HframeT.
  - eexists _, _. split; [by apply (lookup_update_eq T i _ Ti)|]. done.
Qed.

Lemma for_each_app {A S} (xs ys : list A) (body : A → S → result S) (s : S) :
  for_each (xs ++ ys) body s = for_each xs body s ≫= for_each ys body.
Proof.
  revert s. induction xs as [|x xs IH]; intros s; simpl; [done|].
  destruct (body x s) as [s'| |]; simpl; [apply IH|done|done].
Qed.

(** A loop over positions, with an invariant that knows how far it got *)
Lemma for_each_seq_triple {S} (Inv : nat → S → Prop) (E : exn → Prop) (F : Prop)
    (n : nat) (body : nat → S → result S) (s0 : S) :
  Inv 0 s0 →
  (∀ k s, k < n → Inv k s → triple (body k s) (Inv (Datatypes.S k)) E F) →
  triple (for_each (seq 0 n) body s0) (Inv n) E F.
Proof.
  intros H0 Hbody. induction n as [|n IH]; [done|].
  rewrite seq_S, for_each_app. simpl.
  eapply triple_bind.
  - apply IH. intros k s Hk. apply Hbody. lia.
  - intros s Hs. eapply triple_bind; [apply Hbody; [lia|done]|].
    intros s' Hs'. done.
Qed.

Lemma flatten_inv_fresh S : fresh S → flatten_inv S S.
Proof.
  intros Hf. split; [reflexivity|]. split.
  - intros k item f x Hk Hfl. by rewrite (Hf k item Hk) in Hfl.
  - intros k a b Ha Hb. simplify_eq. by rewrite (Hf k a Ha).
Qed.

Lemma flatten_all_spec (S0 : list Item) :
  fresh S0 →
  triple (flatten_all S0)
    (λ S1, flatten_inv S0 S1 ∧ all_flattened S1)
    (flatten_error S0) False.
Proof.
  intros Hfresh. unfold flatten_all, positions.
  set (settled := λ T : list Item, ∀ k b, T !! k = Some b →
         _flattened_deps b = None ∨ ∃ l, _flattened_deps b = Some (FlatList l)).
  eapply triple_weaken;
    [apply (for_each_seq_triple
              (λ n T, flatten_inv S0 T ∧ settled T
                      ∧ ∀ k b, k < n → T !! k = Some b →
                               ∃ l, _flattened_deps b = Some (FlatList l))
              (flatten_error S0) False)| | |]; try done.
  - split; [by apply flatten_inv_fresh|]. split; [|intros; lia].
    intros k b Hk. left. by eapply Hfresh.
  - intros i T Hi (Hinv & Hset & Hdone).
    assert (i < length T) as HiT by (by destruct Hinv as [[<- _] _]).
    destruct (obj_Ok T i HiT) as (item & Hitem & ->). rewrite bind_Ok_l.
    destruct (_flattened_deps item) as [f|] eqn:Hf.
    + simpl. split; [done|]. split; [done|]. intros k b Hk Hb.
      destruct (decide (k = i)) as [->|Hne]; [|apply (Hdone k b); [lia|done]].
      assert (b = item) as -> by congruence.
      destruct (Hset i item Hitem) as [?|?]; [congruence|done].
    + eapply triple_weaken; [apply (flatten_item_spec S0 _ i T item)| | |]; try done.
      * pose proof (unflattened_bound T).
        assert (size (unflattened T ∖ {[i]}) ≤ size (unflattened T))%nat.
        { apply subseteq_size. intros k Hk. by apply elem_of_difference in Hk as [? _]. }
        lia.
      * intros T' (Hinv' & Hrel' & Hframe & (item' & l & Hi' & Hl)).
        split; [done|]. split.
        -- intros k b' Hb'. destruct (decide (k = i)) as [->|Hne].
           ++ right. exists l. congruence.
           ++ destruct (Hframe k b' Hne Hb') as [Hb|(b & l' & _ & _ & Hfl)];
                [by eapply Hset|]. right. eauto.
        -- intros k b' Hk Hb'. destruct (decide (k = i)) as [->|Hne].
           ++ exists l. congruence.
           ++ destruct (Hframe k b' Hne Hb') as [Hb|(b & l' & _ & _ & Hfl)];
                [|eauto]. apply (Hdone k b'); [lia|done].
  - intros T (Hinv & _ & Hall). split; [done|]. intros k b Hb.
    apply (Hall k b); [|done]. apply lookup_lt_Some in Hb.
    destruct Hinv as [[-> _] _]. done.
Qed.

(** *** Incoming dependencies *)

Global Instance incoming_changes_preorder : PreOrder incoming_changes.
Proof.
  split.
  - intros a. by destruct a.
  - intros a b c Hb Hc. unfold incoming_changes in *. rewrite Hc, Hb. by destruct a.
Qed.

Lemma incoming_changes_static a b :
  incoming_changes a b →
  id a = id b ∧ _flattened_deps a = _flattened_deps b ∧ _deps a = _deps b
  ∧ _concurrency_deps a = _concurrency_deps b ∧ same_identity a b.
Proof. intros ->. by destruct a. Qed.

Lemma collect_incoming_spec (T U : list Item) i :
  store_rel incoming_changes T U → all_flattened T → i < length U →
  triple (collect_incoming i U)
    (λ U', store_rel incoming_changes U U'
           ∧ (∀ k, k ≠ i → U' !! k = U !! k)
           ∧ incoming_exact T i U')
    (λ _, False) False.
Proof.
  intros HTU Hall Hi. unfold collect_incoming, positions.
  destruct (lookup_lt_is_Some_2 U i Hi) as [I0 HI0].
  set (U0 := update i (set_incoming_deps (Some ∅)) U).
  assert (store_rel incoming_changes U U0) as HU0.
  { apply store_rel_update; [apply _|]. intros x _. by destruct x. }
  assert (length U0 = length U) as Hlen by apply length_update.
  rewrite Hlen.
  eapply triple_weaken;
    [apply (for_each_seq_triple
              (λ n V, store_rel incoming_changes U V
                      ∧ (∀ k, k ≠ i → V !! k = U !! k)
                      ∧ ∃ I inc, V !! i = Some I ∧ _incoming_deps I = Some inc
                                 ∧ ∀ j, j ∈ inc ↔ j < n ∧ depends_on T i j)
              (λ _, False) False)| | |]; try done.
  - split; [done|]. split.
    { intros k Hk. unfold U0. by rewrite lookup_update_ne. }
    eexists _, ∅. split; [by apply (lookup_update_eq U i _ I0)|]. split; [done|].
    intros j. split; [intros Hj; by apply not_elem_of_empty in Hj|]. intros [? _]. lia.
  - intros o V Ho (HUV & Hframe & (I & inc & HI & Hinc & Hexact)).
    assert (store_rel incoming_changes T V) as HTV by (by etrans).
    assert (o < length V) as HoV by (destruct HUV as [<- _]; lia).
    destruct (lookup_lt_is_Some_2 V o HoV) as [O HO].
    destruct (store_rel_lookup_r _ _ _ _ _ HTV HI) as (TI & HTI & HcI).
    destruct (store_rel_lookup_r _ _ _ _ _ HTV HO) as (TO & HTO & HcO).
    destruct (incoming_changes_static _ _ HcI) as (HidI & _).
    destruct (incoming_changes_static _ _ HcO) as (_ & HfO & _).
    destruct (Hall o TO HTO) as [l Hl].
    unfold add_incoming. rewrite (obj_lookup _ _ _ HI), (obj_lookup _ _ _ HO). simpl.
    unfold in_flattened. rewrite <- HfO, Hl. simpl.
    assert (depends_on T i o ↔ id I ∈ (list_to_set l : gset string)) as Hdep.
    { split.
      - intros (I' & J' & f & HI' & HJ' & Hf & Hin).
        assert (I' = TI) as -> by congruence. assert (J' = TO) as -> by congruence.
        rewrite Hl in Hf. injection Hf as <-. by rewrite <- HidI.
      - intros Hin. exists TI, TO, (FlatList l). rewrite HidI. done. }
    destruct (bool_decide (id I ∈ (list_to_set l : gset string))) eqn:Hb; simpl.
    + apply bool_decide_eq_true in Hb. split; [|split].
      * etrans; [done|]. apply store_rel_update; [apply _|]. intros x _. by destruct x.
      * intros k Hk. rewrite lookup_update_ne by done. by apply Hframe.
      * eexists _, _. split; [by apply (lookup_update_eq V i _ I)|]. split; [done|].
        rewrite Hinc. simpl. intros j. rewrite elem_of_union, elem_of_singleton, Hexact.
        split.
        -- intros [->|[? ?]]; (split; [lia|]); [by apply Hdep|done].
        -- intros [Hj Hd]. destruct (decide (j = o)); [by left|right]. split; [lia|done].
    + apply bool_decide_eq_false in Hb. split; [done|]. split; [done|].
      exists I, inc. split; [done|]. split; [done|]. intros j. rewrite Hexact.
      split.
      * intros [? ?]. split; [lia|done].
      * intros [Hj Hd]. split; [|done]. destruct (decide (j = o)) as [->|]; [|lia].
        exfalso. by apply Hb, Hdep.
  - intros U' (H1 & H2 & (I & inc & HI & Hinc & Hexact)).
    split; [by etrans|]. split.
    { intros k Hk. by apply H2. }
    exists I, inc. split; [done|]. split; [done|]. intros j. rewrite Hexact.
    split; [by intros [_ ?]|]. intros Hd. split; [|done].
    destruct Hd as (_ & J & _ & _ & HJ & _). apply lookup_lt_Some in HJ.
    destruct HTU as [<- _]. done.
Qed.

Lemma flatten_dependencies_spec (S0 : list Item) :
  fresh S0 →
  triple (_flatten_dependencies S0) (λ S2, ∃ S1, flattened_from S0 S1 S2)
    (flatten_error S0) False.
Proof.
  intros Hfresh. unfold _flatten_dependencies.
  eapply triple_bind; [by apply flatten_all_spec|].
  intros S1 [Hinv Hall]. simpl. unfold positions.
  eapply triple_weaken;
    [apply (for_each_seq_triple
              (λ n U, store_rel incoming_changes S1 U
                      ∧ ∀ i, i < n → incoming_exact S1 i U)
              (λ _, False) False)| | |]; try done.
  - split; [reflexivity|]. intros; lia.
  - intros n U Hn [HU Hdone].
    eapply triple_weaken; [apply (collect_incoming_spec S1 U n)| | |]; try done.
    + destruct HU as [<- _]. done.
    + intros U' (HU' & Hframe & Hex). split; [by etrans|].
      intros i Hi. destruct (decide (i = n)) as [->|Hne]; [done|].
      destruct (Hdone i) as (I & inc & HI & Hinc); [lia|].
      exists I, inc. by rewrite Hframe.
  - intros S2 [H1 H2]. exists S1. done.
Qed.

Lemma names_missing_item_iff (items : list Item) (dep : string) :
  names_missing_item items dep ↔
  ∃ KIND NAME, split_colon dep = Some (KIND, NAME)
    ∧ KIND ≠ "bundle" ∧ KIND ≠ "tag" ∧ NAME ≠ ""
    ∧ ∀ k item, items !! k = Some item → id item ≠ dep.
Proof.
  unfold names_missing_item, resolve_selector, find_item. split.
  - destruct (split_colon dep) as [[KIND NAME]|]; [|done].
    repeat case_decide; try done.
    destruct (filter_items _ items) as [|j l] eqn:Hf; simpl; [|done].
    intros _. exists KIND, NAME. repeat split; try done.
    intros k item Hk Hid.
    assert (k ∈ filter_items (λ item, bool_decide (id item = dep)) items) as Hin.
    { apply elem_of_filter_items. exists item. split; [done|].
      by apply bool_decide_eq_true. }
    rewrite Hf in Hin. by apply not_elem_of_nil in Hin.
  - intros (KIND & NAME & -> & Hb & Ht & Hn & Hnone).
    rewrite !decide_False by done.
    destruct (filter_items _ items) as [|j l] eqn:Hf; simpl; [done|].
    exfalso.
    assert (j ∈ filter_items (λ item, bool_decide (id item = dep)) items) as Hin.
    { rewrite Hf. by left. }
    apply elem_of_filter_items in Hin as (item & Hj & Hid).
    apply bool_decide_eq_true in Hid. by eapply Hnone.
Qed.

(** C9: on items that have not been flattened yet, [_flatten_dependencies]
    (which runs [_flatten_deps_for_item] on every item) returns without an
    error when every [_deps] entry resolves, to items or to nothing; when it
    returns, each item's [_deps] is what it was minus the entries that are
    valid selectors resolving to zero items; and when some entry is a
    [KIND:NAME] selector naming no item (all entries having a colon), it
    raises [ItemDependencyError]. *)
Theorem C9_unresolvable_dependencies (items : list Item) :
  fresh items →
  ((∀ k a dep, items !! k = Some a → dep ∈ _deps a →
      ∃ r, resolve_selector dep items = Ok r) →
   ∃ items', _flatten_dependencies items = Ok items')
  ∧ (∀ items', _flatten_dependencies items = Ok items' →
       ∀ i a, items !! i = Some a →
         ∃ b, items' !! i = Some b
              ∧ _deps b = filter (λ dep, ¬ dropped items dep) (_deps a))
  ∧ ((∀ k a dep, items !! k = Some a → dep ∈ _deps a → split_colon dep ≠ None) →
     ∀ k a dep, items !! k = Some a → dep ∈ _deps a →
       (∃ KIND NAME, split_colon dep = Some (KIND, NAME)
          ∧ KIND ≠ "bundle" ∧ KIND ≠ "tag" ∧ NAME ≠ ""
          ∧ ∀ k item, items !! k = Some item → id item ≠ dep) →
       ∃ item bundle dep',
         _flatten_dependencies items
         = Raise (ItemDependencyError Needs item bundle dep')).
Proof.
  intros Hfresh. pose proof (flatten_dependencies_spec items Hfresh) as Hspec.
  assert (∀ items', _flatten_dependencies items = Ok items' →
            ∀ i a, items !! i = Some a →
              ∃ b, items' !! i = Some b
                   ∧ _deps b = filter (λ dep, ¬ dropped items dep) (_deps a)
                   ∧ ∀ dep, dep ∈ _deps a → ∃ r, resolve_selector dep items = Ok r)
    as Hok.
  { intros items' Hrun i a Ha. rewrite Hrun in Hspec.
    destruct Hspec as (S1 & (Hrel & _ & Hexact) & Hall & Hinc & _).
    destruct (store_rel_lookup _ _ _ _ _ Hrel Ha) as (b1 & Hb1 & _).
    destruct (store_rel_lookup _ _ _ _ _ Hinc Hb1) as (b & Hb & Hcb).
    destruct (incoming_changes_static _ _ Hcb) as (_ & _ & Hd & _).
    exists b. split; [done|]. rewrite <- Hd.
    pose proof (Hexact i a b1 Ha Hb1) as He.
    destruct (Hall i b1 Hb1) as [l Hl]. by rewrite Hl in He. }
  split; [|split].
  - intros Hres.
    destruct (_flatten_dependencies items) as [items'|e|]; [eauto| |done].
    exfalso. destruct Hspec as (k & a & dep & Ha & Hdep & Hcase).
    destruct (Hres k a dep Ha Hdep) as [r Hr].
    destruct Hcase as [[Hm _]|[Hsc _]].
    + unfold names_missing_item in Hm. congruence.
    + unfold resolve_selector in Hr. by rewrite Hsc in Hr.
  - intros items' Hrun i a Ha.
    destruct (Hok items' Hrun i a Ha) as (b & ? & ? & _). eauto.
  - intros Hcolon k a dep Ha Hdep Hmiss.
    apply names_missing_item_iff in Hmiss.
    destruct (_flatten_dependencies items) as [items'|e|] eqn:Hrun; [| |done].
    + exfalso. destruct (Hok items' eq_refl k a Ha) as (_ & _ & _ & Hres).
      destruct (Hres dep Hdep) as [r Hr]. unfold names_missing_item in Hmiss.
      congruence.
    + destruct Hspec as (k' & a' & dep' & Ha' & Hdep' & [[_ ->]|[Hsc _]]); [eauto|].
      exfalso. by apply (Hcolon k' a' dep' Ha' Hdep').
Qed.

(** *** Concurrency blockers *)

Global Instance chained_preorder : PreOrder chained.
Proof.
  split.
  - intros a. split; [by destruct a|]. exists []. rewrite !app_nil_r. auto.
  - intros a b c (Hb & e1 & Hb1 & Hb2 & Hb3) (Hc & e2 & Hc1 & Hc2 & Hc3).
    split; [rewrite Hc, Hb; by destruct a|].
    exists (e1 ++ e2). rewrite Hc1, Hc2, Hb1, Hb2, !app_assoc.
    split; [done|]. split; [done|].
    destruct Hb3 as [[-> Hb3]|(l & Hl & Hb3)], Hc3 as [[-> Hc3]|(l' & Hl' & Hc3)].
    + left. split; [done|]. congruence.
    + right. exists l'. simpl. split; congruence.
    + right. exists l. rewrite app_nil_r. split; congruence.
    + right. exists l. rewrite Hb3 in Hl'. injection Hl' as <-.
      rewrite Hc3, app_assoc. done.
Qed.

Lemma chained_group_deps v x : chained x (set_group_deps v x).
Proof. split; [by destruct x|]. exists []. simpl. rewrite !app_nil_r. auto. Qed.

Lemma set_same_group_deps_spec blocked_types i (T : list Item) :
  triple (set_same_group_deps blocked_types i T)
    (λ T', store_rel chained T T') (λ _, True) False.
Proof.
  unfold set_same_group_deps, obj. destruct (T !! i) as [item|]; simpl; [|done].
  destruct (_flattened_deps item); simpl; [|done].
  apply store_rel_update; [apply _|]. intros x _. apply chained_group_deps.
Qed.

Lemma chain_after_spec previous_item i (T : list Item) :
  triple (chain_after previous_item i T)
    (λ T', store_rel chained T T') (λ _, True) False.
Proof.
  unfold chain_after. destruct previous_item as [p|]; simpl; [|reflexivity].
  unfold obj. destruct (T !! i) as [item|] eqn:Hi; simpl; [|done].
  destruct (T !! p) as [prev|]; simpl; [|done].
  case_bool_decide; simpl; [reflexivity|].
  destruct (_flattened_deps item) as [[s|l]|] eqn:Hf; simpl; try done.
  apply store_rel_update; [apply _|]. intros x Hx.
  assert (x = item) as -> by congruence.
  split; [by destruct item|]. exists [id prev]. simpl.
  split; [done|]. split; [done|]. right. eauto.
Qed.

Lemma release_dependents_spec type_items i (T : list Item) :
  triple (release_dependents type_items i T)
    (λ T', store_rel chained T T') (λ _, True) False.
Proof.
  unfold release_dependents, obj. destruct (T !! i) as [item|]; simpl; [|done].
  eapply triple_weaken;
    [apply (for_each_triple (store_rel chained) (λ _ _, True) (λ _, True) False)
    | | |]; try done.
  - intros o s _ _. simpl. split; [|done].
    apply store_rel_update; [apply _|]. intros x _. apply chained_group_deps.
  - by intros s' [? _].
Qed.

Lemma daisy_chain_spec fuel type_items processed_items previous_item (T : list Item) :
  (length type_items ≤ fuel + length processed_items)%nat →
  triple (daisy_chain fuel type_items processed_items previous_item T)
    (λ T', store_rel chained T T') (λ _, True) False.
Proof.
  revert processed_items previous_item T.
  induction fuel as [|fuel IH]; intros processed_items previous_item T Hfuel; simpl.
  - case_decide; [lia|]. simpl. reflexivity.
  - case_decide; [|simpl; reflexivity].
    destruct (filter _ type_items) as [|i rest]; simpl; [reflexivity|].
    eapply triple_bind; [apply chain_after_spec|].
    intros T1 HT1. simpl.
    eapply triple_bind; [apply release_dependents_spec|].
    intros T2 HT2. simpl.
    eapply triple_weaken; [apply IH| | |]; try done.
    + rewrite length_app. simpl. lia.
    + intros T' HT'. by etrans; [|etrans].
Qed.

Lemma chain_group_spec blocked_types (T : list Item) :
  triple (chain_group blocked_types T)
    (λ T', store_rel chained T T') (λ _, True) False.
Proof.
  unfold chain_group. eapply triple_bind.
  - apply (for_each_triple (store_rel chained) (λ _ _, True) (λ _, True) False);
      [done|]. intros i s _ _.
    eapply triple_weaken; [apply set_same_group_deps_spec| | |]; done.
  - intros T1 [HT1 _]. simpl.
    eapply triple_weaken; [apply daisy_chain_spec| | |]; try done.
    + simpl. lia.
    + intros T' HT'. by etrans.
Qed.

Lemma inject_concurrency_blockers_spec set_order (T : list Item) node_os node_os_version :
  triple (_inject_concurrency_blockers set_order T node_os node_os_version)
    (λ T', store_rel chained (set_concurrency_deps [] <$> T) T')
    (λ _, True) False.
Proof.
  unfold _inject_concurrency_blockers.
  eapply triple_weaken;
    [apply (for_each_triple (store_rel chained) (λ _ _, True) (λ _, True) False)
    | | |]; try done.
  - intros g s _ _. eapply triple_weaken; [apply chain_group_spec| | |]; done.
  - by intros T' [? _].
Qed.

(** *** The passes before flattening *)

Lemma fresh_Forall (S : list Item) :
  fresh S ↔ Forall (λ a, _flattened_deps a = None) S.
Proof. unfold fresh. by rewrite Forall_lookup. Qed.

Lemma fresh_update (S : list Item) i f :
  (∀ x, _flattened_deps (f x) = _flattened_deps x) →
  fresh S → fresh (update i f S).
Proof.
  intros Hf HS k a Ha. unfold update in Ha. rewrite list_lookup_alter in Ha.
  case_decide; [|by eapply HS]. subst.
  destruct (S !! k) as [x|] eqn:Hx; simpl in Ha; [|done].
  simplify_eq. rewrite Hf. by eapply HS.
Qed.

Global Instance keeps_fresh_preorder : PreOrder keeps_fresh.
Proof. split; unfold keeps_fresh; [intros ?; auto|intros ? ? ?; auto]. Qed.

(** A loop that only applies [update]s that leave [_flattened_deps] alone *)
Lemma for_each_keeps_fresh {A} (xs : list A) (body : A → list Item → result (list Item))
    (S : list Item) :
  (∀ x s, triple (body x s) (keeps_fresh s) (λ _, True) True) →
  triple (for_each xs body S) (keeps_fresh S) (λ _, True) True.
Proof.
  intros Hbody.
  eapply triple_weaken;
    [apply (for_each_triple keeps_fresh (λ _ _, True) (λ _, True) True)
    | | |]; try done.
  - intros x s _ _. eapply triple_weaken; [apply Hbody| | |]; done.
  - by intros s' [? _].
Qed.

Lemma bind_keeps_fresh {A} (m : result A) (k : A → result (list Item)) (S : list Item) :
  (∀ a, triple (k a) (keeps_fresh S) (λ _, True) True) →
  triple (m ≫= k) (keeps_fresh S) (λ _, True) True.
Proof. intros Hk. destruct m; simpl; [apply Hk|done|done]. Qed.

Lemma update_keeps_fresh (S : list Item) i f :
  (∀ x, _flattened_deps (f x) = _flattened_deps x) →
  triple (Ok (update i f S)) (keeps_fresh S) (λ _, True) True.
Proof. intros Hf. simpl. intros HS. by apply fresh_update. Qed.

Lemma inject_reverse_triggers_fresh (S : list Item) :
  triple (_inject_reverse_triggers S) (keeps_fresh S) (λ _, True) True.
Proof.
  unfold _inject_reverse_triggers.
  apply for_each_keeps_fresh. intros i s.
  apply bind_keeps_fresh. intros item.
  eapply triple_bind.
  - apply for_each_keeps_fresh. intros sel t.
    apply bind_keeps_fresh. intros r.
    apply for_each_keeps_fresh. intros x u.
    apply update_keeps_fresh. by intros [].
  - intros s1 Hs1. simpl.
    eapply triple_weaken; [apply for_each_keeps_fresh| | |]; try done.
    + intros sel t. apply bind_keeps_fresh. intros r.
      apply for_each_keeps_fresh. intros x u.
      apply update_keeps_fresh. by intros [].
    + intros s2 Hs2. by etrans.
Qed.

Lemma inject_reverse_dependencies_fresh (S : list Item) :
  triple (_inject_reverse_dependencies S) (keeps_fresh S) (λ _, True) True.
Proof.
  unfold _inject_reverse_dependencies.
  eapply triple_weaken; [apply for_each_keeps_fresh| | |]; try done.
  - intros i s. apply bind_keeps_fresh. intros item.
    apply for_each_keeps_fresh. intros sel t.
    apply bind_keeps_fresh. intros r.
    apply for_each_keeps_fresh. intros x u.
    unfold add_dep. apply update_keeps_fresh. intros y.
    case_bool_decide; [done|]. by destruct y.
  - intros S' HS' HS. apply HS'. intros k a Ha.
    rewrite list_lookup_fmap in Ha. destruct (S !! k) as [x|] eqn:Hx; [|done].
    simpl in Ha. simplify_eq. specialize (HS k x Hx). by destruct x.
Qed.

Lemma inject_trigger_dependencies_fresh (S : list Item) :
  triple (_inject_trigger_dependencies S) (keeps_fresh S) (λ _, True) True.
Proof.
  unfold _inject_trigger_dependencies.
  apply for_each_keeps_fresh. intros i s.
  apply bind_keeps_fresh. intros item.
  apply for_each_keeps_fresh. intros sel t.
  apply bind_keeps_fresh. intros r.
  apply for_each_keeps_fresh. intros x u.
  apply bind_keeps_fresh. intros y.
  destruct (triggered y); [|done].
  apply update_keeps_fresh. by intros [].
Qed.

Lemma inject_preceded_by_fresh (S : list Item) :
  triple (_inject_preceded_by_dependencies S) (keeps_fresh S) (λ _, True) True.
Proof.
  pose proof (inject_preceded_by_spec S) as Hspec.
  destruct (_inject_preceded_by_dependencies S) as [S'| |]; simpl in *; try done.
  destruct Hspec as [Hrel _]. intros HS k b Hb.
  destruct (store_rel_lookup_r _ _ _ _ _ Hrel Hb) as (a & Ha & (-> & _)).
  specialize (HS k a Ha). by destruct a.
Qed.

Lemma prepare_loop_fresh (m : ItemMethods) (items : list Item) :
  methods_ok m →
  triple (for_each (positions items) (λ i items,
            item ← obj i items;
            _check_bundle_collisions m item items;;
            _check_loopback_dependency m item;;
            item ← _prepare_deps m item items;
            Ok (<[i := item]> items)) items)
    fresh (λ _, True) True.
Proof.
  intros [Hprep _]. unfold positions.
  eapply triple_weaken;
    [apply (for_each_seq_triple
              (λ n T, length T = length items
                      ∧ ∀ k a, k < n → T !! k = Some a → _flattened_deps a = None)
              (λ _, True) True)| | |]; try done.
  - split; [done|]. intros; lia.
  - intros i T Hi [Hlen Hdone].
    destruct (obj i T) as [item| |]; simpl; try done.
    destruct (_check_bundle_collisions m item T); simpl; try done.
    destruct (_check_loopback_dependency m item); simpl; try done.
    destruct (_prepare_deps m item T) as [item'| |] eqn:Hp; simpl; try done.
    split; [by rewrite length_insert|]. intros k x Hk Hx.
    destruct (decide (i = k)) as [->|Hne].
    + rewrite list_lookup_insert_eq in Hx by lia. simplify_eq. by eapply Hprep.
    + rewrite list_lookup_insert_ne in Hx by done. apply (Hdone k x); [lia|done].
  - intros T [Hlen Hdone] k a Ha. apply (Hdone k a); [|done].
    apply lookup_lt_Some in Ha. lia.
Qed.

Lemma inject_canned_actions_fresh (m : ItemMethods) (items : list Item) :
  methods_ok m →
  triple (_inject_canned_actions m items) (keeps_fresh items) (λ _, True) True.
Proof.
  intros [Hprep Horder]. unfold _inject_canned_actions.
  eapply triple_bind with (Q := fresh).
  - eapply triple_weaken;
      [apply (for_each_triple keeps_fresh (λ _ _, True) (λ _, True) True)
      | | |]; try done.
    + intros item actions _ _.
      eapply triple_weaken; [apply for_each_keeps_fresh| | |]; try done.
      intros [name action] acts.
      destruct (_prepare_deps m _ items) as [action'| |] eqn:Hp; simpl; try done.
      intros Hacts. apply fresh_Forall, Forall_app. split; [by apply fresh_Forall|].
      apply Forall_singleton. by eapply Hprep.
    + intros actions [Hf _]. apply Hf. intros k a Ha. done.
  - intros actions Hactions. simpl. intros Hitems.
    apply fresh_Forall, Forall_app. split; [by apply fresh_Forall|].
    rewrite Horder. by apply fresh_Forall.
Qed.

Lemma redundancy_loop_id (m : ItemMethods) (xs S : list Item) :
  triple (for_each xs (λ item items,
            _check_redundant_dependencies m item;; Ok items) S)
    (λ S', S' = S) (λ _, True) True.
Proof.
  induction xs as [|x xs IH]; simpl; [done|].
  destruct (_check_redundant_dependencies m x); simpl; try done.
Qed.

Lemma chained_static a b :
  chained a b →
  id a = id b ∧ _incoming_deps a = _incoming_deps b ∧ same_identity a b.
Proof. intros (-> & _). by destruct a. Qed.

(** An item after the concurrency pass, seen from the item lists between the
    loops of [_flatten_dependencies] ([S1]) and after it ([S2]) *)
Lemma chained_view (S1 S2 S3 : list Item) k c :
  store_rel incoming_changes S1 S2 →
  store_rel chained (set_concurrency_deps [] <$> S2) S3 →
  S3 !! k = Some c →
  ∃ a1 a2,
    S1 !! k = Some a1 ∧ S2 !! k = Some a2
    ∧ id c = id a1 ∧ same_identity a1 c
    ∧ _incoming_deps c = _incoming_deps a2
    ∧ _deps c = _deps a1 ++ _concurrency_deps c
    ∧ ∀ fc x, _flattened_deps c = Some fc → x ∈ flat_set fc →
        (∃ f1, _flattened_deps a1 = Some f1 ∧ x ∈ flat_set f1)
        ∨ x ∈ _concurrency_deps c.
Proof.
  intros H12 H23 Hc.
  destruct (store_rel_lookup_r _ _ _ _ _ H23 Hc) as (a2' & Ha2' & Hch).
  rewrite list_lookup_fmap in Ha2'.
  destruct (S2 !! k) as [a2|] eqn:Ha2; [|done]. simpl in Ha2'. simplify_eq.
  destruct (store_rel_lookup_r _ _ _ _ _ H12 Ha2) as (a1 & Ha1 & Hinc).
  destruct (incoming_changes_static _ _ Hinc) as (Hid & Hfl & Hdeps & _ & Hsame).
  destruct (chained_static _ _ Hch) as (Hid' & Hinc' & Hsame').
  destruct Hch as (_ & extra & Hd & Hcd & Hf). simpl in *.
  exists a1, a2. split; [done|]. split; [done|].
  split; [by destruct a2; simpl in *; congruence|].
  split.
  { etrans; [done|]. destruct Hsame' as (?&?&?&?). by destruct a2. }
  split; [by destruct a2|].
  split; [by destruct a2; simpl in *; congruence|].
  intros fc x Hfc Hx. destruct Hf as [[-> Hf]|(l & Hl & Hf)].
  - left. exists fc. split; [|done]. rewrite Hfl. destruct a2; simpl in *. congruence.
  - rewrite Hfc in Hf. injection Hf as ->. simpl in Hx.
    apply elem_of_list_to_set, elem_of_app in Hx as [Hx|Hx].
    + left. exists (FlatList l). split.
      * rewrite Hfl. by destruct a2.
      * simpl. by apply elem_of_list_to_set.
    + right. by rewrite Hcd.
Qed.

Lemma closure_after_chaining (S0 S1 S2 S3 : list Item) :
  flattened_from S0 S1 S2 →
  store_rel chained (set_concurrency_deps [] <$> S2) S3 →
  ∀ i j I J, S3 !! i = Some I → S3 !! j = Some J →
    (∀ fj, _flattened_deps J = Some fj → id I ∈ flat_set fj →
           id I ∉ _concurrency_deps J →
           ∃ inc, _incoming_deps I = Some inc ∧ j ∈ inc)
    ∧ (∀ fi d, _flattened_deps I = Some fi → d ∈ flat_set fi →
               reachable S3 i d ∨ dropped S3 d).
Proof.
  intros ((Hrel & Hsound & Hexact) & Hall & H12 & Hinc) H23 i j I J HI HJ.
  destruct (chained_view S1 S2 S3 i I H12 H23 HI)
    as (I1 & I2 & HI1 & HI2 & HidI & HsameI & HincI & HdepsI & HflatI).
  destruct (chained_view S1 S2 S3 j J H12 H23 HJ)
    as (J1 & J2 & HJ1 & HJ2 & HidJ & HsameJ & HincJ & HdepsJ & HflatJ).
  assert (length S0 = length S3) as Hlen.
  { pose proof (proj1 Hrel) as Hl1. pose proof (proj1 H12) as Hl2.
    pose proof (proj1 H23) as Hl3. rewrite length_fmap in Hl3. congruence. }
  assert (∀ s, resolve_selector s S3 = resolve_selector s S0) as Hres.
  { intros s. symmetry. apply resolve_selector_ext. split; [done|].
    intros k a c Ha Hc.
      destruct (chained_view S1 S2 S3 k c H12 H23 Hc) as (c1 & _ & Hc1 & _ & _ & Hs & _).
      destruct (store_rel_lookup _ _ _ _ _ Hrel Ha) as (c1' & Hc1' & Hch).
      assert (c1' = c1) as -> by congruence.
      etrans; [by apply flatten_changes_identity|done]. }
  assert (∀ k a c x, S0 !! k = Some a → S3 !! k = Some c → x ∈ _deps a →
                     x ∈ _deps c ∨ dropped S0 x) as Hkept.
  { intros k a c x Ha Hc Hx.
    destruct (chained_view S1 S2 S3 k c H12 H23 Hc) as (c1 & _ & Hc1 & _ & _ & _ & _ & Hd & _).
    pose proof (Hexact k a c1 Ha Hc1) as He.
    destruct (Hall k c1 Hc1) as [l Hl]. rewrite Hl in He. destruct He as [He _].
    destruct (decide (dropped S0 x)) as [?|Hnd]; [by right|left].
    rewrite Hd, He. apply elem_of_app. left. by apply list_elem_of_filter. }
  assert (∀ x, dropped S0 x → dropped S3 x) as Hdrop.
  { intros x (r & Hr & He). exists r. by rewrite Hres. }
  split.
  - intros fj Hfj Hin Hnc.
    destruct (HflatJ fj (id I) Hfj Hin) as [(f1 & Hf1 & Hin1)|?]; [|done].
    destruct (Hinc i) as (I2' & inc & HI2' & Hinc2 & Hiff).
    { by eapply lookup_lt_Some. }
    assert (I2' = I2) as -> by congruence.
    exists inc. split; [congruence|]. apply Hiff.
    exists I1, J1, f1. rewrite <- HidI. done.
  - intros fi d Hfi Hd.
    destruct (HflatI fi d Hfi Hd) as [(f1 & Hf1 & Hin1)|Hc].
    2: { left. eapply reach_direct; [done|]. rewrite HdepsI.
         apply elem_of_app. by right. }
    pose proof (Hsound i I1 f1 d HI1 Hf1 Hin1) as Hreach.
    clear -Hreach Hres Hkept Hdrop Hlen.
    induction Hreach as [k a x Ha Hx|k a s r k' x Ha Hs Hr Hk' _ IH].
    + destruct (lookup_lt_is_Some_2 S3 k) as [c Hc].
      { apply lookup_lt_Some in Ha. lia. }
      destruct (Hkept k a c x Ha Hc Hx) as [?|?]; [left|right; auto].
      by eapply reach_direct.
    + destruct IH as [IH|IH]; [|by right]. left.
      destruct (lookup_lt_is_Some_2 S3 k) as [c Hc].
      { apply lookup_lt_Some in Ha. lia. }
      destruct (Hkept k a c s Ha Hc Hs) as [Hin|(r' & Hr' & He)].
      * eapply reach_through; [done|done| |done|done]. by rewrite Hres.
      * exfalso. rewrite Hr in Hr'. injection Hr' as <-. rewrite He in Hk'.
        by apply not_elem_of_nil in Hk'.
Qed.

(** C2 (amended): after [prepare_dependencies] returns, for all items [i] and
    [j] of the returned list: if [i.id] is in [j._flattened_deps] and was not
    put there by the concurrency pass (it is not in [j._concurrency_deps]),
    then [j] is in [i._incoming_deps]; and every [d] in [i._flattened_deps]
    is reachable from [i] by following [_deps] entries, or is a selector that
    resolves to no item (such entries are dropped from [_deps] but stay in
    [_flattened_deps]). *)
Theorem C2_dependency_closure (m : ItemMethods) (items : list Item)
    (node_os node_os_version : string) (items' : list Item) :
  methods_ok m →
  prepare_dependencies m items node_os node_os_version = Ok items' →
  ∀ i j I J, items' !! i = Some I → items' !! j = Some J →
    (∀ fj, _flattened_deps J = Some fj → id I ∈ flat_set fj →
           id I ∉ _concurrency_deps J →
           ∃ inc, _incoming_deps I = Some inc ∧ j ∈ inc)
    ∧ (∀ fi d, _flattened_deps I = Some fi → d ∈ flat_set fi →
               reachable items' i d ∨ dropped items' d).
Proof.
  intros Hm Hrun. unfold prepare_dependencies in Hrun.
  apply bind_Ok in Hrun as (Sa & Ha & Hrun).
  apply bind_Ok in Hrun as (Sb & Hb & Hrun).
  apply bind_Ok in Hrun as (Sc & Hc & Hrun).
  apply bind_Ok in Hrun as (Sd & Hd & Hrun).
  apply bind_Ok in Hrun as (Se & He & Hrun).
  apply bind_Ok in Hrun as (S0 & H0 & Hrun).
  apply bind_Ok in Hrun as (S2 & H2 & Hrun).
  apply bind_Ok in Hrun as (S3 & H3 & Hrun).
  pose proof (prepare_loop_fresh m items Hm) as Pa. rewrite Ha in Pa.
  pose proof (inject_canned_actions_fresh m Sa Hm) as Pb. rewrite Hb in Pb.
  pose proof (inject_reverse_triggers_fresh Sb) as Pc. rewrite Hc in Pc.
  pose proof (inject_reverse_dependencies_fresh Sc) as Pd. rewrite Hd in Pd.
  pose proof (inject_trigger_dependencies_fresh Sd) as Pe. rewrite He in Pe.
  pose proof (inject_preceded_by_fresh Se) as P0. rewrite H0 in P0.
  simpl in *.
  assert (fresh S0) as Hfresh by (apply P0, Pe, Pd, Pc, Pb, Pa).
  pose proof (flatten_dependencies_spec S0 Hfresh) as P2. rewrite H2 in P2.
  destruct P2 as [S1 P2].
  pose proof (inject_concurrency_blockers_spec (types_order m) S2
                node_os node_os_version) as P3.
  rewrite H3 in P3. simpl in P3.
  pose proof (redundancy_loop_id m S3 S3) as P4. rewrite Hrun in P4. simpl in P4.
  subst items'. by eapply closure_after_chaining.
Qed.

(** *** The claims on concrete items *)

(** C1 (what the code does where the claim fails): for the selector [file:]
    and a list holding one file item and one package, [resolve_selector]
    yields no item, while the item of kind [file] is the one at position 0.
    The filter compares [ITEM_TYPE_NAME] with the empty [selector_name]. *)
Theorem C1_kind_selector_yields_nothing :
  resolve_selector "file:" example_file_and_pkg = Ok (FilterIter [])
  ∧ filter_items (λ item, bool_decide (kind item = "file")) example_file_and_pkg = [0].
Proof. split; reflexivity. Qed.

(** C3 (what the code does where the claim fails): [K1] and [K2] share the
    kind [x], [K2] and [K3] share [y]. Walked in the order [K1, K3, K2] the
    grouping loop ends with three groups none of which holds all three
    kinds; in the order [K1, K2, K3] its first group holds them all. *)
Theorem C3_grouping_depends_on_order :
  chain_groups_of "os" "1" [example_K1; example_K3; example_K2]
  = [["a"; "x"; "b"; "x"; "y"]; ["c"; "y"; "b"; "x"; "y"]; ["b"; "x"; "y"]]
  ∧ ¬ same_chain_group
        (chain_groups_of "os" "1" [example_K1; example_K3; example_K2]) "a" "b" "c"
  ∧ same_chain_group
      (chain_groups_of "os" "1" [example_K1; example_K2; example_K3]) "a" "b" "c".
Proof.
  split; [reflexivity|]. split.
  - intros (g & Hg & Ha & Hb & Hc). vm_compute in Hg.
    repeat (apply elem_of_cons in Hg as [->|Hg]).
    + repeat (apply elem_of_cons in Hc as [Hc|Hc]; [discriminate|]).
      by apply not_elem_of_nil in Hc.
    + repeat (apply elem_of_cons in Ha as [Ha|Ha]; [discriminate|]).
      by apply not_elem_of_nil in Ha.
    + repeat (apply elem_of_cons in Ha as [Ha|Ha]; [discriminate|]).
      by apply not_elem_of_nil in Ha.
    + by apply not_elem_of_nil in Hg.
  - exists ["a"; "x"; "b"; "x"; "y"; "c"; "y"]. split; [by left|].
    repeat split; repeat first [by left | right].
Qed.

Lemma example_pkgs_run :
  prepare_dependencies example_methods example_pkgs "os" "1" = Ok example_pkgs_prepared.
Proof. by vm_compute. Qed.

Lemma example_methods_ok : methods_ok example_methods.
Proof.
  split.
  - intros item items item' [= <-]. done.
  - intros actions. done.
Defined.

(** C2 (the claim as stated fails): after [prepare_dependencies] on
    [example_pkgs] the id of the first item is in the second item's
    [_flattened_deps], put there by the concurrency pass, while the first
    item's [_incoming_deps] is empty; and [tag:none], still in the second
    item's [_flattened_deps], is in no [_deps] list. *)
Lemma C2_counterexample :
  prepare_dependencies example_methods example_pkgs "os" "1" = Ok example_pkgs_prepared
  ∧ ¬ (∀ i j I J, example_pkgs_prepared !! i = Some I →
                  example_pkgs_prepared !! j = Some J →
         ∀ fj, _flattened_deps J = Some fj → id I ∈ flat_set fj →
               ∃ inc, _incoming_deps I = Some inc ∧ j ∈ inc)
  ∧ ¬ (∀ i I, example_pkgs_prepared !! i = Some I →
         ∀ fi d, _flattened_deps I = Some fi → d ∈ flat_set fi →
                 reachable example_pkgs_prepared i d).
Proof.
  split; [apply example_pkgs_run|]. split.
  - intros H.
    destruct (H 0 1 _ _ eq_refl eq_refl _ eq_refl) as (inc & [= <-] & Hin).
    + by vm_compute.
    + by apply not_elem_of_empty in Hin.
  - intros H.
    assert (reachable example_pkgs_prepared 1 "tag:none") as Hreach.
    { eapply (H 1 _ eq_refl _ _ eq_refl). by vm_compute. }
    inversion Hreach as [k item d Hitem Hd|k item s r k' d Hitem Hs Hr Hk' Hreach'];
      subst; injection Hitem as <-; simpl in *.
    + apply list_elem_of_singleton in Hd. discriminate.
    + apply list_elem_of_singleton in Hs. subst s. vm_compute in Hr.
      injection Hr as <-. simpl in Hk'. apply list_elem_of_singleton in Hk'. subst k'.
      inversion Hreach' as [k item d Hitem Hd|k item s r k' d Hitem Hs Hr Hk' _];
        subst; injection Hitem as <-; simpl in *.
      * by apply not_elem_of_nil in Hd.
      * by apply not_elem_of_nil in Hs.
Qed.

Lemma C2_witness :
  methods_ok example_methods
  ∧ prepare_dependencies example_methods example_pkgs "os" "1" = Ok example_pkgs_prepared
  ∧ ∀ i j I J, example_pkgs_prepared !! i = Some I →
               example_pkgs_prepared !! j = Some J →
      (∀ fj, _flattened_deps J = Some fj → id I ∈ flat_set fj →
             id I ∉ _concurrency_deps J →
             ∃ inc, _incoming_deps I = Some inc ∧ j ∈ inc)
      ∧ (∀ fi d, _flattened_deps I = Some fi → d ∈ flat_set fi →
                 reachable example_pkgs_prepared i d
                 ∨ dropped example_pkgs_prepared d).
Proof.
  split; [exact example_methods_ok|]. split; [by vm_compute|].
  apply (C2_dependency_closure example_methods example_pkgs "os" "1"
           example_pkgs_prepared example_methods_ok).
  by vm_compute.
Defined.

Lemma example_pkgs_fresh : fresh example_pkgs_with_deps.
Proof.
  intros k a Ha. destruct k as [|[|k]]; simpl in Ha; [| |done];
    by injection Ha as <-.
Defined.

Lemma C9_witness :
  fresh example_pkgs_with_deps
  ∧ ∀ items', _flatten_dependencies example_pkgs_with_deps = Ok items' →
      ∀ i a, example_pkgs_with_deps !! i = Some a →
        ∃ b, items' !! i = Some b
             ∧ _deps b = filter (λ dep, ¬ dropped example_pkgs_with_deps dep) (_deps a).
Proof.
  split; [exact example_pkgs_fresh|].
  exact (proj1 (proj2 (C9_unresolvable_dependencies example_pkgs_with_deps
                         example_pkgs_fresh))).
Defined.

(** The scenario "selector drop" of the specification: [tag:none] is removed
    from [_deps] and no error is raised. *)
Example selector_drop :
  ∃ items', _flatten_dependencies example_pkgs_with_deps = Ok items'
            ∧ _deps <$> items' = [[]; []].
Proof. eexists. split; by vm_compute. Qed.


(** A file preceded by an action that is not triggered: the pass fails with
    the [BundleError] of its innermost loop. *)
Example preceded_by_untriggered :
  preceded_by_resolves example_bad_preceded
  ∧ _inject_preceded_by_dependencies example_bad_preceded
    = Raise (BundleError (PrecededByMissingTriggered
                            "action:restart" "b1" "file:/x" "b1")).
Proof.
  split; [|reflexivity].
  intros X sel HX Hsel.
  repeat (apply elem_of_cons in HX as [->|HX]);
    [| |by apply not_elem_of_nil in Hsel|by apply not_elem_of_nil in HX];
    apply list_elem_of_singleton in Hsel; subst sel; eexists; reflexivity.
Qed.


End DepsTheory.

(** * Theorems about [PathSet] ([metagen.py]) *)

Module PathSetTheory.
Import Metagen.

Lemma list_starts_with_prefix (a b : Path) :
  list_starts_with a b = true ↔ b `prefix_of` a.
Proof. unfold list_starts_with. apply bool_decide_eq_true. Qed.

Lemma covers_spec (s : PathSet) (q : Path) :
  covers s q = true ↔ ∃ e, e ∈ _paths s ∧ e `prefix_of` q.
Proof.
  unfold covers. rewrite existsb_exists. split.
  - intros (e & Hin & Hp). exists e. split.
    + apply elem_of_elements. by apply list_elem_of_In.
    + by apply list_starts_with_prefix.
  - intros (e & Hin & Hp). exists e. split.
    + apply list_elem_of_In. by apply elem_of_elements.
    + by apply list_starts_with_prefix.
Qed.

(** The removal loop of [add] keeps exactly the members that do not start
    with the new path. *)
Lemma remove_loop_spec (new_path : Path) (l : list Path) (X : gset Path) (e : Path) :
  e ∈ foldl (λ paths existing_path,
               if list_starts_with existing_path new_path
               then paths ∖ {[existing_path]} else paths) X l
  ↔ e ∈ X ∧ ¬ (e ∈ l ∧ new_path `prefix_of` e).
Proof.
  revert X. induction l as [|x l IH]; intros X; simpl.
  - split; [intros ?; split; [done|] | tauto].
    intros [Hin _]. by apply not_elem_of_nil in Hin.
  - rewrite IH. destruct (list_starts_with x new_path) eqn:Hx.
    + apply list_starts_with_prefix in Hx.
      rewrite elem_of_difference, elem_of_singleton, elem_of_cons.
      split.
      * intros [[HX Hne] Hn]. split; [done|]. intros [[->|Hl] Hp]; tauto.
      * intros [HX Hn]. split; [split; [done|]|].
        -- intros ->. apply Hn. by split; [left|].
        -- intros [Hl Hp]. apply Hn. by split; [right|].
    + assert (¬ new_path `prefix_of` x) as Hnx.
      { intros Hp. apply list_starts_with_prefix in Hp. congruence. }
      rewrite elem_of_cons. split.
      * intros [HX Hn]. split; [done|]. intros [[->|Hl] Hp]; tauto.
      * intros [HX Hn]. split; [done|]. intros [Hl Hp]. apply Hn. by split; [right|].
Qed.

Lemma add_covered (s : PathSet) (p : Path) :
  (∃ e, e ∈ _paths s ∧ e `prefix_of` p) → add s p = (s, false).
Proof.
  intros Hc. apply covers_spec in Hc. unfold add. by rewrite Hc.
Qed.

Lemma add_fresh (s : PathSet) (p : Path) :
  ¬ (∃ e, e ∈ _paths s ∧ e `prefix_of` p) →
  add s p = ({| _paths := filter (λ e, ¬ p `prefix_of` e) (_paths s) ∪ {[p]} |}, true).
Proof.
  intros Hc. unfold add.
  destruct (covers s p) eqn:Hcov; [apply covers_spec in Hcov; tauto|].
  do 2 f_equal. apply set_eq. intros e.
  rewrite !elem_of_union, elem_of_filter, remove_loop_spec, elem_of_elements.
  tauto.
Qed.

Lemma add_antichain (s : PathSet) (p : Path) :
  antichain s → antichain (add s p).1.
Proof.
  intros Hs.
  destruct (decide (∃ e, e ∈ _paths s ∧ e `prefix_of` p)) as [Hc|Hc].
  - by rewrite add_covered.
  - rewrite add_fresh by done. unfold antichain. simpl. intros a b.
    rewrite !elem_of_union, !elem_of_filter, !elem_of_singleton.
    intros [[Ha1 Ha2]| ->] [[Hb1 Hb2]| ->] Hp; auto.
    + exfalso. apply Hc. eauto.
    + tauto.
Qed.

Lemma add_all_antichain (ps : list Path) (s : PathSet) :
  antichain s → antichain (add_all s ps).
Proof.
  revert s. induction ps as [|p ps IH]; intros s Hs; [done|].
  simpl. apply IH. by apply add_antichain.
Qed.

(** C5: after any sequence of [add] calls on an empty [PathSet], no member is
    a proper prefix of another member; [add(p)] changes nothing when a member
    is a prefix of [p], and otherwise removes exactly the members that start
    with [p] and inserts [p]; [covers(q)] is true iff some member is a prefix
    of [q]. *)
Theorem C5_PathSet_prefix_free (ps : list Path) :
  let s := add_all PathSet_init ps in
  (∀ a b, a ∈ _paths s → b ∈ _paths s → a `prefix_of` b → a = b)
  ∧ (∀ p, (∃ e, e ∈ _paths s ∧ e `prefix_of` p) → add s p = (s, false))
  ∧ (∀ p, ¬ (∃ e, e ∈ _paths s ∧ e `prefix_of` p) →
          add s p = ({| _paths := filter (λ e, ¬ p `prefix_of` e) (_paths s) ∪ {[p]} |},
                     true))
  ∧ (∀ q, covers s q = true ↔ ∃ e, e ∈ _paths s ∧ e `prefix_of` q).
Proof.
  intros s. repeat split.
  - apply add_all_antichain. intros a b Ha. by apply not_elem_of_empty in Ha.
  - apply add_covered.
  - apply add_fresh.
  - by apply covers_spec.
  - by apply covers_spec.
Qed.

(** The docstring of [PathSet] *)
Example PathSet_doctest :
  _paths (add_all PathSet_init [["foo"; "bar"]; ["foo"]]) = {[ ["foo"] ]}.
Proof. by vm_compute. Qed.

End PathSetTheory.

(** * Theorems about the metadata engine ([metagen.py]) *)

Module EngineTheory.
Import Metagen.

Section Proofs.
Context {Metadata : Type} `{EqDecision Metadata} {Blame : Type}.
Variable env : @Environment Metadata Blame.

Local Abbreviation State := (@MetadataGenerator Metadata).
Local Abbreviation M := (eng State).

Ltac run := unfold mbind, mret, eng_bind, eng_ret, get_state, modify, raise, finally in *; simpl in *.

Section Keeps.
Variable I : State → State → Prop.
Variable E : exn → Prop.
Hypothesis I_refl : ∀ st, I st st.
Hypothesis I_trans : ∀ a b c, I a b → I b c → I a c.

Lemma keeps_ret {A} (a : A) : keeps I E (mret a : M A).
Proof. intros st. split; [apply I_refl|]. intros e He. discriminate. Qed.

Lemma keeps_get : keeps I E get_state.
Proof. intros st. split; [apply I_refl|]. intros e He. discriminate. Qed.

Lemma keeps_fuel {A} : keeps I E (out_of_fuel : M A).
Proof. intros st. split; [apply I_refl|]. intros e He. discriminate. Qed.

Lemma keeps_raise {A} (e : exn) : E e → keeps I E (raise e : M A).
Proof. intros He st. split; [apply I_refl|]. intros e' [= <-]. done. Qed.

Lemma keeps_modify (f : State → State) :
  (∀ st, I st (f st)) → keeps I E (modify f).
Proof. intros Hf st. split; [apply Hf|]. intros e He. discriminate. Qed.

Lemma keeps_bind {A B} (m : M A) (k : A → M B) :
  keeps I E m → (∀ a, keeps I E (k a)) → keeps I E (m ≫= k).
Proof.
  intros Hm Hk st. unfold mbind, eng_bind.
  destruct (Hm st) as [HI HE]. destruct (m st) as [st' [a| e|]]; simpl in *.
  - destruct (Hk a st') as [HI' HE']. split; [by eapply I_trans|done].
  - split; [done|]. intros e' [= <-]. by apply HE.
  - split; [done|]. intros e' ?. discriminate.
Qed.

Lemma keeps_for {A} (xs : list A) (body : A → M ()) :
  (∀ x, keeps I E (body x)) → keeps I E (for_ xs body).
Proof.
  intros Hb. induction xs as [|x xs IH]; simpl.
  - apply keeps_ret.
  - apply keeps_bind; [apply Hb|]. intros _. apply IH.
Qed.

Lemma keeps_foldl {A B} (xs : list A) (step : B → A → M B) (acc : M B) :
  keeps I E acc → (∀ b x, keeps I E (step b x)) →
  keeps I E (foldl (λ (acc : M B) x, acc ≫= λ b, step b x) acc xs).
Proof.
  intros Hacc Hstep. revert acc Hacc.
  induction xs as [|x xs IH]; intros acc Hacc; simpl; [done|].
  apply IH. apply keeps_bind; [done|]. intros b. apply Hstep.
Qed.

Lemma keeps_catch (m : M ()) :
  keeps I E m → keeps I E (catch_StartOver m).
Proof.
  intros Hm st. unfold catch_StartOver. destruct (Hm st) as [HI HE].
  destruct (m st) as [st' [a|e|]]; simpl in *.
  - split; [done|]. intros ??. discriminate.
  - destruct e; simpl; (split; [done|]); intros e' He'; try discriminate;
      injection He' as <-; by apply HE.
  - split; [done|]. intros ??. discriminate.
Qed.

Lemma keeps_finally {A} (m : M A) (f : State → State) :
  keeps I E m → (∀ st, I st (f st)) → keeps I E (finally m f).
Proof.
  intros Hm Hf st. unfold finally. destruct (Hm st) as [HI HE].
  destruct (m st) as [st' r]; simpl in *. split; [|done].
  eapply I_trans; [done|apply Hf].
Qed.

End Keeps.


Ltac unfold_engine :=
  unfold __run_reactors, run_pass, record_deps, _pending_reactors,
    _relevant_reactors, proxy_of, get_node, randomize_order, __run_reactor,
    enter_reactor, call_reactor, install_result, _metadata_proxy_for_node,
    update_proxy, clear_keyerror, count_change, __run_new_nodes,
    __initial_run_for_node, set_layer_of, cache_partition_of,
    __run_triggered_nodes, __run_unstable_nodes, __run_nodes_with_deps,
    stable_of, mark_completed, _write_disk_cache, quit_is_set,
    __check_iteration_count.

Ltac keeps_step side :=
  lazymatch goal with
  | |- keeps _ _ (mret _) => apply keeps_ret; side
  | |- keeps _ _ get_state => apply keeps_get; side
  | |- keeps _ _ out_of_fuel => apply keeps_fuel; side
  | |- keeps _ _ (raise _) => apply keeps_raise; side
  | |- keeps _ _ (modify _) => apply keeps_modify; side
  | |- keeps _ _ (mbind _ _) => apply keeps_bind; [side .. | | intros ?]
  | |- keeps _ _ (for_ _ _) => apply keeps_for; [side .. | intros ?]
  | |- keeps _ _ (foldl _ _ _) => apply keeps_foldl; [side .. | | intros ? ?]
  | |- keeps _ _ (catch_StartOver _) => apply keeps_catch
  | |- keeps _ _ (finally _ _) => apply keeps_finally; [side .. | | side]
  | |- keeps _ _ (match ?x with _ => _ end) => destruct x
  | |- keeps _ _ (let '(_, _) := ?x in _) => destruct x
  | |- keeps _ _ _ => progress unfold_engine
  end.

Ltac keeps_go side := repeat (keeps_step side).

Lemma get_in_a_reactor_bookkeeping st access :
  same_bookkeeping st (get_in_a_reactor env st access).
Proof.
  unfold get_in_a_reactor, get_call. destruct access as [n p].
  repeat case_match; done.
Qed.

Lemma accesses_bookkeeping l st :
  same_bookkeeping st (foldl (get_in_a_reactor env) st l).
Proof.
  revert st. induction l as [|a l IH]; intros st; simpl; [done|].
  specialize (IH (get_in_a_reactor env st a)).
  pose proof (get_in_a_reactor_bookkeeping st a) as Ha.
  unfold same_bookkeeping in *. intuition congruence.
Qed.

Ltac iter_side :=
  try solve [ done
            | intros; unfold same_iterations in *; simpl; congruence
            | intros; unfold same_iterations; apply accesses_bookkeeping ].

Lemma run_reactor_iterations node_name reactor :
  keeps same_iterations (λ _, True) (__run_reactor env node_name reactor).
Proof.
  unfold __run_reactor, enter_reactor, call_reactor, install_result,
    _metadata_proxy_for_node, update_proxy, clear_keyerror, count_change.
  keeps_go iter_side.
Qed.


Lemma enter_reactor_known node_name (reactor : @Reactor Metadata) (st : State) :
  known env node_name st →
  enter_reactor env node_name reactor st
  = (entry_state env node_name reactor st, Val (popped_layer env node_name reactor st))
  ∧ _in_a_reactor (entry_state env node_name reactor st) = true
  ∧ layer_of node_name 1 (reactor_name reactor) (entry_state env node_name reactor st) = None
  ∧ is_Some (_node_metadata_proxies (entry_state env node_name reactor st) !! node_name)
  ∧ same_bookkeeping st (set_in_a_reactor (_in_a_reactor st)
                           (entry_state env node_name reactor st)).
Proof.
  intros Hk. unfold entry_state, popped_layer, layer_of, enter_reactor,
    _metadata_proxy_for_node, update_proxy. run.
  destruct (_node_metadata_proxies st !! node_name) as [proxy|] eqn:Hp.
  - simpl. rewrite lookup_alter_eq, Hp. simpl. rewrite lookup_delete_eq.
    repeat split; eauto.
  - destruct Hk as [[? ?]|[node Hn]]; [congruence|]. rewrite Hn. simpl.
    rewrite lookup_alter_eq, lookup_insert_eq. simpl. repeat split; eauto.
Qed.

Lemma enter_reactor_unknown node_name (reactor : @Reactor Metadata) (st : State) :
  ¬ known env node_name st →
  ∃ st1, enter_reactor env node_name reactor st = (st1, Exc (NoSuchNode node_name))
         ∧ _in_a_reactor st1 = _in_a_reactor st.
Proof.
  intros Hk. unfold enter_reactor, _metadata_proxy_for_node, update_proxy. run.
  destruct (_node_metadata_proxies st !! node_name) as [proxy|] eqn:Hp.
  { exfalso. apply Hk. left. eauto. }
  destruct (nodes env !! node_name) as [node|] eqn:Hn.
  { exfalso. apply Hk. right. eauto. }
  simpl. eauto.
Qed.

(** The [try] statement, case by case *)
Lemma call_reactor_spec node_name (reactor : @Reactor Metadata) (st1 : State) :
  let run := call reactor node_name (_node_metadata_proxies st1) in
  let st2 := foldl (get_in_a_reactor env) st1 (accesses run) in
  let key := (node_name, reactor_name reactor) in
  call_reactor env node_name reactor st1 =
  match outcome run with
  | Returned new_metadata => (set_in_a_reactor false st2, Val (inr new_metadata))
  | RaisedKeyError exc =>
      (set_in_a_reactor false (set__keyerrors (<[key := exc]> (__keyerrors st2)) st2),
       Val (inl (false, _partial_metadata_accessed_for st2)))
  | RaisedDoNotRunAgain =>
      (set_in_a_reactor false
         (set__keyerrors (delete key (__keyerrors st2))
            (set__do_not_run_again ({[key]} ∪ __do_not_run_again st2) st2)),
       Val (inl (false, ∅)))
  | RaisedOther exc => (set_in_a_reactor false st2, Exc (ReactorException exc))
  end.
Proof.
  intros run st2 key. unfold call_reactor, clear_keyerror. run.
  fold run. destruct (outcome run); reflexivity.
Qed.

Lemma proxies_grow access (st : State) n :
  is_Some (_node_metadata_proxies st !! n) →
  is_Some (_node_metadata_proxies (get_in_a_reactor env st access) !! n).
Proof.
  intros Hn. unfold get_in_a_reactor, get_call. destruct access as [m p].
  repeat case_match; simpl; try done;
    (destruct (decide (m = n)) as [->|Hne];
     [rewrite lookup_insert_eq; eauto|by rewrite lookup_insert_ne]).
Qed.

Lemma accesses_proxies_grow l (st : State) n :
  is_Some (_node_metadata_proxies st !! n) →
  is_Some (_node_metadata_proxies (foldl (get_in_a_reactor env) st l) !! n).
Proof.
  revert st. induction l as [|a l IH]; intros st Hn; simpl; [done|].
  apply IH. by apply proxies_grow.
Qed.

Lemma dict_get_set_eq {K V} `{EqDecision K} (k : K) (v : V) d :
  dict_get k (dict_set k v d) = Some v.
Proof.
  induction d as [|[k' v'] d IH]; simpl.
  - by rewrite decide_True.
  - destruct (decide (k' = k)) as [->|Hne]; simpl.
    + by rewrite decide_True.
    + by rewrite decide_False.
Qed.

(** [__run_reactor] after a reactor has returned a mapping that passes the
    checks *)
Lemma install_result_ok node_name (reactor : @Reactor Metadata) old new (st2 : State) :
  provides_ok env st2 reactor new = true →
  valid_metadata env new = true →
  is_Some (_node_metadata_proxies st2 !! node_name) →
  let key := (node_name, reactor_name reactor) in
  let changed := bool_decide (old ≠ new) in
  ∃ st',
    install_result env node_name reactor old new st2
    = (st', Val (changed, _partial_metadata_accessed_for st2))
    ∧ layer_of node_name 1 (reactor_name reactor) st' = Some new
    ∧ __keyerrors st' = delete key (__keyerrors st2)
    ∧ _in_a_reactor st' = _in_a_reactor st2
    ∧ dict_get key (__reactor_changes st')
      = (if changed
         then Some (default 0 (dict_get key (__reactor_changes st2)) + 1)%Z
         else dict_get key (__reactor_changes st2)).
Proof.
  intros Hp Hv [proxy Hproxy] key changed.
  unfold install_result, clear_keyerror, _metadata_proxy_for_node, update_proxy,
    count_change, _set_layer, layer_of, provides_ok in *. run.
  assert (∀ (k : M (bool * gset string)) (s : State),
    (if _verify_reactor_provides st2
     then match _provides reactor with
          | Some (path :: paths) =>
              match extra_paths_in_dict env new (path :: paths) with
              | [] => λ st, (st, Val ())
              | p :: l =>
                  λ st, (st, Exc (ValueError_provides (reactor_name reactor)
                                     node_name (p :: l)))
              end
          | _ => λ st, (st, Val ())
          end
     else λ st, (st, Val ())) s = (s, Val ())) as Hcheck.
  { intros _ s. destruct (_verify_reactor_provides st2); simpl in Hp; [|done].
    destruct (_provides reactor) as [[|path paths]|]; try done.
    apply bool_decide_eq_true in Hp. by rewrite Hp. }
  rewrite Hcheck by exact (λ st, (st, Fuel)). simpl.
  rewrite Hproxy, Hv. simpl. fold changed. fold key.
  destruct changed; simpl; eexists; (split; [reflexivity|]); simpl;
    rewrite lookup_alter_eq, Hproxy; simpl; rewrite lookup_insert_eq;
    repeat split; try done.
  apply dict_get_set_eq.
Qed.


Lemma run_reactor_skipped node_name (reactor : @Reactor Metadata) (st : State) :
  (node_name, reactor_name reactor) ∈ __do_not_run_again st →
  __run_reactor env node_name reactor st = (st, Val (false, ∅)).
Proof.
  intros Hd. unfold __run_reactor. run. by rewrite bool_decide_eq_true_2.
Qed.

Lemma run_reactor_invoked node_name (reactor : @Reactor Metadata) (st : State) :
  (node_name, reactor_name reactor) ∉ __do_not_run_again st →
  known env node_name st →
  __run_reactor env node_name reactor st =
  match call_reactor env node_name reactor (entry_state env node_name reactor st) with
  | (st2, Val (inl early)) => (st2, Val early)
  | (st2, Val (inr new_metadata)) =>
      install_result env node_name reactor (popped_layer env node_name reactor st)
        new_metadata st2
  | (st2, Exc e) => (st2, Exc e)
  | (st2, Fuel) => (st2, Fuel)
  end.
Proof.
  intros Hd Hk. destruct (enter_reactor_known node_name reactor st Hk) as [He _].
  unfold __run_reactor. run. rewrite bool_decide_eq_false_2 by done.
  rewrite He. destruct (call_reactor _ _ _ _) as [st2 [[early|new]|e|]]; done.
Qed.

Lemma run_reactor_unknown node_name (reactor : @Reactor Metadata) (st : State) :
  (node_name, reactor_name reactor) ∉ __do_not_run_again st →
  ¬ known env node_name st →
  ∃ st1, __run_reactor env node_name reactor st = (st1, Exc (NoSuchNode node_name))
         ∧ _in_a_reactor st1 = _in_a_reactor st.
Proof.
  intros Hd Hk.
  destruct (enter_reactor_unknown node_name reactor st Hk) as (st1 & He & Hf).
  exists st1. split; [|done].
  unfold __run_reactor. run. rewrite bool_decide_eq_false_2 by done.
  by rewrite He.
Qed.

Ltac plain_side := try solve [ done | intros; simpl; congruence ].

Ltac flag_side :=
  try solve [ done | intros; unfold same_flag in *; simpl; congruence ].

Lemma install_result_flag node_name (reactor : @Reactor Metadata) old new :
  keeps same_flag (λ _, True) (install_result env node_name reactor old new).
Proof.
  unfold install_result, _metadata_proxy_for_node, update_proxy, clear_keyerror,
    count_change.
  keeps_go flag_side.
Qed.

Lemma install_result_keyerrors node_name (reactor : @Reactor Metadata) old new st :
  __keyerrors (install_result env node_name reactor old new st).1
  = delete (node_name, reactor_name reactor) (__keyerrors st).
Proof.
  unfold install_result.
  set (rest := (get_state ≫= _)).
  assert (keeps (λ s s', __keyerrors s' = __keyerrors s) (λ _, True) rest) as Hrest.
  { unfold rest, _metadata_proxy_for_node, update_proxy, count_change.
    keeps_go plain_side. }
  unfold clear_keyerror. run.
  destruct (Hrest (set__keyerrors (delete (node_name, reactor_name reactor)
                                     (__keyerrors st)) st)) as [-> _].
  done.
Qed.

(** After [__run_reactor] the engine is not "in a reactor", however the
    reactor ended. *)
Lemma run_reactor_flag node_name (reactor : @Reactor Metadata) (st : State) :
  (_in_a_reactor st = false
   ∨ (((node_name, reactor_name reactor) ∉ __do_not_run_again st)
      ∧ known env node_name st)) →
  _in_a_reactor (__run_reactor env node_name reactor st).1 = false.
Proof.
  intros Hpre.
  destruct (decide ((node_name, reactor_name reactor) ∈ __do_not_run_again st))
    as [Hd|Hd].
  { rewrite run_reactor_skipped by done. simpl. tauto. }
  destruct (decide (known env node_name st)) as [Hk|Hk].
  - rewrite run_reactor_invoked by done.
    rewrite call_reactor_spec. simpl.
    destruct (outcome _); simpl; try done.
    destruct (install_result_flag node_name reactor
                (popped_layer env node_name reactor st) new_metadata
                (set_in_a_reactor false
                   (foldl (get_in_a_reactor env) (entry_state env node_name reactor st)
                      (accesses (call reactor node_name
                         (_node_metadata_proxies (entry_state env node_name reactor st)))))))
      as [Hf _].
    unfold same_flag in Hf. by rewrite Hf.
  - destruct (run_reactor_unknown node_name reactor st Hd Hk) as (st1 & -> & Hf).
    simpl. rewrite Hf. tauto.
Qed.


Lemma bind_state {A B} (m : M A) (k : A → M B) (st : State) :
  (m ≫= k) st = match m st with
                | (st', Val a) => k a st'
                | (st', Exc e) => (st', Exc e)
                | (st', Fuel) => (st', Fuel)
                end.
Proof. reflexivity. Qed.

(** *** The iteration count *)

Lemma check_iteration_count_spec node_name (st : State) :
  let count := (default 0 (__node_iterations st !! node_name) + 1)%Z in
  __check_iteration_count env node_name st =
  (set__node_iterations (<[node_name := count]> (__node_iterations st)) st,
   if bool_decide (count > MAX_METADATA_ITERATIONS env)%Z
   then Exc (RuntimeError_iterations (MAX_METADATA_ITERATIONS env) node_name
               (most_common 25 (__reactor_changes st)))
   else Val ()).
Proof.
  intros count. unfold __check_iteration_count. run.
  rewrite lookup_insert_eq. simpl. fold count.
  by destruct (bool_decide _).
Qed.

Lemma run_pass_iterations node_name depsonly :
  keeps same_iterations (λ _, True) (run_pass env node_name depsonly).
Proof. keeps_go iter_side. Qed.

Lemma run_reactors_iterations node_name with_deps without_deps (st : State) :
  __node_iterations (__run_reactors env node_name with_deps without_deps st).1
  = <[node_name := (default 0 (__node_iterations st !! node_name) + 1)%Z]>
      (__node_iterations st).
Proof.
  unfold __run_reactors. rewrite bind_state, check_iteration_count_spec.
  destruct (bool_decide _); [done|].
  match goal with
  | |- __node_iterations (?rest ?s).1 = _ =>
      assert (keeps same_iterations (λ _, True) rest) as Hrest
  end.
  { keeps_go iter_side; apply run_pass_iterations. }
  destruct (Hrest (set__node_iterations
                     (<[node_name := (default 0 (__node_iterations st !! node_name) + 1)%Z]>
                        (__node_iterations st)) st)) as [-> _].
  done.
Qed.

Global Instance count_ge_total {K} : Total (@count_ge K).
Proof. intros a b. unfold count_ge. lia. Qed.

Global Instance count_ge_trans {K} : Transitive (@count_ge K).
Proof. intros a b c. unfold count_ge. lia. Qed.

Lemma insert_by_count_perm {K} (x : K * Z) l : insert_by_count x l ≡ₚ x :: l.
Proof.
  induction l as [|y l IH]; simpl; [done|].
  case_decide; [|done]. rewrite IH. apply Permutation_swap.
Qed.

Lemma sorted_by_count_perm {K} (counter : list (K * Z)) :
  sorted_by_count counter ≡ₚ counter.
Proof.
  induction counter as [|x l IH]; simpl; [done|].
  by rewrite insert_by_count_perm, IH.
Qed.

Lemma insert_by_count_sorted {K} (x : K * Z) l :
  StronglySorted count_ge l → StronglySorted count_ge (insert_by_count x l).
Proof.
  induction 1 as [|y l Hl IH Hy]; simpl.
  - by repeat constructor.
  - case_decide as Hlt.
    + constructor; [done|]. rewrite insert_by_count_perm.
      constructor; [unfold count_ge; lia|done].
    + constructor; [by constructor|].
      constructor; [unfold count_ge; lia|].
      eapply Forall_impl; [exact Hy|]. unfold count_ge. intros z ?. lia.
Qed.

Lemma sorted_by_count_sorted {K} (counter : list (K * Z)) :
  StronglySorted count_ge (sorted_by_count counter).
Proof.
  induction counter as [|x l IH]; simpl; [constructor|].
  by apply insert_by_count_sorted.
Qed.

(** The sort keeps pairs with the same count in the order of the counter. *)
Lemma sorted_by_count_stable {K} (counter : list (K * Z)) (c : Z) :
  filter (λ x, x.2 = c) (sorted_by_count counter) = filter (λ x, x.2 = c) counter.
Proof.
  induction counter as [|x l IH]; simpl; [done|].
  rewrite filter_cons, <- IH. clear IH.
  induction (sorted_by_count l) as [|y l' IH]; simpl; [by rewrite filter_cons|].
  destruct (decide (x.2 < y.2)%Z) as [Hlt|Hlt]; [|by rewrite (filter_cons _ x)].
  rewrite !(filter_cons _ y), IH.
  destruct (decide (x.2 = c)) as [Hx|Hx]; [|done].
  by rewrite !decide_False by lia.
Qed.

Example most_common_ties :
  most_common 3 [("a", 1%Z); ("b", 2%Z); ("c", 1%Z); ("d", 2%Z); ("e", 1%Z)]
  = [("b", 2%Z); ("d", 2%Z); ("a", 1%Z)].
Proof. reflexivity. Qed.

Example py_int_examples :
  py_int " +1_000 " = Some 1000%Z ∧ py_int "1__0" = None ∧ py_int "-12" = Some (-12)%Z
  ∧ py_int (String.string_of_list_ascii (replicate 4300 "1"%char)) ≠ None
  ∧ py_int (String.string_of_list_ascii (replicate 4301 "1"%char)) = None.
Proof. repeat split; by vm_compute. Qed.

Example split_slash_examples :
  split_slash "a/b" = ["a"; "b"] ∧ split_slash "" = [""]
  ∧ split_slash "/a//" = [""; "a"; ""; ""].
Proof. repeat split. Qed.

Lemma most_common_spec {K} (n : nat) (counter : list (K * Z)) :
  ∃ rest,
    most_common n counter ++ rest ≡ₚ counter
    ∧ length (most_common n counter) = n `min` length counter
    ∧ ∀ x y, x ∈ most_common n counter → y ∈ rest → (y.2 ≤ x.2)%Z.
Proof.
  exists (drop n (sorted_by_count counter)). unfold most_common.
  repeat split.
  - rewrite take_drop. apply sorted_by_count_perm.
  - rewrite length_take. by rewrite (Permutation_length (sorted_by_count_perm _)).
  - intros x y Hx Hy.
    pose proof (sorted_by_count_sorted counter) as Hs.
    rewrite <- (take_drop n (sorted_by_count counter)) in Hs.
    apply (StronglySorted_app_1_elem_of count_ge _ _ x y Hs Hx Hy).
Qed.

Lemma raise_persistent_keyerrors_spec (st : State) :
  raise_persistent_keyerrors env st =
  if bool_decide (__keyerrors st ≠ ∅) then
    (setquit_polls (S (quit_polls st)) st,
     if QUIT_EVENT env (quit_polls st) then Val ()
     else Exc (MetadataPersistentKeyError (sorted_keyerrors (__keyerrors st))))
  else (st, Val ()).
Proof.
  unfold raise_persistent_keyerrors, quit_is_set. run.
  destruct (bool_decide _); [|done]. simpl.
  by destruct (QUIT_EVENT env _).
Qed.

Lemma sorted_keyerrors_perm (keyerrors : gmap (string * string) PyExc) :
  sorted_keyerrors keyerrors ≡ₚ map_to_list keyerrors.
Proof. apply merge_sort_Permutation. Qed.

Lemma build_loop_not_persistent fuel :
  keeps (λ _ _, True) not_persistent (build_loop env fuel).
Proof.
  induction fuel as [|fuel IH]; simpl; unfold_engine;
    keeps_go plain_side; apply IH.
Qed.

Lemma build_node_metadata_spec fuel initial_node_name (st : State) :
  _build_node_metadata env fuel initial_node_name st =
  match _node_metadata_proxies st !! initial_node_name with
  | None => (st, Exc (KeyError initial_node_name))
  | Some proxy =>
      if _satisfied proxy then (st, Val ())
      else match build_loop env fuel (start_state initial_node_name st) with
           | (st0, Val _) => raise_persistent_keyerrors env st0
           | (st0, Exc e) => (st0, Exc e)
           | (st0, Fuel) => (st0, Fuel)
           end
  end.
Proof.
  unfold _build_node_metadata, proxy_of, start_state, __reset. run.
  destruct (_node_metadata_proxies st !! initial_node_name) as [proxy|]; [|done].
  simpl. destruct (_satisfied proxy); [done|].
  destruct (build_loop env fuel _) as [st0 [[]|e|]]; done.
Qed.


(** C4: a [KeyError] raised by a reactor does not abort [__run_reactor]: the
    exception is stored under [(node, reactor)]; a later run of the same pair
    that returns or raises [DoNotRunAgain] deletes the entry; and
    [_build_node_metadata] raises [MetadataPersistentKeyError] exactly when
    its loop has finished, entries remain and no quit was requested, the
    exception listing every remaining entry. *)
Theorem C4_keyerrors_recorded_and_reported
    node_name (reactor : @Reactor Metadata) (st : State) :
  (node_name, reactor_name reactor) ∉ __do_not_run_again st →
  known env node_name st →
  let key := (node_name, reactor_name reactor) in
  let run := reactor_run env node_name reactor st in
  let after := __run_reactor env node_name reactor st in
  (∀ exc, outcome run = RaisedKeyError exc →
     (∃ deps, after.2 = Val (false, deps))
     ∧ __keyerrors after.1 = <[key := exc]> (__keyerrors st))
  ∧ ((outcome run = RaisedDoNotRunAgain ∨ ∃ new_metadata, outcome run = Returned new_metadata) →
     __keyerrors after.1 = delete key (__keyerrors st))
  ∧ (∀ fuel initial_node_name (st_b : State),
       let built := _build_node_metadata env fuel initial_node_name st_b in
       ((∃ offenders, built.2 = Exc (MetadataPersistentKeyError offenders))
        ↔ ∃ proxy st0,
            _node_metadata_proxies st_b !! initial_node_name = Some proxy
            ∧ _satisfied proxy = false
            ∧ build_loop env fuel (start_state initial_node_name st_b) = (st0, Val ())
            ∧ __keyerrors st0 ≠ ∅
            ∧ QUIT_EVENT env (quit_polls st0) = false)
       ∧ (∀ offenders, built.2 = Exc (MetadataPersistentKeyError offenders) →
            ∃ st0, build_loop env fuel (start_state initial_node_name st_b) = (st0, Val ())
                   ∧ offenders ≡ₚ map_to_list (__keyerrors st0))).
Proof.
  intros Hd Hk key run after. unfold reactor_run in run.
  destruct (enter_reactor_known node_name reactor st Hk) as (_ & _ & _ & _ & Hbk).
  pose proof (accesses_bookkeeping (accesses run) (entry_state env node_name reactor st))
    as Hacc.
  assert (__keyerrors (foldl (get_in_a_reactor env) (entry_state env node_name reactor st)
                         (accesses run)) = __keyerrors st) as Hke.
  { destruct Hbk as (_ & Hb & _), Hacc as (_ & Ha & _). simpl in Hb. congruence. }
  assert (after = __run_reactor env node_name reactor st) as Hafter by done.
  rewrite run_reactor_invoked, call_reactor_spec in Hafter by done.
  simpl in Hafter. fold run in Hafter.
  split; [|split].
  - intros exc Hout. rewrite Hout in Hafter. rewrite Hafter. simpl.
    split; [eauto|]. by rewrite Hke.
  - intros [Hout|[new Hout]]; rewrite Hout in Hafter; rewrite Hafter; simpl.
    + by rewrite Hke.
    + rewrite install_result_keyerrors. simpl. by rewrite Hke.
  - intros fuel initial st_b built.
    assert (built = _build_node_metadata env fuel initial st_b) as Hb by done.
    rewrite build_node_metadata_spec in Hb.
    destruct (_node_metadata_proxies st_b !! initial) as [proxy|] eqn:Hproxy.
    2: { rewrite Hb. simpl. split.
         - split; [intros [? ?]; done | intros (? & ? & ? & _); done].
         - intros ? ?; done. }
    destruct (_satisfied proxy) eqn:Hsat.
    { rewrite Hb. simpl. split.
      - split; [intros [? ?]; done | intros (? & ? & [= <-] & ? & _); congruence].
      - intros ? ?; done. }
    destruct (build_loop_not_persistent fuel (start_state initial st_b)) as [_ Hnp].
    destruct (build_loop env fuel (start_state initial st_b)) as [st0 [[]|e|]] eqn:Hloop.
    + rewrite raise_persistent_keyerrors_spec in Hb.
      destruct (bool_decide (__keyerrors st0 ≠ ∅)) eqn:Hne.
      * apply bool_decide_eq_true in Hne.
        destruct (QUIT_EVENT env (quit_polls st0)) eqn:Hq; rewrite Hb; simpl.
        -- split.
           ++ split; [intros [? ?]; done|].
              intros (? & ? & _ & _ & [= <-] & _ & ?). congruence.
           ++ intros ? ?; done.
        -- split.
           ++ split; [|eauto]. intros _. exists proxy, st0. eauto.
           ++ intros offenders [= <-]. exists st0. split; [done|].
              apply sorted_keyerrors_perm.
      * apply bool_decide_eq_false in Hne. rewrite Hb. simpl. split.
        -- split; [intros [? ?]; done|].
           intros (? & ? & _ & _ & [= <-] & ? & _). done.
        -- intros ? ?; done.
    + rewrite Hb. simpl. split.
      * split; [|intros (? & ? & _ & _ & ? & _); done].
        intros [offenders [= ->]]. exfalso. by eapply (Hnp _ eq_refl).
      * intros offenders [= ->]. exfalso. by eapply (Hnp _ eq_refl).
    + rewrite Hb. simpl. split.
      * split; [intros [? ?]; done | intros (? & ? & _ & _ & ? & _); done].
      * intros ? ?; done.
Qed.

(** C6: every call of [__run_reactors] on a node adds one to that node's
    iteration count (and to no other); the default cap is 1000 and
    [BW_MAX_METADATA_ITERATIONS] overrides it; when the new count exceeds the
    cap the call raises the [RuntimeError] that names the node and lists the
    25 (or, if fewer exist, all) [(node, reactor)] pairs with the highest
    change counts. *)
Theorem C6_iteration_cap :
  MAX_METADATA_ITERATIONS_of ∅ = Some 1000%Z
  ∧ (∀ (environ : gmap string string) s,
       environ !! "BW_MAX_METADATA_ITERATIONS" = Some s →
       MAX_METADATA_ITERATIONS_of environ = py_int s)
  ∧ ∀ node_name with_deps without_deps (st : State),
      let after := __run_reactors env node_name with_deps without_deps st in
      let count := (default 0 (__node_iterations st !! node_name) + 1)%Z in
      __node_iterations after.1 = <[node_name := count]> (__node_iterations st)
      ∧ ((count > MAX_METADATA_ITERATIONS env)%Z →
         ∃ top_changers rest,
           after.2 = Exc (RuntimeError_iterations (MAX_METADATA_ITERATIONS env)
                            node_name top_changers)
           ∧ top_changers ++ rest ≡ₚ __reactor_changes st
           ∧ length top_changers = 25 `min` length (__reactor_changes st)
           ∧ ∀ x y, x ∈ top_changers → y ∈ rest → (y.2 ≤ x.2)%Z).
Proof.
  split; [by vm_compute|]. split.
  { intros environ s Hs. unfold MAX_METADATA_ITERATIONS_of. by rewrite Hs. }
  intros node_name with_deps without_deps st after count. split.
  - apply run_reactors_iterations.
  - intros Hgt.
    destruct (most_common_spec 25 (__reactor_changes st)) as (rest & Hperm & Hlen & Htop).
    exists (most_common 25 (__reactor_changes st)), rest.
    split; [|done].
    unfold after, __run_reactors. rewrite bind_state, check_iteration_count_spec.
    fold count. by rewrite bool_decide_eq_true_2.
Qed.

(** C10: after a call of [__run_reactor], whether the reactor returned, raised
    [KeyError], [DoNotRunAgain] or another exception, [_in_a_reactor] is
    false, so that [blame] and [stack] pass their guard and go on to
    [__ensure_uncached_metastack]. *)
Theorem C10_not_in_a_reactor_afterwards
    node_name (reactor : @Reactor Metadata) (st : State) :
  (_in_a_reactor st = false
   ∨ (((node_name, reactor_name reactor) ∉ __do_not_run_again st)
      ∧ known env node_name st)) →
  let st' := (__run_reactor env node_name reactor st).1 in
  _in_a_reactor st' = false
  ∧ (∀ fuel n,
       blame env fuel n st'
       = (__ensure_uncached_metastack env fuel n;;
          proxy ← _metadata_proxy_for_node env n;
          mret (_as_blame env (_metastack proxy))) st')
  ∧ (∀ fuel n,
       stack env fuel n st'
       = (__ensure_uncached_metastack env fuel n;;
          proxy ← _metadata_proxy_for_node env n;
          mret (_metastack proxy)) st').
Proof.
  intros Hpre st'. pose proof (run_reactor_flag node_name reactor st Hpre) as Hf.
  fold st' in Hf. split; [done|].
  split; intros fuel n; [unfold blame|unfold stack];
    rewrite bind_state; unfold get_state at 1; simpl; by rewrite Hf.
Qed.

(** C8 (amended): when [(N, R)] is not in [do_not_run_again], the tier-1
    layer [R] of [N] is gone from the stack in the state in which [R] is
    called; when [R] returns a mapping that passes the [provides] check (if
    enabled) and the validation of [_set_layer], that mapping is the tier-1
    layer [R] afterwards, the run is reported as changed exactly when the
    mapping differs from the popped one, and the change counter of [(N, R)]
    is incremented in that case and untouched otherwise. *)
Theorem C8_reactor_layer_replaced
    node_name (reactor : @Reactor Metadata) (st : State) :
  (node_name, reactor_name reactor) ∉ __do_not_run_again st →
  known env node_name st →
  let key := (node_name, reactor_name reactor) in
  let old_metadata := popped_layer env node_name reactor st in
  layer_of node_name 1 (reactor_name reactor) (entry_state env node_name reactor st) = None
  ∧ ∀ new_metadata,
      outcome (reactor_run env node_name reactor st) = Returned new_metadata →
      provides_ok env st reactor new_metadata = true →
      valid_metadata env new_metadata = true →
      let changed := bool_decide (old_metadata ≠ new_metadata) in
      ∃ st' deps,
        __run_reactor env node_name reactor st = (st', Val (changed, deps))
        ∧ layer_of node_name 1 (reactor_name reactor) st' = Some new_metadata
        ∧ dict_get key (__reactor_changes st')
          = (if changed
             then Some (default 0 (dict_get key (__reactor_changes st)) + 1)%Z
             else dict_get key (__reactor_changes st)).
Proof.
  intros Hd Hk key old.
  destruct (enter_reactor_known node_name reactor st Hk)
    as (_ & _ & Hpop & Hsome & Hbk).
  split; [done|]. intros new Hout Hp Hv changed.
  rewrite run_reactor_invoked, call_reactor_spec by done.
  unfold reactor_run in Hout. simpl. rewrite Hout.
  set (st2 := foldl _ _ _).
  pose proof (accesses_bookkeeping
                (accesses (call reactor node_name
                   (_node_metadata_proxies (entry_state env node_name reactor st))))
                (entry_state env node_name reactor st)) as Hacc.
  fold st2 in Hacc.
  destruct Hbk as (_ & _ & Hb3 & _ & Hb5 & _).
  destruct Hacc as (_ & _ & Ha3 & _ & Ha5 & _). simpl in Hb3, Hb5.
  destruct (install_result_ok node_name reactor old new (set_in_a_reactor false st2))
    as (st' & Hres & Hlayer & _ & _ & Hcount).
  - unfold provides_ok in *. simpl. by rewrite Ha5, Hb5.
  - done.
  - simpl. by apply accesses_proxies_grow.
  - exists st', (_partial_metadata_accessed_for st2). split; [done|]. split; [done|].
    simpl in Hcount. rewrite Ha3, Hb3 in Hcount. done.
Qed.

End Proofs.

(** *** The claims on the example engine *)

Lemma example_known verify : known example_env "n" (example_generator verify).
Proof. right. by eexists. Defined.

Lemma example_not_excluded verify name :
  ("n", name) ∉ __do_not_run_again (example_generator verify).
Proof. apply not_elem_of_empty. Defined.

(** The scenario of a reactor that waits for a key: its [KeyError] is
    stored and the run reports no change. *)
Example waiting_reactor_recorded :
  __keyerrors (__run_reactor example_env "n" example_waiting_reactor
                 (example_generator false)).1
  = {[("n", "w") := "KeyError: 'a'"]}.
Proof. by vm_compute. Qed.

Lemma C4_witness :
  (("n", "w") ∉ __do_not_run_again (example_generator false))
  ∧ known example_env "n" (example_generator false)
  ∧ (∀ exc,
       outcome (reactor_run example_env "n" example_waiting_reactor
                  (example_generator false)) = RaisedKeyError exc →
       (∃ deps, (__run_reactor example_env "n" example_waiting_reactor
                   (example_generator false)).2 = Val (false, deps))
       ∧ __keyerrors (__run_reactor example_env "n" example_waiting_reactor
                        (example_generator false)).1
         = <[("n", "w") := exc]> (__keyerrors (example_generator false))).
Proof.
  split; [apply example_not_excluded|]. split; [apply example_known|].
  exact (proj1 (C4_keyerrors_recorded_and_reported example_env "n"
                  example_waiting_reactor (example_generator false)
                  (example_not_excluded false "w") (example_known false))).
Defined.

(** C8 (the claim as stated fails): with [_verify_reactor_provides] set, the
    reactor [r], which declares [a] and returns [{"b": 1}], returns normally,
    yet [__run_reactor] raises [ValueError] and leaves the node without a
    tier-1 layer [r]. *)
Lemma C8_counterexample :
  (("n", "r") ∉ __do_not_run_again (example_generator true))
  ∧ outcome (reactor_run example_env "n" example_reactor (example_generator true))
    = Returned {["b" := 1%Z]}
  ∧ (__run_reactor example_env "n" example_reactor (example_generator true)).2
    = Exc (ValueError_provides "r" "n" [["b"]])
  ∧ layer_of "n" 1 "r"
      (__run_reactor example_env "n" example_reactor (example_generator true)).1
    ≠ Some {["b" := 1%Z]}.
Proof.
  split; [apply example_not_excluded|].
  split; [reflexivity|]. split; [by vm_compute|].
  assert (layer_of "n" 1 "r"
            (__run_reactor example_env "n" example_reactor (example_generator true)).1
          = None) as -> by by vm_compute.
  discriminate.
Qed.

Lemma C8_witness :
  (("n", "r") ∉ __do_not_run_again (example_generator false))
  ∧ known example_env "n" (example_generator false)
  ∧ outcome (reactor_run example_env "n" example_reactor (example_generator false))
    = Returned {["b" := 1%Z]}
  ∧ provides_ok example_env (example_generator false) example_reactor {["b" := 1%Z]}
    = true
  ∧ valid_metadata example_env {["b" := 1%Z]} = true
  ∧ ∃ st' deps,
      __run_reactor example_env "n" example_reactor (example_generator false)
      = (st', Val (bool_decide (popped_layer example_env "n" example_reactor
                                  (example_generator false) ≠ {["b" := 1%Z]}), deps))
      ∧ layer_of "n" 1 "r" st' = Some {["b" := 1%Z]}
      ∧ dict_get ("n", "r") (__reactor_changes st')
        = (if bool_decide (popped_layer example_env "n" example_reactor
                             (example_generator false) ≠ {["b" := 1%Z]})
           then Some (default 0 (dict_get ("n", "r")
                                   (__reactor_changes (example_generator false))) + 1)%Z
           else dict_get ("n", "r") (__reactor_changes (example_generator false))).
Proof.
  split; [apply example_not_excluded|]. split; [apply example_known|].
  split; [reflexivity|]. split; [reflexivity|]. split; [reflexivity|].
  exact (proj2 (C8_reactor_layer_replaced example_env "n" example_reactor
                  (example_generator false)
                  (example_not_excluded false "r") (example_known false))
           {["b" := 1%Z]} eq_refl eq_refl eq_refl).
Defined.

Lemma C10_witness :
  (_in_a_reactor (example_generator false) = false
   ∨ ((("n", "r") ∉ __do_not_run_again (example_generator false))
      ∧ known example_env "n" (example_generator false)))
  ∧ _in_a_reactor (__run_reactor example_env "n" example_reactor
                     (example_generator false)).1 = false.
Proof.
  split; [by left|].
  exact (proj1 (C10_not_in_a_reactor_afterwards example_env "n" example_reactor
                  (example_generator false) (or_introl eq_refl))).
Defined.

End EngineTheory.

(** * Further theorems about the dependency preparation ([deps.py]) *)

Module SelectorTheory.
Import Py Deps DepsTheory.

Lemma split_colon_None (s : string) :
  split_colon s = None ↔ ":"%char ∉ String.list_ascii_of_string s.
Proof.
  induction s as [|c s IH]; simpl.
  - split; [intros _; apply not_elem_of_nil|done].
  - destruct (Ascii.eqb_spec c ":"%char) as [->|Hc].
    + split; [done|]. intros H. exfalso. apply H. by left.
    + destruct (split_colon s) as [[a b]|] eqn:Hs.
      * split; [done|]. intros H. exfalso.
        assert (":"%char ∈ String.list_ascii_of_string s) as Hin.
        { destruct (decide (":"%char ∈ String.list_ascii_of_string s)); [done|].
          by apply IH in n. }
        apply H. by right.
      * split; [|done]. intros _ Hin. apply elem_of_cons in Hin as [Hin|Hin]; [done|].
        by apply IH in Hin.
Qed.

(** The first position a filter over [seq] yields *)
Lemma filter_seq_head (P : nat → Prop) `{!∀ i, Decision (P i)} a n k rest :
  filter P (seq a n) = k :: rest →
  P k ∧ a ≤ k < a + n ∧ ∀ j, a ≤ j < k → ¬ P j.
Proof.
  revert a. induction n as [|n IH]; intros a; simpl; [done|].
  rewrite filter_cons. destruct (decide (P a)) as [Ha|Ha].
  - intros [= <- <-]. split; [done|]. split; [lia|]. intros j Hj. lia.
  - intros Hf. destruct (IH _ Hf) as (Hk & Hr & Hmin).
    split; [done|]. split; [lia|]. intros j Hj.
    destruct (decide (j = a)) as [->|]; [done|]. apply Hmin. lia.
Qed.

Lemma filter_seq_nil (P : nat → Prop) `{!∀ i, Decision (P i)} a n :
  filter P (seq a n) = [] ↔ ∀ j, a ≤ j < a + n → ¬ P j.
Proof.
  split.
  - intros Hf j Hj HP.
    assert (j ∈ filter P (seq a n)) as Hin.
    { apply list_elem_of_filter. split; [done|]. apply elem_of_seq. lia. }
    rewrite Hf in Hin. by apply not_elem_of_nil in Hin.
  - revert a. induction n as [|n IH]; intros a Hall; simpl; [done|].
    rewrite filter_cons_False; [|apply Hall; lia].
    apply IH. intros j Hj. apply Hall. lia.
Qed.

(** What [find_item] does: either it finds the first item with the id, or no
    item has the id and it raises [NoSuchItem]. *)
Lemma find_item_cases (item_id : string) (items : list Item) :
  (∃ k item, find_item item_id items = Ok k
             ∧ items !! k = Some item ∧ id item = item_id
             ∧ ∀ j other, j < k → items !! j = Some other → id other ≠ item_id)
  ∨ (find_item item_id items = Raise (NoSuchItem item_id)
     ∧ ∀ item, item ∈ items → id item ≠ item_id).
Proof.
  unfold find_item, filter_items.
  set (P :=λ i : nat, Is_true (from_option (λ item, bool_decide (id item = item_id))
                                  false (items !! i))).
  assert (∀ i, P i ↔ ∃ item, items !! i = Some item ∧ id item = item_id) as HP.
  { intros i. unfold P. destruct (items !! i) as [item|]; simpl.
    - rewrite bool_decide_spec. split; [eauto|]. by intros (? & [= <-] & ?).
    - split; [done|]. by intros (? & ? & _). }
  destruct (filter _ (seq 0 (length items))) as [|k0 rest] eqn:Hf.
  - right. split; [done|].
    pose proof (proj1 (filter_seq_nil P 0 (length items)) Hf) as Hnone.
    intros item Hin Hid. apply list_elem_of_lookup in Hin as [j Hj].
    apply (Hnone j); [apply lookup_lt_Some in Hj; lia|]. apply HP. eauto.
  - left. destruct (filter_seq_head P 0 (length items) k0 rest Hf) as (Hk & Hr & Hmin).
    apply HP in Hk as (item & Hk & Hid). exists k0, item.
    repeat split; try done. intros j other Hj Hother Hido.
    apply (Hmin j); [lia|]. apply HP. eauto.
Qed.

(** X1: [find_item] returns the first item that has the id, and raises
    [NoSuchItem] exactly when no item has it. *)
Theorem find_item_first (item_id : string) (items : list Item) :
  (∀ k, find_item item_id items = Ok k ↔
        (∃ item, items !! k = Some item ∧ id item = item_id)
        ∧ ∀ j item, j < k → items !! j = Some item → id item ≠ item_id)
  ∧ (find_item item_id items = Raise (NoSuchItem item_id) ↔
     ∀ item, item ∈ items → id item ≠ item_id)
  ∧ (∀ e, find_item item_id items = Raise e → e = NoSuchItem item_id)
  ∧ find_item item_id items ≠ OutOfFuel.
Proof.
  destruct (find_item_cases item_id items)
    as [(k0 & item0 & Hf & Hk0 & Hid0 & Hmin)|[Hf Hno]]; rewrite Hf.
  - split; [|split; [|split]]; try done.
    + intros k. split.
      * intros [= <-]. split; [eauto|done].
      * intros [(item & Hk & Hid) Hfirst]. f_equal.
        destruct (lt_eq_lt_dec k0 k) as [[Hlt|Heq]|Hgt]; [|done|].
        -- exfalso. by eapply Hfirst.
        -- exfalso. by eapply Hmin.
    + split; [done|]. intros Hno. exfalso.
      eapply Hno; [|done]. by eapply list_elem_of_lookup_2.
  - split; [|split; [|split]]; try done.
    + intros k. split; [done|]. intros [(item & Hk & Hid) _]. exfalso.
      eapply Hno; [|done]. by eapply list_elem_of_lookup_2.
    + by intros e [= <-].
Qed.

Lemma NoDup_filter_items pred (items : list Item) : NoDup (filter_items pred items).
Proof. unfold filter_items. apply NoDup_filter, NoDup_seq. Qed.

(** X2: for a selector [bundle:NAME] or [tag:NAME], whatever [NAME] is,
    [resolve_selector] raises nothing and yields, each once, the items whose
    bundle is called [NAME], or that carry the tag [NAME]. *)
Theorem resolve_selector_bundle_tag (NAME : string) (items : list Item) :
  (∃ r, resolve_selector ("bundle:" +:+ NAME) items = Ok r
        ∧ NoDup (resolved_items r)
        ∧ ∀ k, k ∈ resolved_items r ↔
               ∃ item, items !! k = Some item ∧ bundle_name item = NAME)
  ∧ (∃ r, resolve_selector ("tag:" +:+ NAME) items = Ok r
          ∧ NoDup (resolved_items r)
          ∧ ∀ k, k ∈ resolved_items r ↔
                 ∃ item, items !! k = Some item ∧ NAME ∈ tags item).
Proof.
  split; eexists; (split; [reflexivity|]); simpl;
    (split; [apply NoDup_filter_items|]); intros k;
    rewrite elem_of_filter_items; by setoid_rewrite bool_decide_eq_true.
Qed.

(** X3: [resolve_selector] raises [ValueError] exactly for the selectors
    without a colon, and it raises nothing but [ValueError] and
    [NoSuchItem]. *)
Theorem resolve_selector_errors (selector : string) (items : list Item) :
  ((∃ msg, resolve_selector selector items = Raise (ValueError msg))
   ↔ ":"%char ∉ String.list_ascii_of_string selector)
  ∧ (∀ e, resolve_selector selector items = Raise e →
          e = ValueError selector ∨ e = NoSuchItem selector)
  ∧ resolve_selector selector items ≠ OutOfFuel.
Proof.
  rewrite <- split_colon_None.
  destruct (resolve_selector_cases selector items)
    as [[l Hr]|[[i Hr]|[Hr|[Hs Hr]]]]; rewrite Hr.
  - split; [|done]. split; [by intros [? ?]|].
    intros Hs. unfold resolve_selector in Hr. by rewrite Hs in Hr.
  - split; [|done]. split; [by intros [? ?]|].
    intros Hs. unfold resolve_selector in Hr. by rewrite Hs in Hr.
  - split; [|split; [intros e [= <-]; auto|done]]. split; [by intros [? ?]|].
    intros Hs. unfold resolve_selector in Hr. by rewrite Hs in Hr.
  - split; [|split; [intros e [= <-]; auto|done]]. split; [done|eauto].
Qed.

(** X4: a selector [KIND:NAME] whose [KIND] is neither [bundle] nor [tag] and
    whose [NAME] is not empty resolves to the one-element list holding the
    first item whose id is the whole selector; when no item has that id,
    [NoSuchItem] is raised. *)
Theorem resolve_selector_by_id (selector KIND NAME : string) (items : list Item) :
  split_colon selector = Some (KIND, NAME) →
  KIND ≠ "bundle" → KIND ≠ "tag" → NAME ≠ EmptyString →
  (∀ k item, items !! k = Some item → id item = selector →
     (∀ j other, j < k → items !! j = Some other → id other ≠ selector) →
     resolve_selector selector items = Ok (ItemList [k]))
  ∧ ((∀ item, item ∈ items → id item ≠ selector) →
     resolve_selector selector items = Raise (NoSuchItem selector))
  ∧ (∀ r, resolve_selector selector items = Ok r →
       ∃ k item, r = ItemList [k] ∧ items !! k = Some item ∧ id item = selector).
Proof.
  intros Hs Hb Ht Hn. unfold resolve_selector. rewrite Hs.
  rewrite !decide_False by done.
  destruct (find_item_cases selector items)
    as [(k0 & item0 & Hf & Hk0 & Hid0 & Hmin)|[Hf Hno]]; rewrite Hf; simpl.
  - split; [|split].
    + intros k item Hk Hid Hfirst. do 3 f_equal.
      destruct (lt_eq_lt_dec k0 k) as [[Hlt|Heq]|Hgt]; [|done|].
      * exfalso. by eapply Hfirst.
      * exfalso. by eapply Hmin.
    + intros Hno. exfalso. eapply Hno; [|done]. by eapply list_elem_of_lookup_2.
    + intros r [= <-]. eauto.
  - split; [|split]; [|done..].
    intros k item Hk Hid _. exfalso. eapply Hno; [|done].
    by eapply list_elem_of_lookup_2.
Qed.

Lemma resolve_selector_by_id_witness :
  split_colon "pkg:x" = Some ("pkg", "x")
  ∧ (∀ r, resolve_selector "pkg:x" example_file_and_pkg = Ok r →
       ∃ k item, r = ItemList [k] ∧ example_file_and_pkg !! k = Some item
                 ∧ id item = "pkg:x").
Proof.
  split; [reflexivity|].
  apply (resolve_selector_by_id "pkg:x" "pkg" "x" example_file_and_pkg);
    [reflexivity|discriminate..].
Defined.

End SelectorTheory.

Module SkipTheory.
Import Py Deps DepsTheory Skip SelectorTheory.

(** *** [list.remove] *)

Lemma list_remove_None x (l : list string) : list_remove x l = None ↔ x ∉ l.
Proof.
  induction l as [|y l IH]; simpl.
  - split; [intros _; apply not_elem_of_nil|done].
  - destruct (decide (y = x)) as [->|Hne].
    + split; [done|]. intros H. exfalso. apply H. by left.
    + destruct (list_remove x l) as [r|].
      * split; [done|]. intros H. exfalso.
        assert (x ∉ l) as Hl by (intros ?; apply H; by right).
        by apply IH in Hl.
      * split; [|done]. intros _ Hin. apply elem_of_cons in Hin as [->|Hin]; [done|].
        by apply (proj1 IH).
Qed.

Lemma list_remove_Some x (l r : list string) :
  list_remove x l = Some r →
  ∃ l1 l2, l = l1 ++ x :: l2 ∧ r = l1 ++ l2 ∧ x ∉ l1.
Proof.
  revert r. induction l as [|y l IH]; intros r; simpl; [done|].
  destruct (decide (y = x)) as [->|Hne].
  - intros [= <-]. exists [], l. split; [done|]. split; [done|]. apply not_elem_of_nil.
  - destruct (list_remove x l) as [r'|]; [|done]. intros [= <-].
    destruct (IH r' eq_refl) as (l1 & l2 & -> & -> & Hx).
    exists (y :: l1), l2. split; [done|]. split; [done|].
    intros Hin. apply elem_of_cons in Hin as [->|Hin]; done.
Qed.

Lemma list_remove_suppress_sublist x (l : list string) :
  list_remove_suppress x l `sublist_of` l.
Proof.
  unfold list_remove_suppress. destruct (list_remove x l) as [r|] eqn:Hr; simpl; [|done].
  destruct (list_remove_Some _ _ _ Hr) as (l1 & l2 & -> & -> & _).
  apply sublist_app; [done|]. by apply sublist_cons.
Qed.

Lemma list_remove_suppress_NoDup x (l : list string) :
  NoDup l → x ∉ list_remove_suppress x l.
Proof.
  intros Hnd. unfold list_remove_suppress.
  destruct (list_remove x l) as [r|] eqn:Hr; simpl.
  - destruct (list_remove_Some _ _ _ Hr) as (l1 & l2 & -> & -> & Hx).
    apply NoDup_app in Hnd as (_ & Hdis & Hnd2). apply NoDup_cons in Hnd2 as [Hx2 _].
    intros Hin. apply elem_of_app in Hin as [Hin|Hin]; done.
  - by apply list_remove_None.
Qed.

Lemma list_remove_suppress_other x y (l : list string) :
  y ≠ x → y ∈ list_remove_suppress x l ↔ y ∈ l.
Proof.
  intros Hne. unfold list_remove_suppress.
  destruct (list_remove x l) as [r|] eqn:Hr; simpl; [|done].
  destruct (list_remove_Some _ _ _ Hr) as (l1 & l2 & -> & -> & _).
  rewrite !elem_of_app, elem_of_cons.
  split; [intros [?|?]; auto|intros [?|[?|?]]; auto; done].
Qed.

Lemma list_remove_suppress_length x (l : list string) :
  length (list_remove_suppress x l)
  = length l - (if bool_decide (x ∈ l) then 1 else 0).
Proof.
  unfold list_remove_suppress. destruct (list_remove x l) as [r|] eqn:Hr; simpl.
  - destruct (list_remove_Some _ _ _ Hr) as (l1 & l2 & -> & -> & _).
    rewrite bool_decide_eq_true_2; [|apply elem_of_app; right; by left].
    rewrite !length_app. simpl. lia.
  - apply list_remove_None in Hr. rewrite bool_decide_eq_false_2 by done. lia.
Qed.

(** *** [_has_trigger_path] *)

Lemma any_trigger_spec (check : Item → result bool) (P : Item → Prop)
    (items : list Item) (ts : list string) (b : bool) :
  (∀ t b, check t = Ok b → (b = true ↔ P t)) →
  any_trigger check items ts = Ok b →
  (b = true ↔ ∃ tid k t, tid ∈ ts ∧ find_item tid items = Ok k
                          ∧ items !! k = Some t ∧ P t).
Proof.
  intros Hcheck. induction ts as [|tid ts IH]; simpl.
  - intros [= <-]. split; [done|]. intros (? & ? & ? & Hin & _).
    by apply not_elem_of_nil in Hin.
  - destruct (find_item tid items) as [k|e|] eqn:Hf.
    + unfold obj. destruct (items !! k) as [t|] eqn:Hk; simpl; [|done].
      destruct (check t) as [[]| |] eqn:Hc; simpl; [| |done..].
      * intros [= <-]. split; [|done]. intros _. exists tid, k, t.
        split; [by left|]. repeat split; try done. by apply (Hcheck t true).
      * intros Hrest. rewrite (IH Hrest). split.
        -- intros (tid' & k' & t' & Hin & ?). exists tid', k', t'. split; [by right|done].
        -- intros (tid' & k' & t' & Hin & Hf' & Hk' & HP).
           apply elem_of_cons in Hin as [->|Hin]; [|by eauto 10].
           rewrite Hf in Hf'. injection Hf' as <-. rewrite Hk in Hk'. injection Hk' as <-.
           apply (Hcheck t false) in HP; done.
    + destruct e; try done. intros Hrest. rewrite (IH Hrest). split.
      * intros (tid' & k' & t' & Hin & ?). exists tid', k', t'. split; [by right|done].
      * intros (tid' & k' & t' & Hin & Hf' & Hk' & HP).
        apply elem_of_cons in Hin as [->|Hin]; [|by eauto 10]. by rewrite Hf in Hf'.
    + done.
Qed.

(** X5: when [_has_trigger_path] returns, it returns [True] exactly if the
    item triggers the target, directly or through the items that its
    triggers name. *)
Theorem has_trigger_path_correct (fuel : nat) (items : list Item) (item : Item)
    (target_item_id : string) (b : bool) :
  _has_trigger_path fuel items item target_item_id = Ok b →
  (b = true ↔ trigger_path items item target_item_id).
Proof.
  revert item b. induction fuel as [|fuel IH]; intros item b; simpl; [done|].
  destruct (bool_decide (target_item_id ∈ triggers item)) eqn:Hd.
  - intros [= <-]. apply bool_decide_eq_true in Hd. split; [|done].
    intros _. by apply trigger_direct.
  - apply bool_decide_eq_false in Hd. intros Hany.
    rewrite (any_trigger_spec _ (λ t, trigger_path items t target_item_id)
               items (triggers item) b (λ t b', IH t b') Hany).
    split.
    + intros (tid & k & t & Hin & Hf & Hk & HP). by eapply trigger_through.
    + intros Hpath. inversion Hpath as [|? tid k t ? Hin Hf Hk HP]; subst; [done|].
      eauto 10.
Qed.

Lemma has_trigger_path_correct_witness :
  _has_trigger_path 3 example_chain
    (set_triggers ["svc:b"] (example_item example_file "/a" "b1" [] [] false))
    "action:c" = Ok true
  ∧ (true = true ↔
     trigger_path example_chain
       (set_triggers ["svc:b"] (example_item example_file "/a" "b1" [] [] false))
       "action:c").
Proof.
  split; [reflexivity|].
  apply (has_trigger_path_correct 3 example_chain _ "action:c" true). reflexivity.
Defined.

Lemma find_item_found item_id (items : list Item) k t :
  find_item item_id items = Ok k → items !! k = Some t → id t = item_id ∧ t ∈ items.
Proof.
  intros Hf Hk.
  destruct (find_item_cases item_id items) as [(k0 & t0 & Hf0 & Hk0 & Hid & _)|[Hf0 _]];
    rewrite Hf0 in Hf; [|done].
  injection Hf as <-. rewrite Hk0 in Hk. injection Hk as <-.
  split; [done|]. by eapply list_elem_of_lookup_2.
Qed.

Lemma find_item_lookup item_id (items : list Item) k :
  find_item item_id items = Ok k → ∃ t, items !! k = Some t.
Proof.
  intros Hf.
  destruct (find_item_cases item_id items) as [(k0 & t0 & Hf0 & Hk0 & _)|[Hf0 _]];
    rewrite Hf0 in Hf; [|done].
  injection Hf as <-. eauto.
Qed.

Lemma any_trigger_returns (check : Item → result bool) (items : list Item)
    (ts : list string) :
  (∀ tid k t, tid ∈ ts → find_item tid items = Ok k → items !! k = Some t →
              ∃ b, check t = Ok b) →
  ∃ b, any_trigger check items ts = Ok b.
Proof.
  induction ts as [|tid ts IH]; intros Hcheck; simpl; [eauto|].
  destruct IH as [b Hb].
  { intros tid' k t Hin. apply Hcheck. by right. }
  destruct (find_item_cases tid items) as [(k & t & Hf & Hk & _)|[Hf _]]; rewrite Hf.
  - rewrite (obj_lookup _ _ _ Hk). simpl.
    destruct (Hcheck tid k t) as [[] Hc]; [by left|done..| |]; rewrite Hc; simpl; eauto.
  - eauto.
Qed.

Lemma any_trigger_mono (check check' : Item → result bool) (items : list Item)
    (ts : list string) (b : bool) :
  (∀ t b, check t = Ok b → check' t = Ok b) →
  any_trigger check items ts = Ok b → any_trigger check' items ts = Ok b.
Proof.
  intros Hcheck. induction ts as [|tid ts IH]; simpl; [done|].
  destruct (find_item tid items) as [k|[]|]; try done.
  destruct (obj k items) as [t| |]; simpl; try done.
  destruct (check t) as [c| |] eqn:Hc; simpl; try done.
  rewrite (Hcheck _ _ Hc). simpl. by destruct c.
Qed.

(** A result does not depend on the recursion depth that was allowed. *)
Lemma has_trigger_path_mono (fuel fuel' : nat) (items : list Item) (item : Item)
    (target_item_id : string) (b : bool) :
  (fuel ≤ fuel')%nat →
  _has_trigger_path fuel items item target_item_id = Ok b →
  _has_trigger_path fuel' items item target_item_id = Ok b.
Proof.
  revert fuel' item b. induction fuel as [|fuel IH]; intros fuel' item b Hle; [done|].
  destruct fuel' as [|fuel']; [lia|]. simpl.
  destruct (bool_decide (target_item_id ∈ triggers item)); [done|].
  apply any_trigger_mono. intros t c. apply IH. lia.
Qed.

Lemma has_trigger_path_total (rank : string → nat) (items : list Item)
    (item : Item) (target_item_id : string) (fuel : nat) :
  (∀ other, other ∈ items → triggers_descend rank other) →
  triggers_descend rank item →
  rank (id item) < fuel →
  ∃ b, _has_trigger_path fuel items item target_item_id = Ok b.
Proof.
  intros Hall. revert item. induction fuel as [|fuel IH]; intros item Hitem Hrank; [lia|].
  simpl. destruct (bool_decide (target_item_id ∈ triggers item)); [eauto|].
  apply any_trigger_returns. intros tid k t Hin Hf Hk.
  destruct (find_item_found _ _ _ _ Hf Hk) as [Hid Ht].
  apply IH; [by apply Hall|]. rewrite Hid. specialize (Hitem tid Hin). lia.
Qed.

(** X6: when the triggers named by the items lead to ids of ever smaller
    rank, so that no chain of triggers comes back to an item,
    [_has_trigger_path] returns, and returns the same, at every recursion
    depth above the rank of the item it starts from. *)
Theorem has_trigger_path_returns (rank : string → nat) (items : list Item)
    (item : Item) (target_item_id : string) :
  (∀ other, other ∈ items → triggers_descend rank other) →
  triggers_descend rank item →
  ∃ b, ∀ fuel, (rank (id item) < fuel)%nat →
         _has_trigger_path fuel items item target_item_id = Ok b.
Proof.
  intros Hall Hitem.
  destruct (has_trigger_path_total rank items item target_item_id (S (rank (id item))))
    as [b Hb]; [done..|lia|].
  exists b. intros fuel Hfuel.
  apply (has_trigger_path_mono (S (rank (id item)))); [lia|done].
Qed.

Lemma has_trigger_path_returns_witness :
  (∀ other, other ∈ example_chain → triggers_descend example_rank other)
  ∧ ∃ b, ∀ fuel, (2 < fuel)%nat →
      _has_trigger_path fuel example_chain
        (set_triggers ["svc:b"] (example_item example_file "/a" "b1" [] [] false))
        "pkg:none" = Ok b.
Proof.
  assert (∀ other, other ∈ example_chain → triggers_descend example_rank other) as Hall.
  { intros other Hin tid Htid.
    repeat (apply elem_of_cons in Hin as [->|Hin]);
      [| |by apply not_elem_of_nil in Htid|by apply not_elem_of_nil in Hin];
      apply list_elem_of_singleton in Htid; subst tid; vm_compute; lia. }
  split; [exact Hall|].
  exact (has_trigger_path_returns example_rank example_chain
           (set_triggers ["svc:b"] (example_item example_file "/a" "b1" [] [] false))
           "pkg:none" Hall (Hall _ ltac:(by left))).
Defined.

(** X7: an item whose first trigger names the item itself, and that does not
    trigger the target directly, makes [_has_trigger_path] recurse without
    end: it exceeds every recursion depth. *)
Theorem has_trigger_path_cycle (fuel : nat) (items : list Item) (item : Item)
    (triggered_id : string) (rest : list string) (k : nat) (target_item_id : string) :
  triggers item = triggered_id :: rest →
  find_item triggered_id items = Ok k →
  items !! k = Some item →
  target_item_id ∉ triggers item →
  _has_trigger_path fuel items item target_item_id = OutOfFuel.
Proof.
  intros Ht Hf Hk Hno. induction fuel as [|fuel IH]; simpl; [done|].
  rewrite bool_decide_eq_false_2 by done. rewrite Ht. simpl.
  rewrite Hf, (obj_lookup _ _ _ Hk). simpl. by rewrite IH.
Qed.

Lemma has_trigger_path_cycle_witness :
  triggers example_loop = ["action:again"]
  ∧ ∀ fuel, _has_trigger_path fuel [example_loop] example_loop "file:/a" = OutOfFuel.
Proof.
  split; [reflexivity|]. intros fuel.
  apply (has_trigger_path_cycle fuel [example_loop] example_loop "action:again" [] 0);
    [reflexivity..|].
  intros Hin. apply list_elem_of_singleton in Hin. discriminate.
Defined.

(** *** [remove_dep_from_items] and [split_items_without_deps] *)

Lemma shrinks_refl a : shrinks a a.
Proof. by split. Qed.

Lemma shrinks_trans a b c : shrinks a b → shrinks b c → shrinks a c.
Proof. intros [H1 S1] [H2 S2]. split; [congruence|]. by etrans. Qed.

Lemma shrinks_set_deps a l : l `sublist_of` _deps a → shrinks a (set_deps l a).
Proof. intros Hl. split; [by destruct a|done]. Qed.

Lemma shrinks_static a b :
  shrinks a b →
  id b = id a ∧ triggers b = triggers a ∧ cascade_skip b = cascade_skip a
  ∧ _concurrency_deps b = _concurrency_deps a.
Proof.
  intros [H _]. destruct a, b. unfold without_deps, set_deps in H. simpl in *.
  by injection H as -> -> -> -> -> -> -> -> -> -> -> -> -> -> -> -> -> ->.
Qed.

(** X8: [remove_dep_from_items] raises nothing, keeps the items and their
    order, and removes from each item's [_deps] the first occurrence of the
    id and nothing else: a [_deps] list that does not hold the id stays as it
    is, and [l1 ++ dep :: l2] with [dep] not in [l1] becomes [l1 ++ l2]. So a
    [_deps] list without duplicates no longer holds the id, one that holds it
    twice still does. *)
Theorem remove_dep_from_items_spec (items : list Item) (dep : string) :
  length (remove_dep_from_items items dep) = length items
  ∧ ∀ k item, items !! k = Some item →
      ∃ item', remove_dep_from_items items dep !! k = Some item'
        ∧ item' = set_deps (_deps item') item
        ∧ (dep ∉ _deps item → _deps item' = _deps item)
        ∧ (∀ l1 l2, _deps item = l1 ++ dep :: l2 → dep ∉ l1 →
             _deps item' = l1 ++ l2)
        ∧ _deps item' `sublist_of` _deps item
        ∧ length (_deps item')
          = length (_deps item) - (if bool_decide (dep ∈ _deps item) then 1 else 0)
        ∧ (∀ x, x ≠ dep → x ∈ _deps item' ↔ x ∈ _deps item)
        ∧ (NoDup (_deps item) → dep ∉ _deps item')
        ∧ (∀ l1 l2 l3, _deps item = l1 ++ dep :: l2 ++ dep :: l3 → dep ∈ _deps item').
Proof.
  unfold remove_dep_from_items. split; [apply length_fmap|].
  intros k item Hk. eexists. rewrite list_lookup_fmap, Hk. simpl.
  split; [reflexivity|]. split; [by destruct item|].
  split.
  { intros Hno. unfold list_remove_suppress.
    by rewrite (proj2 (list_remove_None dep (_deps item)) Hno). }
  split.
  { intros l1 l2 Hl Hl1. unfold list_remove_suppress.
    by rewrite Hl, (list_remove_middle dep l1 l2 Hl1). }
  split; [apply list_remove_suppress_sublist|].
  split; [apply list_remove_suppress_length|].
  split; [intros x Hx; by apply list_remove_suppress_other|].
  split; [apply list_remove_suppress_NoDup|].
  intros l1 l2 l3 Hl. rewrite Hl. unfold list_remove_suppress.
  destruct (list_remove dep (l1 ++ dep :: l2 ++ dep :: l3)) as [r|] eqn:Hr; simpl.
  - destruct (list_remove_Some _ _ _ Hr) as (m1 & m2 & Hm & -> & Hx).
    assert (length (filter (λ y, y = dep) (m1 ++ dep :: m2)) ≥ 2) as Hcount.
    { rewrite <- Hm.
      repeat (rewrite filter_app || rewrite filter_cons_True by done).
      rewrite ?length_app. simpl. rewrite ?length_app. simpl. lia. }
    rewrite filter_app, filter_cons_True, length_app in Hcount by done.
    simpl in Hcount.
    assert (filter (λ y, y = dep) m1 = []) as Hm1.
    { destruct (filter (λ y, y = dep) m1) as [|z zs] eqn:Hz; [done|].
      assert (z ∈ filter (λ y, y = dep) m1) as Hin by (rewrite Hz; by left).
      apply list_elem_of_filter in Hin as [-> Hin]. done. }
    rewrite Hm1 in Hcount. simpl in Hcount.
    destruct (filter (λ y, y = dep) m2) as [|z zs] eqn:Hz; [simpl in Hcount; lia|].
    assert (z ∈ filter (λ y, y = dep) m2) as Hin by (rewrite Hz; by left).
    apply list_elem_of_filter in Hin as [-> Hin]. apply elem_of_app. by right.
  - apply elem_of_app. right. by left.
Qed.

Lemma split_items_fold (items remaining removed : list Item) :
  foldl (λ '(remaining_items, removed_items) item,
           if bool_decide (_deps item ≠ [])
           then (remaining_items ++ [item], removed_items)
           else (remaining_items, removed_items ++ [item]))
        (remaining, removed) items
  = (remaining ++ filter (λ item, _deps item ≠ []) items,
     removed ++ filter (λ item, _deps item = []) items).
Proof.
  revert remaining removed. induction items as [|item items IH]; intros remaining removed.
  - simpl. by rewrite !app_nil_r.
  - simpl. destruct (decide (_deps item = [])) as [He|Hne].
    + rewrite bool_decide_eq_false_2 by (by intros ?).
      rewrite IH, filter_cons_False, filter_cons_True by (done || by intros ?).
      by rewrite <- app_assoc.
    + rewrite bool_decide_eq_true_2 by done.
      rewrite IH, filter_cons_True, filter_cons_False by done.
      by rewrite <- app_assoc.
Qed.

(** X9: [split_items_without_deps] returns the items that have dependencies
    and the items that have none, each group in the order of the input;
    together they are the items of the input. *)
Theorem split_items_without_deps_spec (items : list Item) :
  split_items_without_deps items
  = (filter (λ item, _deps item ≠ []) items, filter (λ item, _deps item = []) items)
  ∧ (split_items_without_deps items).1 ++ (split_items_without_deps items).2 ≡ₚ items.
Proof.
  assert (split_items_without_deps items
          = (filter (λ item, _deps item ≠ []) items,
             filter (λ item, _deps item = []) items)) as Heq.
  { unfold split_items_without_deps. by rewrite split_items_fold. }
  split; [done|]. rewrite Heq. simpl.
  rewrite (comm (++)).
  rewrite <- (filter_app_complement (λ item, _deps item = []) items) at 3.
  done.
Qed.

(** *** [remove_item_dependents] *)

Lemma shrunk_refl A : shrunk A A.
Proof. intros b Hb. exists b. split; [done|apply shrinks_refl]. Qed.

Lemma shrunk_trans A B C : shrunk A B → shrunk B C → shrunk A C.
Proof.
  intros HAB HBC c Hc. destruct (HBC c Hc) as (b & Hb & Hbc).
  destruct (HAB b Hb) as (a & Ha & Hab). exists a. split; [done|].
  by eapply shrinks_trans.
Qed.

Lemma shrunk_subseteq A B C : shrunk A B → C ⊆ B → shrunk A C.
Proof. intros HAB Hsub c Hc. apply HAB, Hsub, Hc. Qed.

Lemma shrunk_app A B C : shrunk A B → shrunk A C → shrunk A (B ++ C).
Proof. intros HB HC x Hx. apply elem_of_app in Hx as [Hx|Hx]; auto. Qed.

Lemma shrunk_store_rel A B : store_rel shrinks A B → shrunk A B.
Proof.
  intros [Hlen Hrel] b Hb. apply list_elem_of_lookup in Hb as [k Hk].
  destruct (lookup_lt_is_Some_2 A k) as [a Ha].
  { rewrite Hlen. by eapply lookup_lt_Some. }
  exists a. split; [by eapply list_elem_of_lookup_2|]. by eapply Hrel.
Qed.

Lemma without_deps_perm_store A B :
  store_rel shrinks A B → without_deps <$> A = without_deps <$> B.
Proof.
  intros [Hlen Hrel]. apply list_eq. intros k. rewrite !list_lookup_fmap.
  destruct (A !! k) as [a|] eqn:Ha, (B !! k) as [b|] eqn:Hb; simpl.
  - f_equal. by destruct (Hrel k a b Ha Hb).
  - apply lookup_lt_Some in Ha. apply lookup_ge_None in Hb. lia.
  - apply lookup_lt_Some in Hb. apply lookup_ge_None in Ha. lia.
  - done.
Qed.

Global Instance shrinks_preorder : PreOrder shrinks.
Proof. split; [intros a; apply shrinks_refl|intros a b c; apply shrinks_trans]. Qed.

(** A loop that returns keeps an invariant that every round keeps. *)
Lemma for_each_invariant {A S} (Inv : list A → S → Prop) (xs : list A)
    (body : A → S → result S) (s0 s' : S) :
  Inv [] s0 →
  (∀ done x rest s s1, xs = done ++ x :: rest → Inv done s → body x s = Ok s1 →
                       Inv (done ++ [x]) s1) →
  for_each xs body s0 = Ok s' → Inv xs s'.
Proof.
  intros H0 Hstep.
  assert (∀ todo done s, xs = done ++ todo → Inv done s →
            for_each todo body s = Ok s' → Inv xs s') as Hgen.
  { induction todo as [|x todo IH]; intros done s Hxs Hinv; simpl.
    - intros [= <-]. by rewrite Hxs, app_nil_r.
    - intros Hrun. apply bind_Ok in Hrun as (s1 & Hx & Hrest).
      apply (IH (done ++ [x]) s1); [by rewrite <- app_assoc| |done].
      by eapply Hstep. }
  by apply (Hgen xs [] s0).
Qed.

(** A loop returns when every round does, given an invariant. *)
Lemma for_each_returns {A S} (Inv : list A → S → Prop) (xs : list A)
    (body : A → S → result S) (s0 : S) :
  Inv [] s0 →
  (∀ done x rest s, xs = done ++ x :: rest → Inv done s →
                    ∃ s1, body x s = Ok s1 ∧ Inv (done ++ [x]) s1) →
  ∃ s', for_each xs body s0 = Ok s' ∧ Inv xs s'.
Proof.
  intros H0 Hstep.
  assert (∀ todo done s, xs = done ++ todo → Inv done s →
            ∃ s', for_each todo body s = Ok s' ∧ Inv xs s') as Hgen.
  { induction todo as [|x todo IH]; intros done s Hxs Hinv; simpl.
    - exists s. split; [done|]. by rewrite Hxs, app_nil_r.
    - destruct (Hstep done x todo s Hxs Hinv) as (s1 & Hx & Hinv1).
      rewrite Hx. simpl. apply (IH (done ++ [x]) s1); [by rewrite <- app_assoc|done]. }
  by apply (Hgen xs [] s0).
Qed.

Lemma omap_lookup_seq (items : list Item) :
  omap (λ i, items !! i) (seq 0 (length items)) = items.
Proof.
  induction items as [|item items IH] using rev_ind; [done|].
  rewrite length_app. simpl. rewrite seq_app, omap_app. simpl.
  rewrite lookup_app_r, Nat.sub_diag by lia. simpl. f_equal.
  etrans; [|exact IH]. apply list_omap_ext, Forall2_same_length_lookup.
  split; [done|]. intros k x y Hx Hy. rewrite Hx in Hy. injection Hy as <-.
  apply lookup_seq in Hx as [-> Hlt]. by rewrite lookup_app_l.
Qed.

Lemma omap_split {A B} (P : A → Prop) `{!∀ x, Decision (P x)}
    (f : A → option B) (l : list A) :
  omap (λ i, if bool_decide (P i) then None else f i) l ++ omap f (filter P l)
  ≡ₚ omap f l.
Proof.
  induction l as [|x l IH]; [done|]. simpl.
  rewrite filter_cons. destruct (decide (P x)) as [HP|HP].
  - rewrite bool_decide_eq_true_2 by done. simpl.
    destruct (f x) as [y|]; [|done].
    rewrite <- IH. by rewrite Permutation_middle.
  - rewrite bool_decide_eq_false_2 by done.
    destruct (f x) as [y|]; [|done]. simpl. by rewrite IH.
Qed.

Lemma without_taken_perm (removed : list nat) (items : list Item) :
  removed = filter (λ i, i ∈ removed) (seq 0 (length items)) →
  without removed items ++ taken removed items ≡ₚ items.
Proof.
  intros Hr.
  assert (taken removed items
          = omap (λ i, items !! i)
                 (filter (λ i, i ∈ removed) (seq 0 (length items)))) as ->.
  { unfold taken. by rewrite <- Hr. }
  unfold without.
  rewrite (omap_split (λ i, i ∈ removed) (λ i, items !! i)).
  by rewrite omap_lookup_seq.
Qed.

Lemma elem_of_without removed (items : list Item) x :
  x ∈ without removed items ↔ ∃ i, (i ∉ removed) ∧ items !! i = Some x.
Proof.
  unfold without. rewrite list_elem_of_omap. split.
  - intros (i & _ & Hi). exists i. destruct (bool_decide (i ∈ removed)) eqn:Hd; [done|].
    by apply bool_decide_eq_false in Hd.
  - intros (i & Hi & Hx). exists i. split.
    + apply elem_of_seq. apply lookup_lt_Some in Hx. lia.
    + by rewrite bool_decide_eq_false_2.
Qed.

Lemma elem_of_taken removed (items : list Item) x :
  x ∈ taken removed items ↔ ∃ i, i ∈ removed ∧ items !! i = Some x.
Proof. unfold taken. apply list_elem_of_omap. Qed.

Lemma first_loop_removed_bound items0 dep_item k st i :
  first_loop_inv items0 dep_item k st → i ∈ st.2 → i < k.
Proof.
  intros (_ & Hr & _) Hi. rewrite Hr in Hi.
  apply list_elem_of_filter in Hi as [_ Hi]. apply elem_of_seq in Hi. lia.
Qed.

Lemma first_loop_keep items0 dep_item k items removed item0 :
  first_loop_inv items0 dep_item k (items, removed) →
  items0 !! k = Some item0 → id dep_item ∉ _deps item0 →
  first_loop_inv items0 dep_item (S k) (items, removed).
Proof.
  intros Hinv Hk Hno.
  pose proof (λ i, first_loop_removed_bound _ _ _ _ i Hinv) as Hbound.
  cbn [snd] in Hbound.
  destruct Hinv as (Hrel & Hr & Hrem & Hvis & Hrest). cbn [fst snd] in *.
  split; [done|]. split; [|split; [done|split]]; cbn [fst snd].
  - rewrite seq_S, filter_app, <- Hr. cbn [Nat.add].
    rewrite filter_cons_False, filter_nil, app_nil_r; [done|].
    intros Hin. apply Hbound in Hin. lia.
  - intros i item Hi Hni Hitem. destruct (decide (i = k)) as [->|Hne].
    + rewrite Hrest by lia. exists item0. rewrite Hk in Hitem. injection Hitem as <-.
      split; [done|]. unfold list_remove_suppress.
      by rewrite (proj2 (list_remove_None _ _) Hno).
    + apply Hvis; [lia|done..].
  - intros i Hi. apply Hrest. lia.
Qed.

Lemma first_loop_strip items0 dep_item k items removed item0 r :
  first_loop_inv items0 dep_item k (items, removed) →
  items0 !! k = Some item0 → list_remove (id dep_item) (_deps item0) = Some r →
  first_loop_inv items0 dep_item (S k) (update k (set_deps r) items, removed).
Proof.
  intros Hinv Hk Hr'.
  pose proof (λ i, first_loop_removed_bound _ _ _ _ i Hinv) as Hbound.
  cbn [snd] in Hbound.
  destruct Hinv as (Hrel & Hr & Hrem & Hvis & Hrest). cbn [fst snd] in *.
  assert (items !! k = Some item0) as Hk' by (by rewrite Hrest).
  assert (r = list_remove_suppress (id dep_item) (_deps item0)) as Hrs.
  { unfold list_remove_suppress. by rewrite Hr'. }
  split; [|split; [|split; [|split]]]; cbn [fst snd].
  - etrans; [exact Hrel|]. apply store_rel_update; [apply _|].
    intros x Hx. rewrite Hk' in Hx. injection Hx as <-.
    apply shrinks_set_deps. rewrite Hrs. apply list_remove_suppress_sublist.
  - rewrite seq_S, filter_app, <- Hr. cbn [Nat.add].
    rewrite filter_cons_False, filter_nil, app_nil_r; [done|].
    intros Hin. apply Hbound in Hin. lia.
  - intros i Hi. rewrite lookup_update_ne; [by apply Hrem|].
    apply Hbound in Hi. lia.
  - intros i item Hi Hni Hitem. destruct (decide (i = k)) as [->|Hne].
    + rewrite (lookup_update_eq _ _ _ _ Hk'). eexists. split; [done|].
      rewrite Hk in Hitem. injection Hitem as <-. by rewrite <- Hrs.
    + rewrite lookup_update_ne by done. apply Hvis; [lia|done..].
  - intros i Hi. rewrite lookup_update_ne by lia. apply Hrest. lia.
Qed.

Lemma first_loop_remove items0 dep_item k items removed item0 :
  first_loop_inv items0 dep_item k (items, removed) →
  items0 !! k = Some item0 → id dep_item ∈ _deps item0 →
  first_loop_inv items0 dep_item (S k) (items, removed ++ [k]).
Proof.
  intros Hinv Hk Hin.
  pose proof (λ i, first_loop_removed_bound _ _ _ _ i Hinv) as Hbound.
  cbn [snd] in Hbound.
  destruct Hinv as (Hrel & Hr & Hrem & Hvis & Hrest). cbn [fst snd] in *.
  split; [done|]. split; [|split; [|split]]; cbn [fst snd].
  - rewrite seq_S, filter_app. cbn [Nat.add].
    rewrite filter_cons_True, filter_nil by (apply elem_of_app; right; by left).
    f_equal. rewrite Hr at 1. apply filter_ext_in. intros i Hi.
    apply elem_of_seq in Hi. rewrite elem_of_app, list_elem_of_singleton.
    split; [auto|]. intros [?| ->]; [done|lia].
  - intros i Hi. apply elem_of_app in Hi as [Hi|Hi]; [by apply Hrem|].
    apply list_elem_of_singleton in Hi as ->. split; [apply Hrest; lia|eauto].
  - intros i item Hi Hni Hitem.
    rewrite elem_of_app, list_elem_of_singleton in Hni.
    apply Hvis; [|tauto|done]. destruct (decide (i = k)); [tauto|lia].
  - intros i Hi. apply Hrest. lia.
Qed.

(** The first loop of [remove_item_dependents]: it can only fail where
    [_has_trigger_path] does. *)
Lemma first_loop_spec (Fail : Prop) fuel dep_item (items0 : list Item) :
  (∀ items k item, store_rel shrinks items0 items → items !! k = Some item →
     triple (_has_trigger_path fuel items dep_item (id item))
            (λ _, True) (λ _, Fail) Fail) →
  triple (for_each (positions items0) (check_dependent fuel dep_item) (items0, []))
         (first_loop_inv items0 dep_item (length items0)) (λ _, Fail) Fail.
Proof.
  intros Hhtp. unfold positions. apply for_each_seq_triple.
  - split; [done|]. split; [done|]. split; [|split; [|done]].
    + intros i Hi. by apply not_elem_of_nil in Hi.
    + intros i item0 Hi. lia.
  - intros k [items removed] Hk Hinv.
    destruct (lookup_lt_is_Some_2 items0 k Hk) as [item0 Hk0].
    assert (items !! k = Some item0) as Hk'.
    { destruct Hinv as (_ & _ & _ & _ & Hrest). simpl in Hrest. by rewrite Hrest. }
    unfold check_dependent. rewrite (obj_lookup _ _ _ Hk'). simpl.
    destruct (bool_decide (id dep_item ∈ _deps item0)) eqn:Hd.
    + apply bool_decide_eq_true in Hd.
      destruct (list_remove (id dep_item) (_deps item0)) as [r|] eqn:Hr;
        [|by apply list_remove_None in Hr].
      assert (remove_dep k (id dep_item) items = Ok (update k (set_deps r) items))
        as Hrd.
      { unfold remove_dep. rewrite (obj_lookup _ _ _ Hk'). simpl. by rewrite Hr. }
      pose proof (Hhtp items k item0 (proj1 Hinv) Hk') as Ht.
      destruct (_has_trigger_path fuel items dep_item (id item0)) as [[]| |];
        simpl in *; [| |done..].
      * rewrite Hrd. simpl. by eapply first_loop_strip.
      * destruct (bool_decide (id dep_item ∈ _concurrency_deps item0)).
        -- rewrite Hrd. simpl. by eapply first_loop_strip.
        -- simpl. by eapply first_loop_remove.
    + apply bool_decide_eq_false in Hd. simpl. by eapply first_loop_keep.
Qed.

Lemma shrinks_not_elem_of a b x : shrinks a b → x ∉ _deps a → x ∉ _deps b.
Proof. intros [_ Hs] Hx Hin. apply Hx. by eapply sublist_subseteq. Qed.

Lemma shrunk_deps_NoDup A B : shrunk A B → deps_NoDup A → deps_NoDup B.
Proof.
  intros Hs Hnd b Hb. destruct (Hs b Hb) as (a & Ha & _ & Hsub).
  apply (sublist_NoDup _ (_deps a)); [by apply Hnd|done].
Qed.

Lemma shrunk_independent gone A B :
  shrunk A B → independent_of gone A → independent_of gone B.
Proof.
  intros Hs Hind b r Hb Hr. destruct (Hs b Hb) as (a & Ha & Hab).
  eapply shrinks_not_elem_of; [done|]. by apply Hind.
Qed.

Lemma independent_of_app gone1 gone2 items :
  independent_of (gone1 ++ gone2) items
  ↔ independent_of gone1 items ∧ independent_of gone2 items.
Proof.
  unfold independent_of. split.
  - intros H. split; intros item r Hi Hr; apply H; try done; apply elem_of_app; auto.
  - intros [H1 H2] item r Hi Hr. apply elem_of_app in Hr as [Hr|Hr]; eauto.
Qed.

Lemma remove_dep_from_items_shrunk items dep :
  store_rel shrinks items (remove_dep_from_items items dep).
Proof.
  unfold remove_dep_from_items. split; [by rewrite length_fmap|].
  intros k a b Ha Hb. rewrite list_lookup_fmap, Ha in Hb. injection Hb as <-.
  apply shrinks_set_deps, list_remove_suppress_sublist.
Qed.

Lemma remove_dep_from_items_independent items (r : Item) :
  deps_NoDup items → independent_of [r] (remove_dep_from_items items (id r)).
Proof.
  intros Hnd item r' Hitem Hr'. apply list_elem_of_singleton in Hr' as ->.
  unfold remove_dep_from_items in Hitem. apply list_elem_of_fmap in Hitem as (a & -> & Ha).
  simpl. by apply list_remove_suppress_NoDup, Hnd.
Qed.

(** One round of the second loop of [remove_item_dependents], given what the
    recursive call does *)
Lemma second_loop_step (rec : list Item → Item → result (list Item * list Item))
    items_a done r (st st1 : list Item * list Item) :
  (∀ items dep_item res, rec items dep_item = Ok res → skip_post items dep_item res) →
  second_loop_inv items_a done st →
  (let '(items, all_recursively_removed_items) := st in
   if cascade_skip r then
     '(items, recursively_removed_items) ← rec items r;
     Ok (items, all_recursively_removed_items ++ recursively_removed_items)
   else
     Ok (remove_dep_from_items items (id r), all_recursively_removed_items)) = Ok st1 →
  second_loop_inv items_a (done ++ [r]) st1.
Proof.
  intros Hrec (Hperm & Hshr & Hind). destruct st as [items all]. cbn [fst snd] in *.
  assert (shrunk items_a items) as Hcur.
  { apply (shrunk_subseteq _ (items ++ all)); [done|]. intros x Hx. apply elem_of_app. by left. }
  assert (shrunk items_a all) as Hall.
  { apply (shrunk_subseteq _ (items ++ all)); [done|]. intros x Hx. apply elem_of_app. by right. }
  destruct (cascade_skip r).
  - intros Hrun. apply bind_Ok in Hrun as ([items' rec'] & Hcall & [= <-]).
    destruct (Hrec _ _ _ Hcall) as (Hperm' & Hshr' & Hind'). cbn [fst snd] in *.
    assert (shrunk items items') as Hs1.
    { apply (shrunk_subseteq _ (items' ++ rec')); [done|]. intros x Hx. apply elem_of_app. by left. }
    assert (shrunk items rec') as Hs2.
    { apply (shrunk_subseteq _ (items' ++ rec')); [done|]. intros x Hx. apply elem_of_app. by right. }
    split; [|split]; cbn [fst snd].
    + rewrite <- Hperm. rewrite !fmap_app. rewrite fmap_app in Hperm'.
      rewrite <- Hperm'. rewrite <- !app_assoc. f_equiv. apply Permutation_app_comm.
    + apply shrunk_app; [by apply (shrunk_trans _ items)|].
      apply shrunk_app; [done|by apply (shrunk_trans _ items)].
    + intros Hnd. specialize (Hind Hnd).
      apply independent_of_app in Hind as [Hdone Hgone].
      specialize (Hind' (shrunk_deps_NoDup _ _ Hcur Hnd)).
      change (r :: rec') with ([r] ++ rec') in Hind'.
      apply independent_of_app in Hind' as [Hr Hrec'].
      repeat (apply independent_of_app; split); try done;
        by apply (shrunk_independent _ items).
  - intros [= <-].
    pose proof (remove_dep_from_items_shrunk items (id r)) as Hstore.
    split; [|split]; cbn [fst snd].
    + rewrite <- Hperm, !fmap_app. by rewrite (without_deps_perm_store _ _ Hstore).
    + apply shrunk_app; [|done].
      apply (shrunk_trans _ items); [done|]. by apply shrunk_store_rel.
    + intros Hnd. specialize (Hind Hnd).
      apply independent_of_app in Hind as [Hdone Hgone].
      repeat (apply independent_of_app; split).
      * apply (shrunk_independent _ items); [by apply shrunk_store_rel|done].
      * apply remove_dep_from_items_independent.
        by apply (shrunk_deps_NoDup items_a).
      * apply (shrunk_independent _ items); [by apply shrunk_store_rel|done].
Qed.

Lemma first_loop_clean items0 dep_item items1 removed :
  first_loop_inv items0 dep_item (length items0) (items1, removed) →
  deps_NoDup items0 → independent_of [dep_item] (without removed items1).
Proof.
  intros (Hrel & _ & _ & Hvis & _) Hnd item r Hitem Hr. cbn [fst snd] in *.
  apply list_elem_of_singleton in Hr as ->.
  apply elem_of_without in Hitem as (i & Hi & Hitem).
  assert (i < length items0) as Hlt.
  { destruct Hrel as [-> _]. by eapply lookup_lt_Some. }
  destruct (lookup_lt_is_Some_2 items0 i Hlt) as [item0 Hitem0].
  destruct (Hvis i item0 Hlt Hi Hitem0) as (item' & Hitem' & Hdeps).
  rewrite Hitem in Hitem'. injection Hitem' as <-. rewrite Hdeps.
  apply list_remove_suppress_NoDup, Hnd. by eapply list_elem_of_lookup_2.
Qed.

Lemma remove_item_dependents_post (fuel : nat) :
  ∀ items0 dep_item res,
    remove_item_dependents fuel items0 dep_item = Ok res →
    skip_post items0 dep_item res.
Proof.
  induction fuel as [|fuel IH]; intros items0 dep_item res; [done|].
  simpl. intros Hrun.
  apply bind_Ok in Hrun as ([items1 removed] & Hloop1 & Hrun).
  apply bind_Ok in Hrun as ([out all] & Hloop2 & [= <-]).
  pose proof (first_loop_spec True fuel dep_item items0) as Hfirst.
  rewrite Hloop1 in Hfirst. simpl in Hfirst.
  assert (first_loop_inv items0 dep_item (length items0) (items1, removed)) as Hinv1.
  { apply Hfirst. intros items k item _ _.
    by destruct (_has_trigger_path fuel items dep_item (id item)). }
  clear Hfirst.
  pose proof Hinv1 as (Hrel & Hr & _). cbn [fst snd] in *.
  assert (without removed items1 ++ taken removed items1 ≡ₚ items1) as Hperm1.
  { apply without_taken_perm. destruct Hrel as [<- _]. done. }
  pose proof (shrunk_store_rel _ _ Hrel) as Hshr1.
  assert (shrunk items0 (without removed items1)) as Hshr_a.
  { apply (shrunk_subseteq _ items1); [done|]. intros x Hx.
    rewrite <- Hperm1. apply elem_of_app. by left. }
  assert (shrunk items0 (taken removed items1)) as Hshr_r.
  { apply (shrunk_subseteq _ items1); [done|]. intros x Hx.
    rewrite <- Hperm1. apply elem_of_app. by right. }
  assert (second_loop_inv (without removed items1) (taken removed items1) (out, all))
    as (Hperm2 & Hshr2 & Hind2).
  { eapply (for_each_invariant (second_loop_inv (without removed items1)));
      [| |exact Hloop2].
    - split; [by rewrite app_nil_r|]. split; [rewrite app_nil_r; apply shrunk_refl|].
      intros _ item r _ Hr'. by apply not_elem_of_nil in Hr'.
    - intros done r rest st st1 _ Hinv Hstep.
      by apply (second_loop_step (remove_item_dependents fuel) _ _ _ st). }
  cbn [fst snd] in *. split; [|split]; cbn [fst snd].
  - rewrite (without_deps_perm_store _ _ Hrel).
    transitivity (without_deps <$> (without removed items1 ++ taken removed items1));
      [|by rewrite Hperm1].
    rewrite !fmap_app. rewrite fmap_app in Hperm2. rewrite <- Hperm2.
    rewrite <- !app_assoc. f_equiv. apply Permutation_app_comm.
  - assert (shrunk items0 (out ++ all)) as Hoa by by apply (shrunk_trans _ (without removed items1)).
    apply shrunk_app; [|apply shrunk_app; [done|]].
    + apply (shrunk_subseteq _ (out ++ all)); [done|].
      intros x Hx. apply elem_of_app. by left.
    + apply (shrunk_subseteq _ (out ++ all)); [done|].
      intros x Hx. apply elem_of_app. by right.
  - intros Hnd.
    specialize (Hind2 (shrunk_deps_NoDup _ _ Hshr_a Hnd)).
    apply independent_of_app in Hind2 as [Hdone Hgone].
    change (dep_item :: taken removed items1 ++ all)
      with ([dep_item] ++ taken removed items1 ++ all).
    repeat (apply independent_of_app; split); try done.
    apply (shrunk_independent _ (without removed items1)).
    + apply (shrunk_subseteq _ (out ++ all)); [done|].
      intros x Hx. apply elem_of_app. by left.
    + by eapply first_loop_clean.
Qed.

(** X10: when [remove_item_dependents] returns, the items it kept together
    with the items it reports as removed are the items it was given, none
    lost and none twice; all that has changed of an item is that entries
    were removed from its [_deps]. *)
Theorem remove_item_dependents_partition (fuel : nat) (items : list Item)
    (dep_item : Item) (kept removed : list Item) :
  remove_item_dependents fuel items dep_item = Ok (kept, removed) →
  without_deps <$> (kept ++ removed) ≡ₚ without_deps <$> items
  ∧ ∀ item', item' ∈ kept ++ removed →
      ∃ item, item ∈ items
              ∧ item' = set_deps (_deps item') item
              ∧ _deps item' `sublist_of` _deps item.
Proof.
  intros Hrun. destruct (remove_item_dependents_post _ _ _ _ Hrun) as (Hperm & Hshr & _).
  split; [done|]. intros item' Hin. destruct (Hshr item' Hin) as (item & Hitem & Hwd & Hsub).
  exists item. split; [done|]. split; [|done].
  unfold without_deps in Hwd. destruct item, item'. unfold set_deps in *. simpl in *.
  by injection Hwd as -> -> -> -> -> -> -> -> -> -> -> -> -> -> -> -> -> ->.
Qed.

(** X11: when no [_deps] list holds an id twice and [remove_item_dependents]
    returns, no item it kept depends on the skipped item or on an item it
    removed. *)
Theorem remove_item_dependents_clean (fuel : nat) (items : list Item)
    (dep_item : Item) (kept removed : list Item) :
  (∀ item, item ∈ items → NoDup (_deps item)) →
  remove_item_dependents fuel items dep_item = Ok (kept, removed) →
  ∀ item', item' ∈ kept →
    (id dep_item ∉ _deps item') ∧ ∀ r, r ∈ removed → id r ∉ _deps item'.
Proof.
  intros Hnd Hrun. destruct (remove_item_dependents_post _ _ _ _ Hrun) as (_ & _ & Hind).
  specialize (Hind Hnd). cbn [fst snd] in Hind. intros item' Hin. split.
  - apply Hind; [done|by left].
  - intros r Hr. apply Hind; [done|by right].
Qed.

Lemma example_queue_NoDup : ∀ item, item ∈ example_queue → NoDup (_deps item).
Proof.
  intros item Hin.
  repeat (apply elem_of_cons in Hin as [->|Hin]);
    [apply NoDup_singleton|apply NoDup_singleton|apply NoDup_nil_2|].
  by apply not_elem_of_nil in Hin.
Defined.

Lemma example_queue_run :
  remove_item_dependents 3 example_queue (example_item example_pkg "x" "b1" [] [] false)
  = Ok ([example_item example_file "/c" "b1" [] [] false],
        [set_deps ["pkg:x"] (example_item example_file "/a" "b1" [] [] false);
         set_deps ["file:/a"] (example_item example_file "/b" "b1" [] [] false)]).
Proof. by vm_compute. Defined.

Lemma remove_item_dependents_partition_witness :
  remove_item_dependents 3 example_queue (example_item example_pkg "x" "b1" [] [] false)
  = Ok ([example_item example_file "/c" "b1" [] [] false],
        [set_deps ["pkg:x"] (example_item example_file "/a" "b1" [] [] false);
         set_deps ["file:/a"] (example_item example_file "/b" "b1" [] [] false)])
  ∧ without_deps <$>
      ([example_item example_file "/c" "b1" [] [] false]
       ++ [set_deps ["pkg:x"] (example_item example_file "/a" "b1" [] [] false);
           set_deps ["file:/a"] (example_item example_file "/b" "b1" [] [] false)])
    ≡ₚ without_deps <$> example_queue.
Proof.
  split; [exact example_queue_run|].
  exact (proj1 (remove_item_dependents_partition 3 example_queue _ _ _ example_queue_run)).
Defined.

Lemma remove_item_dependents_clean_witness :
  (∀ item, item ∈ example_queue → NoDup (_deps item))
  ∧ ∀ item', item' ∈ [example_item example_file "/c" "b1" [] [] false] →
      ("pkg:x" ∉ _deps item')
      ∧ ∀ r, r ∈ [set_deps ["pkg:x"] (example_item example_file "/a" "b1" [] [] false);
                  set_deps ["file:/a"] (example_item example_file "/b" "b1" [] [] false)] →
             id r ∉ _deps item'.
Proof.
  split; [exact example_queue_NoDup|].
  exact (remove_item_dependents_clean 3 example_queue
           (example_item example_pkg "x" "b1" [] [] false) _ _
           example_queue_NoDup example_queue_run).
Defined.

Lemma shrinks_descend (rank : string → nat) (bound : nat) a b :
  shrinks a b →
  triggers_descend rank a ∧ (rank (id a) ≤ bound)%nat →
  triggers_descend rank b ∧ (rank (id b) ≤ bound)%nat.
Proof.
  intros Hs [Hd Hb]. destruct (shrinks_static _ _ Hs) as (Hid & Htr & _).
  unfold triggers_descend. by rewrite Hid, Htr.
Qed.

Lemma shrunk_descend (rank : string → nat) (bound : nat) A B :
  shrunk A B →
  (∀ a, a ∈ A → triggers_descend rank a ∧ (rank (id a) ≤ bound)%nat) →
  ∀ b, b ∈ B → triggers_descend rank b ∧ (rank (id b) ≤ bound)%nat.
Proof.
  intros Hs HA b Hb. destruct (Hs b Hb) as (a & Ha & Hab).
  eapply shrinks_descend; [done|]. by apply HA.
Qed.

Lemma skip_post_length items0 dep_item res :
  skip_post items0 dep_item res → (length res.1 ≤ length items0)%nat.
Proof.
  intros (Hperm & _). apply Permutation_length in Hperm.
  rewrite !length_fmap, length_app in Hperm. lia.
Qed.

(** X12: when the triggers of the items and of the skipped item lead to ids of
    ever smaller rank, [remove_item_dependents] returns within a recursion
    depth of the number of items plus the largest rank plus two. *)
Theorem remove_item_dependents_returns (rank : string → nat) (bound fuel : nat)
    (items : list Item) (dep_item : Item) :
  (∀ item, item ∈ items → triggers_descend rank item ∧ (rank (id item) ≤ bound)%nat) →
  triggers_descend rank dep_item ∧ (rank (id dep_item) ≤ bound)%nat →
  (length items + bound + 1 < fuel)%nat →
  ∃ kept removed, remove_item_dependents fuel items dep_item = Ok (kept, removed).
Proof.
  revert items dep_item.
  induction fuel as [|fuel IH]; intros items0 dep_item Hitems [Hdep Hdepb] Hfuel; [lia|].
  simpl.
  pose proof (first_loop_spec False fuel dep_item items0) as Hfirst.
  destruct (for_each (positions items0) (check_dependent fuel dep_item) (items0, []))
    as [[items1 removed]| |]; simpl in Hfirst.
  2,3: exfalso; apply Hfirst; intros items k item Hrel Hk;
    destruct (has_trigger_path_total rank items dep_item (id item) fuel)
      as [b ->]; [|done|lia|done];
    intros other Hother;
    apply (shrunk_descend rank bound items0 items (shrunk_store_rel _ _ Hrel) Hitems
             other Hother).
  assert (first_loop_inv items0 dep_item (length items0) (items1, removed)) as Hinv1.
  { apply Hfirst. intros items k item Hrel Hk.
    destruct (has_trigger_path_total rank items dep_item (id item) fuel)
      as [b ->]; [|done|lia|done].
    intros other Hother.
    apply (shrunk_descend rank bound items0 items (shrunk_store_rel _ _ Hrel) Hitems
             other Hother). }
  clear Hfirst. simpl.
  pose proof Hinv1 as (Hrel & Hr & _). cbn [fst snd] in *.
  assert (without removed items1 ++ taken removed items1 ≡ₚ items1) as Hperm1.
  { apply without_taken_perm. destruct Hrel as [<- _]. done. }
  pose proof (shrunk_store_rel _ _ Hrel) as Hshr1.
  assert (∀ b, b ∈ items1 → triggers_descend rank b ∧ (rank (id b) ≤ bound)%nat) as Hitems1.
  { by apply (shrunk_descend rank bound items0). }
  set (items_a := without removed items1) in *.
  set (removed_items := taken removed items1) in *.
  destruct (for_each_returns
    (λ (done : list Item) (st : list Item * list Item),
       (length st.1 ≤ length items_a)%nat ∧ shrunk items_a st.1)
    removed_items
    (λ removed_item '(items, all_recursively_removed_items),
       if cascade_skip removed_item then
         '(items, recursively_removed_items) ←
           remove_item_dependents fuel items removed_item;
         Ok (items, all_recursively_removed_items ++ recursively_removed_items)
       else
         Ok (remove_dep_from_items items (id removed_item),
             all_recursively_removed_items))
    (items_a, [])) as ([out all] & -> & _).
  - split; [done|apply shrunk_refl].
  - intros done r rest [items all] Hxs [Hlen Hshr]. cbn [fst snd] in *.
    assert (r ∈ removed_items) as Hr_in.
    { rewrite Hxs. apply elem_of_app. right. by left. }
    assert (length items_a < length items0)%nat as Hlt.
    { apply Permutation_length in Hperm1. rewrite length_app in Hperm1.
      destruct Hrel as [-> _]. destruct removed_items; [by apply not_elem_of_nil in Hr_in|].
      simpl in Hperm1. lia. }
    assert (∀ b, b ∈ items_a → triggers_descend rank b ∧ (rank (id b) ≤ bound)%nat) as Hitems_a.
    { intros b Hb. apply Hitems1. rewrite <- Hperm1. apply elem_of_app. by left. }
    destruct (cascade_skip r).
    + destruct (IH items r) as (items' & rec' & Hcall).
      * by apply (shrunk_descend rank bound items_a).
      * apply Hitems1. rewrite <- Hperm1. apply elem_of_app. by right.
      * lia.
      * rewrite Hcall. simpl. eexists. split; [done|].
        pose proof (remove_item_dependents_post _ _ _ _ Hcall) as Hpost.
        pose proof (skip_post_length _ _ _ Hpost) as Hlen'.
        destruct Hpost as (_ & Hshr' & _). cbn [fst snd] in *.
        split; [lia|]. apply (shrunk_trans _ items); [done|].
        apply (shrunk_subseteq _ (items' ++ rec')); [done|].
        intros x Hx. apply elem_of_app. by left.
    + eexists. split; [done|]. cbn [fst snd].
      pose proof (remove_dep_from_items_shrunk items (id r)) as Hstore.
      split; [destruct Hstore as [<- _]; lia|].
      apply (shrunk_trans _ items); [done|]. by apply shrunk_store_rel.
  - simpl. eauto.
Qed.

Lemma remove_item_dependents_returns_witness :
  (∀ item, item ∈ example_queue →
     triggers_descend (λ _, 0) item ∧ (0 ≤ 0)%nat)
  ∧ ∃ kept removed,
      remove_item_dependents 5 example_queue
        (example_item example_pkg "x" "b1" [] [] false) = Ok (kept, removed).
Proof.
  assert (∀ item, item ∈ example_queue →
            triggers_descend (λ _, 0) item ∧ (0 ≤ 0)%nat) as Hall.
  { intros item Hin. split; [|lia]. intros tid Htid.
    repeat (apply elem_of_cons in Hin as [->|Hin]);
      try (by apply not_elem_of_nil in Htid). by apply not_elem_of_nil in Hin. }
  split; [exact Hall|].
  apply (remove_item_dependents_returns (λ _, 0) 0 5 example_queue _ Hall).
  - split; [|lia]. intros tid Htid. by apply not_elem_of_nil in Htid.
  - simpl. lia.
Defined.

End SkipTheory.

Module InjectTheory.
Import Py Deps DepsTheory Inject SelectorTheory.

Lemma resolve_dep_Ok attr A sel (T : list Item) r :
  resolve_dep attr A sel T = Ok r ↔ resolve_selector sel T = Ok r.
Proof.
  unfold resolve_dep. destruct (resolve_selector sel T) as [r'|e|]; [done| |done].
  by destruct e.
Qed.

Lemma resolve_dep_total attr A sel (T : list Item) : resolve_dep attr A sel T ≠ OutOfFuel.
Proof.
  unfold resolve_dep.
  destruct (resolve_selector_cases sel T) as [[l Hr]|[[i Hr]|[Hr|[_ Hr]]]];
    by rewrite Hr.
Qed.

Lemma resolve_dep_ext attr a b sel (T T' : list Item) :
  same_identity a b → store_rel same_identity T T' →
  resolve_dep attr a sel T = resolve_dep attr b sel T'.
Proof.
  intros (Hid & Hbn & _) HT. unfold resolve_dep.
  by rewrite (resolve_selector_ext sel T T' HT), Hid, Hbn.
Qed.

Lemma resolve_selector_total sel (T : list Item) : resolve_selector sel T ≠ OutOfFuel.
Proof.
  destruct (resolve_selector_cases sel T) as [[l Hr]|[[i Hr]|[Hr|[_ Hr]]]];
    by rewrite Hr.
Qed.

(** What [resolve_dep] raises: [ItemDependencyError] for a selector that
    names a missing item, [ValueError] for one without a colon. *)
Lemma resolve_dep_Raise attr A sel (T : list Item) e :
  resolve_dep attr A sel T = Raise e →
  (names_missing_item T sel ∧ e = ItemDependencyError attr (id A) (bundle_name A) sel)
  ∨ (split_colon sel = None ∧ e = ValueError sel).
Proof.
  unfold resolve_dep, names_missing_item.
  destruct (resolve_selector_cases sel T) as [[l Hr]|[[i Hr]|[Hr|[Hs Hr]]]];
    rewrite Hr; try done.
  - intros [= <-]. by left.
  - intros [= <-]. by right.
Qed.

Section SelectorLoop.
Variable R : Item → Item → Prop.
Context `{!PreOrder R}.
Hypothesis R_identity : ∀ a b, R a b → same_identity a b.
Variable resolve : Item → string → list Item → result resolved.
Hypothesis resolve_Ok : ∀ A sel (T : list Item) r,
  resolve A sel T = Ok r ↔ resolve_selector sel T = Ok r.
Hypothesis resolve_total : ∀ A sel (T : list Item), resolve A sel T ≠ OutOfFuel.
Hypothesis resolve_ext : ∀ a b sel (T T' : list Item),
  same_identity a b → store_rel same_identity T T' →
  resolve a sel T = resolve b sel T'.
Variable step : Item → nat → list Item → result (list Item).
Variable Done : string → nat → list Item → Prop.
Variable E : exn → Prop.
Hypothesis Done_mono : ∀ a t (T T' : list Item),
  Done a t T → store_rel R T T' → Done a t T'.
Hypothesis step_spec : ∀ A t (T : list Item), t < length T →
  triple (step A t T) (λ T', store_rel R T T' ∧ Done (id A) t T') E False.

Lemma selector_loop_spec (A : Item) (sels : list string) (base T : list Item) :
  store_rel R base T →
  triple (selector_loop resolve step A sels T)
    (λ T', store_rel R T T'
           ∧ ∀ sel, sel ∈ sels →
               ∃ r, resolve_selector sel base = Ok r
                    ∧ ∀ t, t ∈ resolved_items r → Done (id A) t T')
    (λ e, E e ∨ ∃ sel, sel ∈ sels ∧ resolve A sel base = Raise e)
    False.
Proof.
  intros Hbase. unfold selector_loop.
  apply (for_each_triple (store_rel R)
           (λ sel T', ∃ r, resolve_selector sel base = Ok r
                           ∧ ∀ t, t ∈ resolved_items r → Done (id A) t T')).
  - intros sel s s' (r & Hr & Hd) Hs. exists r. split; [done|].
    intros t Ht. eapply Done_mono; eauto.
  - intros sel s Hsel Hs.
    assert (store_rel R base s) as Hbs by (by etrans).
    assert (resolve A sel s = resolve A sel base) as ->.
    { symmetry. apply resolve_ext; [by split|].
      eapply store_rel_weaken; [apply R_identity|done]. }
    destruct (resolve A sel base) as [r|e|] eqn:Hr; simpl.
    + apply resolve_Ok in Hr.
      eapply triple_weaken;
        [apply (for_each_triple (store_rel R) (λ t U, Done (id A) t U) E False)
        | | |]; try done.
      * intros t u u' Hd Hu. eapply Done_mono; eauto.
      * intros t u Ht Hu. apply step_spec.
        pose proof (resolve_selector_positions _ _ _ _ Hr Ht) as Hlt.
        destruct Hbs as [Hl1 _], Hu as [Hl2 _]. lia.
      * intros s' [Hs' Hall]. split; [done|]. eauto.
      * intros e He. by left.
    + right. eauto.
    + by apply resolve_total in Hr.
Qed.

Variable attr : Item → list string.
Hypothesis R_attr : ∀ a b, R a b → attr a = attr b.

(** A pass that runs one selector loop for every item *)
Lemma pass_spec (items : list Item) :
  triple (for_each (positions items) (λ i items,
            item ← obj i items;
            selector_loop resolve step item (attr item) items) items)
    (λ items', store_rel R items items'
           ∧ ∀ i A sel, items !! i = Some A → sel ∈ attr A →
               ∃ r, resolve_selector sel items = Ok r
                    ∧ ∀ t, t ∈ resolved_items r → Done (id A) t items')
    (λ e, E e ∨ ∃ A sel, A ∈ items ∧ sel ∈ attr A ∧ resolve A sel items = Raise e)
    False.
Proof.
  eapply triple_weaken;
    [apply (for_each_triple (store_rel R)
              (λ i T', ∀ A sel, items !! i = Some A → sel ∈ attr A →
                 ∃ r, resolve_selector sel items = Ok r
                      ∧ ∀ t, t ∈ resolved_items r → Done (id A) t T')
              (λ e, E e ∨ ∃ A sel, A ∈ items ∧ sel ∈ attr A
                                    ∧ resolve A sel items = Raise e) False)
    | | |]; try done.
  - intros i s s' Hf Hs A sel HA Hsel. destruct (Hf A sel HA Hsel) as (r & Hr & Hd).
    exists r. split; [done|]. intros t Ht. eapply Done_mono; eauto.
  - intros i s Hi Hs. apply elem_of_seq in Hi.
    destruct (lookup_lt_is_Some_2 items i) as [A HA]; [lia|].
    destruct (store_rel_lookup _ _ _ _ _ Hs HA) as (item & Hitem & HR).
    rewrite (obj_lookup _ _ _ Hitem). simpl.
    pose proof (selector_loop_spec item (attr item) items s Hs) as Hloop.
    eapply triple_weaken; [exact Hloop| | |done].
    + intros s' [Hs' Hall]. split; [done|]. intros A' sel HA' Hsel.
      rewrite HA in HA'. injection HA' as <-.
      destruct (R_identity _ _ HR) as (Hid & _). rewrite Hid.
      apply Hall. by rewrite <- (R_attr _ _ HR).
    + intros e [He|(sel & Hsel & Hr)]; [by left|]. right. exists A, sel.
      split; [by eapply list_elem_of_lookup_2|].
      split; [by rewrite (R_attr _ _ HR)|].
      rewrite <- Hr. apply resolve_ext; [by apply R_identity|done].
  - intros items' [H1 H2]. split; [done|]. intros i A sel HA Hsel.
    apply (H2 i); [|done..]. apply elem_of_seq. apply lookup_lt_Some in HA.
    unfold positions in *. lia.
Qed.
End SelectorLoop.

(** *** [_inject_trigger_dependencies] *)

Global Instance grows_deps_preorder : PreOrder grows_deps.
Proof.
  split.
  - intros a. split; [by destruct a|done].
  - intros a b c [Hb Hb1] [Hc Hc1]. split; [|by etrans].
    rewrite Hc, Hb. by destruct a.
Qed.

Lemma grows_deps_identity a b : grows_deps a b → same_identity a b.
Proof. intros [-> _]. by destruct a. Qed.

Lemma grows_deps_static a b :
  grows_deps a b → triggers a = triggers b ∧ triggered a = triggered b ∧ id a = id b.
Proof. intros [-> _]. by destruct a. Qed.

Lemma resolve_selector_ext' (a b : Item) sel (T T' : list Item) :
  same_identity a b → store_rel same_identity T T' →
  resolve_selector sel T = resolve_selector sel T'.
Proof. intros _. apply resolve_selector_ext. Qed.

Lemma inject_trigger_dependencies_triple (items : list Item) :
  triple (_inject_trigger_dependencies items)
    (λ items', store_rel grows_deps items items'
       ∧ ∀ i A sel, items !! i = Some A → sel ∈ triggers A →
           ∃ r, resolve_selector sel items = Ok r
                ∧ ∀ t, t ∈ resolved_items r →
                    ∃ B, items' !! t = Some B ∧ triggered B = true ∧ id A ∈ _deps B)
    (λ e, (∃ a b c d, e = BundleError (TriggersMissingTriggered a b c d))
          ∨ ∃ A sel, A ∈ items ∧ sel ∈ triggers A
                     ∧ resolve_selector sel items = Raise e)
    False.
Proof.
  apply (pass_spec grows_deps grows_deps_identity (λ _, resolve_selector)
           (λ _ _ _ _, reflexivity _) (λ _, resolve_selector_total)
           resolve_selector_ext'
           (λ item t items,
              triggered_item ← obj t items;
              if triggered triggered_item then
                Ok (update t (λ it, set_deps (_deps it ++ [id item]) it) items)
              else
                Raise (BundleError (TriggersMissingTriggered
                         (id triggered_item) (bundle_name triggered_item)
                         (id item) (bundle_name item))))
           (λ a t T, ∃ B, T !! t = Some B ∧ triggered B = true ∧ a ∈ _deps B)
           (λ e, ∃ a b c d, e = BundleError (TriggersMissingTriggered a b c d))).
  - intros a t T T' (B & HB & Htr & Hin) HT.
    destruct (store_rel_lookup _ _ _ _ _ HT HB) as (B' & HB' & Hg).
    exists B'. split; [done|]. destruct (grows_deps_static _ _ Hg) as (_ & <- & _).
    split; [done|]. destruct Hg as [_ [k ->]]. apply elem_of_app. by left.
  - intros A t T Ht. destruct (obj_Ok T t Ht) as (B & HB & ->). simpl.
    destruct (triggered B) eqn:Htr; simpl; [|eauto 10]. split.
    + apply store_rel_update; [apply _|]. intros x Hx. split; [by destruct x|].
      by apply prefix_app_r.
    + eexists. split; [by apply lookup_update_eq|]. simpl. split; [done|].
      apply elem_of_app. right. by left.
  - intros a b Hg. by destruct (grows_deps_static _ _ Hg).
Qed.

(** X13: [_inject_trigger_dependencies] changes nothing but [_deps], to which
    it only appends. When it returns, every selector in a [triggers] list
    resolved, every item it resolved to is a triggered one and has the id of
    the triggering item in its [_deps]. It fails when a triggered item lacks
    the [triggered] attribute, and the errors of [resolve_selector] reach the
    caller as they are. *)
Theorem inject_trigger_dependencies_spec (items : list Item) :
  _inject_trigger_dependencies items ≠ OutOfFuel
  ∧ (∀ items', _inject_trigger_dependencies items = Ok items' →
       length items' = length items
       ∧ (∀ k a, items !! k = Some a →
            ∃ b, items' !! k = Some b ∧ b = set_deps (_deps b) a
                 ∧ _deps a `prefix_of` _deps b)
       ∧ ∀ i A sel, items !! i = Some A → sel ∈ triggers A →
           ∃ r, resolve_selector sel items = Ok r
                ∧ ∀ t, t ∈ resolved_items r →
                    ∃ B B', items !! t = Some B ∧ items' !! t = Some B'
                            ∧ triggered B = true ∧ id A ∈ _deps B')
  ∧ (∀ i A sel r t B, items !! i = Some A → sel ∈ triggers A →
       resolve_selector sel items = Ok r → t ∈ resolved_items r →
       items !! t = Some B → triggered B = false →
       ∃ e, _inject_trigger_dependencies items = Raise e)
  ∧ (∀ e, _inject_trigger_dependencies items = Raise e →
       (∃ a b c d, e = BundleError (TriggersMissingTriggered a b c d))
       ∨ ∃ A sel, A ∈ items ∧ sel ∈ triggers A ∧ resolve_selector sel items = Raise e).
Proof.
  pose proof (inject_trigger_dependencies_triple items) as Hpass.
  assert (∀ items', _inject_trigger_dependencies items = Ok items' →
            ∀ i A sel, items !! i = Some A → sel ∈ triggers A →
              ∃ r, resolve_selector sel items = Ok r
                   ∧ ∀ t, t ∈ resolved_items r →
                       ∃ B B', items !! t = Some B ∧ items' !! t = Some B'
                               ∧ triggered B = true ∧ id A ∈ _deps B') as Hok.
  { intros items' Hrun i A sel HA Hsel. rewrite Hrun in Hpass.
    destruct Hpass as [Hrel Hall]. destruct (Hall i A sel HA Hsel) as (r & Hr & Hd).
    exists r. split; [done|]. intros t Ht. destruct (Hd t Ht) as (B' & HB' & Htr & Hin).
    destruct (store_rel_lookup_r _ _ _ _ _ Hrel HB') as (B & HB & Hg).
    exists B, B'. destruct (grows_deps_static _ _ Hg) as (_ & -> & _). done. }
  split; [|split; [|split]].
  - intros Hf. by rewrite Hf in Hpass.
  - intros items' Hrun. split; [|split; [|by apply Hok]].
    + rewrite Hrun in Hpass. by destruct Hpass as [[-> _] _].
    + intros k a Ha. rewrite Hrun in Hpass. destruct Hpass as [Hrel _].
      destruct (store_rel_lookup _ _ _ _ _ Hrel Ha) as (b & Hb & Hg1 & Hg2). eauto.
  - intros i A sel r t B HA Hsel Hr Ht HB Htr.
    destruct (_inject_trigger_dependencies items) as [items'|e|] eqn:Hrun;
      [|eauto|done].
    destruct (Hok items' eq_refl i A sel HA Hsel) as (r' & Hr' & Hd).
    rewrite Hr in Hr'. injection Hr' as <-.
    destruct (Hd t Ht) as (B0 & B' & HB0 & _ & Htr' & _). congruence.
  - intros e Hrun. by rewrite Hrun in Hpass.
Qed.

(** *** [_inject_reverse_dependencies] *)

Global Instance grows_reverse_preorder : PreOrder grows_reverse.
Proof.
  split.
  - intros a. split; [by destruct a|]. split; [|done].
    exists []. by rewrite !app_nil_r.
  - intros a b c (Hb & (e1 & Hd1 & Hr1) & Hn1) (Hc & (e2 & Hd2 & Hr2) & Hn2).
    split; [|split].
    + rewrite Hc, Hb. by destruct a.
    + exists (e1 ++ e2). rewrite Hd2, Hr2, Hd1, Hr1. by rewrite !app_assoc.
    + auto.
Qed.

Lemma grows_reverse_identity a b : grows_reverse a b → same_identity a b.
Proof. intros (-> & _). by destruct a. Qed.

Lemma grows_reverse_static a b :
  grows_reverse a b → needed_by a = needed_by b ∧ id a = id b.
Proof. intros (-> & _). by destruct a. Qed.

Lemma add_dep_grows d dep (T : list Item) : store_rel grows_reverse T (add_dep d dep T).
Proof.
  unfold add_dep. apply store_rel_update; [apply _|]. intros x Hx.
  destruct (bool_decide (dep ∈ _deps x)) eqn:Hd; [reflexivity|].
  apply bool_decide_eq_false in Hd.
  split; [by destruct x|]. split; [by exists [dep]|]. simpl.
  intros Hnd. apply NoDup_app. split; [done|]. split; [|apply NoDup_singleton].
  intros y Hy Hy'. apply list_elem_of_singleton in Hy' as ->. done.
Qed.

Lemma inject_reverse_dependencies_triple (items : list Item) :
  triple (_inject_reverse_dependencies items)
    (λ items', store_rel grows_reverse (set_reverse_deps [] <$> items) items'
       ∧ ∀ i A sel, items !! i = Some A → sel ∈ needed_by A →
           ∃ r, resolve_selector sel items = Ok r
                ∧ ∀ t, t ∈ resolved_items r →
                    ∃ B, items' !! t = Some B ∧ id A ∈ _deps B)
    (λ e, ∃ A sel, A ∈ items ∧ sel ∈ needed_by A
                   ∧ resolve_dep NeededBy A sel items = Raise e)
    False.
Proof.
  assert (store_rel same_identity items (set_reverse_deps [] <$> items)) as Hreset.
  { split; [by rewrite length_fmap|]. intros k a b Ha Hb.
    rewrite list_lookup_fmap, Ha in Hb. injection Hb as <-. by destruct a. }
  pose proof (pass_spec grows_reverse grows_reverse_identity (resolve_dep NeededBy)
           (resolve_dep_Ok NeededBy) (resolve_dep_total NeededBy)
           (resolve_dep_ext NeededBy)
           (λ item d items, Ok (add_dep d (id item) items))
           (λ a t T, ∃ B, T !! t = Some B ∧ a ∈ _deps B)
           (λ _, False)) as Hpass.
  unfold _inject_reverse_dependencies.
  eapply triple_weaken;
    [apply (Hpass) with (attr := needed_by) (items := set_reverse_deps [] <$> items)
    | | |done].
  - intros a t T T' (B & HB & Hin) HT.
    destruct (store_rel_lookup _ _ _ _ _ HT HB) as (B' & HB' & Hg).
    exists B'. split; [done|]. destruct Hg as (_ & (extra & -> & _) & _).
    apply elem_of_app. by left.
  - intros A t T Ht. simpl. split; [apply add_dep_grows|].
    destruct (lookup_lt_is_Some_2 T t Ht) as [B HB]. unfold add_dep.
    eexists. split; [by apply lookup_update_eq|].
    destruct (bool_decide (id A ∈ _deps B)) eqn:Hd.
    + by apply bool_decide_eq_true in Hd.
    + simpl. apply elem_of_app. right. by left.
  - intros a b Hg. by destruct (grows_reverse_static _ _ Hg).
  - intros items' [Hrel Hall]. split; [done|]. intros i A sel HA Hsel.
    destruct (Hall i (set_reverse_deps [] A) sel) as (r & Hr & Hd).
    { by rewrite list_lookup_fmap, HA. }
    { by destruct A. }
    exists r. split; [by rewrite (resolve_selector_ext sel _ _ Hreset)|].
    intros t Ht. destruct (Hd t Ht) as (B & HB & Hin). exists B. split; [done|].
    by destruct A.
  - intros e [[]|(A' & sel & HA' & Hsel & Hr)].
    apply list_elem_of_fmap in HA' as (A & -> & HA). exists A, sel.
    split; [done|]. split; [by destruct A|]. rewrite <- Hr.
    apply resolve_dep_ext; [by destruct A|done].
Qed.

(** X14: [_inject_reverse_dependencies] changes nothing but [_deps] and
    [_reverse_deps]: what it appends to an item's [_deps] is what
    [_reverse_deps] holds afterwards, and a [_deps] list without
    duplicates gets none. When it returns, every [needed_by] selector
    resolved and every item it resolved to has the id of the needed item in
    its [_deps]. It raises [ItemDependencyError] for a [needed_by] selector
    that names a missing item and [ValueError] for one without a colon. *)
Theorem inject_reverse_dependencies_spec (items : list Item) :
  _inject_reverse_dependencies items ≠ OutOfFuel
  ∧ (∀ items', _inject_reverse_dependencies items = Ok items' →
       length items' = length items
       ∧ (∀ k a, items !! k = Some a →
            ∃ b, items' !! k = Some b
                 ∧ b = set_reverse_deps (_reverse_deps b) (set_deps (_deps b) a)
                 ∧ _deps b = _deps a ++ _reverse_deps b
                 ∧ (NoDup (_deps a) → NoDup (_deps b)))
       ∧ ∀ i A sel, items !! i = Some A → sel ∈ needed_by A →
           ∃ r, resolve_selector sel items = Ok r
                ∧ ∀ t, t ∈ resolved_items r →
                    ∃ B, items' !! t = Some B ∧ id A ∈ _deps B)
  ∧ (∀ A sel, A ∈ items → sel ∈ needed_by A → names_missing_item items sel →
       ∃ e, _inject_reverse_dependencies items = Raise e)
  ∧ (∀ e, _inject_reverse_dependencies items = Raise e →
       ∃ A sel, A ∈ items ∧ sel ∈ needed_by A
         ∧ ((names_missing_item items sel
             ∧ e = ItemDependencyError NeededBy (id A) (bundle_name A) sel)
            ∨ (split_colon sel = None ∧ e = ValueError sel))).
Proof.
  pose proof (inject_reverse_dependencies_triple items) as Hpass.
  split; [|split; [|split]].
  - intros Hf. by rewrite Hf in Hpass.
  - intros items' Hrun. rewrite Hrun in Hpass. destruct Hpass as [Hrel Hall].
    split; [|split; [|done]].
    + destruct Hrel as [<- _]. by rewrite length_fmap.
    + intros k a Ha.
      destruct (store_rel_lookup _ _ _ k (set_reverse_deps [] a) Hrel)
        as (b & Hb & Hb1 & (extra & Hd & Hr) & Hnd).
      { by rewrite list_lookup_fmap, Ha. }
      exists b. split; [done|]. simpl in *. subst extra.
      split; [|done]. rewrite Hb1. by destruct a.
  - intros A sel HA Hsel Hmiss.
    destruct (_inject_reverse_dependencies items) as [items'|e|] eqn:Hrun;
      [|eauto|done].
    destruct Hpass as [_ Hall]. apply list_elem_of_lookup in HA as [i HA].
    destruct (Hall i A sel HA Hsel) as (r & Hr & _).
    unfold names_missing_item in Hmiss. congruence.
  - intros e Hrun. rewrite Hrun in Hpass. destruct Hpass as (A & sel & HA & Hsel & Hr).
    exists A, sel. split; [done|]. split; [done|]. by apply resolve_dep_Raise.
Qed.

(** *** [_inject_reverse_triggers] *)

Global Instance grows_triggers_preorder : PreOrder grows_triggers.
Proof.
  split.
  - intros a. split; [by destruct a|done].
  - intros a b c (Hb & Hb1 & Hb2) (Hc & Hc1 & Hc2). split; [|split].
    + rewrite Hc, Hb. by destruct a.
    + by etrans.
    + by etrans.
Qed.

Lemma grows_triggers_identity a b : grows_triggers a b → same_identity a b.
Proof. intros (-> & _). by destruct a. Qed.

Lemma grows_triggers_static a b :
  grows_triggers a b →
  triggered_by a = triggered_by b ∧ precedes a = precedes b ∧ id a = id b.
Proof. intros (-> & _). by destruct a. Qed.

(** The item at [t] names [a] in the list [attr]. *)
Lemma named_in_mono (attr : Item → list string) a t (T T' : list Item) :
  (∀ x y, grows_triggers x y → attr x `prefix_of` attr y) →
  (∃ B, T !! t = Some B ∧ a ∈ attr B) → store_rel grows_triggers T T' →
  ∃ B, T' !! t = Some B ∧ a ∈ attr B.
Proof.
  intros Hattr (B & HB & Hin) HT.
  destruct (store_rel_lookup _ _ _ _ _ HT HB) as (B' & HB' & Hg).
  exists B'. split; [done|]. destruct (Hattr _ _ Hg) as [k ->].
  apply elem_of_app. by left.
Qed.

Lemma inject_reverse_triggers_triple (items : list Item) :
  triple (_inject_reverse_triggers items)
    (λ items', store_rel grows_triggers items items'
       ∧ ∀ i A, items !! i = Some A →
           (∀ sel, sel ∈ triggered_by A →
              ∃ r, resolve_selector sel items = Ok r
                   ∧ ∀ t, t ∈ resolved_items r →
                       ∃ B, items' !! t = Some B ∧ id A ∈ triggers B)
           ∧ (∀ sel, sel ∈ precedes A →
                ∃ r, resolve_selector sel items = Ok r
                     ∧ ∀ t, t ∈ resolved_items r →
                         ∃ B, items' !! t = Some B ∧ id A ∈ preceded_by B))
    (λ e, ∃ A sel, A ∈ items
            ∧ ((sel ∈ triggered_by A ∧ resolve_dep TriggeredBy A sel items = Raise e)
               ∨ (sel ∈ precedes A ∧ resolve_dep Precedes A sel items = Raise e)))
    False.
Proof.
  set (Done1 := λ (a : string) t (T : list Item), ∃ B, T !! t = Some B ∧ a ∈ triggers B).
  set (Done2 := λ (a : string) t (T : list Item),
                  ∃ B, T !! t = Some B ∧ a ∈ preceded_by B).
  assert (∀ a t T T', Done1 a t T → store_rel grows_triggers T T' → Done1 a t T')
    as Hmono1.
  { intros a t T T'. apply (named_in_mono triggers). by intros x y (_ & ? & _). }
  assert (∀ a t T T', Done2 a t T → store_rel grows_triggers T T' → Done2 a t T')
    as Hmono2.
  { intros a t T T'. apply (named_in_mono preceded_by). by intros x y (_ & _ & ?). }
  assert (∀ A t (T : list Item), t < length T →
            triple (Ok (update t (λ it, set_triggers (triggers it ++ [id A]) it) T))
              (λ T', store_rel grows_triggers T T' ∧ Done1 (id A) t T')
              (λ _, False) False) as Hstep1.
  { intros A t T Ht. simpl. split.
    - apply store_rel_update; [apply _|]. intros x Hx.
      split; [by destruct x|]. split; [by apply prefix_app_r|done].
    - destruct (lookup_lt_is_Some_2 T t Ht) as [B HB].
      eexists. split; [by apply lookup_update_eq|]. simpl.
      apply elem_of_app. right. by left. }
  assert (∀ A t (T : list Item), t < length T →
            triple (Ok (update t (λ it, set_preceded_by (preceded_by it ++ [id A]) it) T))
              (λ T', store_rel grows_triggers T T' ∧ Done2 (id A) t T')
              (λ _, False) False) as Hstep2.
  { intros A t T Ht. simpl. split.
    - apply store_rel_update; [apply _|]. intros x Hx.
      split; [by destruct x|]. split; [done|by apply prefix_app_r].
    - destruct (lookup_lt_is_Some_2 T t Ht) as [B HB].
      eexists. split; [by apply lookup_update_eq|]. simpl.
      apply elem_of_app. right. by left. }
  pose proof (selector_loop_spec grows_triggers grows_triggers_identity
           (resolve_dep TriggeredBy)
           (resolve_dep_Ok TriggeredBy) (resolve_dep_total TriggeredBy)
           (resolve_dep_ext TriggeredBy)
           (λ item t items,
              Ok (update t (λ it, set_triggers (triggers it ++ [id item]) it) items))
           Done1 (λ _, False) Hmono1 Hstep1) as Hloop1.
  pose proof (selector_loop_spec grows_triggers grows_triggers_identity
           (resolve_dep Precedes)
           (resolve_dep_Ok Precedes) (resolve_dep_total Precedes)
           (resolve_dep_ext Precedes)
           (λ item t items,
              Ok (update t (λ it, set_preceded_by (preceded_by it ++ [id item]) it)
                         items))
           Done2 (λ _, False) Hmono2 Hstep2) as Hloop2.
  unfold _inject_reverse_triggers.
  eapply triple_weaken;
    [apply (for_each_triple (store_rel grows_triggers)
              (λ i T', ∀ A, items !! i = Some A →
                 (∀ sel, sel ∈ triggered_by A →
                    ∃ r, resolve_selector sel items = Ok r
                         ∧ ∀ t, t ∈ resolved_items r → Done1 (id A) t T')
                 ∧ (∀ sel, sel ∈ precedes A →
                      ∃ r, resolve_selector sel items = Ok r
                           ∧ ∀ t, t ∈ resolved_items r → Done2 (id A) t T'))
              (λ e, ∃ A sel, A ∈ items
                 ∧ ((sel ∈ triggered_by A
                     ∧ resolve_dep TriggeredBy A sel items = Raise e)
                    ∨ (sel ∈ precedes A
                       ∧ resolve_dep Precedes A sel items = Raise e))) False)
    | | |]; try done.
  - intros i s s' Hf Hs A HA. destruct (Hf A HA) as [H1 H2]. split.
    + intros sel Hsel. destruct (H1 sel Hsel) as (r & Hr & Hd). exists r.
      split; [done|]. intros t Ht. eapply Hmono1; eauto.
    + intros sel Hsel. destruct (H2 sel Hsel) as (r & Hr & Hd). exists r.
      split; [done|]. intros t Ht. eapply Hmono2; eauto.
  - intros i s Hi Hs. apply elem_of_seq in Hi.
    destruct (lookup_lt_is_Some_2 items i) as [A HA]; [lia|].
    destruct (store_rel_lookup _ _ _ _ _ Hs HA) as (item & Hitem & HR).
    destruct (grows_triggers_static _ _ HR) as (Htb & Hpr & Hid).
    rewrite (obj_lookup _ _ _ Hitem). simpl.
    assert (∀ e sel, resolve_dep TriggeredBy item sel items = Raise e →
              resolve_dep TriggeredBy A sel items = Raise e) as Hr1.
    { intros e sel <-. apply resolve_dep_ext; [by apply grows_triggers_identity|done]. }
    assert (∀ e sel, resolve_dep Precedes item sel items = Raise e →
              resolve_dep Precedes A sel items = Raise e) as Hr2.
    { intros e sel <-. apply resolve_dep_ext; [by apply grows_triggers_identity|done]. }
    eapply triple_bind.
    + eapply triple_weaken; [exact (Hloop1 item (triggered_by item) items s Hs)| | |done].
      * intros s1 Hs1. exact Hs1.
      * intros e [[]|(sel & Hsel & Hr)]. exists A, sel.
        split; [by eapply list_elem_of_lookup_2|]. left.
        split; [by rewrite Htb|by apply Hr1].
    + intros s1 [Hs1 Hall1]. simpl.
      assert (store_rel grows_triggers items s1) as Hbase1 by (by etrans).
      eapply triple_weaken; [exact (Hloop2 item (precedes item) items s1 Hbase1)| | |done].
      * intros s2 [Hs2 Hall2]. split; [by etrans|].
        intros A' HA'. rewrite HA in HA'. injection HA' as <-.
        rewrite Hid, Htb, Hpr. split; [|done].
        intros sel Hsel. destruct (Hall1 sel Hsel) as (r & Hr & Hd). exists r.
        split; [done|]. intros t Ht. eapply Hmono1; eauto.
      * intros e [[]|(sel & Hsel & Hr)]. exists A, sel.
        split; [by eapply list_elem_of_lookup_2|]. right.
        split; [by rewrite Hpr|by apply Hr2].
  - intros items' [H1 H2]. split; [done|]. intros i A HA.
    apply (H2 i); [|done]. apply elem_of_seq. apply lookup_lt_Some in HA.
    unfold positions. lia.
Qed.

(** X15: [_inject_reverse_triggers] changes nothing but [triggers] and
    [preceded_by], to which it only appends. When it returns, every
    [triggered_by] and [precedes] selector resolved; an item that a
    [triggered_by] selector of [A] resolved to has the id of [A] in its
    [triggers], one that a [precedes] selector of [A] resolved to has it in
    its [preceded_by]. It raises [ItemDependencyError] for a selector that
    names a missing item and [ValueError] for one without a colon. *)
Theorem inject_reverse_triggers_spec (items : list Item) :
  _inject_reverse_triggers items ≠ OutOfFuel
  ∧ (∀ items', _inject_reverse_triggers items = Ok items' →
       length items' = length items
       ∧ (∀ k a, items !! k = Some a →
            ∃ b, items' !! k = Some b
                 ∧ b = set_preceded_by (preceded_by b) (set_triggers (triggers b) a)
                 ∧ triggers a `prefix_of` triggers b
                 ∧ preceded_by a `prefix_of` preceded_by b)
       ∧ ∀ i A, items !! i = Some A →
           (∀ sel, sel ∈ triggered_by A →
              ∃ r, resolve_selector sel items = Ok r
                   ∧ ∀ t, t ∈ resolved_items r →
                       ∃ B, items' !! t = Some B ∧ id A ∈ triggers B)
           ∧ (∀ sel, sel ∈ precedes A →
                ∃ r, resolve_selector sel items = Ok r
                     ∧ ∀ t, t ∈ resolved_items r →
                         ∃ B, items' !! t = Some B ∧ id A ∈ preceded_by B))
  ∧ (∀ A sel, A ∈ items → sel ∈ triggered_by A ∨ sel ∈ precedes A →
       names_missing_item items sel →
       ∃ e, _inject_reverse_triggers items = Raise e)
  ∧ (∀ e, _inject_reverse_triggers items = Raise e →
       ∃ A sel attr, A ∈ items
         ∧ ((attr = TriggeredBy ∧ sel ∈ triggered_by A)
            ∨ (attr = Precedes ∧ sel ∈ precedes A))
         ∧ ((names_missing_item items sel
             ∧ e = ItemDependencyError attr (id A) (bundle_name A) sel)
            ∨ (split_colon sel = None ∧ e = ValueError sel))).
Proof.
  pose proof (inject_reverse_triggers_triple items) as Hpass.
  split; [|split; [|split]].
  - intros Hf. by rewrite Hf in Hpass.
  - intros items' Hrun. rewrite Hrun in Hpass. destruct Hpass as [Hrel Hall].
    split; [|split; [|done]].
    + by destruct Hrel as [<- _].
    + intros k a Ha.
      destruct (store_rel_lookup _ _ _ _ _ Hrel Ha) as (b & Hb & Hg). eauto.
  - intros A sel HA Hsel Hmiss.
    destruct (_inject_reverse_triggers items) as [items'|e|] eqn:Hrun; [|eauto|done].
    destruct Hpass as [_ Hall]. apply list_elem_of_lookup in HA as [i HA].
    destruct (Hall i A HA) as [H1 H2]. unfold names_missing_item in Hmiss.
    destruct Hsel as [Hsel|Hsel];
      [destruct (H1 sel Hsel) as (r & Hr & _)|destruct (H2 sel Hsel) as (r & Hr & _)];
      congruence.
  - intros e Hrun. rewrite Hrun in Hpass.
    destruct Hpass as (A & sel & HA & [[Hsel Hr]|[Hsel Hr]]).
    + exists A, sel, TriggeredBy. split; [done|]. split; [by left|].
      by apply resolve_dep_Raise.
    + exists A, sel, Precedes. split; [done|]. split; [by right|].
      by apply resolve_dep_Raise.
Qed.

(** The passes on two items, the first of which is needed by, triggered by
    and precedes the second *)
Example reverse_passes_example :
  (∃ items', _inject_reverse_dependencies example_reverse = Ok items'
             ∧ _deps <$> items' = [[]; ["pkg:x"]]
             ∧ _reverse_deps <$> items' = [[]; ["pkg:x"]])
  ∧ ∃ items', _inject_reverse_triggers example_reverse = Ok items'
              ∧ triggers <$> items' = [[]; ["pkg:x"]]
              ∧ preceded_by <$> items' = [[]; ["pkg:x"]].
Proof. split; eexists; (split; [by vm_compute|]); split; by vm_compute. Qed.

End InjectTheory.

Module ConcurrencyTheory.
Import Py Deps DepsTheory.

Lemma chained_flattened a b :
  chained a b →
  (∃ l, _flattened_deps a = Some (FlatList l)) →
  ∃ l, _flattened_deps b = Some (FlatList l).
Proof.
  intros (_ & extra & _ & _ & [[_ ->]|(l & _ & ->)]) Hl; [done|eauto].
Qed.

Lemma all_flattened_chained (T T' : list Item) :
  store_rel chained T T' → all_flattened T → all_flattened T'.
Proof.
  intros HT Hall k b Hb.
  destruct (store_rel_lookup_r _ _ _ _ _ HT Hb) as (a & Ha & Hc).
  eapply chained_flattened; [done|]. by eapply Hall.
Qed.

Lemma set_same_group_deps_total blocked_types i (T : list Item) :
  i < length T → all_flattened T →
  triple (set_same_group_deps blocked_types i T)
    (λ T', store_rel chained T T') (λ _, False) False.
Proof.
  intros Hi Hall. destruct (obj_Ok T i Hi) as (item & Hitem & Hobj).
  unfold set_same_group_deps. rewrite Hobj. simpl.
  destruct (Hall i item Hitem) as [l ->]. simpl.
  apply store_rel_update; [apply _|]. intros x _. apply chained_group_deps.
Qed.

Lemma chain_after_total previous_item i (T : list Item) :
  i < length T → (∀ p, previous_item = Some p → p < length T) → all_flattened T →
  triple (chain_after previous_item i T)
    (λ T', store_rel chained T T') (λ _, False) False.
Proof.
  intros Hi Hp Hall. unfold chain_after.
  destruct previous_item as [p|]; simpl; [|reflexivity].
  destruct (obj_Ok T i Hi) as (item & Hitem & ->). simpl.
  destruct (obj_Ok T p (Hp p eq_refl)) as (prev & Hprev & ->). simpl.
  case_bool_decide; simpl; [reflexivity|].
  destruct (Hall i item Hitem) as [l Hl]. rewrite Hl. simpl.
  apply store_rel_update; [apply _|]. intros x Hx.
  assert (x = item) as -> by congruence.
  split; [by destruct item|]. exists [id prev]. simpl.
  split; [done|]. split; [done|]. right. eauto.
Qed.

Lemma release_dependents_total type_items i (T : list Item) :
  i < length T →
  triple (release_dependents type_items i T)
    (λ T', store_rel chained T T') (λ _, False) False.
Proof.
  intros Hi. destruct (obj_Ok T i Hi) as (item & Hitem & Hobj).
  unfold release_dependents. rewrite Hobj. simpl.
  eapply triple_weaken;
    [apply (for_each_triple (store_rel chained) (λ _ _, True) (λ _, False) False)
    | | |]; try done.
  - intros o s _ _. simpl. split; [|done].
    apply store_rel_update; [apply _|]. intros x _. apply chained_group_deps.
  - by intros s' [? _].
Qed.

Lemma daisy_chain_total fuel type_items processed_items previous_item (T : list Item) :
  (length type_items ≤ fuel + length processed_items)%nat →
  (∀ i, i ∈ type_items → i < length T) →
  (∀ p, previous_item = Some p → p < length T) →
  all_flattened T →
  triple (daisy_chain fuel type_items processed_items previous_item T)
    (λ T', store_rel chained T T') (λ _, False) False.
Proof.
  revert processed_items previous_item T.
  induction fuel as [|fuel IH];
    intros processed_items previous_item T Hfuel Hpos Hprev Hall; simpl.
  - case_decide; [lia|]. simpl. reflexivity.
  - case_decide; [|simpl; reflexivity].
    destruct (filter _ type_items) as [|i rest] eqn:Hf; simpl; [reflexivity|].
    assert (i ∈ type_items) as Hi.
    { assert (i ∈ i :: rest) as Hin by (by left). rewrite <- Hf in Hin.
      by apply list_elem_of_filter in Hin as [_ ?]. }
    eapply triple_bind; [apply chain_after_total; auto|].
    intros T1 HT1. simpl.
    eapply triple_bind.
    { apply release_dependents_total. destruct HT1 as [<- _]. auto. }
    intros T2 HT2. simpl.
    assert (store_rel chained T T2) as HT by (by etrans).
    eapply triple_weaken; [apply IH| | |]; try done.
    + rewrite length_app. simpl. lia.
    + intros j Hj. destruct HT as [<- _]. auto.
    + intros p [= <-]. destruct HT as [<- _]. auto.
    + by eapply all_flattened_chained.
    + intros T' HT'. by etrans.
Qed.

Lemma chain_group_total blocked_types (T : list Item) :
  all_flattened T →
  triple (chain_group blocked_types T)
    (λ T', store_rel chained T T') (λ _, False) False.
Proof.
  intros Hall. unfold chain_group.
  set (type_items := filter_items _ T).
  assert (∀ i, i ∈ type_items → i < length T) as Hpos.
  { intros i Hi. apply elem_of_filter_items in Hi as (item & Hitem & _).
    by eapply lookup_lt_Some. }
  eapply triple_bind.
  - apply (for_each_triple (store_rel chained) (λ _ _, True) (λ _, False) False);
      [done|]. intros i s Hi Hs.
    eapply triple_weaken; [apply set_same_group_deps_total| | |]; try done.
    + destruct Hs as [<- _]. auto.
    + by eapply all_flattened_chained.
  - intros T1 [HT1 _]. simpl.
    eapply triple_weaken; [apply daisy_chain_total| | |]; try done.
    + simpl. lia.
    + intros i Hi. destruct HT1 as [<- _]. auto.
    + by eapply all_flattened_chained.
    + intros T' HT'. by etrans.
Qed.

Lemma inject_concurrency_blockers_total set_order (T : list Item)
    node_os node_os_version :
  all_flattened T →
  triple (_inject_concurrency_blockers set_order T node_os node_os_version)
    (λ T', store_rel chained (set_concurrency_deps [] <$> T) T')
    (λ _, False) False.
Proof.
  intros Hall. unfold _inject_concurrency_blockers.
  assert (all_flattened (set_concurrency_deps [] <$> T)) as Hall'.
  { intros k b Hb. rewrite list_lookup_fmap in Hb.
    destruct (T !! k) as [a|] eqn:Ha; [|done]. injection Hb as <-.
    by apply (Hall k a). }
  eapply triple_weaken;
    [apply (for_each_triple (store_rel chained) (λ _ _, True) (λ _, False) False)
    | | |]; try done.
  - intros g s _ Hs. eapply triple_weaken; [apply chain_group_total| | |]; try done.
    by eapply all_flattened_chained.
  - by intros T' [? _].
Qed.

(** X16: on items that all have their list of flattened dependencies,
    [_inject_concurrency_blockers] returns, whatever the order in which the
    item types are walked. It resets [_concurrency_deps] and then only
    appends: the ids it appends to an item's [_deps] are those
    [_concurrency_deps] holds afterwards, and they are appended to
    [_flattened_deps] as well; [_incoming_deps] is left as it was. *)
Theorem inject_concurrency_blockers_appends
    (set_order : list ItemClass → list ItemClass) (items : list Item)
    (node_os node_os_version : string) :
  all_flattened items →
  ∃ items',
    _inject_concurrency_blockers set_order items node_os node_os_version = Ok items'
    ∧ length items' = length items
    ∧ ∀ k a, items !! k = Some a →
        ∃ b l, items' !! k = Some b
          ∧ b = set_group_deps (__deps b)
                  (set_flattened_deps (_flattened_deps b)
                     (set_concurrency_deps (_concurrency_deps b)
                        (set_deps (_deps b) a)))
          ∧ _deps b = _deps a ++ _concurrency_deps b
          ∧ _flattened_deps a = Some (FlatList l)
          ∧ _flattened_deps b = Some (FlatList (l ++ _concurrency_deps b))
          ∧ _incoming_deps b = _incoming_deps a.
Proof.
  intros Hall.
  pose proof (inject_concurrency_blockers_total set_order items node_os node_os_version
                Hall) as Hpass.
  destruct (_inject_concurrency_blockers set_order items node_os node_os_version)
    as [items'| |]; [|done..].
  exists items'. split; [done|]. simpl in Hpass. split.
  { destruct Hpass as [<- _]. by rewrite length_fmap. }
  intros k a Ha.
  destruct (store_rel_lookup _ _ _ k (set_concurrency_deps [] a) Hpass)
    as (b & Hb & Hb1 & extra & Hd & Hc & Hf).
  { by rewrite list_lookup_fmap, Ha. }
  destruct (Hall k a Ha) as [l Hl]. simpl in *. subst extra.
  exists b, l. split; [done|]. split; [rewrite Hb1 at 1; by destruct a|].
  split; [done|]. split; [done|]. split.
  - destruct Hf as [[Hnil ->]|(l' & Hl' & ->)].
    + by rewrite Hnil, app_nil_r.
    + rewrite Hl in Hl'. by injection Hl' as <-.
  - rewrite Hb1. by destruct a.
Qed.

Lemma example_pkgs_flattened :
  all_flattened [set_flattened_deps (Some (FlatList []))
                   (example_item example_pkg "x" "b1" [] [] false);
                 set_flattened_deps (Some (FlatList []))
                   (example_item example_pkg "y" "b1" [] [] false)].
Proof.
  intros k b Hb. destruct k as [|[|k]]; simpl in Hb; [| |done];
    injection Hb as <-; by eexists.
Defined.

Lemma inject_concurrency_blockers_appends_witness :
  ∃ items',
    _inject_concurrency_blockers (λ item_types, item_types)
      [set_flattened_deps (Some (FlatList []))
         (example_item example_pkg "x" "b1" [] [] false);
       set_flattened_deps (Some (FlatList []))
         (example_item example_pkg "y" "b1" [] [] false)] "os" "1" = Ok items'
    ∧ length items' = 2.
Proof.
  destruct (inject_concurrency_blockers_appends (λ item_types, item_types)
              _ "os" "1" example_pkgs_flattened) as (items' & Hrun & Hlen & _).
  exists items'. split; [exact Hrun|exact Hlen].
Defined.

End ConcurrencyTheory.

Module FlattenTheory.
Import Py Deps DepsTheory.

Lemma incoming_changes_fields a b :
  incoming_changes a b → id b = id a ∧ _flattened_deps b = _flattened_deps a.
Proof. unfold incoming_changes. intros ->. by destruct a. Qed.

(** X17: on items that have not been flattened yet, when
    [_flatten_dependencies] returns, every item has a list of flattened
    dependencies and a set of incoming dependencies, and an item [J] is in
    the incoming dependencies of [I] exactly if the id of [I] is among the
    flattened dependencies of [J]. *)
Theorem flatten_dependencies_incoming (items : list Item) :
  fresh items →
  _flatten_dependencies items ≠ OutOfFuel
  ∧ ∀ items', _flatten_dependencies items = Ok items' →
      length items' = length items
      ∧ ∀ i j I J, items' !! i = Some I → items' !! j = Some J →
          ∃ inc l, _incoming_deps I = Some inc
                   ∧ _flattened_deps J = Some (FlatList l)
                   ∧ (j ∈ inc ↔ id I ∈ l).
Proof.
  intros Hfresh. pose proof (flatten_dependencies_spec items Hfresh) as Hspec.
  split; [intros Hf; by rewrite Hf in Hspec|].
  intros items' Hrun. rewrite Hrun in Hspec.
  destruct Hspec as (S1 & ((Hrel1 & _) & Hall & Hrel2 & Hinc)).
  split; [destruct Hrel1 as [-> _]; by destruct Hrel2 as [-> _]|].
  intros i j I J HI HJ.
  destruct (store_rel_lookup_r _ _ _ _ _ Hrel2 HI) as (I1 & HI1 & HcI).
  destruct (store_rel_lookup_r _ _ _ _ _ Hrel2 HJ) as (J1 & HJ1 & HcJ).
  destruct (incoming_changes_fields _ _ HcI) as [HidI _].
  destruct (incoming_changes_fields _ _ HcJ) as [_ HflJ].
  destruct (Hall j J1 HJ1) as [l Hl].
  destruct (Hinc i (lookup_lt_Some _ _ _ HI1)) as (I' & inc & HI' & Hinc' & Hiff).
  rewrite HI in HI'. injection HI' as <-.
  exists inc, l. split; [done|]. split; [by rewrite HflJ|].
  rewrite Hiff. unfold depends_on. split.
  - intros (I0 & J0 & f & HI0 & HJ0 & Hf & Hin).
    rewrite HI1 in HI0. injection HI0 as <-. rewrite HJ1 in HJ0. injection HJ0 as <-.
    rewrite Hl in Hf. injection Hf as <-. simpl in Hin.
    apply elem_of_list_to_set in Hin. by rewrite HidI.
  - intros Hin. exists I1, J1, (FlatList l). repeat split; try done.
    simpl. apply elem_of_list_to_set. by rewrite <- HidI.
Qed.

Lemma flatten_dependencies_incoming_witness :
  fresh example_pkgs_with_deps
  ∧ _flatten_dependencies example_pkgs_with_deps ≠ OutOfFuel.
Proof.
  split; [exact example_pkgs_fresh|].
  exact (proj1 (flatten_dependencies_incoming example_pkgs_with_deps example_pkgs_fresh)).
Defined.

End FlattenTheory.

(** * Further theorems about the metadata engine ([metagen.py]) *)

Module PathSetCoverTheory.
Import Metagen PathSetTheory.

Lemma covers_add (s : PathSet) (p q : Path) :
  covers (add s p).1 q = true ↔ covers s q = true ∨ p `prefix_of` q.
Proof.
  destruct (decide (∃ e, e ∈ _paths s ∧ e `prefix_of` p)) as [Hc|Hc].
  - rewrite add_covered by done. simpl. split; [auto|]. intros [Hq|Hq]; [done|].
    destruct Hc as (e & He & Hep). apply covers_spec. exists e. split; [done|].
    by etrans.
  - rewrite add_fresh by done. rewrite !covers_spec. simpl. split.
    + intros (e & He & Heq). apply elem_of_union in He as [He|He].
      * apply elem_of_filter in He as [_ He]. left. eauto.
      * apply elem_of_singleton in He as ->. by right.
    + intros [(e & He & Heq)|Hpq].
      * destruct (decide (p `prefix_of` e)) as [Hpe|Hpe].
        -- exists p. split; [apply elem_of_union; right; by apply elem_of_singleton|].
           by etrans.
        -- exists e. split; [|done]. apply elem_of_union. left.
           by apply elem_of_filter.
      * exists p. split; [|done]. apply elem_of_union. right.
        by apply elem_of_singleton.
Qed.

Lemma covers_add_all (ps : list Path) (s : PathSet) (q : Path) :
  covers (add_all s ps) q = true
  ↔ covers s q = true ∨ ∃ p, p ∈ ps ∧ p `prefix_of` q.
Proof.
  revert s. induction ps as [|p ps IH]; intros s; simpl.
  - split; [auto|]. intros [?|(p & Hp & _)]; [done|]. by apply not_elem_of_nil in Hp.
  - unfold add_all in *. simpl. rewrite IH, covers_add. split.
    + intros [[?|?]|(p' & Hp' & ?)]; [by left|right..].
      * exists p. split; [by left|done].
      * exists p'. split; [by right|done].
    + intros [?|(p' & Hp' & Hq)]; [by left; left|].
      apply elem_of_cons in Hp' as [->|Hp']; [left; by right|right; eauto].
Qed.

(** X18: a [PathSet] built by [add] calls covers exactly the paths that
    extend a path that was added, whatever was removed from the set on the
    way; [add] never makes a covered path uncovered, and it returns [True]
    exactly when the path was not covered before. *)
Theorem PathSet_covers_added (ps : list Path) :
  let s := add_all PathSet_init ps in
  (∀ q, covers s q = true ↔ ∃ p, p ∈ ps ∧ p `prefix_of` q)
  ∧ (∀ p q, covers s q = true → covers (add s p).1 q = true)
  ∧ (∀ p, covers (add s p).1 p = true)
  ∧ (∀ p, (add s p).2 = negb (covers s p)).
Proof.
  intros s. split; [|split; [|split]].
  - intros q. unfold s. rewrite covers_add_all. split; [|auto].
    intros [Hc|?]; [|done]. apply covers_spec in Hc as (e & He & _).
    by apply not_elem_of_empty in He.
  - intros p q Hq. apply covers_add. by left.
  - intros p. apply covers_add. by right.
  - intros p. unfold add. by destruct (covers s p).
Qed.

End PathSetCoverTheory.

Module EngineRunTheory.
Import Metagen MetagenNotions PathSetTheory EngineTheory.

Section Proofs.
Context {Metadata : Type} `{EqDecision Metadata} {Blame : Type}.
Variable env : @Environment Metadata Blame.

Local Abbreviation State := (@MetadataGenerator Metadata).
Local Abbreviation M := (eng State).

Ltac run := unfold mbind, mret, eng_bind, eng_ret, get_state, modify, raise, finally in *; simpl in *.

(** X20: [_metadata_proxy_for_node] creates the view of a node of the
    repository on first use and hands out the same view from then on without
    changing anything; for a name that is neither a view nor a node it raises
    [NoSuchNode] and changes nothing. *)
Theorem metadata_proxy_for_node_spec (node_name : string) (st : State) :
  (∀ proxy, _node_metadata_proxies st !! node_name = Some proxy →
     _metadata_proxy_for_node env node_name st = (st, Val proxy))
  ∧ (_node_metadata_proxies st !! node_name = None →
     is_Some (nodes env !! node_name) →
     ∃ st', _metadata_proxy_for_node env node_name st = (st', Val NodeMetadataProxy_init)
       ∧ st' = set_node_metadata_proxies
                 (<[node_name := NodeMetadataProxy_init]> (_node_metadata_proxies st)) st
       ∧ _metadata_proxy_for_node env node_name st' = (st', Val NodeMetadataProxy_init))
  ∧ (¬ known env node_name st →
     _metadata_proxy_for_node env node_name st = (st, Exc (NoSuchNode node_name))).
Proof.
  unfold _metadata_proxy_for_node. run. split; [|split].
  - intros proxy ->. done.
  - intros -> [node ->]. simpl. eexists. split; [done|]. split; [done|].
    simpl. by rewrite lookup_insert_eq.
  - intros Hk. destruct (_node_metadata_proxies st !! node_name) eqn:Hp.
    { exfalso. apply Hk. left. eauto. }
    destruct (nodes env !! node_name) eqn:Hn; [|done].
    exfalso. apply Hk. right. eauto.
Qed.

Lemma filter_ext_elem {A} (P Q : A → Prop)
    `{!∀ x, Decision (P x), !∀ x, Decision (Q x)} (l : list A) :
  (∀ x, x ∈ l → P x ↔ Q x) → filter P l = filter Q l.
Proof.
  induction l as [|a l IH]; intros Hiff; [done|].
  rewrite !filter_cons, IH by (intros x Hx; apply Hiff; by right).
  destruct (Hiff a) as [H1 H2]; [by left|].
  destruct (decide (P a)), (decide (Q a)); try done; tauto.
Qed.

(** X19: [reactors_for_paths] yields, in their order and each at most as
    often as it is listed, the entries that have no [_provides] attribute or
    an empty one and those that declare a path which starts with a requested
    path. A pair has no such attribute, so from pairs every entry is yielded;
    the engine passes pairs of a name and a function, and so takes every
    reactor of a node for relevant whatever paths were requested, and for
    pending until it is completed. *)
Theorem reactors_for_paths_spec :
  (∀ (A : Type) (P : Provides A) (available_reactors : list A)
     (required_paths : PathSet),
     reactors_for_paths available_reactors required_paths
       `sublist_of` available_reactors
     ∧ ∀ reactor,
         reactor ∈ reactors_for_paths available_reactors required_paths
         ↔ reactor ∈ available_reactors
           ∧ (getattr_provides reactor = []
              ∨ ∃ path requested,
                  path ∈ getattr_provides reactor
                  ∧ requested ∈ _paths required_paths
                  ∧ requested `prefix_of` path))
  ∧ (∀ (A B : Type) (pairs : list (A * B)) (required_paths : PathSet),
       reactors_for_paths pairs required_paths = pairs)
  ∧ ∀ node_name (st : State) proxy node,
      _node_metadata_proxies st !! node_name = Some proxy →
      __relevant_reactors_cache proxy = None →
      nodes env !! node_name = Some node →
      (_relevant_reactors env node_name st).2
      = Val (list_to_set (reactor_name <$> metadata_reactors node))
      ∧ (_pending_reactors env node_name st).2
        = Val (filter (λ reactor, reactor_name reactor ∉ _completed_reactors proxy)
                      (metadata_reactors node)).
Proof.
  assert (∀ (A B : Type) (pairs : list (A * B)) (required_paths : PathSet),
            reactors_for_paths pairs required_paths = pairs) as Hpairs.
  { intros A B pairs required_paths. unfold reactors_for_paths.
    induction pairs as [|pair pairs IH]; [done|].
    rewrite filter_cons_True by done. by rewrite IH. }
  split; [|split; [done|]].
  - intros A P available_reactors required_paths.
    unfold reactors_for_paths. split; [apply sublist_filter|].
    intros reactor. rewrite list_elem_of_filter. split.
    + intros [H1 H2]. split; [done|].
      destruct (getattr_provides reactor) as [|path paths]; [auto|].
      right.
      change (existsb (covers required_paths) (path :: paths) = true) in H1.
      apply existsb_exists in H1 as (path' & Hin & Hc).
      apply covers_spec in Hc as (requested & Hr & Hp).
      exists path', requested. split; [by apply list_elem_of_In|done].
    + intros [H1 H2]. split; [|done].
      destruct H2 as [->|(path & requested & Hin & Hr & Hp)]; [done|].
      destruct (getattr_provides reactor) as [|path0 paths];  [done|].
      change (existsb (covers required_paths) (path0 :: paths) = true).
      apply existsb_exists. exists path. split; [by apply list_elem_of_In|].
      apply covers_spec. eauto.
  - intros node_name st proxy node Hp Hc Hn.
    unfold _pending_reactors, _relevant_reactors, proxy_of, get_node, update_proxy.
    run. rewrite Hp. simpl. rewrite Hc, Hn. simpl.
    rewrite Hpairs. unfold reactor_pairs. rewrite <- list_fmap_compose.
    split; [done|].
    rewrite lookup_alter_eq, Hp. simpl. f_equal.
    apply filter_ext_elem. intros reactor Hin. simpl. split; [tauto|].
    intros Hnc. split; [|done].
    apply elem_of_list_to_set, list_elem_of_fmap. by exists reactor.
Qed.

Lemma accesses_flag l (st : State) :
  _in_a_reactor (foldl (get_in_a_reactor env) st l) = _in_a_reactor st.
Proof. by destruct (accesses_bookkeeping env l st) as (_ & _ & _ & _ & _ & ?). Qed.

(** X21: when a reactor raises [DoNotRunAgain], [__run_reactor] reports no
    change and no dependencies, puts the pair of node and reactor name on the
    list of reactors not to run again, and every later [__run_reactor] for
    that pair returns at once, without calling the reactor or changing the
    state. *)
Theorem do_not_run_again_sticks (node_name : string) (reactor : @Reactor Metadata)
    (st : State) :
  (node_name, reactor_name reactor) ∉ __do_not_run_again st →
  known env node_name st →
  outcome (reactor_run env node_name reactor st) = RaisedDoNotRunAgain →
  ∃ st1,
    __run_reactor env node_name reactor st = (st1, Val (false, ∅))
    ∧ (node_name, reactor_name reactor) ∈ __do_not_run_again st1
    ∧ __keyerrors st1 !! (node_name, reactor_name reactor) = None
    ∧ ∀ reactor' : @Reactor Metadata,
        reactor_name reactor' = reactor_name reactor →
        __run_reactor env node_name reactor' st1 = (st1, Val (false, ∅)).
Proof.
  intros Hd Hk Hout. unfold reactor_run in Hout.
  rewrite run_reactor_invoked, call_reactor_spec by done. simpl. rewrite Hout.
  eexists. split; [done|]. simpl.
  assert ((node_name, reactor_name reactor)
          ∈ ({[(node_name, reactor_name reactor)]}
             ∪ __do_not_run_again
                 (foldl (get_in_a_reactor env) (entry_state env node_name reactor st)
                    (accesses (call reactor node_name
                       (_node_metadata_proxies (entry_state env node_name reactor st)))))))
    as Hin.
  { apply elem_of_union. left. by apply elem_of_singleton. }
  split; [done|]. split; [apply lookup_delete_eq|].
  intros reactor' Hname. apply run_reactor_skipped. simpl. by rewrite Hname.
Qed.

Ltac unfold_engine :=
  unfold __run_reactors, run_pass, record_deps, _pending_reactors,
    _relevant_reactors, proxy_of, get_node, randomize_order, __run_reactor,
    enter_reactor, call_reactor, install_result, _metadata_proxy_for_node,
    update_proxy, clear_keyerror, count_change, __run_new_nodes,
    __initial_run_for_node, set_layer_of, cache_partition_of,
    __run_triggered_nodes, __run_unstable_nodes, __run_nodes_with_deps,
    stable_of, mark_completed, _write_disk_cache, quit_is_set,
    __check_iteration_count.

Ltac keeps_step side :=
  lazymatch goal with
  | |- keeps _ _ (mret _) => apply keeps_ret; side
  | |- keeps _ _ get_state => apply keeps_get; side
  | |- keeps _ _ out_of_fuel => apply keeps_fuel; side
  | |- keeps _ _ (raise _) => apply keeps_raise; side
  | |- keeps _ _ (modify _) => apply keeps_modify; side
  | |- keeps _ _ (mbind _ _) => apply keeps_bind; [side .. | | intros ?]
  | |- keeps _ _ (for_ _ _) => apply keeps_for; [side .. | intros ?]
  | |- keeps _ _ (foldl _ _ _) => apply keeps_foldl; [side .. | | intros ? ?]
  | |- keeps _ _ (catch_StartOver _) => apply keeps_catch
  | |- keeps _ _ (finally _ _) => apply keeps_finally; [side .. | | side]
  | |- keeps _ _ (match ?x with _ => _ end) => destruct x
  | |- keeps _ _ (let '(_, _) := ?x in _) => destruct x
  | |- keeps _ _ _ => progress unfold_engine
  end.

Ltac keeps_go side := repeat (keeps_step side).

Lemma get_in_a_reactor_runs (st : State) access :
  __reactors_run (get_in_a_reactor env st access) = __reactors_run st
  ∧ same_queues st (get_in_a_reactor env st access).
Proof.
  unfold get_in_a_reactor, get_call. destruct access as [n p].
  repeat case_match; done.
Qed.

Lemma accesses_runs l (st : State) :
  __reactors_run (foldl (get_in_a_reactor env) st l) = __reactors_run st
  ∧ same_queues st (foldl (get_in_a_reactor env) st l).
Proof.
  revert st. induction l as [|a l IH]; intros st; simpl; [done|].
  destruct (IH (get_in_a_reactor env st a)) as (H1 & H2 & H3).
  destruct (get_in_a_reactor_runs st a) as (H4 & H5 & H6).
  unfold same_queues. repeat split; congruence.
Qed.

Lemma get_in_a_reactor_layer (st : State) access n name :
  layer_of n 1 name st = None →
  layer_of n 1 name (get_in_a_reactor env st access) = None.
Proof.
  unfold get_in_a_reactor, get_call, layer_of, _set_layer. destruct access as [n' p].
  intros Hl.
  assert (layers (_metastack (default NodeMetadataProxy_init
                                (_node_metadata_proxies st !! n))) !! (1, name) = None)
    as Hl'.
  { by destruct (_node_metadata_proxies st !! n). }
  repeat case_match; simplify_eq; simpl; try done;
    (destruct (decide (n' = n)) as [->|Hne];
     [rewrite lookup_insert_eq|by rewrite lookup_insert_ne]);
    simpl; try done; by rewrite lookup_insert_ne.
Qed.

Lemma accesses_layer l (st : State) n name :
  layer_of n 1 name st = None →
  layer_of n 1 name (foldl (get_in_a_reactor env) st l) = None.
Proof.
  revert st. induction l as [|a l IH]; intros st Hl; simpl; [done|].
  by apply IH, get_in_a_reactor_layer.
Qed.

Lemma entry_state_runs node_name (reactor : @Reactor Metadata) (st : State) :
  known env node_name st →
  __reactors_run (entry_state env node_name reactor st) = (__reactors_run st + 1)%Z.
Proof.
  intros Hk. unfold entry_state, enter_reactor, _metadata_proxy_for_node, update_proxy.
  run. destruct (_node_metadata_proxies st !! node_name) as [proxy|] eqn:Hp; [done|].
  destruct Hk as [[? ?]|[node Hn]]; [congruence|]. by rewrite Hn.
Qed.

Ltac runs_side :=
  try solve [ done | intros; unfold same_runs in *; simpl; congruence ].

Lemma install_result_runs node_name (reactor : @Reactor Metadata) old new :
  keeps same_runs (λ _, True) (install_result env node_name reactor old new).
Proof. keeps_go runs_side. Qed.

(** X22: a call of [__run_reactor] that is not skipped adds one to the count
    of reactor runs however the reactor ends; when the reactor raises, the
    layer popped before the call is not put back, so the node is left without
    the tier-1 layer of the reactor; and an exception other than [KeyError]
    and [DoNotRunAgain] is passed on to the caller. *)
Theorem run_reactor_raising (node_name : string) (reactor : @Reactor Metadata)
    (st : State) :
  (node_name, reactor_name reactor) ∉ __do_not_run_again st →
  known env node_name st →
  let run := reactor_run env node_name reactor st in
  let after := __run_reactor env node_name reactor st in
  __reactors_run after.1 = (__reactors_run st + 1)%Z
  ∧ ((∀ new_metadata, outcome run ≠ Returned new_metadata) →
     layer_of node_name 1 (reactor_name reactor) after.1 = None)
  ∧ (∀ exc, outcome run = RaisedOther exc → after.2 = Exc (ReactorException exc)).
Proof.
  intros Hd Hk run after.
  destruct (enter_reactor_known env node_name reactor st Hk) as (_ & _ & Hpop & _ & _).
  pose proof (accesses_layer (accesses run) _ _ _ Hpop) as Hlayer.
  destruct (accesses_runs (accesses run) (entry_state env node_name reactor st))
    as [Hruns _].
  rewrite (entry_state_runs _ reactor _ Hk) in Hruns.
  assert (after = __run_reactor env node_name reactor st) as Hafter by done.
  rewrite run_reactor_invoked, call_reactor_spec in Hafter by done.
  simpl in Hafter. unfold reactor_run in run. fold run in Hafter, Hlayer, Hruns.
  destruct (outcome run) as [new|exc| |exc] eqn:Hout; rewrite Hafter; simpl.
  - split; [|split; [|done]].
    + destruct (install_result_runs node_name reactor
                  (popped_layer env node_name reactor st) new
                  (set_in_a_reactor false
                     (foldl (get_in_a_reactor env)
                        (entry_state env node_name reactor st) (accesses run))))
        as [Hr _].
      unfold same_runs in Hr. rewrite Hr. done.
    + intros Hno. by destruct (Hno new).
  - done.
  - done.
  - split; [done|]. split; [done|]. by intros exc' [= <-].
Qed.

(** X23: while a reactor is being called, that is in the state in which
    [__run_reactor] calls it and after any of its [get] calls, [blame] and
    [stack] raise [RuntimeError] and change nothing. *)
Theorem blame_stack_in_a_reactor (node_name : string) (reactor : @Reactor Metadata)
    (st : State) (gets : list (string * PathArg)) (fuel : nat) (n : string) :
  known env node_name st →
  let st2 := foldl (get_in_a_reactor env) (entry_state env node_name reactor st) gets in
  blame env fuel n st2 = (st2, Exc (RuntimeError_in_reactor "blame"))
  ∧ stack env fuel n st2 = (st2, Exc (RuntimeError_in_reactor "stack")).
Proof.
  intros Hk st2.
  destruct (enter_reactor_known env node_name reactor st Hk) as (_ & Hflag & _).
  assert (_in_a_reactor st2 = true) as Hf by (unfold st2; by rewrite accesses_flag).
  split; [unfold blame|unfold stack];
    rewrite bind_state; unfold get_state at 1; simpl; by rewrite Hf.
Qed.

Lemma catch_StartOver_swallows (m : M ()) :
  keeps (λ _ _, True) (λ e, e ≠ _StartOver) (catch_StartOver m).
Proof.
  intros st. split; [done|]. unfold catch_StartOver.
  destruct (m st) as [st' [a|e|]]; simpl; try done.
  destruct e; simpl; intros e' [= <-]; done.
Qed.

Lemma build_loop_swallows fuel :
  keeps (λ _ _, True) (λ e, e ≠ _StartOver) (build_loop env fuel).
Proof.
  induction fuel as [|fuel IH]; simpl.
  - apply keeps_bind; [done| |intros []].
    + unfold quit_is_set. keeps_go ltac:(try done).
    + by apply keeps_ret.
    + by apply keeps_fuel.
  - apply keeps_bind; [done| |intros []].
    + unfold quit_is_set. keeps_go ltac:(try done).
    + by apply keeps_ret.
    + apply keeps_bind; [done|apply catch_StartOver_swallows|].
      intros []; [apply IH|by apply keeps_ret].
Qed.

(** X24: [_build_node_metadata] raises [KeyError] for a node without a view
    and returns at once for a node whose view is satisfied, in both cases
    leaving the state as it is; when a quit is requested before the first
    round it runs no reactor and returns without an error; and [_StartOver]
    never leaves it. *)
Theorem build_node_metadata_edges (fuel : nat) (initial_node_name : string)
    (st : State) :
  (_node_metadata_proxies st !! initial_node_name = None →
     _build_node_metadata env fuel initial_node_name st
     = (st, Exc (KeyError initial_node_name)))
  ∧ (∀ proxy, _node_metadata_proxies st !! initial_node_name = Some proxy →
       _satisfied proxy = true →
       _build_node_metadata env fuel initial_node_name st = (st, Val ()))
  ∧ (∀ proxy, _node_metadata_proxies st !! initial_node_name = Some proxy →
       _satisfied proxy = false →
       QUIT_EVENT env (quit_polls st) = true →
       _build_node_metadata env fuel initial_node_name st
       = (setquit_polls (S (quit_polls st)) (start_state initial_node_name st), Val ())
       ∧ __reactors_run (start_state initial_node_name st) = 0%Z)
  ∧ (∀ e, (_build_node_metadata env fuel initial_node_name st).2 = Exc e →
          e ≠ _StartOver).
Proof.
  rewrite build_node_metadata_spec. split; [|split; [|split]].
  - by intros ->.
  - by intros proxy -> ->.
  - intros proxy -> -> Hq. split; [|done].
    assert (build_loop env fuel (start_state initial_node_name st)
            = (setquit_polls (S (quit_polls st)) (start_state initial_node_name st),
               Val ())) as ->.
    { destruct fuel; simpl; unfold quit_is_set; run; by rewrite Hq. }
    by rewrite raise_persistent_keyerrors_spec.
  - intros e. destruct (_node_metadata_proxies st !! initial_node_name) as [proxy|];
      [|by intros [= <-]].
    destruct (_satisfied proxy); [done|].
    destruct (build_loop_swallows fuel (start_state initial_node_name st)) as [_ Hloop].
    destruct (build_loop env fuel (start_state initial_node_name st))
      as [st0 [[]|e0|]]; simpl in *; [|by intros [= <-]; apply Hloop|done].
    rewrite raise_persistent_keyerrors_spec.
    destruct (bool_decide (__keyerrors st0 ≠ ∅)); [|done]. simpl.
    destruct (QUIT_EVENT env (quit_polls st0)); [done|]. by intros [= <-].
Qed.

(** *** The queues of new and of initialised nodes *)

Lemma set_pop_Some (s : gset string) x rest :
  set_pop env s = Some (x, rest) → x ∈ s ∧ rest = s ∖ {[x]}.
Proof.
  unfold set_pop. intros Hpop.
  assert (∀ y, head (elements s) = Some y → y ∈ s) as Hhead.
  { intros y Hy. apply elem_of_elements. destruct (elements s); [done|].
    injection Hy as ->. by left. }
  destruct (pick env s) as [y|]; [destruct (decide (y ∈ s))|];
    simpl in Hpop.
  - injection Hpop as <- <-. done.
  - destruct (head (elements s)) as [z|] eqn:Hz; [|done].
    injection Hpop as <- <-. auto.
  - destruct (head (elements s)) as [z|] eqn:Hz; [|done].
    injection Hpop as <- <-. auto.
Qed.

Lemma set_pop_None (s : gset string) : set_pop env s = None ↔ s = ∅.
Proof.
  unfold set_pop. split.
  - intros Hpop. assert (elements s = []) as He.
    { destruct (pick env s) as [y|]; [destruct (decide (y ∈ s))|]; simpl in Hpop;
        try done; by destruct (elements s). }
    apply elements_empty_inv in He. by apply leibniz_equiv.
  - intros ->. destruct (pick env ∅) as [y|]; [|done].
    destruct (decide (y ∈ (∅ : gset string))) as [Hy|]; [|done].
    by apply not_elem_of_empty in Hy.
Qed.

Ltac unfold_engine' :=
  unfold __run_reactors, run_pass, _pending_reactors,
    _relevant_reactors, proxy_of, get_node, randomize_order, __run_reactor,
    enter_reactor, call_reactor, install_result, _metadata_proxy_for_node,
    update_proxy, clear_keyerror, count_change,
    __initial_run_for_node, set_layer_of, cache_partition_of,
    __run_triggered_nodes, __run_unstable_nodes, __run_nodes_with_deps,
    stable_of, mark_completed, _write_disk_cache, quit_is_set,
    __check_iteration_count.

Ltac queue_side :=
  try solve
    [ done
    | intros; unfold keeps_queues, queues_disjoint in *; simpl in *; auto
    | intros; repeat case_match; unfold keeps_queues, queues_disjoint in *;
      simpl in *; auto
    | let st0 := fresh "st" in
      intros st0; unfold keeps_queues, queues_disjoint;
      match goal with
      | |- context [foldl (get_in_a_reactor env) st0 ?l] =>
          destruct (accesses_runs l st0) as (_ & -> & ->); auto
      end ].

Lemma record_deps_queues node_name (reactor : @Reactor Metadata) (deps : gset string) :
  keeps keeps_queues (λ _, True) (record_deps node_name reactor deps).
Proof.
  unfold record_deps. apply keeps_bind; [queue_side| |intros ?].
  - destruct (bool_decide (deps ≠ ∅)); [apply keeps_modify|apply keeps_ret]; queue_side.
  - apply keeps_for; [queue_side..|]. intros required st. split; [|done].
    run. unfold keeps_queues, queues_disjoint.
    destruct (bool_decide (required ∉ __nodes_that_ran_at_least_once st)) eqn:Hd;
      simpl; [|done].
    apply bool_decide_eq_true in Hd. intros Hdis.
    apply disjoint_union_l. split; [|done]. by apply disjoint_singleton_l.
Qed.

Ltac queue_step :=
  lazymatch goal with
  | |- keeps _ _ (record_deps _ _ _) => apply record_deps_queues
  | |- keeps _ _ (mret _) => apply keeps_ret; queue_side
  | |- keeps _ _ get_state => apply keeps_get; queue_side
  | |- keeps _ _ out_of_fuel => apply keeps_fuel; queue_side
  | |- keeps _ _ (raise _) => apply keeps_raise; queue_side
  | |- keeps _ _ (modify _) => apply keeps_modify; queue_side
  | |- keeps _ _ (mbind _ _) => apply keeps_bind; [queue_side .. | | intros ?]
  | |- keeps _ _ (for_ _ _) => apply keeps_for; [queue_side .. | intros ?]
  | |- keeps _ _ (foldl _ _ _) => apply keeps_foldl; [queue_side .. | | intros ? ?]
  | |- keeps _ _ (catch_StartOver _) => apply keeps_catch
  | |- keeps _ _ (finally _ _) => apply keeps_finally; [queue_side .. | | queue_side]
  | |- keeps _ _ (match ?x with _ => _ end) => destruct x
  | |- keeps _ _ (let '(_, _) := ?x in _) => destruct x
  | |- keeps _ _ _ => progress unfold_engine'
  end.

Lemma run_reactors_queues node_name with_deps without_deps :
  keeps keeps_queues (λ _, True) (__run_reactors env node_name with_deps without_deps).
Proof. repeat queue_step. Qed.

Lemma initial_run_queues node_name :
  keeps keeps_queues (λ _, True) (__initial_run_for_node env node_name).
Proof. repeat queue_step. Qed.

Lemma run_new_nodes_cases (st : State) :
  __run_new_nodes env st =
  match set_pop env (__nodes_that_never_ran st) with
  | None => (st, Val ())
  | Some (node_name, rest) =>
      (__initial_run_for_node env node_name;; raise _StartOver)
        (set__nodes_that_ran_at_least_once
           ({[node_name]} ∪ __nodes_that_ran_at_least_once st)
           (set__nodes_that_never_ran rest st))
  end.
Proof.
  unfold __run_new_nodes. rewrite bind_state. unfold get_state at 1. simpl.
  by destruct (set_pop env (__nodes_that_never_ran st)) as [[node_name rest]|].
Qed.

Lemma run_new_nodes_queues :
  keeps keeps_queues (λ _, True) (__run_new_nodes env).
Proof.
  intros st. split; [|done]. rewrite run_new_nodes_cases.
  destruct (set_pop env (__nodes_that_never_ran st)) as [[node_name rest]|] eqn:Hpop;
    [|simpl; by unfold keeps_queues].
  apply set_pop_Some in Hpop as [Hin ->].
  set (st1 := set__nodes_that_ran_at_least_once _ _).
  assert (keeps keeps_queues (λ _, True)
            (__initial_run_for_node env node_name;; raise _StartOver : M ())) as Hk.
  { apply keeps_bind; [queue_side|apply initial_run_queues|].
    intros ?. apply keeps_raise; queue_side. }
  destruct (Hk st1) as [Hq _]. intros Hdis. apply Hq.
  unfold queues_disjoint in *. simpl.
  apply disjoint_union_r. split.
  - apply disjoint_singleton_r. intros Hx. apply elem_of_difference in Hx as [_ Hx].
    apply Hx. by apply elem_of_singleton.
  - intros x Hx Hr. apply elem_of_difference in Hx as [Hx _]. by apply (Hdis x).
Qed.

Lemma build_round_queues :
  keeps keeps_queues (λ _, True)
    (__run_new_nodes env;;
     __run_triggered_nodes env;;
     __run_unstable_nodes env;;
     __run_nodes_with_deps env;;
     mark_completed env).
Proof.
  apply keeps_bind; [queue_side|apply run_new_nodes_queues|]. intros ?.
  repeat queue_step.
Qed.

Lemma build_loop_queues fuel :
  keeps keeps_queues (λ _, True) (build_loop env fuel).
Proof.
  induction fuel as [|fuel IH]; simpl.
  - repeat queue_step.
  - apply keeps_bind; [queue_side| |intros []].
    + repeat queue_step.
    + apply keeps_ret; queue_side.
    + apply keeps_bind; [queue_side|apply keeps_catch, build_round_queues|].
      intros []; [apply IH|apply keeps_ret; queue_side].
Qed.

(** X25: a node is never both waiting for its initial run and marked as
    having run: [__run_reactors], which queues the nodes a reactor looked
    at, and [__run_new_nodes], which takes a node from the queue, keep the
    two sets disjoint, and they are disjoint when [_build_node_metadata]
    ends, however it ends. [__run_new_nodes] does nothing on an empty queue;
    otherwise it does not return normally and the node it picked has been
    moved from the queue to the nodes that ran. *)
Theorem queues_stay_disjoint :
  (∀ node_name with_deps without_deps (st : State),
     queues_disjoint st →
     queues_disjoint (__run_reactors env node_name with_deps without_deps st).1)
  ∧ (∀ st : State, queues_disjoint st → queues_disjoint (__run_new_nodes env st).1)
  ∧ (∀ st : State, __nodes_that_never_ran st = ∅ →
       __run_new_nodes env st = (st, Val ()))
  ∧ (∀ st : State, __nodes_that_never_ran st ≠ ∅ →
       (∀ u, (__run_new_nodes env st).2 ≠ Val u)
       ∧ ∃ node_name, node_name ∈ __nodes_that_never_ran st
           ∧ node_name ∈ __nodes_that_ran_at_least_once (__run_new_nodes env st).1)
  ∧ (∀ fuel initial_node_name (st : State) proxy,
       _node_metadata_proxies st !! initial_node_name = Some proxy →
       _satisfied proxy = false →
       queues_disjoint (_build_node_metadata env fuel initial_node_name st).1).
Proof.
  split; [|split; [|split; [|split]]].
  - intros node_name w wo st. by apply run_reactors_queues.
  - intros st. by apply run_new_nodes_queues.
  - intros st Hs. rewrite run_new_nodes_cases.
    by rewrite (proj2 (set_pop_None _) Hs).
  - intros st Hs. rewrite run_new_nodes_cases.
    destruct (set_pop env (__nodes_that_never_ran st)) as [[node_name rest]|] eqn:Hpop;
      [|by apply set_pop_None in Hpop].
    apply set_pop_Some in Hpop as [Hin ->].
    set (st1 := set__nodes_that_ran_at_least_once _ _).
    rewrite bind_state. split.
    + destruct (__initial_run_for_node env node_name st1) as [st2 [[]|e|]]; done.
    + exists node_name. split; [done|].
      assert (keeps (λ s s' : State,
                       __nodes_that_ran_at_least_once s'
                       = __nodes_that_ran_at_least_once s) (λ _, True)
                (__initial_run_for_node env node_name)) as Hran.
      { repeat (keeps_step ltac:(try solve
          [ done | intros; simpl in *; congruence
          | intros; repeat case_match; simpl in *; congruence
          | let st0 := fresh "st" in
            intros st0;
            match goal with
            | |- context [foldl (get_in_a_reactor env) st0 ?l] =>
                let Hr := fresh in
                destruct (accesses_runs l st0) as (_ & _ & Hr); exact Hr
            end ])). }
      destruct (Hran st1) as [Heq _].
      assert (node_name ∈ __nodes_that_ran_at_least_once
                           (__initial_run_for_node env node_name st1).1) as Hres.
      { rewrite Heq. simpl. apply elem_of_union. left. by apply elem_of_singleton. }
      destruct (__initial_run_for_node env node_name st1) as [st2 [[]|e|]]; done.
  - intros fuel initial st proxy Hp Hs.
    rewrite build_node_metadata_spec, Hp, Hs.
    assert (queues_disjoint (start_state initial st)) as Hstart.
    { unfold queues_disjoint, start_state. simpl. apply disjoint_empty_r. }
    destruct (build_loop_queues fuel (start_state initial st)) as [Hloop _].
    specialize (Hloop Hstart).
    destruct (build_loop env fuel (start_state initial st)) as [st0 [[]|e|]];
      simpl in *; try done.
    rewrite raise_persistent_keyerrors_spec.
    by destruct (bool_decide (__keyerrors st0 ≠ ∅)).
Qed.

(** X26: a [get] on the view of a node of the repository while a reactor
    runs leaves the views of other nodes untouched and ends in one of two
    ways. It gets as far as the read of the stack exactly when the path is a
    tuple, a [str] or a list that is covered already, and the mapping read
    from the disk cache, if one is read, passes the validation of
    [_set_layer]; the node is then recorded among those the reactor looked
    at. Otherwise it raises [TypeError] and the node is not recorded.
    Unless the path is a list that is not covered, the path is covered by the
    requested paths of the view afterwards, which keep covering what they
    covered, and when the path was not covered before and there is no disk
    cache the view is no longer satisfied and its cached set of relevant
    reactors is dropped. For a list that is not covered the requested paths
    lose the paths under it and the path itself is not added. *)
Theorem get_in_a_reactor_spec (st : State) (node_name : string) (path : PathArg) :
  is_Some (nodes env !! node_name) →
  let old := default NodeMetadataProxy_init (_node_metadata_proxies st !! node_name) in
  let st' := get_in_a_reactor env st (node_name, path) in
  let result := (get_call env (node_name, path) st).2 in
  (∀ n, n ≠ node_name → _node_metadata_proxies st' !! n = _node_metadata_proxies st !! n)
  ∧ (result = Val () ∨ result = Exc TypeError)
  ∧ (result = Val ()
     ↔ add_succeeds (_requested_paths old) path
       ∧ ∀ metadata, cached_blob env st node_name old = Some metadata →
                     valid_metadata env metadata = true)
  ∧ (result = Exc TypeError →
     _partial_metadata_accessed_for st' = _partial_metadata_accessed_for st)
  ∧ (result = Val () →
     _partial_metadata_accessed_for st'
     = {[node_name]} ∪ _partial_metadata_accessed_for st)
  ∧ ∃ proxy,
      _node_metadata_proxies st' !! node_name = Some proxy
      ∧ (add_succeeds (_requested_paths old) path →
         _requested_paths proxy = (add (_requested_paths old) (path_of path)).1
         ∧ covers (_requested_paths proxy) (path_of path) = true
         ∧ (∀ q, covers (_requested_paths old) q = true →
                 covers (_requested_paths proxy) q = true)
         ∧ (covers (_requested_paths old) (path_of path) = false →
            BW_METADATA_CACHE_DIR env = false →
            _satisfied proxy = false ∧ __relevant_reactors_cache proxy = None))
      ∧ (¬ add_succeeds (_requested_paths old) path →
         covers (_requested_paths proxy) (path_of path) = false
         ∧ ∀ e, e ∈ _paths (_requested_paths proxy)
                ↔ e ∈ _paths (_requested_paths old) ∧ ¬ path_of path `prefix_of` e).
Proof.
  intros [node Hn] old st' result.
  pose proof (PathSetCoverTheory.covers_add (_requested_paths old)) as Hcov.
  assert (∀ p, (add (_requested_paths old) p).2 = negb (covers (_requested_paths old) p))
    as Hflag.
  { intros p. unfold add. by destruct (covers (_requested_paths old) p). }
  (* what follows the call of [add] when it returns *)
  assert (∀ requested added (rest : State * res ()),
    requested = (add (_requested_paths old) (path_of path)).1 →
    added = negb (covers (_requested_paths old) (path_of path)) →
    add_succeeds (_requested_paths old) path →
    rest = get_call env (node_name, PathTuple (path_of path)) st →
    (∀ n, n ≠ node_name → _node_metadata_proxies rest.1 !! n = _node_metadata_proxies st !! n)
    ∧ (rest.2 = Val () ∨ rest.2 = Exc TypeError)
    ∧ (rest.2 = Val ()
       ↔ add_succeeds (_requested_paths old) path
         ∧ ∀ metadata, cached_blob env st node_name old = Some metadata →
                       valid_metadata env metadata = true)
    ∧ (rest.2 = Exc TypeError →
       _partial_metadata_accessed_for rest.1 = _partial_metadata_accessed_for st)
    ∧ (rest.2 = Val () →
       _partial_metadata_accessed_for rest.1
       = {[node_name]} ∪ _partial_metadata_accessed_for st)
    ∧ ∃ proxy,
        _node_metadata_proxies rest.1 !! node_name = Some proxy
        ∧ (add_succeeds (_requested_paths old) path →
           _requested_paths proxy = (add (_requested_paths old) (path_of path)).1
           ∧ covers (_requested_paths proxy) (path_of path) = true
           ∧ (∀ q, covers (_requested_paths old) q = true →
                   covers (_requested_paths proxy) q = true)
           ∧ (covers (_requested_paths old) (path_of path) = false →
              BW_METADATA_CACHE_DIR env = false →
              _satisfied proxy = false ∧ __relevant_reactors_cache proxy = None))
        ∧ (¬ add_succeeds (_requested_paths old) path →
           covers (_requested_paths proxy) (path_of path) = false
           ∧ ∀ e, e ∈ _paths (_requested_paths proxy)
                  ↔ e ∈ _paths (_requested_paths old)
                    ∧ ¬ path_of path `prefix_of` e)) as Htuple.
  { intros requested added rest Hreq Hadded Hsucc ->.
    unfold get_call, cached_blob, _set_layer. rewrite Hn. fold old. simpl.
    specialize (Hflag (path_of path)). specialize (Hcov (path_of path)).
    destruct (add (_requested_paths old) (path_of path)) as [requested' added'].
    simpl in *. subst requested' added'.
    destruct (covers (_requested_paths old) (path_of path)) eqn:Hc; simpl;
      destruct (_metastack_came_from_cache old) eqn:Hcache; simpl;
      destruct (BW_METADATA_CACHE_DIR env) eqn:Hbw; simpl;
      try destruct (disk_cache st !! node_name) as [metadata|] eqn:Hdisk; simpl;
      try destruct (valid_metadata env metadata) eqn:Hvalid; simpl.
    all: split; [intros n Hne; by rewrite lookup_insert_ne|].
    all: split; [auto|].
    all: split;
      [split; [first [done|intros _; split; [done|]; intros ? ?; congruence]
              |first [done|intros [_ Hv]; specialize (Hv _ eq_refl); congruence]]|].
    all: split; [done|]. all: split; [done|].
    all: eexists; split; [apply lookup_insert_eq|]; simpl.
    all: split; [|done].
    all: intros _; split; [done|]; split; [apply Hcov; by right|];
      split; [intros q Hq; apply Hcov; by left|]; done. }
  unfold result, st', get_in_a_reactor.
  destruct path as [s|p|p].
  - apply (Htuple _ _ _ eq_refl eq_refl I). unfold get_call. simpl. by rewrite Hn.
  - by apply (Htuple _ _ _ eq_refl eq_refl I).
  - destruct (covers (_requested_paths old) p) eqn:Hc.
    + assert (get_call env (node_name, PathList p) st
              = get_call env (node_name, PathTuple p) st) as ->.
      { unfold get_call, add_list, add. rewrite Hn. fold old. simpl. by rewrite Hc. }
      by apply (Htuple _ _ _ eq_refl eq_refl Hc).
    + unfold get_call, add_list, cached_blob, add_succeeds. rewrite Hn. fold old.
      simpl. rewrite Hc. simpl.
      split; [intros n Hne; by rewrite lookup_insert_ne|].
      split; [auto|]. split; [split; [done|by intros [? _]]|].
      split; [done|]. split; [done|].
      eexists. split; [apply lookup_insert_eq|]. simpl.
      split; [done|]. intros _.
      assert (∀ e, e ∈ foldl (λ paths existing_path,
                                if list_starts_with existing_path p
                                then paths ∖ {[existing_path]} else paths)
                             (_paths (_requested_paths old))
                             (elements (_paths (_requested_paths old)))
                   ↔ e ∈ _paths (_requested_paths old) ∧ ¬ p `prefix_of` e) as Hloop.
      { intros e. rewrite remove_loop_spec, elem_of_elements. tauto. }
      split; [|done].
      apply not_true_is_false. intros Hafter.
      apply covers_spec in Hafter as (e & He & Hp). simpl in He.
      apply Hloop in He as [He _].
      assert (covers (_requested_paths old) p = true) as Hc'.
      { apply covers_spec. eauto. }
      congruence.
Qed.

End Proofs.

Lemma do_not_run_again_sticks_witness :
  (("n", "d") ∉ __do_not_run_again (example_generator false))
  ∧ known example_env "n" (example_generator false)
  ∧ outcome (reactor_run example_env "n" example_done_reactor (example_generator false))
    = RaisedDoNotRunAgain
  ∧ ∃ st1,
      __run_reactor example_env "n" example_done_reactor (example_generator false)
      = (st1, Val (false, ∅))
      ∧ ("n", "d") ∈ __do_not_run_again st1
      ∧ __keyerrors st1 !! ("n", "d") = None
      ∧ ∀ reactor' : @Reactor (gmap string Z),
          reactor_name reactor' = "d" →
          __run_reactor example_env "n" reactor' st1 = (st1, Val (false, ∅)).
Proof.
  split; [apply example_not_excluded|]. split; [apply example_known|].
  split; [reflexivity|].
  exact (do_not_run_again_sticks example_env "n" example_done_reactor
           (example_generator false) (example_not_excluded false "d")
           (example_known false) eq_refl).
Defined.

Lemma run_reactor_raising_witness :
  (("n", "w") ∉ __do_not_run_again (example_generator false))
  ∧ known example_env "n" (example_generator false)
  ∧ __reactors_run (__run_reactor example_env "n" example_waiting_reactor
                      (example_generator false)).1
    = (__reactors_run (example_generator false) + 1)%Z
  ∧ ((∀ new_metadata,
        outcome (reactor_run example_env "n" example_waiting_reactor
                   (example_generator false)) ≠ Returned new_metadata) →
     layer_of "n" 1 "w" (__run_reactor example_env "n" example_waiting_reactor
                           (example_generator false)).1 = None).
Proof.
  split; [apply example_not_excluded|]. split; [apply example_known|].
  destruct (run_reactor_raising example_env "n" example_waiting_reactor
              (example_generator false) (example_not_excluded false "w")
              (example_known false)) as (H1 & H2 & _).
  split; [exact H1|exact H2].
Defined.

Lemma blame_stack_in_a_reactor_witness :
  known example_env "n" (example_generator false)
  ∧ blame example_env 1 "n"
      (foldl (get_in_a_reactor example_env)
         (entry_state example_env "n" example_reactor (example_generator false))
         [("n", PathTuple ["a"])])
    = (foldl (get_in_a_reactor example_env)
         (entry_state example_env "n" example_reactor (example_generator false))
         [("n", PathTuple ["a"])],
       Exc (RuntimeError_in_reactor "blame")).
Proof.
  split; [apply example_known|].
  exact (proj1 (blame_stack_in_a_reactor example_env "n" example_reactor
                  (example_generator false) [("n", PathTuple ["a"])] 1 "n"
                  (example_known false))).
Defined.


Lemma get_in_a_reactor_spec_witness :
  is_Some (nodes example_env !! "n")
  ∧ ((get_call example_env ("n", PathTuple ["a"]) (example_generator false)).2 = Val ()
     → _partial_metadata_accessed_for
         (get_in_a_reactor example_env (example_generator false) ("n", PathTuple ["a"]))
       = {["n"]} ∪ _partial_metadata_accessed_for (example_generator false)).
Proof.
  assert (is_Some (nodes example_env !! "n")) as Hn by (by eexists).
  split; [exact Hn|].
  exact (proj1 (proj2 (proj2 (proj2 (proj2
           (get_in_a_reactor_spec example_env (example_generator false)
              "n" (PathTuple ["a"]) Hn)))))).
Defined.

(** A [get] with a list that is not covered yet raises [TypeError] out of
    [PathSet.add]; the same path as a [str] is accepted. *)
Example get_with_a_list :
  (get_call example_env ("n", PathList ["a"; "b"]) (example_generator false)).2
  = Exc TypeError
  ∧ (get_call example_env ("n", PathStr "a/b") (example_generator false)).2 = Val ()
  ∧ path_of (PathStr "a/b") = ["a"; "b"].
Proof. by vm_compute. Qed.

End EngineRunTheory.

(** * Theorems about bundles ([bundle.py]) *)

Module BundleTheory.
Import Metagen Bundle.

Section Proofs.
Context {Attrs Item Obj : Type} `{EqDecision Obj}.
Variable w : @World Attrs Item Obj.

Lemma filter_head_split {A} (P : A → Prop) `{!∀ x, Decision (P x)} (l : list A) x rest :
  filter P l = x :: rest →
  P x ∧ ∃ l1 l2, l = l1 ++ x :: l2 ∧ ∀ y, y ∈ l1 → ¬ P y.
Proof.
  induction l as [|a l IH]; [done|]. rewrite filter_cons.
  destruct (decide (P a)) as [Ha|Ha].
  - intros [= <- <-]. split; [done|]. exists [], l. split; [done|].
    intros y Hy. by apply not_elem_of_nil in Hy.
  - intros Hf. destruct (IH Hf) as (Hx & l1 & l2 & -> & Hno). split; [done|].
    exists (a :: l1), l2. split; [done|]. intros y Hy.
    apply elem_of_cons in Hy as [->|Hy]; auto.
Qed.

Lemma class_for_Some attribute_name c :
  class_for w attribute_name = Some c →
  BUNDLE_ATTRIBUTE_NAME c = attribute_name
  ∧ ∃ l1 l2, item_classes w = l1 ++ c :: l2
             ∧ ∀ c', c' ∈ l1 → BUNDLE_ATTRIBUTE_NAME c' ≠ attribute_name.
Proof.
  unfold class_for. destruct (filter _ (item_classes w)) as [|c0 rest] eqn:Hf; [done|].
  intros [= <-]. by apply (filter_head_split _ _ _ _ Hf).
Qed.

Lemma class_for_None attribute_name :
  class_for w attribute_name = None
  ↔ ∀ c, c ∈ item_classes w → BUNDLE_ATTRIBUTE_NAME c ≠ attribute_name.
Proof.
  unfold class_for. split.
  - intros Hh c Hc Hn.
    assert (c ∈ filter (λ item_class, BUNDLE_ATTRIBUTE_NAME item_class = attribute_name)
                  (item_classes w)) as Hin by (by apply list_elem_of_filter).
    destruct (filter _ (item_classes w)); [by apply not_elem_of_nil in Hin|done].
  - intros Hno.
    destruct (filter _ (item_classes w)) as [|c rest] eqn:Hf; [done|].
    assert (c ∈ filter (λ item_class, BUNDLE_ATTRIBUTE_NAME item_class = attribute_name)
                  (item_classes w)) as Hin by (rewrite Hf; by left).
    apply list_elem_of_filter in Hin as [Hn Hc]. by destruct (Hno c Hc).
Qed.

Lemma make_item_class_for self attribute_name item_name item_attrs :
  make_item w self attribute_name item_name item_attrs =
  match class_for w attribute_name with
  | Some c =>
      match construct c self item_name item_attrs with
      | inr item => inr item
      | inl msg => inl (ItemError msg)
      end
  | None => inl (RuntimeError attribute_name (name self) item_name)
  end.
Proof.
  unfold make_item, class_for. by destruct (filter _ (item_classes w)).
Qed.

(** X27: [make_item] builds the item with the first item class of the
    repository that has the attribute name, and raises [RuntimeError]
    exactly when no item class has it. *)
Theorem make_item_spec (self : Bundle) (attribute_name item_name : string)
    (item_attrs : Attrs) :
  (∀ l1 c l2, item_classes w = l1 ++ c :: l2 →
     BUNDLE_ATTRIBUTE_NAME c = attribute_name →
     (∀ c', c' ∈ l1 → BUNDLE_ATTRIBUTE_NAME c' ≠ attribute_name) →
     make_item w self attribute_name item_name item_attrs
     = match construct c self item_name item_attrs with
       | inr item => inr item
       | inl msg => inl (ItemError msg)
       end)
  ∧ (make_item w self attribute_name item_name item_attrs
     = inl (RuntimeError attribute_name (name self) item_name)
     ↔ ∀ c, c ∈ item_classes w → BUNDLE_ATTRIBUTE_NAME c ≠ attribute_name).
Proof.
  rewrite make_item_class_for. split.
  - intros l1 c l2 Hl Hc Hl1. unfold class_for. rewrite Hl, filter_app.
    assert (filter (λ item_class, BUNDLE_ATTRIBUTE_NAME item_class = attribute_name) l1
            = []) as ->.
    { destruct (filter _ l1) as [|x xs] eqn:Hf; [done|].
      assert (x ∈ filter (λ item_class, BUNDLE_ATTRIBUTE_NAME item_class = attribute_name)
                    l1) as Hin by (rewrite Hf; by left).
      apply list_elem_of_filter in Hin as [Hx Hin]. by destruct (Hl1 x Hin). }
    simpl. by rewrite filter_cons_True.
  - rewrite <- class_for_None.
    destruct (class_for w attribute_name) as [c|]; [|done].
    split; [|done]. by destruct (construct c self item_name item_attrs).
Qed.

Lemma collect_inr {A B} (f : A → exn + B) xs ys :
  collect f xs = inr ys → Forall2 (λ x y, f x = inr y) xs ys.
Proof.
  revert ys. induction xs as [|x xs IH]; intros ys; simpl.
  - intros [= <-]. constructor.
  - destruct (f x) as [e|y] eqn:Hx; [done|].
    destruct (collect f xs) as [e|ys']; [done|]. intros [= <-].
    constructor; [done|by apply IH].
Qed.

Lemma collect_inl {A B} (f : A → exn + B) xs e :
  collect f xs = inl e → ∃ x, x ∈ xs ∧ f x = inl e.
Proof.
  induction xs as [|x xs IH]; simpl; [done|].
  destruct (f x) as [e'|y] eqn:Hx.
  - intros [= <-]. exists x. split; [by left|done].
  - destruct (collect f xs) as [e'|ys']; [|done]. intros [= <-].
    destruct (IH eq_refl) as (x' & Hin & Hx'). exists x'. split; [by right|done].
Qed.

Lemma item_entries_class self entry :
  entry ∈ item_entries w self → ∃ c, class_for w entry.1 = Some c.
Proof.
  unfold item_entries. intros Hin.
  apply list_elem_of_bind in Hin as (c & Hentry & Hc).
  apply list_elem_of_fmap in Hentry as (e & -> & _). simpl.
  destruct (class_for w (BUNDLE_ATTRIBUTE_NAME c)) as [c'|] eqn:Hcf; [eauto|].
  exfalso. by apply (proj1 (class_for_None _) Hcf c Hc).
Qed.

(** X28: [items] never raises the [RuntimeError] of [make_item]: every entry
    it walks through comes from an item class, so a class with the attribute
    name exists. Each item is built, from the entries in the order of the
    item classes, by the first class that has the attribute name of the
    entry (not by the class the entry was found under, when two classes share
    an attribute name); an exception that ends [items] comes from a
    constructor; and without [items.py] there are no items. *)
Theorem items_spec (self : Bundle) :
  (∀ attr bundle item, items w self ≠ inl (RuntimeError attr bundle item))
  ∧ (exists_ w (bundle_file self) = false → items w self = inr [])
  ∧ (∀ l, items w self = inr l →
       Forall2 (λ entry item,
                  ∃ c, class_for w entry.1 = Some c
                       ∧ construct c self entry.2.1 entry.2.2 = inr item)
               (item_entries w self) l)
  ∧ (∀ e, items w self = inl e →
       ∃ entry c msg, entry ∈ item_entries w self
         ∧ class_for w entry.1 = Some c
         ∧ construct c self entry.2.1 entry.2.2 = inl msg
         ∧ e = ItemError msg).
Proof.
  assert (∀ e, items w self = inl e →
            ∃ entry c msg, entry ∈ item_entries w self
              ∧ class_for w entry.1 = Some c
              ∧ construct c self entry.2.1 entry.2.2 = inl msg
              ∧ e = ItemError msg) as Herr.
  { intros e He. apply collect_inl in He as ([a [n attrs]] & Hin & Hf).
    destruct (item_entries_class self _ Hin) as [c Hc]. simpl in Hc.
    rewrite make_item_class_for, Hc in Hf.
    destruct (construct c self n attrs) as [msg|item] eqn:Hcon; [|done].
    injection Hf as <-. exists (a, (n, attrs)), c, msg. done. }
  split; [|split; [|split; [|done]]].
  - intros attr bundle item He. by destruct (Herr _ He) as (? & ? & ? & _ & _ & _ & ?).
  - intros Hno. unfold items.
    assert (item_entries w self = []) as ->; [|done].
    unfold item_entries, bundle_attrs. rewrite Hno. simpl.
    induction (item_classes w) as [|c cs IH]; [done|].
    rewrite bind_cons, IH. done.
  - intros l Hl. apply collect_inr in Hl.
    eapply Forall2_impl; [exact Hl|]. intros [a [n attrs]] item Hf. simpl in *.
    rewrite make_item_class_for in Hf.
    destruct (class_for w a) as [c|]; [|done]. exists c. split; [done|].
    destruct (construct c self n attrs); [done|]. by inversion Hf.
Qed.


(** *** [_metadata_defaults_and_reactors] *)

Lemma reactor_entries_cons (entry : string * Obj) attrs :
  reactor_entries w (entry :: attrs)
  = if decide (entry.1 = "defaults") then reactor_entries w attrs
    else if _is_metadata_reactor w entry.2 then entry :: reactor_entries w attrs
    else reactor_entries w attrs.
Proof.
  unfold reactor_entries. destruct (decide (entry.1 = "defaults")) as [Hd|Hd].
  - rewrite filter_cons_False; [done|]. by intros [? _].
  - destruct (_is_metadata_reactor w entry.2) eqn:Hr.
    + by rewrite filter_cons_True.
    + rewrite filter_cons_False; [done|]. intros [_ ?]. congruence.
Qed.

Lemma elem_of_set_add (o attr : Obj) reactors :
  o ∈ set_add attr reactors ↔ o ∈ reactors ∨ o = attr.
Proof.
  unfold set_add. case_bool_decide as Hin.
  - split; [by left|]. by intros [?| ->].
  - rewrite elem_of_app, list_elem_of_singleton. done.
Qed.

Lemma NoDup_set_add (attr : Obj) reactors :
  NoDup reactors → NoDup (set_add attr reactors).
Proof.
  intros Hnd. unfold set_add. case_bool_decide as Hin; [done|].
  apply NoDup_app. split; [done|]. split; [|apply NoDup_singleton].
  intros x Hx ->%list_elem_of_singleton. done.
Qed.

(** The loop, from any state of its three variables *)
Lemma collect_reactors_spec (self : Bundle) attrs defaults reactors internal_names :
  match collect_reactors w self attrs defaults reactors internal_names with
  | inr (defaults', reactors') =>
      defaults' = default defaults
                   (last (snd <$> filter (λ entry, entry.1 = "defaults") attrs))
      ∧ (NoDup internal_names →
         NoDup (internal_names ++ (internal_name_of w <$> reactor_entries w attrs)))
      ∧ (NoDup reactors → NoDup reactors')
      ∧ (∀ o, o ∈ reactors' ↔ o ∈ reactors ∨ o ∈ snd <$> reactor_entries w attrs)
  | inl e =>
      ∃ pre entry post,
        reactor_entries w attrs = pre ++ entry :: post
        ∧ (NoDup internal_names →
           NoDup (internal_names ++ (internal_name_of w <$> pre)))
        ∧ internal_name_of w entry ∈ internal_names ++ (internal_name_of w <$> pre)
        ∧ e = BundleError entry.1 (name self) (node_name self) (internal_name_of w entry)
  end.
Proof.
  revert defaults reactors internal_names.
  induction attrs as [|[name_ attr] attrs IH]; intros defaults reactors internal_names.
  { simpl. split; [done|]. split; [by rewrite app_nil_r|]. split; [done|].
    intros o. split; [by left|]. intros [?|Hin]; [done|]. by apply elem_of_nil in Hin. }
  rewrite reactor_entries_cons. cbn [collect_reactors fst snd].
  destruct (decide (name_ = "defaults")) as [->|Hd].
  { specialize (IH attr reactors internal_names).
    destruct (collect_reactors w self attrs attr reactors internal_names)
      as [e|[defaults' reactors']]; [done|].
    destruct IH as (-> & IH). split; [|done].
    rewrite filter_cons_True by done. rewrite fmap_cons. cbn [snd].
    destruct (snd <$> filter (λ entry, entry.1 = "defaults") attrs) as [|o os] eqn:Hl.
    - done.
    - rewrite !last_cons. by destruct (last os). }
  destruct (_is_metadata_reactor w attr) eqn:Hr.
  - change (default name_ (__name__ w attr)) with (internal_name_of w (name_, attr)).
    case_bool_decide as Hin.
    + exists [], (name_, attr), (reactor_entries w attrs).
      split; [done|]. simpl. rewrite app_nil_r. done.
    + specialize (IH defaults (set_add attr reactors)
                     (internal_names ++ [internal_name_of w (name_, attr)])).
      destruct (collect_reactors w self attrs defaults (set_add attr reactors)
                  (internal_names ++ [internal_name_of w (name_, attr)]))
        as [e|[defaults' reactors']].
      * destruct IH as (pre & entry & post & Hsplit & Hnd & Hdup & ->).
        exists ((name_, attr) :: pre), entry, post. rewrite Hsplit.
        split; [done|]. rewrite fmap_cons.
        rewrite <- app_assoc in Hnd, Hdup. cbn [app] in Hnd, Hdup.
        split; [|done]. intros Hni. apply Hnd.
        apply NoDup_app. split; [done|]. split; [|apply NoDup_singleton].
        intros x Hx ->%list_elem_of_singleton. done.
      * destruct IH as (-> & Hnd & Hrs & Hel). split.
        { rewrite filter_cons_False by done. done. }
        rewrite !fmap_cons.
        split.
        { intros Hni. rewrite <- app_assoc in Hnd. cbn [app] in Hnd.
          apply Hnd. apply NoDup_app. split; [done|]. split; [|apply NoDup_singleton].
          intros x Hx ->%list_elem_of_singleton. done. }
        split; [intros ?; by apply Hrs, NoDup_set_add|].
        intros o. rewrite Hel, elem_of_set_add, elem_of_cons. cbn [snd]. tauto.
  - specialize (IH defaults reactors internal_names).
    destruct (collect_reactors w self attrs defaults reactors internal_names)
      as [e|[defaults' reactors']]; [done|].
    destruct IH as (-> & IH). split; [|done].
    rewrite filter_cons_False by done. done.
Qed.

(** X29: without [metadata.py] a bundle has the empty defaults and no reactor.
    With it, [_metadata_defaults_and_reactors] returns exactly when the
    objects tagged as metadata reactors (under a name other than "defaults")
    have pairwise different internal names, [__name__] or else the name they
    are defined under; it then returns the value defined as "defaults" (the
    empty dict if there is none) and the set of the tagged objects. Otherwise
    it raises [BundleError] for the first tagged object whose internal name an
    earlier one has, naming the bundle, the node and the internal name. *)
Theorem metadata_defaults_and_reactors_spec (self : Bundle) :
  let attrs := attrs_of_metadata_file w (metadata_file self) in
  (exists_ w (metadata_file self) = false →
     _metadata_defaults_and_reactors w self = inr (empty_dict w, []))
  ∧ (exists_ w (metadata_file self) = true →
     (NoDup (internal_name_of w <$> reactor_entries w attrs) →
        ∃ reactors,
          _metadata_defaults_and_reactors w self
          = inr (default (empty_dict w)
                   (last (snd <$> filter (λ entry, entry.1 = "defaults") attrs)),
                 reactors)
          ∧ NoDup reactors
          ∧ ∀ o, o ∈ reactors ↔ o ∈ snd <$> reactor_entries w attrs)
     ∧ (¬ NoDup (internal_name_of w <$> reactor_entries w attrs) →
        ∃ pre entry post,
          reactor_entries w attrs = pre ++ entry :: post
          ∧ NoDup (internal_name_of w <$> pre)
          ∧ internal_name_of w entry ∈ internal_name_of w <$> pre
          ∧ _metadata_defaults_and_reactors w self
            = inl (BundleError entry.1 (name self) (node_name self)
                               (internal_name_of w entry)))).
Proof.
  intros attrs. unfold _metadata_defaults_and_reactors.
  split; [by intros ->|]. intros ->. cbn [negb].
  pose proof (collect_reactors_spec self attrs (empty_dict w) [] []) as Hspec.
  fold attrs in Hspec |- *.
  destruct (collect_reactors w self attrs (empty_dict w) [] [])
    as [e|[defaults reactors]].
  - destruct Hspec as (pre & entry & post & Hsplit & Hnd & Hdup & ->).
    simpl in Hnd, Hdup. split.
    + intros Hall. exfalso. rewrite Hsplit, fmap_app, fmap_cons in Hall.
      apply NoDup_app in Hall as (_ & Hdisj & _).
      apply (Hdisj _ Hdup). by left.
    + intros _. exists pre, entry, post. split; [done|].
      split; [apply Hnd; constructor|]. done.
  - destruct Hspec as (-> & Hnd & Hrs & Hel). split.
    + intros _. exists reactors. split; [done|]. split; [apply Hrs; constructor|].
      intros o. rewrite Hel. split; [|by right]. intros [Hin|?]; [|done].
      by apply elem_of_nil in Hin.
    + intros Hdup. exfalso. apply Hdup. apply (Hnd (NoDup_nil_2)).
Qed.

End Proofs.


(** Two item classes that share an attribute name: the entries are walked
    once for each class, and the first class builds all of them. *)
Example items_example :
  items example_world example_bundle
  = inr ["file:/a"; "file:/b"; "file:/a"; "file:/b"; "pkg_apt:x"].
Proof. reflexivity. Qed.

(** Two reactors wrapped by a decorator that gives both the same [__name__] *)
Example metadata_reactors_example :
  _metadata_defaults_and_reactors example_world example_bundle
  = inl (BundleError "r3" "b1" "n" "wrapped").
Proof. reflexivity. Qed.

End BundleTheory.
